(** * A memory-pool allocator: shallow embedding of [mem_pool.c]

    The pool manager of [mem_pool.c] keeps three structures in step: the
    node heap (a table of block descriptors), the doubly linked list that
    threads the descriptors in use, and the gap index.  The C code works on
    them through pointers and in-place writes; here a pool manager is a
    record, a pointer to a node is the index of its slot in the node heap,
    and every function is a computation in a small state monad whose second
    outcome, [Undef], stands for the executions C leaves undefined (a read
    or write outside an array, a NULL dereference). *)

From stdpp Require Import base list.
From Stdlib Require Import ZArith Lia.

Local Open Scope Z_scope.

(** ** Machine integers *)

(** [unsigned] is 32 bits wide and [size_t] 64 bits wide (LP64); both wrap. *)
Definition u32 (x : Z) : Z := x mod 2 ^ 32.
Definition u64 (x : Z) : Z := x mod 2 ^ 64.

(** Conversion of an [unsigned] value to [int], as in [int i = num_gaps - 1]. *)
Definition to_int (x : Z) : Z := if x <? 2 ^ 31 then x else x - 2 ^ 32.

(** ** Types *)

(** Modelled from the spec: [mem_pool.h] is not part of the sources.  The
    status and policy enumerations are the ones the spec names ([Ok],
    [AllocationFailure], [AlreadyInitialized], [NotFreed]; [FIRST_FIT],
    [BEST_FIT]) under the names [mem_pool.c] uses for them. *)
Inductive alloc_status : Type :=
  | ALLOC_OK
  | ALLOC_FAIL
  | ALLOC_CALLED_AGAIN
  | ALLOC_NOT_FREED.

Inductive alloc_policy : Type :=
  | FIRST_FIT
  | BEST_FIT.

(** A [node_pt] is NULL ([None]) or the address of a slot of the node heap
    ([Some i] for [&node_heap[i]]). *)
Definition node_pt : Type := option nat.

(** Modelled from the spec: the allocation record and the pool record are
    declared in [mem_pool.h]; their fields are the ones [mem_pool.c] reads
    and writes.  A [char *] is an address, with 0 for NULL. *)
Record alloc_t : Type := mk_alloc {
  a_mem : Z;
  a_size : Z
}.

Record pool_t : Type := mk_pool {
  p_mem : Z;
  policy : alloc_policy;
  total_size : Z;
  alloc_size : Z;
  num_allocs : Z;
  num_gaps : Z
}.

Record node_t : Type := mk_node {
  alloc_record : alloc_t;
  used : Z;
  allocated : Z;
  next : node_pt;
  prev : node_pt
}.

Record gap_t : Type := mk_gap {
  g_size : Z;
  g_node : node_pt
}.

Record pool_mgr_t : Type := mk_mgr {
  pool : pool_t;
  node_heap : list node_t;
  total_nodes : Z;
  used_nodes : Z;
  gap_ix : list gap_t;
  gap_ix_capacity : Z
}.

(** The argument of [mem_del_alloc] is a pointer to an allocation record:
    either one handed out by [mem_new_alloc], which points into the node
    heap, or any other record the caller owns. *)
Inductive alloc_pt : Type :=
  | InHeap (i : nat)
  | Outside (a : alloc_t).

(** ** Constants *)

Definition MEM_NODE_HEAP_INIT_CAPACITY : Z := 40.
Definition MEM_GAP_IX_INIT_CAPACITY : Z := 40.
Definition MEM_GAP_IX_EXPAND_FACTOR : Z := 2.

(** [sizeof(pool_store)] is the size of a pointer; a [gap_t] is a [size_t]
    and a pointer. *)
Definition sizeof_pool_store : Z := 8.
Definition sizeof_gap_t : Z := 16.

(** ** Field updates *)

Definition set_mem (v : Z) (n : node_t) : node_t :=
  mk_node (mk_alloc v (a_size (alloc_record n))) (used n) (allocated n) (next n) (prev n).
Definition set_size (v : Z) (n : node_t) : node_t :=
  mk_node (mk_alloc (a_mem (alloc_record n)) v) (used n) (allocated n) (next n) (prev n).
Definition set_used (v : Z) (n : node_t) : node_t :=
  mk_node (alloc_record n) v (allocated n) (next n) (prev n).
Definition set_allocated (v : Z) (n : node_t) : node_t :=
  mk_node (alloc_record n) (used n) v (next n) (prev n).
Definition set_next (v : node_pt) (n : node_t) : node_t :=
  mk_node (alloc_record n) (used n) (allocated n) v (prev n).
Definition set_prev (v : node_pt) (n : node_t) : node_t :=
  mk_node (alloc_record n) (used n) (allocated n) (next n) v.

Definition with_pool (f : pool_t → pool_t) (pm : pool_mgr_t) : pool_mgr_t :=
  mk_mgr (f (pool pm)) (node_heap pm) (total_nodes pm) (used_nodes pm)
         (gap_ix pm) (gap_ix_capacity pm).
Definition with_node_heap (h : list node_t) (pm : pool_mgr_t) : pool_mgr_t :=
  mk_mgr (pool pm) h (total_nodes pm) (used_nodes pm) (gap_ix pm) (gap_ix_capacity pm).
Definition with_used_nodes (v : Z) (pm : pool_mgr_t) : pool_mgr_t :=
  mk_mgr (pool pm) (node_heap pm) (total_nodes pm) v (gap_ix pm) (gap_ix_capacity pm).
Definition with_gap_ix (g : list gap_t) (pm : pool_mgr_t) : pool_mgr_t :=
  mk_mgr (pool pm) (node_heap pm) (total_nodes pm) (used_nodes pm) g (gap_ix_capacity pm).
Definition with_gap_ix_capacity (v : Z) (pm : pool_mgr_t) : pool_mgr_t :=
  mk_mgr (pool pm) (node_heap pm) (total_nodes pm) (used_nodes pm) (gap_ix pm) v.

Definition set_alloc_size (v : Z) (p : pool_t) : pool_t :=
  mk_pool (p_mem p) (policy p) (total_size p) v (num_allocs p) (num_gaps p).
Definition set_num_allocs (v : Z) (p : pool_t) : pool_t :=
  mk_pool (p_mem p) (policy p) (total_size p) (alloc_size p) v (num_gaps p).
Definition set_num_gaps (v : Z) (p : pool_t) : pool_t :=
  mk_pool (p_mem p) (policy p) (total_size p) (alloc_size p) (num_allocs p) v.
Definition set_p_mem (v : Z) (p : pool_t) : pool_t :=
  mk_pool v (policy p) (total_size p) (alloc_size p) (num_allocs p) (num_gaps p).

Definition ptr_eqb (p q : node_pt) : bool :=
  match p, q with
  | None, None => true
  | Some i, Some j => Nat.eqb i j
  | _, _ => false
  end.

(** ** The state monad *)

Inductive outcome (A : Type) : Type :=
  | Ret (a : A) (pm : pool_mgr_t)
  | Undef.
Arguments Ret {A} a pm.
Arguments Undef {A}.

Definition M (A : Type) : Type := pool_mgr_t → outcome A.

Definition ret {A} (a : A) : M A := λ pm, Ret a pm.
Definition undef {A} : M A := λ _, Undef.
Definition bind {A B} (m : M A) (k : A → M B) : M B :=
  λ pm, match m pm with
        | Ret a pm' => k a pm'
        | Undef => Undef
        end.
Definition get : M pool_mgr_t := λ pm, Ret pm pm.
Definition modify (f : pool_mgr_t → pool_mgr_t) : M unit := λ pm, Ret tt (f pm).

Notation "'let*' x ':=' m 'in' k" := (bind m (λ x, k))
  (at level 10, x name, m at level 100, k at level 200, only parsing).
Notation "m ';;' k" := (bind m (λ _, k))
  (at level 100, k at level 200, right associativity, only parsing).

(** [p->field] for reading, [p->field = v] for writing: both are undefined
    on NULL and outside the node heap. *)
Definition deref (p : node_pt) : M node_t :=
  λ pm, match p with
        | Some i => match node_heap pm !! i with
                    | Some n => Ret n pm
                    | None => Undef
                    end
        | None => Undef
        end.

Definition store (p : node_pt) (f : node_t → node_t) : M unit :=
  λ pm, match p with
        | Some i => match node_heap pm !! i with
                    | Some n => Ret tt (with_node_heap (<[i := f n]> (node_heap pm)) pm)
                    | None => Undef
                    end
        | None => Undef
        end.

(** [gap_ix[i]] for reading and for writing; the index is a C integer. *)
Definition in_array {A} (i : Z) (l : list A) : bool :=
  (0 <=? i) && (i <? Z.of_nat (length l)).

Definition gap_at (i : Z) : M gap_t :=
  λ pm, if in_array i (gap_ix pm) then
          match gap_ix pm !! Z.to_nat i with
          | Some g => Ret g pm
          | None => Undef
          end
        else Undef.

Definition gap_put (i : Z) (g : gap_t) : M unit :=
  λ pm, if in_array i (gap_ix pm) then
          Ret tt (with_gap_ix (<[Z.to_nat i := g]> (gap_ix pm)) pm)
        else Undef.

(** ** Loops *)

(** [for (i = 0; i < n; i++) if (P(a[i])) { found = i; break; }] over an
    array [l]: the loop stops at the first hit, runs out at [n], or reads
    past the end of the array. *)
Inductive scan_result : Type :=
  | Hit (i : nat)
  | Miss
  | OutOfBounds.

Fixpoint scan {A} (P : A → option bool) (l : list A) (i : nat) (n : Z) : scan_result :=
  if Z.of_nat i <? n then
    match l with
    | [] => OutOfBounds
    | x :: l' =>
        match P x with
        | Some true => Hit i
        | Some false => scan P l' (S i) n
        | None => OutOfBounds
        end
    end
  else Miss.

(** [for (i = lo; i < hi; i++) body(i)] and [for (i = start; i > 0; i--)
    body(i)].  Every loop of the program written this way indexes the gap
    index with [i], so its body is undefined once [i] is outside the array;
    [fuel] is taken larger than the length of the array and is never the
    reason a loop stops. *)
Fixpoint for_up (fuel : nat) (i hi : Z) (body : Z → M unit) : M unit :=
  λ pm, if i <? hi then
          match fuel with
          | O => Undef
          | S fuel' =>
              match body i pm with
              | Ret _ pm' => for_up fuel' (i + 1) hi body pm'
              | Undef => Undef
              end
          end
        else Ret tt pm.

Fixpoint for_down (fuel : nat) (i : Z) (body : Z → M unit) : M unit :=
  λ pm, if 0 <? i then
          match fuel with
          | O => Undef
          | S fuel' =>
              match body i pm with
              | Ret _ pm' => for_down fuel' (i - 1) body pm'
              | Undef => Undef
              end
          end
        else Ret tt pm.

(** ** The gap index *)

(** [(float) occupancy / capacity > 0.75].  The quotient is compared as a
    rational: for a capacity of 0 the C expression is [+inf] when the
    occupancy is positive (the test succeeds) and NaN when it is 0 (the test
    fails), which is what [3 * 0 < 4 * occupancy] says.  The code computes
    the quotient in single precision.  While both counters are below 2^23
    they convert without rounding and a quotient above 3/4 exceeds it by at
    least [1 / (4 * capacity)], more than half a unit in the last place of
    0.75, so that the rounded quotient is above 0.75 exactly when the
    rational one is; the counters of a pool and of the pool store stay
    below 41.  For larger counters the two tests can differ, and the
    theorems on arbitrary managers and stores carry the bound. *)
Definition over_fill_factor (occupancy capacity : Z) : bool :=
  3 * capacity <? 4 * occupancy.

Definition zero_gap : gap_t := mk_gap 0 None.

(** [realloc(gap_ix, MEM_GAP_IX_EXPAND_FACTOR * sizeof(pool_store))]: the
    new block is 16 bytes long, room for one [gap_t]; [realloc] keeps the
    contents up to the smaller of the two sizes. *)
Definition realloc_gap_ix (l : list gap_t) : list gap_t :=
  take (Z.to_nat (MEM_GAP_IX_EXPAND_FACTOR * sizeof_pool_store / sizeof_gap_t)) l.

Definition _mem_resize_gap_ix : M alloc_status :=
  let* pm := get in
  if over_fill_factor (num_gaps (pool pm)) (gap_ix_capacity pm) then
    modify (λ pm, with_gap_ix (realloc_gap_ix (gap_ix pm)) pm) ;;
    modify (λ pm, with_gap_ix_capacity
                    (u32 (gap_ix_capacity pm * MEM_GAP_IX_EXPAND_FACTOR)) pm) ;;
    let* pm := get in
    for_up (S (length (gap_ix pm))) (num_gaps (pool pm)) (gap_ix_capacity pm)
           (λ i, gap_put i zero_gap) ;;
    ret ALLOC_OK
  else ret ALLOC_OK.

(** One step of the bubbling loop of [_mem_sort_gap_ix]. *)
Definition sort_step (i : Z) : M unit :=
  let* gi := gap_at i in
  let* gp := gap_at (i - 1) in
  let* ni := deref (g_node gi) in
  let* np := deref (g_node gp) in
  if (a_size (alloc_record ni) <? a_size (alloc_record np))
     || (a_mem (alloc_record ni) <? a_mem (alloc_record np))
  then gap_put (i - 1) gi ;; gap_put i gp
  else ret tt.

Definition _mem_sort_gap_ix : M alloc_status :=
  let* pm := get in
  for_down (S (length (gap_ix pm))) (to_int (u32 (num_gaps (pool pm) - 1))) sort_step ;;
  ret ALLOC_OK.

Definition _mem_add_to_gap_ix (size : Z) (node : node_pt) : M alloc_status :=
  _mem_resize_gap_ix ;;
  let* pm := get in
  gap_put (num_gaps (pool pm)) (mk_gap size node) ;;
  modify (with_pool (λ p, set_num_gaps (u32 (num_gaps p + 1)) p)) ;;
  let* st := _mem_sort_gap_ix in
  match st with
  | ALLOC_OK => ret ALLOC_OK
  | _ => ret ALLOC_FAIL
  end.

Definition _mem_remove_from_gap_ix (size : Z) (node : node_pt) : M alloc_status :=
  let* pm := get in
  let* index :=
    match scan (λ g, Some (ptr_eqb (g_node g) node)) (gap_ix pm) 0 (num_gaps (pool pm)) with
    | Hit i => ret (Z.of_nat i)
    | Miss => ret 0
    | OutOfBounds => undef
    end in
  for_up (S (length (gap_ix pm))) index (u32 (gap_ix_capacity pm - 1))
         (λ i, let* g := gap_at (i + 1) in gap_put i g) ;;
  modify (with_pool (λ p, set_num_gaps (u32 (num_gaps p - 1)) p)) ;;
  modify (λ pm, with_gap_ix_capacity (u32 (gap_ix_capacity pm - 1)) pm) ;;
  let* pm := get in
  gap_put (num_gaps (pool pm)) zero_gap ;;
  ret ALLOC_OK.

(** ** User-facing functions *)

Definition zero_node : node_t := mk_node (mk_alloc 0 0) 0 0 None None.

(** [mem_pool_open]: [buf] is what [calloc(size, 1)] returned for the
    backing buffer, 0 when it failed.  The node heap and the gap index come
    zeroed from [calloc]; slot 0 of each is then filled in.  The entry the
    function adds to the pool store is not part of the pool manager. *)
Definition new_pool_mgr (size : Z) (pol : alloc_policy) (buf : Z) : pool_mgr_t :=
  mk_mgr (mk_pool buf pol size 0 0 1)
         (<[0%nat := mk_node (mk_alloc buf size) 1 0 None None]>
            (replicate (Z.to_nat MEM_NODE_HEAP_INIT_CAPACITY) zero_node))
         MEM_NODE_HEAP_INIT_CAPACITY
         1
         (<[0%nat := mk_gap size (Some 0%nat)]>
            (replicate (Z.to_nat MEM_GAP_IX_INIT_CAPACITY) zero_gap))
         MEM_GAP_IX_INIT_CAPACITY.

Definition mem_pool_open (size : Z) (pol : alloc_policy) (buf : Z) : option pool_mgr_t :=
  if buf =? 0 then None else Some (new_pool_mgr size pol buf).

(** [mem_pool_close]: on success the buffer, the node heap and the gap index
    are released. *)
Definition mem_pool_close : M alloc_status :=
  let* pm := get in
  if (p_mem (pool pm) =? 0) || (1 <? num_gaps (pool pm)) || (0 <? num_allocs (pool pm))
  then ret ALLOC_NOT_FREED
  else
    modify (with_pool (set_p_mem 0)) ;;
    modify (with_node_heap []) ;;
    modify (with_gap_ix []) ;;
    ret ALLOC_OK.

(** The result of a search loop whose variable was declared without an
    initialiser ([unused_node], [node_to_delete]): the slot found, or else
    whatever the variable held, which is the argument [junk]. *)
Definition found_or (junk : node_pt) (r : scan_result) : M node_pt :=
  match r with
  | Hit i => ret (Some i)
  | Miss => ret junk
  | OutOfBounds => undef
  end.

Definition first_fit_test (size : Z) (n : node_t) : option bool :=
  Some ((allocated n =? 0) && (size <=? a_size (alloc_record n))).

Definition best_fit_test (h : list node_t) (size : Z) (g : gap_t) : option bool :=
  match g_node g with
  | Some i =>
      match h !! i with
      | Some n => first_fit_test size n
      | None => None
      end
  | None => None
  end.

(** The node the policy selects, NULL when none fits. *)
Definition select_node (size : Z) : M node_pt :=
  let* pm := get in
  match policy (pool pm) with
  | FIRST_FIT =>
      found_or None (scan (first_fit_test size) (node_heap pm) 0 (total_nodes pm))
  | BEST_FIT =>
      match scan (best_fit_test (node_heap pm) size) (gap_ix pm) 0 (num_gaps (pool pm)) with
      | Hit i => let* g := gap_at (Z.of_nat i) in ret (g_node g)
      | Miss => ret None
      | OutOfBounds => undef
      end
  end.

(** The second half of [mem_new_alloc]: the remainder of the selected block
    becomes a gap of its own in the first unused slot. *)
Definition split_node (junk : node_pt) (size remaining_gap : Z) (new_node : node_pt)
  : M node_pt :=
  let* pm := get in
  let* unused_node :=
    found_or junk (scan (λ n, Some (used n =? 0)) (node_heap pm) 0 (total_nodes pm)) in
  match unused_node with
  | None => ret None
  | Some _ =>
      store unused_node (set_allocated 0) ;;
      store unused_node (set_used 1) ;;
      (let* n := deref new_node in
       store unused_node (set_mem (u64 (a_mem (alloc_record n) + size)))) ;;
      store unused_node (set_size remaining_gap) ;;
      modify (λ pm, with_used_nodes (u32 (used_nodes pm + 1)) pm) ;;
      store unused_node (set_prev new_node) ;;
      (let* n := deref new_node in
       match next n with
       | None =>
           store new_node (set_next unused_node) ;;
           store unused_node (set_next None)
       | Some _ =>
           store unused_node (set_next (next n)) ;;
           (let* n := deref new_node in store (next n) (set_prev unused_node)) ;;
           store new_node (set_next unused_node)
       end) ;;
      (let* st := _mem_add_to_gap_ix remaining_gap unused_node in
       match st with
       | ALLOC_OK => ret tt
       | _ => undef
       end) ;;
      ret new_node
  end.

Definition mem_new_alloc (junk : node_pt) (size : Z) : M node_pt :=
  let* pm := get in
  if num_gaps (pool pm) =? 0 then ret None
  else if total_nodes pm <=? used_nodes pm then ret None
  else
    let* new_node := select_node size in
    match new_node with
    | None => ret None
    | Some _ =>
        modify (with_pool (λ p, set_num_allocs (u32 (num_allocs p + 1)) p)) ;;
        modify (with_pool (λ p, set_alloc_size (u64 (alloc_size p + size)) p)) ;;
        let* n := deref new_node in
        let remaining_gap := u64 (a_size (alloc_record n) - size) in
        _mem_remove_from_gap_ix size new_node ;;
        store new_node (set_allocated 1) ;;
        store new_node (set_size size) ;;
        if remaining_gap =? 0 then ret new_node
        else split_node junk size remaining_gap new_node
    end.

(** [alloc->mem], read through the pointer handed to [mem_del_alloc]. *)
Definition read_alloc (alloc : alloc_pt) : M alloc_t :=
  match alloc with
  | InHeap i => let* n := deref (Some i) in ret (alloc_record n)
  | Outside a => ret a
  end.

(** The condition of both merges of [mem_del_alloc]:
    [p != NULL && p->allocated == 0 && (p->used = 1)]; the last conjunct is
    an assignment, evaluated only when the first two hold. *)
Definition is_gap (p : node_pt) : M bool :=
  match p with
  | None => ret false
  | Some _ =>
      let* n := deref p in
      if allocated n =? 0 then store p (set_used 1) ;; ret true
      else ret false
  end.

(** The body of the first [if] of [mem_del_alloc]: the next node is merged
    into [node_to_delete]. *)
Definition merge_next_body (node_to_delete : node_pt) : M unit :=
  let* n := deref node_to_delete in
  let next_node := next n in
  let* nx := deref next_node in
  _mem_remove_from_gap_ix (a_size (alloc_record nx)) next_node ;;
  (let* n := deref node_to_delete in
   let* nx := deref (next n) in
   store node_to_delete (set_size (u64 (a_size (alloc_record n) + a_size (alloc_record nx))))) ;;
  (let* n := deref node_to_delete in store (next n) (set_used 0)) ;;
  (let* n := deref node_to_delete in store (next n) (set_size 0)) ;;
  (let* n := deref node_to_delete in store (next n) (set_mem 0)) ;;
  store next_node (set_used 0) ;;
  modify (λ pm, with_used_nodes (u32 (used_nodes pm - 1)) pm) ;;
  (let* nx := deref next_node in
   match next nx with
   | Some _ =>
       store (next nx) (set_prev node_to_delete) ;;
       (let* nx := deref next_node in store node_to_delete (set_next (next nx)))
   | None => store node_to_delete (set_next None)
   end) ;;
  store next_node (set_next None) ;;
  store next_node (set_prev None).

Definition merge_next (node_to_delete : node_pt) : M unit :=
  let* n := deref node_to_delete in
  let* gap := is_gap (next n) in
  if gap then merge_next_body node_to_delete else ret tt.

(** The body of the second [if]: [node_to_delete] is merged into the
    previous node. *)
Definition merge_prev_body (node_to_delete : node_pt) : M alloc_status :=
  let* n := deref node_to_delete in
  let pre_node := prev n in
  let* p := deref pre_node in
  let* st := _mem_remove_from_gap_ix (a_size (alloc_record p)) pre_node in
  match st with
  | ALLOC_FAIL => ret ALLOC_FAIL
  | _ =>
      let* n := deref node_to_delete in
      let* st := _mem_remove_from_gap_ix (a_size (alloc_record n)) node_to_delete in
      match st with
      | ALLOC_FAIL => ret ALLOC_FAIL
      | _ =>
          (let* n := deref node_to_delete in
           let* p := deref (prev n) in
           store pre_node (set_size (u64 (a_size (alloc_record n) + a_size (alloc_record p))))) ;;
          store node_to_delete (set_used 0) ;;
          store node_to_delete (set_size 0) ;;
          store node_to_delete (set_mem 0) ;;
          modify (λ pm, with_used_nodes (u32 (used_nodes pm - 1)) pm) ;;
          (let* n := deref node_to_delete in
           match next n with
           | Some _ =>
               store pre_node (set_next (next n)) ;;
               (let* n := deref node_to_delete in store (next n) (set_prev pre_node))
           | None => store pre_node (set_next None)
           end) ;;
          store node_to_delete (set_next None) ;;
          store node_to_delete (set_prev None) ;;
          (let* p := deref pre_node in
           _mem_add_to_gap_ix (a_size (alloc_record p)) pre_node) ;;
          ret ALLOC_OK
      end
  end.

Definition merge_prev (node_to_delete : node_pt) : M alloc_status :=
  let* n := deref node_to_delete in
  let* gap := is_gap (prev n) in
  if gap then merge_prev_body node_to_delete else ret ALLOC_OK.

Definition mem_del_alloc (junk : node_pt) (alloc : alloc_pt) : M alloc_status :=
  let* a := read_alloc alloc in
  let* pm := get in
  let* node_to_delete :=
    found_or junk (scan (λ n, Some (a_mem a =? a_mem (alloc_record n)))
                        (node_heap pm) 0 (total_nodes pm)) in
  match node_to_delete with
  | None => ret ALLOC_NOT_FREED
  | Some _ =>
      store node_to_delete (set_allocated 0) ;;
      modify (with_pool (λ p, set_num_allocs (u32 (num_allocs p - 1)) p)) ;;
      (let* n := deref node_to_delete in
       modify (with_pool (λ p, set_alloc_size
                                 (u64 (alloc_size p - a_size (alloc_record n))) p))) ;;
      merge_next node_to_delete ;;
      (let* n := deref node_to_delete in
       _mem_add_to_gap_ix (a_size (alloc_record n)) node_to_delete) ;;
      merge_prev node_to_delete
  end.

(** ** The pool store *)

(** The three static variables of the file: [pool_store] is NULL ([None])
    or an array of pool manager pointers, a pointer being an address and
    NULL the address 0. *)
Record store_t : Type := mk_store {
  pool_store : option (list Z);
  pool_store_size : Z;
  pool_store_capacity : Z
}.

Definition MEM_EXPAND_FACTOR : Z := 2.
Definition MEM_POOL_STORE_INIT_CAPACITY : Z := 20.
Definition sizeof_pool_mgr_pt : Z := 8.

(** The variables as the program starts. *)
Definition store_start : store_t := mk_store None 0 0.

(** [mem_init]; [calloc_ok] tells whether [calloc] returned a block.  The
    capacity is set and [ALLOC_OK] returned in both cases. *)
Definition mem_init (calloc_ok : bool) (s : store_t) : alloc_status * store_t :=
  match pool_store s with
  | None =>
      (ALLOC_OK,
       mk_store (if calloc_ok
                 then Some (replicate (Z.to_nat MEM_POOL_STORE_INIT_CAPACITY) 0)
                 else None)
                0 MEM_POOL_STORE_INIT_CAPACITY)
  | Some _ => (ALLOC_CALLED_AGAIN, s)
  end.

(** [for (i = lo; i < capacity; i++) pool_store[i] = NULL], undefined
    ([None]) once [i] is outside the array. *)
Fixpoint clear_store (fuel : nat) (i hi : Z) (l : list Z) : option (list Z) :=
  if i <? hi then
    match fuel with
    | O => None
    | S fuel' =>
        if in_array i l then clear_store fuel' (i + 1) hi (<[Z.to_nat i := 0]> l)
        else None
    end
  else Some l.

(** [mem_free]: no test is made of the pools still open. *)
Definition mem_free (s : store_t) : option (alloc_status * store_t) :=
  match pool_store s with
  | None => Some (ALLOC_CALLED_AGAIN, s)
  | Some l =>
      match clear_store (S (length l)) 0 (pool_store_capacity s) l with
      | Some _ => Some (ALLOC_OK, mk_store None 0 0)
      | None => None
      end
  end.

(** [realloc(pool_store, MEM_EXPAND_FACTOR * sizeof(pool_store))]: a block
    of 16 bytes, room for two pointers, with the contents of the old block
    up to there; for a NULL argument a new block, holding [fresh]. *)
Definition realloc_store (fresh : list Z) (p : option (list Z)) : list Z :=
  take (Z.to_nat (MEM_EXPAND_FACTOR * sizeof_pool_store / sizeof_pool_mgr_pt))
       (default fresh p).

Definition _mem_resize_pool_store (fresh : list Z) (s : store_t) : alloc_status * store_t :=
  if over_fill_factor (pool_store_size s) (pool_store_capacity s) then
    (ALLOC_OK,
     mk_store (Some (realloc_store fresh (pool_store s)))
              (pool_store_size s)
              (u32 (pool_store_capacity s * MEM_EXPAND_FACTOR)))
  else (ALLOC_OK, s).

(** [mem_pool_open] with the pool store: [mgr] is what [calloc] returned
    for the pool manager and [buf] what it returned for the buffer, 0 when
    it failed.  The result is the pointer to the new manager with the
    manager it points to, or NULL; the outer [None] is an undefined
    execution, the write of [pool_store[pool_store_size]] outside the
    array.  A failed assertion, like the test that follows it, gives no
    pool. *)
Definition mem_pool_open_store (fresh : list Z) (mgr : Z)
    (size : Z) (pol : alloc_policy) (buf : Z) (s : store_t)
  : option (option (Z * pool_mgr_t) * store_t) :=
  match pool_store s with
  | None => Some (None, s)
  | Some _ =>
      let s1 := snd (_mem_resize_pool_store fresh s) in
      if mgr =? 0 then Some (None, s1)
      else
        match mem_pool_open size pol buf with
        | None => Some (None, s1)
        | Some pm =>
            match pool_store s1 with
            | Some l =>
                if in_array (pool_store_size s1) l then
                  Some (Some (mgr, pm),
                        mk_store (Some (<[Z.to_nat (pool_store_size s1) := mgr]> l))
                                 (u32 (pool_store_size s1 + 1))
                                 (pool_store_capacity s1))
                else None
            | None => None
            end
        end
  end.

(** The last loop of [mem_pool_close]: the first entry of the pool store
    that holds [mgr] is set to NULL; [pool_store_size] stays. *)
Definition forget_pool (mgr : Z) (s : store_t) : option store_t :=
  let l := default [] (pool_store s) in
  match scan (λ p, Some (p =? mgr)) l 0 (pool_store_capacity s) with
  | Hit i =>
      Some (mk_store (Some (<[i := 0]> l)) (pool_store_size s) (pool_store_capacity s))
  | Miss => Some s
  | OutOfBounds => None
  end.

(** [mem_pool_close] with the pool store, for the manager [pm] at the
    address [mgr]. *)
Definition mem_pool_close_store (mgr : Z) (pm : pool_mgr_t) (s : store_t)
  : option (alloc_status * pool_mgr_t * store_t) :=
  match mem_pool_close pm with
  | Ret ALLOC_OK pm' =>
      match forget_pool mgr s with
      | Some s' => Some (ALLOC_OK, pm', s')
      | None => None
      end
  | Ret st pm' => Some (st, pm', s)
  | Undef => None
  end.

(** ** Inspection *)

(** Modelled from the spec: [pool_segment_t] is declared in [mem_pool.h];
    the function writes its fields [size] and [allocated]. *)
Record pool_segment_t : Type := mk_segment {
  s_size : Z;
  s_allocated : Z
}.

(** The loop of [mem_inspect_pool]: [n] iterations from [nodeCheck], which
    moves to the next node when there is one and stays otherwise. *)
Fixpoint inspect_loop (n : nat) (nodeCheck : node_pt) : M (list pool_segment_t) :=
  match n with
  | O => ret []
  | S n' =>
      let* c := deref nodeCheck in
      let seg := mk_segment (a_size (alloc_record c)) (allocated c) in
      let* rest := inspect_loop n' (match next c with
                                    | Some _ => next c
                                    | None => nodeCheck
                                    end) in
      ret (seg :: rest)
  end.

(** [mem_inspect_pool]: [calloc_ok] tells whether the array of segments
    could be allocated; when it could not the function returns without
    writing its two results ([None]), otherwise they are the array and
    [used_nodes]. *)
Definition mem_inspect_pool (calloc_ok : bool) : M (option (list pool_segment_t * Z)) :=
  let* pm := get in
  if calloc_ok then
    let* segs := inspect_loop (Z.to_nat (used_nodes pm)) (Some 0%nat) in
    ret (Some (segs, used_nodes pm))
  else ret None.

(** * Specification *)

(** ** Assertions on computations *)

(** [post m pm Q]: if [m] returns from [pm], its result and final state
    satisfy [Q].  Undefined executions satisfy every [Q]: this is the form
    of the invariance lemmas, which the theorems then apply to calls that
    do return. *)
Definition post {A} (m : M A) (pm : pool_mgr_t) (Q : A → pool_mgr_t → Prop) : Prop :=
  match m pm with
  | Ret a pm' => Q a pm'
  | Undef => True
  end.

(** [gap_frame pm pm' d]: [pm'] is [pm] with another gap index, another
    recorded capacity and [num_gaps] moved by [d]. *)
Definition gap_frame (pm pm' : pool_mgr_t) (d : Z) : Prop :=
  node_heap pm' = node_heap pm ∧
  total_nodes pm' = total_nodes pm ∧
  used_nodes pm' = used_nodes pm ∧
  pool pm' = set_num_gaps (u32 (num_gaps (pool pm) + d)) (pool pm).

(** [same_core pm pm']: only the gap index and its capacity differ. *)
Definition same_core (pm pm' : pool_mgr_t) : Prop :=
  node_heap pm' = node_heap pm ∧
  total_nodes pm' = total_nodes pm ∧
  used_nodes pm' = used_nodes pm ∧
  pool pm' = pool pm.

(** [core_is pm P H T U]: the four components of [pm] the node-level code
    works on. *)
Definition core_is (pm : pool_mgr_t) (P : pool_t) (H : list node_t) (T U : Z) : Prop :=
  pool pm = P ∧ node_heap pm = H ∧ total_nodes pm = T ∧ used_nodes pm = U.

(** The node in slot [i], the zeroed node outside the table. *)
Definition nd (h : list node_t) (i : nat) : node_t := default zero_node (h !! i).

(** ** The linked list *)

(** The node heap seen as a function of the slot.  [shape v rank]: the
    links of [v] are those of a doubly linked list ([rank] grows along
    [next], so the list has no cycle), the slots not in use hold no links
    and no bytes, and slot 0 is its head. *)
Definition view : Type := nat → node_t.

Record shape (v : view) (rank : nat → nat) : Prop := {
  sh_next : ∀ i j, next (v i) = Some j → prev (v j) = Some i ∧ (rank i < rank j)%nat;
  sh_prev : ∀ i j, prev (v j) = Some i → next (v i) = Some j;
  sh_unused : ∀ i, used (v i) = 0 →
      next (v i) = None ∧ prev (v i) = None ∧ a_size (alloc_record (v i)) = 0;
  sh_head : used (v 0%nat) ≠ 0 ∧ prev (v 0%nat) = None
}.

(** [touch v v']: [v'] has the links and the slots in use of [v]. *)
Definition touch (v v' : view) : Prop :=
  ∀ j, next (v' j) = next (v j) ∧ prev (v' j) = prev (v j) ∧
       (used (v' j) = 0 ↔ used (v j) = 0) ∧
       (used (v j) = 0 →
        a_size (alloc_record (v' j)) = a_size (alloc_record (v j)) ∨
        a_size (alloc_record (v' j)) = 0).

(** What the merge loops leave in the slot of an absorbed node. *)
Definition retired (n : node_t) : node_t :=
  mk_node (mk_alloc 0 0) 0 (allocated n) None None.

(** The node heap after [a] has absorbed its successor [b], and after the
    slot [u] has been linked in behind [s]. *)
Definition absorb_v (a b : nat) (sz : Z) (v : view) : view :=
  λ j, if decide (j = b) then retired (v b)
       else if decide (j = a) then set_next (next (v b)) (set_size sz (v a))
       else if decide (next (v b) = Some j) then set_prev (Some a) (v j)
       else v j.

Definition splice_v (s u : nat) (m sz : Z) (v : view) : view :=
  λ j, if decide (j = u) then mk_node (mk_alloc m sz) 1 0 (next (v s)) (Some s)
       else if decide (j = s) then set_next (Some u) (v s)
       else if decide (next (v s) = Some j) then set_prev (Some u) (v j)
       else v j.

(** No two neighbours are both free; [noadj_but x] lets pairs through that
    involve the node [x]. *)
Definition noadj (v : view) : Prop :=
  ∀ i j, next (v i) = Some j → allocated (v i) = 0 → allocated (v j) = 0 → False.

Definition noadj_but (x : nat) (v : view) : Prop :=
  ∀ i j, next (v i) = Some j → allocated (v i) = 0 → allocated (v j) = 0 → i = x ∨ j = x.

(** The number of slots in use. *)
Definition count_used (h : list node_t) : nat :=
  length (filter (λ n, used n ≠ 0) h).

(** ** The invariant of the pool manager *)

(** What a step may do to the pool record: only [num_gaps] moves, in step
    with the number of slots in use. *)
Definition pool_step (P P' : pool_t) (c c' : nat) : Prop :=
  p_mem P' = p_mem P ∧ policy P' = policy P ∧ total_size P' = total_size P ∧
  alloc_size P' = alloc_size P ∧ num_allocs P' = num_allocs P ∧
  (0 ≤ num_gaps P → 0 ≤ num_gaps P') ∧
  u32 (num_gaps P' - Z.of_nat c') = u32 (num_gaps P - Z.of_nat c).

(** What every call keeps: the node heap has its 40 slots, the links form
    a list, no two neighbours are free, [used_nodes] counts the slots in
    use, and the two counters of the pool add up to it (modulo 2^32). *)
Record Inv (pm : pool_mgr_t) : Prop := {
  inv_len : length (node_heap pm) = 40%nat;
  inv_total : total_nodes pm = 40;
  inv_shape : ∃ r, shape (nd (node_heap pm)) r;
  inv_noadj : noadj (nd (node_heap pm));
  inv_count : used_nodes pm = Z.of_nat (count_used (node_heap pm));
  inv_ctr : u32 (num_allocs (pool pm) + num_gaps (pool pm) - used_nodes pm) = 0;
  inv_rng : 0 ≤ num_allocs (pool pm) ∧ 0 ≤ num_gaps (pool pm);
  inv_mem : p_mem (pool pm) ≠ 0
}.

(** The three ways [mem_new_alloc] gives up before it touches anything. *)
Definition gives_up (size : Z) (pm : pool_mgr_t) : Prop :=
  num_gaps (pool pm) = 0 ∨ total_nodes pm ≤ used_nodes pm ∨
  select_node size pm = Ret None pm.

(** The states a pool manager can be in: the result of [mem_pool_open],
    followed by any calls of [mem_new_alloc] and [mem_del_alloc] that
    return. *)
Inductive reachable : pool_mgr_t → Prop :=
  | reach_open size pol buf pm :
      mem_pool_open size pol buf = Some pm → reachable pm
  | reach_alloc junk size pm p pm' :
      reachable pm → 0 ≤ size < 2 ^ 64 →
      mem_new_alloc junk size pm = Ret p pm' → reachable pm'
  | reach_free junk alloc pm st pm' :
      reachable pm → mem_del_alloc junk alloc pm = Ret st pm' → reachable pm'.

(** ** The properties of the pool *)

(** A free block: a slot in use that is not allocated. *)
Definition is_gap_node (n : node_t) : bool :=
  negb (used n =? 0) && (allocated n =? 0).


(** The manager after [mem_pool_close] has freed its three arrays. *)
Definition released (pm : pool_mgr_t) : pool_mgr_t :=
  with_gap_ix [] (with_node_heap [] (with_pool (set_p_mem 0) pm)).

(** Slot [j] passes the test of the first-fit loop; [i] is the first slot
    that does. *)
Definition slot_fits (pm : pool_mgr_t) (size : Z) (j : nat) : Prop :=
  ∃ m, node_heap pm !! j = Some m ∧ allocated m = 0 ∧ size ≤ a_size (alloc_record m).

Definition lowest_slot_fit (pm : pool_mgr_t) (size : Z) (i : nat) : Prop :=
  slot_fits pm size i ∧ ∀ j, (j < i)%nat → ¬ slot_fits pm size j.

(** ** Client programs *)

(** A client of the pool: a series of calls, each handle being the node
    the allocation returned.  The locals of the C functions start out as
    [NULL]. *)
Inductive call : Type :=
  | Alloc (size : Z)
  | Free (h : nat).

Definition do_call (c : call) : M unit :=
  match c with
  | Alloc size => mem_new_alloc None size ;; ret tt
  | Free h => mem_del_alloc None (InHeap h) ;; ret tt
  end.

Fixpoint client (cs : list call) : M unit :=
  match cs with
  | [] => ret tt
  | c :: cs' => do_call c ;; client cs'
  end.

(** The sizes a [size_t] argument can take. *)
Definition size_ok (c : call) : bool :=
  match c with
  | Alloc size => (0 <=? size) && (size <? 2 ^ 64)
  | Free _ => true
  end.

(** The bytes of the free blocks in use. *)
Definition free_bytes (pm : pool_mgr_t) : Z :=
  foldr (λ n acc, if is_gap_node n then a_size (alloc_record n) + acc else acc)
        0 (node_heap pm).

(** The entries of the gap index that are in use. *)
Definition live_gaps (pm : pool_mgr_t) : list gap_t :=
  take (Z.to_nat (num_gaps (pool pm))) (gap_ix pm).

(** Slot [j] is a free block in use that can hold [size] bytes. *)
Definition block_fits (pm : pool_mgr_t) (size : Z) (j : nat) : Prop :=
  ∃ m, node_heap pm !! j = Some m ∧ is_gap_node m = true ∧
       size ≤ a_size (alloc_record m).

(** Slot [i] is the block of lowest address among those. *)
Definition lowest_address_fit (pm : pool_mgr_t) (size : Z) (i : nat) : Prop :=
  ∃ n, node_heap pm !! i = Some n ∧ is_gap_node n = true ∧
       size ≤ a_size (alloc_record n) ∧
       ∀ j m, node_heap pm !! j = Some m → is_gap_node m = true →
              size ≤ a_size (alloc_record m) →
              a_mem (alloc_record n) ≤ a_mem (alloc_record m).

(** First fit as a scan in address order. *)
Definition first_fit_by_address : Prop :=
  ∀ junk size pm p pm',
    reachable pm → 0 ≤ size < 2 ^ 64 →
    policy (pool pm) = FIRST_FIT →
    mem_new_alloc junk size pm = Ret p pm' →
    (∃ j, block_fits pm size j) →
    ∃ i, p = Some i ∧ lowest_address_fit pm size i.

(** ** The gap index as a list *)

(** The position of the first entry of [l] for [node]. *)
Fixpoint find_gap (node : node_pt) (l : list gap_t) : option nat :=
  match l with
  | [] => None
  | g :: l' => if ptr_eqb (g_node g) node then Some 0%nat else S <$> find_gap node l'
  end.

(** The entry [_mem_remove_from_gap_ix] takes out: the first one for
    [node], and entry 0 when there is none. *)
Definition removed_index (node : node_pt) (l : list gap_t) : nat :=
  default 0%nat (find_gap node l).

(** The entry points into the node heap [h]. *)
Definition gap_valid (h : list node_t) (g : gap_t) : Prop :=
  ∃ i, g_node g = Some i ∧ (i < length h)%nat.

(** ** The pool store over a run *)

(** [store_after n s]: [s] is the pool store after [mem_init], [n] calls
    of [mem_pool_open] that returned a pool, and any number of calls of
    [mem_pool_close], in any order. *)
Inductive store_after : nat → store_t → Prop :=
  | after_init : store_after 0 (snd (mem_init true store_start))
  | after_open n s fresh mgr size pol buf r s' :
      store_after n s →
      mem_pool_open_store fresh mgr size pol buf s = Some (Some r, s') →
      store_after (S n) s'
  | after_close n s mgr pm st pm' s' :
      store_after n s →
      mem_pool_close_store mgr pm s = Some (st, pm', s') →
      store_after n s'.

(** ** What a call does to the node heap *)

(** One slot changed by [f]. *)
Definition upd_v (x : nat) (f : node_t → node_t) (v : view) : view :=
  λ j, if decide (j = x) then f (v x) else v j.

(** The first merge of [mem_del_alloc]: [x] absorbs its successor when
    that one is not allocated. *)
Definition merge_next_v (x : nat) (v : view) : view :=
  match next (v x) with
  | Some y =>
      if allocated (v y) =? 0
      then absorb_v x y (u64 (a_size (alloc_record (v x)) + a_size (alloc_record (v y))))
                    (upd_v y (set_used 1) v)
      else v
  | None => v
  end.

(** The second merge: the predecessor of [x], when it is not allocated,
    absorbs [x]. *)
Definition merge_prev_v (x : nat) (v : view) : view :=
  match prev (v x) with
  | Some p =>
      if allocated (v p) =? 0
      then absorb_v p x (u64 (a_size (alloc_record (v x)) + a_size (alloc_record (v p))))
                    (upd_v p (set_used 1) v)
      else v
  | None => v
  end.

(** The node heap after the release of slot [x]. *)
Definition del_v (x : nat) (v : view) : view :=
  merge_prev_v x (merge_next_v x (upd_v x (set_allocated 0) v)).

(** The node heap after [size] bytes were allocated in slot [s], the
    remainder going to slot [u]. *)
Definition alloc_v (size : Z) (s u : nat) (v : view) : view :=
  let v1 := upd_v s (λ n, set_size size (set_allocated 1 n)) v in
  let rem := u64 (a_size (alloc_record (v s)) - size) in
  if rem =? 0 then v1
  else splice_v s u (u64 (a_mem (alloc_record (v s)) + size)) rem v1.

(** The fields of the pool record that no call changes. *)
Definition same_pool_consts (P P' : pool_t) : Prop :=
  p_mem P' = p_mem P ∧ policy P' = policy P ∧ total_size P' = total_size P.

(** ** The linked list as a partition of the buffer *)

(** [tiled buf total v off]: the slots in use are blocks of the buffer of
    [total] bytes at [buf], the block of slot [i] starting at the offset
    [off i]; the list starts at offset 0, each block ends where the next
    one starts, and the last one ends at [total]. *)
Record tiled (buf total : Z) (v : view) (off : nat → Z) : Prop := {
  ti_head : off 0%nat = 0;
  ti_mem : ∀ i, used (v i) ≠ 0 → a_mem (alloc_record (v i)) = u64 (buf + off i);
  ti_size : ∀ i, used (v i) ≠ 0 → 0 ≤ a_size (alloc_record (v i));
  ti_off : ∀ i, used (v i) ≠ 0 → 0 ≤ off i;
  ti_end : ∀ i, used (v i) ≠ 0 → off i + a_size (alloc_record (v i)) ≤ total;
  ti_next : ∀ i j, used (v i) ≠ 0 → next (v i) = Some j →
                   off j = off i + a_size (alloc_record (v i));
  ti_last : ∀ i, used (v i) ≠ 0 → next (v i) = None →
                 off i + a_size (alloc_record (v i)) = total
}.

(** Slot 0 is the only slot in use without a predecessor. *)
Definition headed (v : view) : Prop :=
  ∀ i, used (v i) ≠ 0 → prev (v i) = None → i = 0%nat.

(** The slots of the list from slot [i] on, at most [fuel] of them. *)
Fixpoint chain (fuel : nat) (v : view) (i : nat) : list nat :=
  match fuel with
  | O => []
  | S fuel' =>
      i :: match next (v i) with
           | Some j => chain fuel' v j
           | None => []
           end
  end.

(** What [mem_inspect_pool] reports of a node. *)
Definition segment_of (n : node_t) : pool_segment_t :=
  mk_segment (a_size (alloc_record n)) (allocated n).

(** The slot [mem_del_alloc] works on: the first slot of the node heap
    whose address is the one of the allocation record, and else what the
    local variable held. *)
Definition del_target (junk : node_pt) (alloc : alloc_pt) : M node_pt :=
  let* a := read_alloc alloc in
  let* pm := get in
  found_or junk (scan (λ n, Some (a_mem a =? a_mem (alloc_record n)))
                      (node_heap pm) 0 (total_nodes pm)).

(** The first slot not in use. *)
Definition first_unused (v : view) (u : nat) : Prop :=
  used (v u) = 0 ∧ ∀ j, (j < u)%nat → used (v j) ≠ 0.

(** [v'] is [v] up to the flags [allocated] and [used] of slots that stay
    in use or stay out of use. *)
Definition flags_only (v v' : view) : Prop :=
  ∀ j, next (v' j) = next (v j) ∧ prev (v' j) = prev (v j) ∧
       alloc_record (v' j) = alloc_record (v j) ∧
       (used (v' j) = 0 ↔ used (v j) = 0).

(** The linked list is well formed, starts at slot 0, holds every slot in
    use and partitions the buffer. *)
Definition partitioned (buf total : Z) (v : view) : Prop :=
  (∃ r, shape v r) ∧ headed v ∧ ∃ off, tiled buf total v off.

Definition pool_partitioned (pm : pool_mgr_t) : Prop :=
  partitioned (p_mem (pool pm)) (total_size (pool pm)) (nd (node_heap pm)).

(** The walk from slot [i] comes to the end of the list within [fuel]
    steps. *)
Fixpoint reaches (fuel : nat) (v : view) (i : nat) : Prop :=
  match fuel with
  | O => False
  | S fuel' =>
      match next (v i) with
      | Some j => reaches fuel' v j
      | None => True
      end
  end.

(** The blocks of the pool in list order. *)
Definition block_slots (pm : pool_mgr_t) : list nat :=
  chain (S (length (node_heap pm))) (nd (node_heap pm)) 0.

Definition blocks (pm : pool_mgr_t) : list node_t :=
  nd (node_heap pm) <$> block_slots pm.

Definition sum_list (l : list Z) : Z := foldr Z.add 0 l.

(** ** Clients that keep to the rules *)

(** A live allocation: a slot in use that is allocated. *)
Definition is_live (n : node_t) : bool :=
  negb (used n =? 0) && negb (allocated n =? 0).

(** The bytes and the number of the live allocations. *)
Definition live_bytes (pm : pool_mgr_t) : Z :=
  sum_list ((λ n, if is_live n then a_size (alloc_record n) else 0) <$> node_heap pm).

Definition live_count (pm : pool_mgr_t) : Z :=
  sum_list ((λ n, if is_live n then 1 else 0) <$> node_heap pm).

(** The states of a pool whose client asks for at least one byte at a
    time and releases only live allocations, through the handle
    [mem_new_alloc] returned.  The buffer of [size > 0] bytes at [buf]
    ends below the top of the address space. *)
Inductive disciplined : pool_mgr_t → Prop :=
  | dis_open size pol buf pm :
      0 < size → 0 < buf → buf + size < 2 ^ 64 →
      mem_pool_open size pol buf = Some pm → disciplined pm
  | dis_alloc junk size pm p pm' :
      disciplined pm → 0 < size < 2 ^ 64 →
      mem_new_alloc junk size pm = Ret p pm' → disciplined pm'
  | dis_free junk i n pm st pm' :
      disciplined pm → node_heap pm !! i = Some n → is_live n = true →
      mem_del_alloc junk (InHeap i) pm = Ret st pm' → disciplined pm'.

(** Every block has a byte, and the slots out of use are cleared. *)
Record tidy (v : view) : Prop := {
  td_size : ∀ i, used (v i) ≠ 0 → 0 < a_size (alloc_record (v i));
  td_unused : ∀ i, used (v i) = 0 →
                   allocated (v i) = 0 ∧ a_mem (alloc_record (v i)) = 0
}.

(** What such a client can rely on. *)
Record keeps_books (pm : pool_mgr_t) : Prop := {
  kb_reach : reachable pm;
  kb_buf : 0 < p_mem (pool pm);
  kb_tot : 0 < total_size (pool pm);
  kb_end : p_mem (pool pm) + total_size (pool pm) < 2 ^ 64;
  kb_tidy : tidy (nd (node_heap pm));
  kb_bytes : alloc_size (pool pm) = live_bytes pm;
  kb_count : num_allocs (pool pm) = live_count pm
}.

(** ** The life of a pool *)

(** [served k pm]: [pm] is a state of a pool in which [k] calls of
    [mem_new_alloc] have returned a block since [mem_pool_open]. *)
Inductive served : nat → pool_mgr_t → Prop :=
  | sv_open size pol buf pm :
      mem_pool_open size pol buf = Some pm → served 0 pm
  | sv_alloc junk size k pm s pm' :
      served k pm → 0 ≤ size < 2 ^ 64 →
      mem_new_alloc junk size pm = Ret (Some s) pm' → served (S k) pm'
  | sv_null junk size k pm pm' :
      served k pm → 0 ≤ size < 2 ^ 64 →
      mem_new_alloc junk size pm = Ret None pm' → served k pm'
  | sv_free junk alloc k pm st pm' :
      served k pm → mem_del_alloc junk alloc pm = Ret st pm' → served k pm'.

(** The array of the gap index has its 40 entries and the recorded
    capacity is a number of entries of it. *)
Definition cap_ok (pm : pool_mgr_t) : Prop :=
  length (gap_ix pm) = 40%nat ∧ 0 ≤ gap_ix_capacity pm ≤ 40.

(** [pm'] has a gap index of the same length and [d] less recorded
    capacity than [pm]. *)
Definition cap_less (d : Z) (pm pm' : pool_mgr_t) : Prop :=
  length (gap_ix pm') = length (gap_ix pm) ∧
  gap_ix_capacity pm' = gap_ix_capacity pm - d.

(** [pm'] has a gap index of the same length as [pm] and a recorded
    capacity that is not larger and not negative. *)
Definition cap_drop (pm pm' : pool_mgr_t) : Prop :=
  ∃ d, 0 ≤ d ≤ gap_ix_capacity pm ∧ cap_less d pm pm'.

(** ** The gap index of a client that keeps to the rules *)

(** The entries of [L] for other nodes than [node]. *)
Definition without (node : node_pt) (L : list gap_t) : list gap_t :=
  filter (λ g, g_node g ≠ node) L.

(** [gaps_is pm L C]: the entries in use of the gap index of [pm] are
    those of [L] in some order, [num_gaps] is their number, the recorded
    capacity is [C], and the array has its 40 entries. *)
Definition gaps_is (pm : pool_mgr_t) (L : list gap_t) (C : Z) : Prop :=
  live_gaps pm ≡ₚ L ∧ num_gaps (pool pm) = Z.of_nat (length L) ∧
  gap_ix_capacity pm = C ∧ length (gap_ix pm) = 40%nat ∧ 0 ≤ C ≤ 40 ∧
  (Z.of_nat (length L) ≤ C ∨ (C = 0 ∧ length L = 1%nat)).

(** The entry of the free block in slot [i] of the node heap [v]. *)
Definition free_entry (v : view) (i : nat) : gap_t :=
  mk_gap (a_size (alloc_record (v i))) (Some i).

(** [lists_on S v L]: [L] holds one entry for each slot of [S], with the
    size the slot has in [v], and nothing else. *)
Definition lists_on (S : nat → Prop) (v : view) (L : list gap_t) : Prop :=
  NoDup (g_node <$> L) ∧ ∀ g, g ∈ L ↔ ∃ i, S i ∧ g = free_entry v i.

(** Slot [j] is a free block: in use and not allocated. *)
Definition free_in (v : view) (j : nat) : Prop :=
  used (v j) ≠ 0 ∧ allocated (v j) = 0.

(** The gap index lists the free blocks of the node heap: one entry for
    each of them, with its size, in the first [num_gaps] positions. *)
Record gap_index_ok (pm : pool_mgr_t) : Prop := {
  gi_gaps : gaps_is pm (live_gaps pm) (gap_ix_capacity pm);
  gi_lists : lists_on (free_in (nd (node_heap pm))) (nd (node_heap pm)) (live_gaps pm)
}.

(** The entries after the first merge of [mem_del_alloc] for slot [x],
    after its second merge, and after an allocation of [size] bytes in slot
    [s] with the remainder in slot [u]. *)
Definition merge_next_list (x : nat) (v : view) (L : list gap_t) : list gap_t :=
  match next (v x) with
  | Some y => if allocated (v y) =? 0 then without (Some y) L else L
  | None => L
  end.

Definition merge_prev_list (x : nat) (v : view) (L : list gap_t) : list gap_t :=
  match prev (v x) with
  | Some p =>
      if allocated (v p) =? 0
      then mk_gap (u64 (a_size (alloc_record (v x)) + a_size (alloc_record (v p)))) (Some p)
             :: without (Some x) (without (Some p) L)
      else L
  | None => L
  end.

Definition alloc_list (size : Z) (s u : nat) (v : view) (L : list gap_t) : list gap_t :=
  let rem := u64 (a_size (alloc_record (v s)) - size) in
  if rem =? 0 then without (Some s) L
  else mk_gap rem (Some u) :: without (Some s) L.

(** ** Coalescing *)







(** ** First fit over free blocks *)

(** Slot [i] is the first slot of the node heap that holds a free block of
    at least [size] bytes. *)
Definition lowest_block_fit (pm : pool_mgr_t) (size : Z) (i : nat) : Prop :=
  block_fits pm size i ∧ ∀ j, (j < i)%nat → ¬ block_fits pm size j.

(** * Proofs *)

(** ** Reasoning about the monad *)

Lemma post_elim {A} (m : M A) pm Q a pm' :
  post m pm Q → m pm = Ret a pm' → Q a pm'.
Proof. unfold post. intros H E. rewrite E in H. exact H. Qed.

Lemma post_intro {A} (m : M A) pm (Q : A → pool_mgr_t → Prop) :
  (∀ a pm', m pm = Ret a pm' → Q a pm') → post m pm Q.
Proof. unfold post. intros H. destruct (m pm); auto. Qed.

Lemma post_mono {A} (m : M A) pm (Q Q' : A → pool_mgr_t → Prop) :
  post m pm Q → (∀ a pm', Q a pm' → Q' a pm') → post m pm Q'.
Proof. unfold post. destruct (m pm); auto. Qed.

Lemma post_ret {A} (a : A) pm (Q : A → pool_mgr_t → Prop) : Q a pm → post (ret a) pm Q.
Proof. auto. Qed.

Lemma post_undef {A} pm (Q : A → pool_mgr_t → Prop) : post undef pm Q.
Proof. exact I. Qed.

Lemma post_bind {A B} (m : M A) (k : A → M B) pm (Q : B → pool_mgr_t → Prop) :
  post m pm (λ a pm', post (k a) pm' Q) → post (bind m k) pm Q.
Proof. unfold post, bind. destruct (m pm); auto. Qed.

Lemma post_get pm (Q : pool_mgr_t → pool_mgr_t → Prop) : Q pm pm → post get pm Q.
Proof. auto. Qed.

Lemma post_modify f pm (Q : unit → pool_mgr_t → Prop) : Q tt (f pm) → post (modify f) pm Q.
Proof. auto. Qed.

Lemma post_deref p pm (Q : node_t → pool_mgr_t → Prop) :
  (∀ i n, p = Some i → node_heap pm !! i = Some n → Q n pm) → post (deref p) pm Q.
Proof.
  unfold post, deref. intros H. destruct p as [i|]; [|exact I].
  destruct (node_heap pm !! i) eqn:E; [|exact I]. eauto.
Qed.

Lemma post_store p f pm (Q : unit → pool_mgr_t → Prop) :
  (∀ i n, p = Some i → node_heap pm !! i = Some n →
          Q tt (with_node_heap (<[i := f n]> (node_heap pm)) pm)) →
  post (store p f) pm Q.
Proof.
  unfold post, store. intros H. destruct p as [i|]; [|exact I].
  destruct (node_heap pm !! i) eqn:E; [|exact I]. eauto.
Qed.

(** ** The gap index functions leave the rest of the manager alone *)

Lemma same_core_refl pm : same_core pm pm.
Proof. repeat split. Qed.

Lemma same_core_trans pm1 pm2 pm3 :
  same_core pm1 pm2 → same_core pm2 pm3 → same_core pm1 pm3.
Proof. unfold same_core. intros (?&?&?&?) (?&?&?&?). repeat split; congruence. Qed.

Lemma gap_put_core i g pm : post (gap_put i g) pm (λ _ pm', same_core pm pm').
Proof. unfold post, gap_put. destruct (in_array i (gap_ix pm)); [|exact I]. repeat split. Qed.

Lemma gap_at_core i pm : post (gap_at i) pm (λ _ pm', pm' = pm).
Proof.
  unfold post, gap_at. destruct (in_array i (gap_ix pm)); [|exact I].
  destruct (gap_ix pm !! Z.to_nat i); [reflexivity|exact I].
Qed.

Lemma for_up_core fuel body :
  (∀ i pm, post (body i) pm (λ _ pm', same_core pm pm')) →
  ∀ i hi pm, post (for_up fuel i hi body) pm (λ _ pm', same_core pm pm').
Proof.
  intros Hb. induction fuel as [|fuel IH]; intros i hi pm; unfold post; simpl.
  - destruct (i <? hi); [exact I|apply same_core_refl].
  - destruct (i <? hi); [|apply same_core_refl].
    specialize (Hb i pm). unfold post in Hb.
    destruct (body i pm) as [[] pm1|]; [|exact I].
    specialize (IH (i + 1) hi pm1). unfold post in IH.
    destruct (for_up fuel (i + 1) hi body pm1); [|exact I].
    eapply same_core_trans; eauto.
Qed.

Lemma for_down_core fuel body :
  (∀ i pm, post (body i) pm (λ _ pm', same_core pm pm')) →
  ∀ i pm, post (for_down fuel i body) pm (λ _ pm', same_core pm pm').
Proof.
  intros Hb. induction fuel as [|fuel IH]; intros i pm; unfold post; simpl.
  - destruct (0 <? i); [exact I|apply same_core_refl].
  - destruct (0 <? i); [|apply same_core_refl].
    specialize (Hb i pm). unfold post in Hb.
    destruct (body i pm) as [[] pm1|]; [|exact I].
    specialize (IH (i - 1) pm1). unfold post in IH.
    destruct (for_down fuel (i - 1) body pm1); [|exact I].
    eapply same_core_trans; eauto.
Qed.

Lemma sort_step_core i pm : post (sort_step i) pm (λ _ pm', same_core pm pm').
Proof.
  unfold sort_step. apply post_bind. eapply post_mono; [apply gap_at_core|].
  intros gi ? ->. apply post_bind. eapply post_mono; [apply gap_at_core|].
  intros gp ? ->. apply post_bind, post_deref. intros ? ni _ _.
  apply post_bind, post_deref. intros ? np _ _.
  destruct (_ || _); [|apply post_ret, same_core_refl].
  apply post_bind. eapply post_mono; [apply gap_put_core|].
  intros [] pm1 H1. eapply post_mono; [apply gap_put_core|].
  intros [] pm2 H2. eapply same_core_trans; eauto.
Qed.

Lemma modify_gap_core f pm :
  (∀ pm, same_core pm (f pm)) → post (modify f) pm (λ _ pm', same_core pm pm').
Proof. intros H. apply post_modify, H. Qed.

Lemma resize_core pm : post _mem_resize_gap_ix pm (λ _ pm', same_core pm pm').
Proof.
  unfold _mem_resize_gap_ix. apply post_bind, post_get.
  destruct (over_fill_factor _ _); [|apply post_ret, same_core_refl].
  apply post_bind, post_modify, post_bind, post_modify, post_bind, post_get, post_bind.
  eapply post_mono; [apply for_up_core; intros; apply gap_put_core|].
  intros [] pm1 H1. apply post_ret. eapply same_core_trans; [|exact H1].
  repeat split.
Qed.

Lemma sort_core pm :
  post _mem_sort_gap_ix pm (λ st pm', st = ALLOC_OK ∧ same_core pm pm').
Proof.
  unfold _mem_sort_gap_ix. apply post_bind, post_get, post_bind.
  eapply post_mono; [apply for_down_core; intros; apply sort_step_core|].
  intros [] pm1 H1. apply post_ret. auto.
Qed.

Lemma add_frame size node pm :
  post (_mem_add_to_gap_ix size node) pm (λ st pm', st = ALLOC_OK ∧ gap_frame pm pm' 1).
Proof.
  unfold _mem_add_to_gap_ix. apply post_bind.
  eapply post_mono; [apply resize_core|]. intros st0 pm1 H1.
  apply post_bind, post_get, post_bind.
  eapply post_mono; [apply gap_put_core|]. intros [] pm2 H2.
  apply post_bind, post_modify, post_bind.
  eapply post_mono; [apply sort_core|]. intros st pm3 [-> H3].
  apply post_ret. split; [reflexivity|].
  destruct H1 as (?&?&?&E1), H2 as (?&?&?&E2), H3 as (?&?&?&E3).
  simpl in *. unfold gap_frame.
  repeat split; try congruence; rewrite E3, E2, E1; reflexivity.
Qed.

Lemma remove_frame size node pm :
  post (_mem_remove_from_gap_ix size node) pm
       (λ st pm', st = ALLOC_OK ∧ gap_frame pm pm' (-1)).
Proof.
  unfold _mem_remove_from_gap_ix. apply post_bind, post_get, post_bind.
  apply post_intro. intros index pm0 Hix.
  assert (pm0 = pm) as ->.
  { destruct (scan _ _ _ _); unfold ret, undef in Hix; congruence. }
  clear Hix. apply post_bind.
  eapply post_mono.
  { apply for_up_core. intros i pm0. apply post_bind.
    eapply post_mono; [apply gap_at_core|]. intros g ? ->. apply gap_put_core. }
  intros [] pm1 H1.
  apply post_bind, post_modify, post_bind, post_modify, post_bind, post_get, post_bind.
  eapply post_mono; [apply gap_put_core|]. intros [] pm2 H2.
  apply post_ret. split; [reflexivity|].
  destruct H1 as (?&?&?&E1), H2 as (?&?&?&E2).
  simpl in *. unfold gap_frame.
  repeat split; try congruence; rewrite E2, E1; reflexivity.
Qed.

(** ** Symbolic states *)

Lemma core_is_intro pm : core_is pm (pool pm) (node_heap pm) (total_nodes pm) (used_nodes pm).
Proof. repeat split. Qed.

Lemma nd_lookup h i n : h !! i = Some n → nd h i = n.
Proof. unfold nd. intros ->. reflexivity. Qed.

Lemma lookup_nd h i : (i < length h)%nat → h !! i = Some (nd h i).
Proof.
  intros Hi. unfold nd. destruct (lookup_lt_is_Some_2 h i Hi) as [n ->]. reflexivity.
Qed.

Lemma nd_ge h i : (length h ≤ i)%nat → nd h i = zero_node.
Proof. intros Hi. unfold nd. rewrite lookup_ge_None_2; auto. Qed.

Lemma nd_insert h i v j :
  (i < length h)%nat → nd (<[i := v]> h) j = if decide (j = i) then v else nd h j.
Proof.
  intros Hi. unfold nd. destruct (decide (j = i)) as [->|Hne].
  - rewrite list_lookup_insert_eq; auto.
  - rewrite list_lookup_insert_ne; auto.
Qed.

Lemma st_get pm (Q : pool_mgr_t → pool_mgr_t → Prop) : Q pm pm → post get pm Q.
Proof. apply post_get. Qed.

Lemma st_deref p pm P H T U (Q : node_t → pool_mgr_t → Prop) :
  core_is pm P H T U →
  (∀ i, p = Some i → (i < length H)%nat → Q (nd H i) pm) →
  post (deref p) pm Q.
Proof.
  intros (_&<-&_) HQ. apply post_deref. intros i n -> Hn.
  rewrite <- (nd_lookup _ _ _ Hn). apply HQ; [reflexivity|].
  apply lookup_lt_is_Some_1. eauto.
Qed.

Lemma st_store p f pm P H T U (Q : unit → pool_mgr_t → Prop) :
  core_is pm P H T U →
  (∀ i pm', p = Some i → (i < length H)%nat →
            core_is pm' P (<[i := f (nd H i)]> H) T U → Q tt pm') →
  post (store p f) pm Q.
Proof.
  intros (<-&<-&<-&<-) HQ. apply post_store. intros i n -> Hn.
  eapply HQ; [reflexivity| |].
  - apply lookup_lt_is_Some_1. eauto.
  - rewrite (nd_lookup _ _ _ Hn). repeat split.
Qed.

Lemma st_pool f pm P H T U (Q : unit → pool_mgr_t → Prop) :
  core_is pm P H T U →
  (∀ pm', core_is pm' (f P) H T U → Q tt pm') →
  post (modify (with_pool f)) pm Q.
Proof.
  intros (<-&<-&<-&<-) HQ. apply post_modify, HQ. repeat split.
Qed.

Lemma st_used f pm P H T U (Q : unit → pool_mgr_t → Prop) :
  core_is pm P H T U →
  (∀ pm', core_is pm' P H T (f U) → Q tt pm') →
  post (modify (λ pm, with_used_nodes (f (used_nodes pm)) pm)) pm Q.
Proof.
  intros (<-&<-&<-&<-) HQ. apply post_modify, HQ. repeat split.
Qed.

Lemma st_remove size node pm P H T U (Q : alloc_status → pool_mgr_t → Prop) :
  core_is pm P H T U →
  (∀ pm', core_is pm' (set_num_gaps (u32 (num_gaps P - 1)) P) H T U → Q ALLOC_OK pm') →
  post (_mem_remove_from_gap_ix size node) pm Q.
Proof.
  intros (<-&<-&<-&<-) HQ. eapply post_mono; [apply remove_frame|].
  intros st pm' [-> (?&?&?&?)]. apply HQ. repeat split; assumption.
Qed.

Lemma st_add size node pm P H T U (Q : alloc_status → pool_mgr_t → Prop) :
  core_is pm P H T U →
  (∀ pm', core_is pm' (set_num_gaps (u32 (num_gaps P + 1)) P) H T U → Q ALLOC_OK pm') →
  post (_mem_add_to_gap_ix size node) pm Q.
Proof.
  intros (<-&<-&<-&<-) HQ. eapply post_mono; [apply add_frame|].
  intros st pm' [-> (?&?&?&?)]. apply HQ. repeat split; assumption.
Qed.

(** ** The linked list under merges and splits *)

Lemma shape_touch v v' r : shape v r → touch v v' → shape v' r.
Proof.
  intros [Hn Hp Hu [Hh1 Hh2]] Ht. split.
  - intros i j. destruct (Ht i) as (->&_), (Ht j) as (_&->&_). apply Hn.
  - intros i j. destruct (Ht i) as (->&_), (Ht j) as (_&->&_). apply Hp.
  - intros i. destruct (Ht i) as (->&->&Hz&Hs). intros H0. apply Hz in H0.
    destruct (Hu i H0) as (?&?&?). repeat split; auto.
    destruct (Hs H0); congruence.
  - destruct (Ht 0%nat) as (_&->&Hz&_). split; [|assumption]. tauto.
Qed.

Lemma shape_absorb v r a b sz :
  shape v r → next (v a) = Some b → shape (absorb_v a b sz v) r.
Proof.
  intros Hs Hab.
  destruct (sh_next _ _ Hs a b Hab) as [Hba Hr].
  assert (a ≠ b) by (intros ->; lia).
  assert (Hz : ∀ z, next (v b) = Some z → z ≠ a ∧ z ≠ b ∧ prev (v z) = Some b).
  { intros z Hz. destruct (sh_next _ _ Hs b z Hz). repeat split; auto; intros ->; lia. }
  split.
  - intros i j. unfold absorb_v.
    destruct (decide (i = b)) as [->|Hib]; [discriminate|].
    destruct (decide (i = a)) as [->|Hia].
    + simpl. intros Hj. destruct (Hz _ Hj) as (?&?&?).
      destruct (sh_next _ _ Hs b j Hj).
      rewrite !decide_False by auto. rewrite decide_True by auto. simpl. split; [auto|lia].
    + assert (next (if decide (next (v b) = Some i) then set_prev (Some a) (v i) else v i)
              = next (v i)) as -> by (destruct (decide _); reflexivity).
      intros Hj. destruct (sh_next _ _ Hs i j Hj) as [Hji Hrr]. split; [|auto].
      destruct (decide (j = b)) as [->|]; [congruence|].
      destruct (decide (j = a)) as [->|]; [assumption|].
      destruct (decide (next (v b) = Some j)) as [Hbj|]; [|assumption].
      destruct (Hz _ Hbj) as (?&?&?). congruence.
  - intros i j. unfold absorb_v.
    destruct (decide (j = b)) as [->|Hjb]; [discriminate|].
    destruct (decide (j = a)) as [->|Hja].
    + simpl. intros Hi. pose proof (sh_prev _ _ Hs i a Hi) as Hia.
      destruct (sh_next _ _ Hs i a Hia).
      assert (i ≠ b) by (intros ->; lia). assert (i ≠ a) by (intros ->; lia).
      rewrite !decide_False by auto. destruct (decide _); assumption.
    + destruct (decide (next (v b) = Some j)) as [Hbj|Hbj].
      * simpl. intros [= <-]. rewrite decide_False, decide_True by auto. assumption.
      * intros Hi. pose proof (sh_prev _ _ Hs i j Hi) as Hij.
        destruct (decide (i = b)) as [->|]; [congruence|].
        destruct (decide (i = a)) as [->|]; [congruence|].
        destruct (decide _); assumption.
  - intros i. unfold absorb_v.
    destruct (decide (i = b)) as [->|Hib]; [simpl; auto|].
    destruct (decide (i = a)) as [->|Hia].
    + simpl. intros H0. destruct (sh_unused _ _ Hs a H0) as (?&_). congruence.
    + destruct (decide (next (v b) = Some i)) as [Hbi|]; [|apply (sh_unused _ _ Hs)].
      simpl. intros H0. destruct (Hz _ Hbi) as (_&_&?).
      destruct (sh_unused _ _ Hs i H0) as (_&?&_). congruence.
  - destruct (sh_head _ _ Hs) as [Hh1 Hh2]. unfold absorb_v.
    assert (0%nat ≠ b) by (intros <-; congruence).
    rewrite decide_False by auto.
    destruct (decide (0%nat = a)) as [<-|]; [simpl; auto|].
    destruct (decide _) as [Hb0|]; [|auto].
    destruct (Hz _ Hb0) as (_&_&?). congruence.
Qed.

Lemma shape_splice v r s u m sz :
  shape v r → used (v s) ≠ 0 → used (v u) = 0 →
  shape (splice_v s u m sz v) (λ i, if decide (i = u) then 2 * r s + 1 else 2 * r i)%nat.
Proof.
  intros Hs Hus Huu.
  destruct (sh_unused _ _ Hs u Huu) as (Hun & Hup & _).
  assert (u ≠ s) by (intros ->; congruence).
  assert (Ht : ∀ t, next (v s) = Some t → t ≠ u ∧ t ≠ s ∧ prev (v t) = Some s ∧ (r s < r t)%nat).
  { intros t Ht. destruct (sh_next _ _ Hs s t Ht). repeat split; auto; intros ->; [congruence|lia]. }
  assert (Hnu : ∀ i, next (v i) ≠ Some u).
  { intros i Hi. destruct (sh_next _ _ Hs i u Hi). congruence. }
  split.
  - intros i j. unfold splice_v.
    destruct (decide (i = u)) as [->|Hiu].
    + simpl. intros Hj. destruct (Ht _ Hj) as (?&?&?&?).
      rewrite !(decide_False (P := j = u)), !(decide_False (P := j = s)) by auto.
      rewrite decide_True by auto. simpl. split; [auto|lia].
    + destruct (decide (i = s)) as [->|His].
      * simpl. intros [= <-]. rewrite !decide_True by auto. simpl.
        rewrite ?decide_False by auto. split; [auto|lia].
      * assert (next (if decide (next (v s) = Some i) then set_prev (Some u) (v i) else v i)
              = next (v i)) as -> by (destruct (decide _); reflexivity).
        intros Hj. destruct (sh_next _ _ Hs i j Hj) as [Hji Hrr].
        destruct (decide (j = u)) as [->|]; [exfalso; eapply Hnu; eauto|].
        split; [|lia].
        destruct (decide (j = s)) as [->|]; [assumption|].
        destruct (decide (next (v s) = Some j)) as [Hsj|]; [|assumption].
        destruct (Ht _ Hsj) as (?&?&?&?). congruence.
  - intros i j. unfold splice_v.
    destruct (decide (j = u)) as [->|Hju].
    + simpl. intros [= <-]. rewrite decide_False, decide_True by auto. reflexivity.
    + destruct (decide (j = s)) as [->|Hjs].
      * simpl. intros Hi. pose proof (sh_prev _ _ Hs i s Hi) as His.
        destruct (sh_next _ _ Hs i s His).
        assert (i ≠ s) by (intros ->; lia). assert (i ≠ u) by (intros ->; congruence).
        rewrite !decide_False by auto. destruct (decide _); assumption.
      * destruct (decide (next (v s) = Some j)) as [Hsj|Hsj].
        -- simpl. intros [= <-]. rewrite decide_True by auto. simpl. assumption.
        -- intros Hi. pose proof (sh_prev _ _ Hs i j Hi) as Hij.
           destruct (decide (i = u)) as [->|]; [congruence|].
           destruct (decide (i = s)) as [->|]; [congruence|].
           destruct (decide _); assumption.
  - intros i. unfold splice_v.
    destruct (decide (i = u)) as [->|Hiu]; [simpl; lia|].
    destruct (decide (i = s)) as [->|His]; [simpl; intros; congruence|].
    destruct (decide (next (v s) = Some i)) as [Hsi|]; [|apply (sh_unused _ _ Hs)].
    simpl. intros H0. destruct (Ht _ Hsi) as (_&_&?&_).
    destruct (sh_unused _ _ Hs i H0) as (_&?&_). congruence.
  - destruct (sh_head _ _ Hs) as [Hh1 Hh2]. unfold splice_v.
    assert (0%nat ≠ u) by (intros <-; congruence).
    rewrite decide_False by auto.
    destruct (decide (0%nat = s)) as [<-|]; [simpl; auto|].
    destruct (decide _) as [Hb0|]; [|auto].
    destruct (Ht _ Hb0) as (_&_&?&_). congruence.
Qed.

Lemma noadj_mark v v' x :
  (∀ j, next (v' j) = next (v j)) →
  (∀ j, j ≠ x → allocated (v' j) = allocated (v j)) →
  noadj v → noadj_but x v'.
Proof.
  intros Hn Ha H i j Hij Hi Hj.
  destruct (decide (i = x)); [auto|]. destruct (decide (j = x)); [auto|].
  exfalso. apply (H i j); rewrite <- ?Hn, <- ?Ha; auto.
Qed.

Lemma noadj_but_same v v' x :
  (∀ j, next (v' j) = next (v j) ∧ allocated (v' j) = allocated (v j)) →
  noadj_but x v → noadj_but x v'.
Proof.
  intros Hs H i j Hij Hi Hj. destruct (Hs i) as [En Ea], (Hs j) as [_ Ea'].
  apply (H i j); congruence.
Qed.

Lemma noadj_less v v' :
  (∀ j, next (v' j) = next (v j)) →
  (∀ j, allocated (v' j) = 0 → allocated (v j) = 0) →
  noadj v → noadj v'.
Proof.
  intros Hn Ha H i j Hij Hi Hj. apply (H i j); rewrite <- ?Hn; auto.
Qed.

Lemma absorb_allocated a b sz v j :
  allocated (absorb_v a b sz v j) = allocated (v j).
Proof.
  unfold absorb_v. repeat (destruct (decide _)); subst; reflexivity.
Qed.

Lemma absorb_next_other a b sz v i :
  i ≠ a → i ≠ b → next (absorb_v a b sz v i) = next (v i).
Proof.
  intros. unfold absorb_v. rewrite !decide_False by auto. destruct (decide _); reflexivity.
Qed.

Lemma noadj_but_absorb v r a b sz :
  shape v r → next (v a) = Some b → noadj_but a v → noadj_but a (absorb_v a b sz v).
Proof.
  intros Hs Hab H i j Hij Hi Hj. rewrite absorb_allocated in Hi, Hj.
  destruct (decide (i = a)); [auto|].
  destruct (decide (i = b)) as [->|].
  { unfold absorb_v in Hij. rewrite decide_True in Hij by auto. discriminate. }
  rewrite absorb_next_other in Hij by auto.
  destruct (H i j Hij Hi Hj); auto.
Qed.

Lemma absorb_next_free v r a b sz :
  shape v r → next (v a) = Some b → allocated (v b) = 0 → noadj_but a v →
  ∀ z, next (absorb_v a b sz v a) = Some z → allocated (absorb_v a b sz v z) ≠ 0.
Proof.
  intros Hs Hab Hb H z Hz Hfree. rewrite absorb_allocated in Hfree.
  destruct (sh_next _ _ Hs a b Hab) as [_ Hr].
  assert (a ≠ b) by (intros ->; lia).
  unfold absorb_v in Hz. rewrite decide_False, decide_True in Hz by auto. simpl in Hz.
  destruct (sh_next _ _ Hs b z Hz) as [_ Hr'].
  destruct (H b z Hz Hb Hfree) as [->| ->]; lia.
Qed.

Lemma noadj_absorb v r a b sz :
  shape v r → next (v a) = Some b → noadj_but b v →
  (∀ z, next (v b) = Some z → allocated (v z) ≠ 0) →
  noadj (absorb_v a b sz v).
Proof.
  intros Hs Hab H Hz i j Hij Hi Hj. rewrite absorb_allocated in Hi, Hj.
  destruct (sh_next _ _ Hs a b Hab) as [Hba Hr].
  assert (a ≠ b) by (intros ->; lia).
  destruct (decide (i = b)) as [->|].
  { unfold absorb_v in Hij. rewrite decide_True in Hij by auto. discriminate. }
  destruct (decide (i = a)) as [->|].
  { unfold absorb_v in Hij. rewrite decide_False, decide_True in Hij by auto. simpl in Hij.
    eapply Hz; eauto. }
  rewrite absorb_next_other in Hij by auto.
  destruct (H i j Hij Hi Hj) as [->| ->]; [congruence|].
  destruct (sh_next _ _ Hs i b Hij). congruence.
Qed.

Lemma noadj_but_close v r x :
  shape v r → noadj_but x v →
  (∀ z, next (v x) = Some z → allocated (v z) ≠ 0) →
  (∀ p, prev (v x) = Some p → allocated (v p) ≠ 0) →
  noadj v.
Proof.
  intros Hs H Hn Hp i j Hij Hi Hj.
  destruct (H i j Hij Hi Hj) as [->| ->].
  - eapply Hn; eauto.
  - destruct (sh_next _ _ Hs i x Hij). eapply Hp; eauto.
Qed.

Lemma noadj_splice v r s u m sz :
  shape v r → noadj v → allocated (v s) ≠ 0 → used (v s) ≠ 0 → used (v u) = 0 →
  (∀ t, next (v s) = Some t → allocated (v t) ≠ 0) →
  noadj (splice_v s u m sz v).
Proof.
  intros Hs H Has Hus Huu Ht i j Hij Hi Hj.
  destruct (sh_unused _ _ Hs u Huu) as (Hun & Hup & _).
  assert (u ≠ s) by (intros ->; congruence).
  assert (Hal : ∀ k, k ≠ u → allocated (splice_v s u m sz v k) = allocated (v k)).
  { intros k Hk. unfold splice_v. rewrite decide_False by auto.
    repeat (destruct (decide _)); subst; reflexivity. }
  destruct (decide (i = u)) as [->|Hiu].
  - unfold splice_v in Hij. rewrite decide_True in Hij by auto. simpl in Hij.
    destruct (sh_next _ _ Hs s j Hij) as [Hjs _].
    assert (j ≠ u) by (intros ->; congruence).
    rewrite Hal in Hj by auto. eapply Ht; eauto.
  - rewrite Hal in Hi by auto.
    destruct (decide (i = s)) as [->|His]; [congruence|].
    unfold splice_v in Hij. rewrite !decide_False in Hij by auto.
    assert (next (v i) = Some j) as Hij' by (destruct (decide _); exact Hij).
    destruct (sh_next _ _ Hs i j Hij') as [Hji _].
    assert (j ≠ u) by (intros ->; congruence).
    rewrite Hal in Hj by auto. eapply H; eauto.
Qed.

(** ** Counting the slots in use *)

Lemma nd_cons_0 n h : nd (n :: h) 0%nat = n.
Proof. reflexivity. Qed.

Lemma nd_cons_S n h i : nd (n :: h) (S i) = nd h i.
Proof. reflexivity. Qed.

Lemma count_cons n h :
  count_used (n :: h) = ((if decide (used n ≠ 0)%Z then 1 else 0) + count_used h)%nat.
Proof.
  unfold count_used. rewrite filter_cons. destruct (decide _); reflexivity.
Qed.

Lemma count_le h : (count_used h ≤ length h)%nat.
Proof. apply length_filter. Qed.

Lemma count_same h : ∀ h',
  length h' = length h →
  (∀ j, used (nd h' j) = 0 ↔ used (nd h j) = 0) →
  count_used h' = count_used h.
Proof.
  induction h as [|n h IH]; intros [|n' h'] Hl Hj; try discriminate; [reflexivity|].
  rewrite !count_cons. rewrite (IH h').
  - pose proof (Hj 0%nat) as H0. rewrite !nd_cons_0 in H0.
    repeat destruct (decide _); tauto || lia.
  - simpl in Hl. lia.
  - intros j. apply (Hj (S j)).
Qed.

Lemma count_drop h : ∀ h' b,
  length h' = length h → (b < length h)%nat →
  (∀ j, j ≠ b → (used (nd h' j) = 0 ↔ used (nd h j) = 0)) →
  used (nd h b) ≠ 0 → used (nd h' b) = 0 →
  count_used h = S (count_used h').
Proof.
  induction h as [|n h IH]; intros [|n' h'] b Hl Hb Hj H1 H2; simpl in *; try lia.
  rewrite !count_cons. destruct b as [|b].
  - rewrite nd_cons_0 in H1, H2.
    rewrite (count_same h h'); [|lia|intros j; apply (Hj (S j)); lia].
    rewrite decide_True by auto.
    rewrite decide_False by (intros ?; auto). lia.
  - rewrite nd_cons_S in H1, H2.
    rewrite (IH h' b); [|lia|lia| |auto|auto].
    + pose proof (Hj 0%nat ltac:(lia)) as H0. rewrite !nd_cons_0 in H0.
      repeat destruct (decide _); tauto || lia.
    + intros j Hne. apply (Hj (S j)). lia.
Qed.

Lemma count_full h :
  (∀ i, (i < length h)%nat → used (nd h i) ≠ 0) → count_used h = length h.
Proof.
  induction h as [|n h IH]; intros H; [reflexivity|].
  rewrite count_cons, IH.
  - pose proof (H 0%nat ltac:(simpl; lia)) as H0. rewrite nd_cons_0 in H0.
    rewrite decide_True by auto. reflexivity.
  - intros i Hi. apply (H (S i)). simpl. lia.
Qed.

Lemma count_pos h : used (nd h 0%nat) ≠ 0 → (1 ≤ count_used h)%nat.
Proof.
  destruct h as [|n h]; [intros H; exfalso; apply H; reflexivity|].
  rewrite nd_cons_0, count_cons. intros H. rewrite decide_True by auto. lia.
Qed.

(** ** Symbolic execution of the node-level code *)

Ltac fields :=
  cbn [next prev used allocated alloc_record a_size a_mem
       set_next set_prev set_used set_allocated set_size set_mem retired].

Ltac fields_in C :=
  cbn [next prev used allocated alloc_record a_size a_mem
       set_next set_prev set_used set_allocated set_size set_mem retired] in C.

Ltac use_links :=
  repeat match goal with
         | H : next (nd _ _) = _ |- _ => rewrite H
         | H : prev (nd _ _) = _ |- _ => rewrite H
         end.

Ltac simp_nd :=
  repeat first
    [ rewrite nd_insert by (rewrite ?length_insert; assumption)
    | rewrite decide_True by (reflexivity || assumption || congruence)
    | rewrite decide_False by (assumption || congruence)
    | progress fields
    | progress use_links ].

Ltac simp_nd_in C :=
  repeat first
    [ rewrite nd_insert in C by (rewrite ?length_insert; assumption)
    | rewrite decide_True in C by (reflexivity || assumption || congruence)
    | rewrite decide_False in C by (assumption || congruence)
    | progress fields_in C ].

Ltac ptr_eq E :=
  first [ discriminate E | injection E as <- | idtac ].

Ltac step :=
  cbv beta iota zeta;
  lazymatch goal with
  | |- post (bind _ _) _ _ => apply post_bind
  | |- post (ret _) _ _ => apply post_ret
  | |- post get _ _ => apply st_get
  | |- post (deref _) _ _ =>
      eapply st_deref; [eassumption|];
      let i := fresh "i" in let E := fresh "E" in let L := fresh "L" in
      simp_nd; intros i E L; ptr_eq E; rewrite ?length_insert in L; simp_nd
  | |- post (store _ _) _ _ =>
      eapply st_store; [eassumption|];
      let i := fresh "i" in let pm := fresh "pm" in
      let E := fresh "E" in let L := fresh "L" in let C := fresh "C" in
      simp_nd; intros i pm E L C; ptr_eq E; rewrite ?length_insert in L;
      simp_nd_in C
  | |- post (modify (with_pool _)) _ _ =>
      eapply st_pool; [eassumption|];
      let pm := fresh "pm" in let C := fresh "C" in intros pm C
  | |- post (modify (λ pm, with_used_nodes (u32 (used_nodes pm - 1)) pm)) _ _ =>
      eapply (st_used (λ u, u32 (u - 1))); [eassumption|];
      let pm := fresh "pm" in let C := fresh "C" in intros pm C
  | |- post (modify (λ pm, with_used_nodes (u32 (used_nodes pm + 1)) pm)) _ _ =>
      eapply (st_used (λ u, u32 (u + 1))); [eassumption|];
      let pm := fresh "pm" in let C := fresh "C" in intros pm C
  | |- post (_mem_remove_from_gap_ix _ _) _ _ =>
      eapply st_remove; [eassumption|];
      let pm := fresh "pm" in let C := fresh "C" in intros pm C
  | |- post (_mem_add_to_gap_ix _ _) _ _ =>
      eapply st_add; [eassumption|];
      let pm := fresh "pm" in let C := fresh "C" in intros pm C
  end.

Ltac steps := repeat step.

Ltac finish_view :=
  let j := fresh "j" in
  intros j;
  repeat (rewrite nd_insert by (rewrite ?length_insert; assumption));
  repeat case_decide; simplify_eq; fields; use_links; try reflexivity; try congruence.

Lemma merge_next_body_post pm P H T U x y :
  core_is pm P H T U → next (nd H x) = Some y → x ≠ y →
  (∀ z, next (nd H y) = Some z → z ≠ x ∧ z ≠ y) →
  post (merge_next_body (Some x)) pm
       (λ _ pm', ∃ H',
          core_is pm' (set_num_gaps (u32 (num_gaps P - 1)) P) H' T (u32 (U - 1)) ∧
          length H' = length H ∧
          ∀ j, nd H' j =
               absorb_v x y (u64 (a_size (alloc_record (nd H x)) +
                                  a_size (alloc_record (nd H y)))) (nd H) j).
Proof.
  intros C0 Hxy Hne Hz. unfold merge_next_body.
  steps.
  destruct (next (nd H y)) as [z|] eqn:Ez.
  - destruct (Hz z eq_refl) as [Hzx Hzy].
    steps. eexists. split; [eassumption|]. split; [rewrite !length_insert; reflexivity|].
    unfold absorb_v. rewrite Ez. finish_view.
  - steps. eexists. split; [eassumption|]. split; [rewrite !length_insert; reflexivity|].
    unfold absorb_v. rewrite Ez. finish_view.
Qed.

Lemma merge_prev_body_post pm P H T U x p :
  core_is pm P H T U → prev (nd H x) = Some p → p ≠ x →
  (∀ z, next (nd H x) = Some z → z ≠ x ∧ z ≠ p) →
  post (merge_prev_body (Some x)) pm
       (λ st pm', st = ALLOC_OK ∧ ∃ H',
          core_is pm' (set_num_gaps (u32 (u32 (u32 (num_gaps P - 1) - 1) + 1)) P) H' T
                  (u32 (U - 1)) ∧
          length H' = length H ∧
          ∀ j, nd H' j =
               absorb_v p x (u64 (a_size (alloc_record (nd H x)) +
                                  a_size (alloc_record (nd H p)))) (nd H) j).
Proof.
  intros C0 Hxp Hne Hz. unfold merge_prev_body.
  steps.
  destruct (next (nd H x)) as [z|] eqn:Ez.
  - destruct (Hz z eq_refl) as [Hzx Hzy].
    steps. split; [reflexivity|].
    eexists. split; [eassumption|].
    split; [rewrite !length_insert; reflexivity|].
    unfold absorb_v. rewrite Ez. finish_view.
  - steps. split; [reflexivity|].
    eexists. split; [eassumption|].
    split; [rewrite !length_insert; reflexivity|].
    unfold absorb_v. rewrite Ez. finish_view.
Qed.

Lemma shape_ext v v' r : (∀ j, v' j = v j) → shape v r → shape v' r.
Proof.
  intros E [Hn Hp Hu Hh]. split.
  - intros i j. rewrite !E. apply Hn.
  - intros i j. rewrite !E. apply Hp.
  - intros i. rewrite !E. apply Hu.
  - rewrite !E. exact Hh.
Qed.

Lemma noadj_ext v v' : (∀ j, v' j = v j) → noadj v → noadj v'.
Proof. intros E H i j. rewrite !E. apply H. Qed.

Lemma noadj_but_ext x v v' : (∀ j, v' j = v j) → noadj_but x v → noadj_but x v'.
Proof. intros E H i j. rewrite !E. apply H. Qed.

Lemma touch_insert H i n' :
  (i < length H)%nat →
  next n' = next (nd H i) → prev n' = prev (nd H i) →
  (used n' = 0 ↔ used (nd H i) = 0) →
  (used (nd H i) = 0 →
   a_size (alloc_record n') = a_size (alloc_record (nd H i)) ∨ a_size (alloc_record n') = 0) →
  touch (nd H) (nd (<[i := n']> H)).
Proof.
  intros Hi Hn Hp Hu Hs j. rewrite nd_insert by assumption.
  destruct (decide (j = i)) as [->|]; [auto|]. tauto.
Qed.

Lemma is_gap_post p pm P H T U :
  core_is pm P H T U →
  post (is_gap p) pm
       (λ b pm',
          if b then
            ∃ i, p = Some i ∧ (i < length H)%nat ∧ allocated (nd H i) = 0 ∧
                 core_is pm' P (<[i := set_used 1 (nd H i)]> H) T U
          else pm' = pm ∧ ∀ i, p = Some i → allocated (nd H i) ≠ 0).
Proof.
  intros C. unfold is_gap. destruct p as [i|]; [|apply post_ret; split; [auto|discriminate]].
  step. step. destruct (allocated (nd H i) =? 0) eqn:Ea.
  - step. step. step. exists i. apply Z.eqb_eq in Ea. auto.
  - step. split; [reflexivity|]. intros ? [= <-]. apply Z.eqb_neq in Ea. exact Ea.
Qed.

Lemma pool_step_refl P c : pool_step P P c c.
Proof. repeat split; auto. Qed.

Lemma u32_range x : 0 ≤ u32 x < 2 ^ 32.
Proof. unfold u32. apply Z.mod_pos_bound. lia. Qed.

Lemma u32_small x : 0 ≤ x < 2 ^ 32 → u32 x = x.
Proof. unfold u32. apply Z.mod_small. Qed.

Lemma merge_next_inv pm P H T x r :
  core_is pm P H T (Z.of_nat (count_used H)) → (length H ≤ 40)%nat →
  shape (nd H) r → noadj_but x (nd H) → allocated (nd H x) = 0 →
  post (merge_next (Some x)) pm
       (λ _ pm', ∃ P' H',
          core_is pm' P' H' T (Z.of_nat (count_used H')) ∧
          length H' = length H ∧ shape (nd H') r ∧ noadj_but x (nd H') ∧
          allocated (nd H' x) = 0 ∧
          (∀ z, next (nd H' x) = Some z → allocated (nd H' z) ≠ 0) ∧
          pool_step P P' (count_used H) (count_used H')).
Proof.
  intros C Hlen Hs Hna Hax. unfold merge_next. step. step. step.
  eapply post_mono; [eapply is_gap_post; eassumption|].
  intros [] pm1.
  - intros (y & Hxy & Ly & Hay & C1).
    destruct (sh_next _ _ Hs x y Hxy) as [Hyx Hr].
    assert (x ≠ y) by (intros ->; lia).
    set (H2 := <[y := set_used 1 (nd H y)]> H) in *.
    assert (Hy_used : used (nd H y) ≠ 0).
    { intros Hu0. destruct (sh_unused _ _ Hs y Hu0) as (_&?&_). congruence. }
    assert (Ht : touch (nd H) (nd H2)).
    { apply touch_insert; auto; simpl; [split; [lia|tauto]]. }
    assert (Hs2 : shape (nd H2) r) by (eapply shape_touch; eauto).
    assert (E2 : ∀ j, next (nd H2 j) = next (nd H j) ∧ allocated (nd H2 j) = allocated (nd H j)).
    { intros j. unfold H2. rewrite nd_insert by assumption.
      destruct (decide _) as [->|]; auto. }
    assert (Hxy2 : next (nd H2 x) = Some y) by (rewrite (proj1 (E2 x)); exact Hxy).
    assert (Hna2 : noadj_but x (nd H2)) by (eapply noadj_but_same; eauto).
    assert (Hc2 : count_used H2 = count_used H).
    { apply count_same; [apply length_insert|]. intros j. apply Ht. }
    eapply post_mono.
    { eapply merge_next_body_post; [exact C1|exact Hxy2|assumption|].
      intros z Hz. destruct (sh_next _ _ Hs2 y z Hz). split; intros ->; lia. }
    intros [] pm2 (H' & C2 & Hl & Hv).
    assert (Hl' : length H' = length H) by (rewrite Hl; apply length_insert).
    assert (Hc : count_used H = S (count_used H')).
    { rewrite <- Hc2. apply (count_drop H2 H' y).
      - assumption.
      - unfold H2. rewrite length_insert. assumption.
      - intros j Hj. rewrite Hv. unfold absorb_v. rewrite decide_False by assumption.
        repeat (destruct (decide _)); subst; fields; tauto.
      - destruct (Ht y) as (_&_&Hu&_). tauto.
      - rewrite Hv. unfold absorb_v. rewrite decide_True by reflexivity. reflexivity. }
    exists (set_num_gaps (u32 (num_gaps P - 1)) P), H'.
    split.
    { replace (Z.of_nat (count_used H')) with (u32 (Z.of_nat (count_used H) - 1)); [exact C2|].
      pose proof (count_le H). rewrite u32_small; lia. }
    split; [assumption|].
    split; [eapply shape_ext; [exact Hv|]; eapply shape_absorb; eauto|].
    split; [eapply noadj_but_ext; [exact Hv|]; eapply noadj_but_absorb; eauto|].
    split.
    { rewrite Hv, absorb_allocated, (proj2 (E2 x)). assumption. }
    split.
    { intros z. rewrite !Hv. eapply absorb_next_free; eauto.
      rewrite (proj2 (E2 y)). assumption. }
    repeat split; simpl; auto.
    + intros _. apply u32_range.
    + rewrite Hc. unfold u32. rewrite Nat2Z.inj_succ.
      replace (num_gaps P - Z.succ (Z.of_nat (count_used H')))
        with (num_gaps P - 1 - Z.of_nat (count_used H')) by lia.
      rewrite Zminus_mod_idemp_l. reflexivity.
  - intros [-> Hnf]. step. exists P, H.
    split; [assumption|]. split; [reflexivity|]. split; [assumption|].
    split; [assumption|]. split; [assumption|]. split; [|apply pool_step_refl].
    intros z Hz. apply Hnf. assumption.
Qed.

Ltac mod32 := unfold u32 in *; Z.div_mod_to_equations; lia.

Lemma merge_prev_inv pm P H T x r :
  core_is pm P H T (Z.of_nat (count_used H)) → (length H ≤ 40)%nat →
  shape (nd H) r → noadj_but x (nd H) → allocated (nd H x) = 0 →
  (∀ z, next (nd H x) = Some z → allocated (nd H z) ≠ 0) →
  post (merge_prev (Some x)) pm
       (λ st pm', st = ALLOC_OK ∧ ∃ P' H',
          core_is pm' P' H' T (Z.of_nat (count_used H')) ∧
          length H' = length H ∧ shape (nd H') r ∧ noadj (nd H') ∧
          pool_step P P' (count_used H) (count_used H')).
Proof.
  intros C Hlen Hs Hna Hax Hnx. unfold merge_prev. step. step. step.
  eapply post_mono; [eapply is_gap_post; eassumption|].
  intros [] pm1.
  - intros (p & Hxp & Lp & Hap & C1).
    pose proof (sh_prev _ _ Hs p x Hxp) as Hpx.
    destruct (sh_next _ _ Hs p x Hpx) as [_ Hr].
    assert (p ≠ x) by (intros ->; lia).
    set (H2 := <[p := set_used 1 (nd H p)]> H) in *.
    assert (Hp_used : used (nd H p) ≠ 0).
    { intros Hu0. destruct (sh_unused _ _ Hs p Hu0) as (?&_). congruence. }
    assert (Hx_used : used (nd H x) ≠ 0).
    { intros Hu0. destruct (sh_unused _ _ Hs x Hu0) as (_&?&_). congruence. }
    assert (Ht : touch (nd H) (nd H2)).
    { apply touch_insert; auto; simpl; [split; [lia|tauto]]. }
    assert (Hs2 : shape (nd H2) r) by (eapply shape_touch; eauto).
    assert (E2 : ∀ j, next (nd H2 j) = next (nd H j) ∧ allocated (nd H2 j) = allocated (nd H j)).
    { intros j. unfold H2. rewrite nd_insert by assumption.
      destruct (decide _) as [->|]; auto. }
    assert (Hpx2 : next (nd H2 p) = Some x) by (rewrite (proj1 (E2 p)); exact Hpx).
    assert (Hxp2 : prev (nd H2 x) = Some p) by (destruct (Ht x) as (_&->&_); exact Hxp).
    assert (Hna2 : noadj_but x (nd H2)) by (eapply noadj_but_same; eauto).
    assert (Hc2 : count_used H2 = count_used H).
    { apply count_same; [apply length_insert|]. intros j. apply Ht. }
    eapply post_mono.
    { eapply merge_prev_body_post; [exact C1|exact Hxp2|assumption|].
      intros z Hz. destruct (sh_next _ _ Hs2 x z Hz). split; intros ->; lia. }
    intros st pm2 (-> & H' & C2 & Hl & Hv). split; [reflexivity|].
    assert (Hl' : length H' = length H) by (rewrite Hl; apply length_insert).
    assert (Hc : count_used H = S (count_used H')).
    { rewrite <- Hc2. apply (count_drop H2 H' x).
      - assumption.
      - unfold H2. rewrite length_insert.
        destruct (decide (x < length H)%nat); [assumption|].
        exfalso. apply Hx_used. rewrite nd_ge by lia. reflexivity.
      - intros j Hj. rewrite Hv. unfold absorb_v. rewrite decide_False by assumption.
        repeat (destruct (decide _)); subst; fields; tauto.
      - destruct (Ht x) as (_&_&Hu&_). tauto.
      - rewrite Hv. unfold absorb_v. rewrite decide_True by reflexivity. reflexivity. }
    exists (set_num_gaps (u32 (u32 (u32 (num_gaps P - 1) - 1) + 1)) P), H'.
    split.
    { replace (Z.of_nat (count_used H')) with (u32 (Z.of_nat (count_used H) - 1)); [exact C2|].
      pose proof (count_le H). rewrite u32_small; lia. }
    split; [assumption|].
    split; [eapply shape_ext; [exact Hv|]; eapply shape_absorb; eauto|].
    split.
    { eapply noadj_ext; [exact Hv|]. eapply noadj_absorb; eauto.
      intros z Hz. rewrite (proj2 (E2 z)). apply Hnx. rewrite <- (proj1 (E2 x)). exact Hz. }
    repeat split; simpl; auto.
    + intros _. apply u32_range.
    + rewrite Hc. mod32.
  - intros [-> Hnf]. step. split; [reflexivity|]. exists P, H.
    split; [assumption|]. split; [reflexivity|]. split; [assumption|].
    split; [|apply pool_step_refl].
    eapply noadj_but_close; eauto.
Qed.

(** ** [mem_del_alloc] keeps the invariant *)

Lemma read_alloc_post alloc pm : post (read_alloc alloc) pm (λ _ pm', pm' = pm).
Proof.
  destruct alloc as [i|a]; [|apply post_ret; reflexivity].
  unfold read_alloc. apply post_bind, post_deref. intros. apply post_ret. reflexivity.
Qed.

Lemma found_or_post junk r pm :
  post (found_or junk r) pm
       (λ p pm', pm' = pm ∧
                 match r with Hit i => p = Some i | Miss => p = junk | OutOfBounds => False end).
Proof. destruct r; simpl; try apply post_ret; auto. exact I. Qed.

Lemma del_inv junk alloc pm :
  Inv pm →
  post (mem_del_alloc junk alloc) pm
       (λ st pm', Inv pm' ∧ (st = ALLOC_OK ∨ (st = ALLOC_NOT_FREED ∧ pm' = pm))).
Proof.
  intros [Hlen Htot [r Hs] Hna Hcnt Hctr [Hr1 Hr2] Hmem].
  unfold mem_del_alloc. apply post_bind.
  eapply post_mono; [apply read_alloc_post|]. intros a ? ->.
  step. step. step.
  eapply post_mono; [apply found_or_post|]. intros ntd ? [-> _].
  destruct ntd as [x|].
  2:{ step. split; [|auto]. split; eauto. }
  pose proof (core_is_intro pm) as C. rewrite Hcnt in C.
  set (H := node_heap pm) in *. set (P := pool pm) in *.
  step. step.
  set (H1 := <[x := set_allocated 0 (nd H x)]> H) in *.
  assert (Ht : touch (nd H) (nd H1)).
  { apply touch_insert; auto; simpl; tauto. }
  assert (Hs1 : shape (nd H1) r) by (eapply shape_touch; eauto).
  assert (Hna1 : noadj_but x (nd H1)).
  { eapply noadj_mark; [| |exact Hna].
    - intros j. apply Ht.
    - intros j Hj. unfold H1. rewrite nd_insert, decide_False by assumption. reflexivity. }
  assert (Hax : allocated (nd H1 x) = 0).
  { unfold H1. rewrite nd_insert, decide_True by auto. reflexivity. }
  assert (Hc1 : count_used H1 = count_used H).
  { apply count_same; [apply length_insert|]. intros j. apply Ht. }
  assert (Hl1 : length H1 = 40%nat) by (unfold H1; rewrite length_insert; assumption).
  rewrite <- Hc1 in C0.
  steps.
  eapply post_mono; [eapply merge_next_inv; eauto; lia|].
  intros [] pm3 (P2 & H2 & C3 & Hl2 & Hs2 & Hna2 & Hax2 & Hnx2 & Hp2).
  steps.
  eapply post_mono; [eapply merge_prev_inv; eauto; lia|].
  intros st pmf (-> & P4 & H4 & Cf & Hl4 & Hs4 & Hna4 & Hp4).
  split; [|auto].
  destruct Cf as (EP & EH & ET & EU).
  destruct Hp2 as (?&?&?&?&?&?&?), Hp4 as (?&?&?&?&?&?&?). simpl in *.
  split; rewrite ?EP, ?EH, ?ET, ?EU.
  - lia.
  - assumption.
  - eauto.
  - assumption.
  - reflexivity.
  - subst P. mod32.
  - split.
    + replace (num_allocs P4) with (u32 (num_allocs P - 1)) by congruence.
      apply u32_range.
    + match goal with Hg : 0 <= u32 _ → _ |- _ => apply Hg end. apply u32_range.
  - congruence.
Qed.

(** ** The search loops; [mem_new_alloc] keeps the invariant *)

Lemma scan_hit {A} (P : A → option bool) l : ∀ i n k,
  scan P l i n = Hit k →
  ∃ x, (i ≤ k)%nat ∧ l !! (k - i)%nat = Some x ∧ P x = Some true ∧
       ∀ j y, (j < k - i)%nat → l !! j = Some y → P y = Some false.
Proof.
  induction l as [|a l IH]; intros i n k; simpl.
  - destruct (Z.of_nat i <? n); discriminate.
  - destruct (Z.of_nat i <? n); [|discriminate].
    destruct (P a) as [[]|] eqn:Ea; [| |discriminate].
    + intros [= <-]. exists a. rewrite Nat.sub_diag. repeat split; auto. intros; lia.
    + intros Hk. destruct (IH _ _ _ Hk) as (x & Hik & Hx & Px & Hlt).
      exists x. split; [lia|]. replace (k - i)%nat with (S (k - S i)) by lia.
      split; [exact Hx|]. split; [exact Px|].
      intros [|j] y Hj; simpl; [intros [= <-]; exact Ea|].
      apply Hlt. lia.
Qed.

Lemma scan_miss {A} (P : A → option bool) l : ∀ i n,
  scan P l i n = Miss →
  ∀ j y, l !! j = Some y → Z.of_nat (i + j) < n → P y = Some false.
Proof.
  induction l as [|a l IH]; intros i n; simpl; [intros _ j y; rewrite lookup_nil; discriminate|].
  destruct (Z.of_nat i <? n) eqn:En.
  - destruct (P a) as [[]|] eqn:Ea; try discriminate.
    intros Hm [|j] y; simpl.
    + intros [= <-] _. exact Ea.
    + intros Hy Hj. apply (IH _ _ Hm j y Hy). lia.
  - intros _ j y _ Hj. apply Z.ltb_ge in En. lia.
Qed.

Lemma split_node_post junk size rem s u pm P H T U :
  core_is pm P H T U →
  scan (λ n, Some (used n =? 0)) H 0 T = Hit u →
  u ≠ s → (u < length H)%nat →
  (∀ t, next (nd H s) = Some t → t ≠ u ∧ t ≠ s) →
  post (split_node junk size rem (Some s)) pm
       (λ p pm', p = Some s ∧ ∃ H',
          core_is pm' (set_num_gaps (u32 (num_gaps P + 1)) P) H' T (u32 (U + 1)) ∧
          length H' = length H ∧
          ∀ j, nd H' j =
               splice_v s u (u64 (a_mem (alloc_record (nd H s)) + size)) rem (nd H) j).
Proof.
  intros C Hscan Hus Lu Ht. unfold split_node. step. step.
  destruct C as (EP & EH & ET & EU). rewrite EH, ET, Hscan.
  assert (C : core_is pm P H T U) by (repeat split; assumption).
  unfold found_or. steps.
  destruct (next (nd H s)) as [t|] eqn:Es.
  - destruct (Ht t eq_refl) as [Htu Hts].
    steps. split; [reflexivity|].
    eexists. split; [eassumption|].
    split; [rewrite !length_insert; reflexivity|].
    unfold splice_v. rewrite Es. finish_view.
  - steps. split; [reflexivity|].
    eexists. split; [eassumption|].
    split; [rewrite !length_insert; reflexivity|].
    unfold splice_v. rewrite Es. finish_view.
Qed.

Lemma first_fit_test_true size n :
  first_fit_test size n = Some true → allocated n = 0 ∧ size ≤ a_size (alloc_record n).
Proof.
  unfold first_fit_test. intros [= E]. apply andb_prop in E as [E1 E2].
  apply Z.eqb_eq in E1. apply Z.leb_le in E2. auto.
Qed.

Lemma select_node_post size pm :
  post (select_node size) pm
       (λ p pm', pm' = pm ∧
                 ∀ s, p = Some s →
                      (s < length (node_heap pm))%nat ∧
                      allocated (nd (node_heap pm) s) = 0 ∧
                      size ≤ a_size (alloc_record (nd (node_heap pm) s))).
Proof.
  unfold select_node. apply post_bind, post_get. destruct (policy (pool pm)).
  - destruct (scan _ _ _ _) as [i| |] eqn:Es; simpl; try exact I.
    + apply post_ret. split; [reflexivity|]. intros s [= <-].
      destruct (scan_hit _ _ _ _ _ Es) as (x & _ & Hx & Px & _).
      rewrite Nat.sub_0_r in Hx. rewrite (nd_lookup _ _ _ Hx).
      split; [apply lookup_lt_is_Some_1; eauto|]. apply first_fit_test_true. exact Px.
    + apply post_ret. split; [reflexivity|]. discriminate.
  - destruct (scan _ _ _ _) as [i| |] eqn:Es; simpl; try exact I.
    + destruct (scan_hit _ _ _ _ _ Es) as (g & _ & Hg & Pg & _).
      rewrite Nat.sub_0_r in Hg.
      apply post_bind. apply post_intro. intros g' pm' Hgap.
      unfold gap_at in Hgap. destruct (in_array _ _); [|discriminate].
      rewrite Nat2Z.id, Hg in Hgap. injection Hgap as <- <-.
      apply post_ret. split; [reflexivity|]. intros s Hs.
      unfold best_fit_test in Pg. rewrite Hs in Pg.
      destruct (node_heap pm !! s) as [n|] eqn:Hn; [|discriminate].
      rewrite (nd_lookup _ _ _ Hn).
      split; [apply lookup_lt_is_Some_1; eauto|]. apply first_fit_test_true. exact Pg.
    + apply post_ret. split; [reflexivity|]. discriminate.
Qed.

Lemma u64_range x : 0 ≤ u64 x < 2 ^ 64.
Proof. unfold u64. apply Z.mod_pos_bound. lia. Qed.

Lemma alloc_inv junk size pm :
  Inv pm → 0 ≤ size →
  post (mem_new_alloc junk size) pm
       (λ p pm', Inv pm' ∧ (p = None → pm' = pm ∧ gives_up size pm)).
Proof.
  intros HI Hsz. pose proof HI as [Hlen Htot [r Hs] Hna Hcnt Hctr [Hr1 Hr2] Hmem].
  unfold mem_new_alloc, gives_up. step. step.
  destruct (num_gaps (pool pm) =? 0) eqn:Eg; [apply Z.eqb_eq in Eg; step; auto|].
  destruct (total_nodes pm <=? used_nodes pm) eqn:Efull;
    [apply Z.leb_le in Efull; step; auto|].
  apply Z.leb_gt in Efull.
  step. apply post_intro. intros p pm1 Esel.
  destruct (post_elim _ _ _ _ _ (select_node_post size pm) Esel) as [-> Hsel].
  destruct p as [s|]; [|step; auto].
  destruct (Hsel s eq_refl) as (Ls & Has & Hfit). clear Hsel.
  pose proof (core_is_intro pm) as C. rewrite Hcnt in C.
  set (H := node_heap pm) in *. set (P := pool pm) in *.
  do 12 step.
  rewrite list_insert_insert_eq in C4.
  set (H1 := <[s := set_size size (set_allocated 1 (nd H s))]> H) in *.
  assert (Ht : touch (nd H) (nd H1)).
  { apply touch_insert; auto; simpl; try tauto.
    intros Hu. destruct (sh_unused _ _ Hs s Hu) as (_&_&Hz). lia. }
  assert (Hs1 : shape (nd H1) r) by (eapply shape_touch; eauto).
  assert (Eal : ∀ j, j ≠ s → allocated (nd H1 j) = allocated (nd H j)).
  { intros j Hj. unfold H1. rewrite nd_insert, decide_False by assumption. reflexivity. }
  assert (Has1 : allocated (nd H1 s) = 1).
  { unfold H1. rewrite nd_insert, decide_True by auto. reflexivity. }
  assert (Hna1 : noadj (nd H1)).
  { eapply noadj_less; [| |exact Hna].
    - intros j. apply Ht.
    - intros j Hj. destruct (decide (j = s)) as [->|]; [lia|]. rewrite <- Eal; assumption. }
  assert (Hc1 : count_used H1 = count_used H).
  { apply count_same; [apply length_insert|]. intros j. apply Ht. }
  assert (Hl1 : length H1 = 40%nat) by (unfold H1; rewrite length_insert; assumption).
  rewrite <- Hc1 in C4.
  destruct (u64 (a_size (alloc_record (nd H s)) - size) =? 0) eqn:Erem.
  - step. split; [|discriminate].
    destruct C4 as (EP & EH & ET & EU).
    split; rewrite ?EP, ?EH, ?ET, ?EU; simpl; eauto.
    + subst P. rewrite Hc1. mod32.
    + split; apply u32_range.
  - apply Z.eqb_neq in Erem.
    assert (Hus : used (nd H s) ≠ 0).
    { intros Hu. destruct (sh_unused _ _ Hs s Hu) as (_&_&Hz). rewrite Hz in *.
      apply Erem. replace size with 0 by lia. reflexivity. }
    destruct (scan (λ n, Some (used n =? 0)) H1 0 (total_nodes pm)) as [u| |] eqn:Escan.
    + destruct (scan_hit _ _ _ _ _ Escan) as (x & _ & Hx & Px & _).
      rewrite Nat.sub_0_r in Hx. injection Px as Px. apply Z.eqb_eq in Px.
      rewrite <- (nd_lookup _ _ _ Hx) in Px.
      assert (Lu : (u < length H1)%nat) by (apply lookup_lt_is_Some_1; eauto).
      assert (Hus1 : used (nd H1 s) ≠ 0) by (destruct (Ht s) as (_&_&Hu&_); tauto).
      assert (u ≠ s) by (intros ->; congruence).
      destruct (sh_unused _ _ Hs1 u Px) as (Hun & Hup & _).
      eapply post_mono.
      { eapply split_node_post; [exact C4|exact Escan|assumption|assumption|].
        intros t Ht'. destruct (sh_next _ _ Hs1 s t Ht'). split; intros ->; [congruence|lia]. }
      intros p pmf (-> & H' & Cf & Hl' & Hv). split; [|discriminate].
      assert (Hc : count_used H' = S (count_used H1)).
      { apply (count_drop H' H1 u).
        - congruence.
        - rewrite Hl'. assumption.
        - intros j Hj. rewrite Hv. unfold splice_v. rewrite decide_False by assumption.
          repeat (destruct (decide _)); subst; fields; tauto.
        - rewrite Hv. unfold splice_v. rewrite decide_True by reflexivity. simpl. lia.
        - assumption. }
      destruct Cf as (EP & EH & ET & EU).
      split; rewrite ?EP, ?EH, ?ET, ?EU; simpl.
      * congruence.
      * assumption.
      * eexists. eapply shape_ext; [exact Hv|]. eapply shape_splice; eauto.
      * eapply noadj_ext; [exact Hv|]. eapply noadj_splice; eauto; [lia|].
        intros t Ht' Hat. destruct (Ht s) as (En&_).
        destruct (sh_next _ _ Hs1 s t Ht') as [_ Hrk].
        assert (t ≠ s) by (intros ->; lia).
        rewrite Eal in Hat by assumption. rewrite En in Ht'.
        exact (Hna s t Ht' Has Hat).
      * rewrite u32_small; lia.
      * subst P. mod32.
      * split; apply u32_range.
      * assumption.
    + exfalso. pose proof (scan_miss _ _ _ _ Escan) as Hm.
      assert (count_used H1 = length H1).
      { apply count_full. intros j Hj.
        specialize (Hm j (nd H1 j) (lookup_nd _ _ Hj) ltac:(lia)).
        injection Hm as Hm. apply Z.eqb_neq in Hm. exact Hm. }
      lia.
    + unfold split_node. apply post_bind. apply post_intro. intros ? ? [= <- <-].
      destruct C4 as (EP & EH & ET & EU). rewrite EH, ET, Escan. exact I.
Qed.

(** ** Reachable states *)

Lemma nd_open top i :
  nd (<[0%nat := top]> (replicate (Z.to_nat MEM_NODE_HEAP_INIT_CAPACITY) zero_node)) i
  = if decide (i = 0%nat) then top else zero_node.
Proof.
  rewrite nd_insert by (rewrite length_replicate; vm_compute; lia).
  destruct (decide _); [reflexivity|].
  unfold nd. destruct (replicate _ _ !! i) eqn:E; [|reflexivity].
  apply lookup_replicate in E as [-> _]. reflexivity.
Qed.

Lemma open_inv size pol buf pm : mem_pool_open size pol buf = Some pm → Inv pm.
Proof.
  unfold mem_pool_open. destruct (buf =? 0) eqn:Eb; [discriminate|].
  apply Z.eqb_neq in Eb. intros E.
  assert (pm = new_pool_mgr size pol buf) as -> by congruence. clear E.
  unfold new_pool_mgr.
  split; cbn [node_heap pool total_nodes used_nodes num_allocs num_gaps p_mem].
  - reflexivity.
  - reflexivity.
  - exists (λ _, 0%nat). split; intros *; rewrite ?nd_open.
    + destruct (decide _); discriminate.
    + destruct (decide _); discriminate.
    + destruct (decide _); simpl; [lia|auto].
    + simpl. split; [lia|reflexivity].
  - intros i j. rewrite nd_open. destruct (decide _); discriminate.
  - reflexivity.
  - reflexivity.
  - lia.
  - assumption.
Qed.

Lemma reachable_inv pm : reachable pm → Inv pm.
Proof.
  induction 1 as [size pol buf pm Ho | junk size pm p pm' _ IH Hsz Ha
                 | junk alloc pm st pm' _ IH Hd].
  - eapply open_inv; eauto.
  - apply (post_elim _ _ _ _ _ (alloc_inv junk size pm IH (proj1 Hsz)) Ha).
  - apply (post_elim _ _ _ _ _ (del_inv junk alloc pm IH) Hd).
Qed.


(** ** Coalescing, closing and failing calls *)

(** C5: on every reachable state, [mem_pool_close] returns [ALLOC_OK] and
    releases the arrays when [num_allocs] is 0 and [num_gaps] is 1, and in
    every other state returns [ALLOC_NOT_FREED] and leaves the manager as it
    was.  (The test of the code is [num_gaps > 1 || num_allocs > 0]; no
    reachable state has both counters at 0.) *)
Theorem close_iff_pristine pm :
  reachable pm →
  (num_allocs (pool pm) = 0 ∧ num_gaps (pool pm) = 1 →
   mem_pool_close pm = Ret ALLOC_OK (released pm)) ∧
  (¬ (num_allocs (pool pm) = 0 ∧ num_gaps (pool pm) = 1) →
   mem_pool_close pm = Ret ALLOC_NOT_FREED pm).
Proof.
  intros Hr. destruct (reachable_inv pm Hr) as [Hlen Htot [r Hs] Hna Hcnt Hctr [Hr1 Hr2] Hmem].
  assert (Hc : 1 ≤ used_nodes pm ≤ 40).
  { rewrite Hcnt. pose proof (count_le (node_heap pm)).
    pose proof (count_pos (node_heap pm) (proj1 (sh_head _ _ Hs))). lia. }
  unfold mem_pool_close, bind, get, modify, ret, released.
  apply Z.eqb_neq in Hmem. rewrite Hmem. simpl. split.
  - intros [-> ->]. reflexivity.
  - intros Hn.
    destruct (1 <? num_gaps (pool pm)) eqn:E1; [reflexivity|].
    destruct (0 <? num_allocs (pool pm)) eqn:E2; [reflexivity|].
    apply Z.ltb_ge in E1, E2. exfalso.
    assert (num_allocs (pool pm) = 0) by lia.
    assert (num_gaps (pool pm) = 0) by lia.
    mod32.
Qed.

(** C6: on every reachable state, a call of [mem_new_alloc] that returns
    NULL and a call of [mem_del_alloc] that returns another status than
    [ALLOC_OK] leave the whole pool manager as it was. *)
Theorem failed_call_changes_nothing pm :
  reachable pm →
  (∀ junk size pm',
     0 ≤ size < 2 ^ 64 → mem_new_alloc junk size pm = Ret None pm' → pm' = pm) ∧
  (∀ junk alloc st pm',
     mem_del_alloc junk alloc pm = Ret st pm' → st ≠ ALLOC_OK → pm' = pm).
Proof.
  intros Hr. pose proof (reachable_inv pm Hr) as HI. split.
  - intros junk size pm' Hsz Ha.
    destruct (post_elim _ _ _ _ _ (alloc_inv junk size pm HI (proj1 Hsz)) Ha) as [_ H].
    apply H. reflexivity.
  - intros junk alloc st pm' Hd Hst.
    destruct (post_elim _ _ _ _ _ (del_inv junk alloc pm HI) Hd) as [_ [->|[_ ->]]];
      [contradiction|reflexivity].
Qed.

(** ** First fit *)

Ltac blind1 :=
  lazymatch goal with
  | |- post (bind _ _) _ _ => apply post_bind
  | |- post (ret _) _ _ => apply post_ret
  | |- post get _ _ => apply post_get
  | |- post (modify _) _ _ => apply post_modify
  | |- post (deref _) _ _ => apply post_deref; intros ? ? ? ?
  | |- post (store _ _) _ _ => apply post_store; intros ? ? ? ?
  | |- post (_mem_remove_from_gap_ix _ _) _ _ =>
      eapply post_mono; [apply remove_frame|]; intros ? ? [-> _]
  | |- post (_mem_add_to_gap_ix _ _) _ _ =>
      eapply post_mono; [apply add_frame|]; intros ? ? [-> _]
  | |- post (found_or _ _) _ _ =>
      eapply post_mono; [apply found_or_post|]; intros ? ? _
  end.

Ltac blind := repeat (cbv beta iota zeta; blind1).

Lemma split_returns junk size rem p pm :
  post (split_node junk size rem p) pm (λ q _, q = None ∨ q = p).
Proof.
  unfold split_node. blind.
  match goal with |- post (match ?a with _ => _ end) _ _ => destruct a end;
    [|apply post_ret; auto].
  blind. match goal with |- post (match ?a with _ => _ end) _ _ => destruct a end; blind; auto.
Qed.

Lemma alloc_returns_selected junk size pm :
  post (mem_new_alloc junk size) pm
       (λ p _, p = None ∨ select_node size pm = Ret p pm).
Proof.
  unfold mem_new_alloc. apply post_bind, post_get.
  destruct (_ =? _); [apply post_ret; auto|].
  destruct (_ <=? _); [apply post_ret; auto|].
  apply post_bind, post_intro. intros p pm1 Esel.
  destruct (post_elim _ _ _ _ _ (select_node_post size pm) Esel) as [-> _].
  destruct p as [s|]; [|apply post_ret; auto].
  blind. destruct (_ =? _); [apply post_ret; auto|].
  eapply post_mono; [apply split_returns|]. intros q _ [->| ->]; auto.
Qed.

Lemma first_fit_test_false size n :
  first_fit_test size n = Some false → ¬ (allocated n = 0 ∧ size ≤ a_size (alloc_record n)).
Proof.
  unfold first_fit_test. intros [= E] [H1 H2].
  apply Z.eqb_eq in H1. apply Z.leb_le in H2. rewrite H1, H2 in E. discriminate.
Qed.

Lemma first_fit_select size pm p pm' :
  policy (pool pm) = FIRST_FIT →
  select_node size pm = Ret p pm' →
  match p with
  | Some i => lowest_slot_fit pm size i
  | None => ∀ j, Z.of_nat j < total_nodes pm → ¬ slot_fits pm size j
  end.
Proof.
  unfold select_node, bind, get. intros ->.
  destruct (scan _ _ _ _) as [i| |] eqn:Es; simpl; [| |discriminate]; intros [= <- <-].
  - destruct (scan_hit _ _ _ _ _ Es) as (x & _ & Hx & Px & Hlt).
    rewrite Nat.sub_0_r in Hx, Hlt. split.
    + exists x. split; [exact Hx|]. apply first_fit_test_true. exact Px.
    + intros j Hj (m & Hm & Hfit). eapply first_fit_test_false; eauto.
  - intros j Hj (m & Hm & Hfit).
    eapply first_fit_test_false; [|exact Hfit]. eapply scan_miss; eauto.
Qed.

Lemma scan_total {A} (P : A → option bool) l : ∀ i n,
  (∀ x, P x ≠ None) → n ≤ Z.of_nat (i + length l) → scan P l i n ≠ OutOfBounds.
Proof.
  induction l as [|a l IH]; intros i n HP Hn; simpl.
  - destruct (Z.of_nat i <? n) eqn:E; [|discriminate].
    apply Z.ltb_lt in E. simpl in Hn. lia.
  - destruct (Z.of_nat i <? n); [|discriminate].
    destruct (P a) as [[]|] eqn:Ea; [discriminate| |destruct (HP a Ea)].
    apply IH; [exact HP|]. simpl in Hn. lia.
Qed.

Lemma first_fit_select_total size pm :
  Inv pm → policy (pool pm) = FIRST_FIT → ∃ q, select_node size pm = Ret q pm.
Proof.
  intros HI Hpol. unfold select_node, bind, get. rewrite Hpol.
  destruct (scan _ _ _ _) as [i| |] eqn:Es; simpl; eauto.
  exfalso. revert Es. apply scan_total; [discriminate|].
  rewrite (inv_total _ HI), (inv_len _ HI). vm_compute. discriminate.
Qed.

(** The loop of the first-fit search: the selection always returns, with
    the first slot of the node heap that passes the test of the loop, or
    with NULL when none does; the node a call of [mem_new_alloc] returns is
    that slot. *)
Lemma first_fit_scan_result junk size pm :
  reachable pm → 0 ≤ size < 2 ^ 64 →
  policy (pool pm) = FIRST_FIT →
  (∃ q, select_node size pm = Ret q pm ∧
        match q with
        | Some i => lowest_slot_fit pm size i
        | None => ∀ j, ¬ slot_fits pm size j
        end) ∧
  (∀ p pm', mem_new_alloc junk size pm = Ret p pm' →
     (∀ i, p = Some i → lowest_slot_fit pm size i) ∧
     (num_gaps (pool pm) ≠ 0 → used_nodes pm < total_nodes pm →
      (∃ j, slot_fits pm size j) → p ≠ None)).
Proof.
  intros Hr Hsz Hpol. pose proof (reachable_inv pm Hr) as HI.
  assert (Hin : ∀ j, slot_fits pm size j → Z.of_nat j < total_nodes pm).
  { intros j (m & Hm & _). apply lookup_lt_Some in Hm.
    rewrite (inv_len _ HI) in Hm. rewrite (inv_total _ HI). lia. }
  split.
  - destruct (first_fit_select_total size pm HI Hpol) as [q Hq].
    exists q. split; [exact Hq|].
    pose proof (first_fit_select _ _ _ _ Hpol Hq) as Hsel.
    destruct q as [i|]; [exact Hsel|].
    intros j Hj. apply (Hsel j); auto.
  - intros p pm' Ha. split.
    + intros i ->.
      destruct (post_elim _ _ _ _ _ (alloc_returns_selected junk size pm) Ha) as [|Hsel];
        [discriminate|].
      apply (first_fit_select _ _ _ _ Hpol Hsel).
    + intros Hg Hu [j Hj] ->.
      destruct (post_elim _ _ _ _ _ (alloc_inv junk size pm HI (proj1 Hsz)) Ha) as [_ H].
      destruct (H eq_refl) as [_ [?|[?|Hsel]]]; [lia|lia|].
      apply (first_fit_select _ _ _ _ Hpol Hsel j); [|exact Hj].
      apply Hin. exact Hj.
Qed.

(** ** Open, allocate, free *)

Lemma bind_eval {A B} (m : M A) (k : A → M B) pm a pm1 r :
  m pm = Ret a pm1 → k a pm1 = r → bind m k pm = r.
Proof. unfold bind. intros -> ->. reflexivity. Qed.

Lemma scan_first {A} (P : A → option bool) x l n :
  P x = Some true → 0 < n → scan P (x :: l) 0 n = Hit 0.
Proof.
  intros HP Hn. apply Z.ltb_lt in Hn. cbn [scan]. change (Z.of_nat 0) with 0.
  rewrite Hn, HP. reflexivity.
Qed.

Ltac by_vm :=
  lazymatch goal with
  | |- ?l = _ =>
      let r := eval vm_compute in l in
      replace l with r by (vm_compute; reflexivity)
  end; reflexivity.

Ltac norm_state :=
  cbv [modify deref store ret get
       with_pool with_node_heap with_used_nodes with_gap_ix with_gap_ix_capacity
       set_alloc_size set_num_allocs set_num_gaps set_p_mem
       set_mem set_size set_used set_allocated set_next set_prev
       pool node_heap total_nodes used_nodes gap_ix gap_ix_capacity
       p_mem policy total_size alloc_size num_allocs num_gaps
       alloc_record used allocated next prev a_mem a_size
       lookup list_lookup insert list_insert].

Lemma u64_small x : 0 ≤ x < 2 ^ 64 → u64 x = x.
Proof. unfold u64. apply Z.mod_small. Qed.

Ltac ev_if :=
  lazymatch goal with
  | |- (if ?c then _ else _) _ = _ =>
      let b := eval vm_compute in c in change c with b; cbv iota
  end.

Ltac ev_u32 :=
  repeat match goal with
         | |- context [u32 ?x] =>
             let v := eval vm_compute in (u32 x) in change (u32 x) with v
         end.

Ltac ev_bind tac := eapply bind_eval; [tac|]; cbv beta iota zeta; norm_state; ev_u32.

Ltac prim := norm_state; ev_u32; reflexivity.

Lemma select_fresh N R pol buf :
  R ≤ N →
  select_node R (new_pool_mgr N pol buf) = Ret (Some 0%nat) (new_pool_mgr N pol buf).
Proof.
  intros HR. apply Z.leb_le in HR.
  let s := eval vm_compute in (new_pool_mgr N pol buf) in
  change (new_pool_mgr N pol buf) with s.
  unfold select_node. eapply bind_eval; [reflexivity|]. cbv beta.
  destruct pol; cbn [policy pool node_heap total_nodes gap_ix num_gaps].
  - erewrite (scan_first (first_fit_test R)); [reflexivity| |reflexivity].
    unfold first_fit_test. cbn [allocated alloc_record a_size]. rewrite HR. reflexivity.
  - erewrite (scan_first (best_fit_test _ R)); [reflexivity| |reflexivity].
    unfold best_fit_test, first_fit_test.
    cbn [g_node lookup list_lookup allocated alloc_record a_size].
    rewrite HR. reflexivity.
Qed.

(** Evaluation of a call on an explicit state, one statement at a time;
    [arith] rewrites the arithmetic on the symbolic sizes as it shows up. *)
Ltac run arith :=
  cbv beta iota zeta; arith;
  lazymatch goal with
  | |- bind _ _ _ = _ => eapply bind_eval; [run arith|run arith]
  | |- _mem_remove_from_gap_ix _ _ _ = _ => by_vm
  | |- _mem_add_to_gap_ix _ _ _ = _ => by_vm
  | |- found_or _ (scan _ _ _ _) _ = _ =>
      norm_state;
      first [ erewrite scan_first by (cbv beta; norm_state; arith; reflexivity); reflexivity
            | by_vm ]
  | |- is_gap _ _ = _ => unfold is_gap; run arith
  | |- read_alloc _ _ = _ => unfold read_alloc; run arith
  | |- merge_next _ _ = _ => unfold merge_next; run arith
  | |- merge_next_body _ _ = _ => unfold merge_next_body; run arith
  | |- merge_prev _ _ = _ => unfold merge_prev; run arith
  | |- merge_prev_body _ _ = _ => unfold merge_prev_body; run arith
  | |- split_node _ _ _ _ _ = _ => unfold split_node; run arith
  | |- (if _ then _ else _) _ = _ =>
      norm_state; ev_u32; arith;
      lazymatch goal with
      | |- (if ?c then _ else _) _ = _ =>
          let b := eval cbn in c in
          lazymatch b with
          | true => change c with true; run arith
          | false => change c with false; run arith
          end
      | |- _ => run arith
      end
  | |- _ => norm_state; ev_u32; arith; try reflexivity;
            lazymatch goal with
            | |- bind _ _ _ = _ => run arith
            | |- (if _ then _ else _) _ = _ => run arith
            | |- _ => idtac
            end
  end.

Lemma round_trip_exact N pol buf junk1 junk2 :
  0 ≤ N < 2 ^ 64 → buf ≠ 0 →
  ∃ pm1,
    mem_new_alloc junk1 N (new_pool_mgr N pol buf) = Ret (Some 0%nat) pm1 ∧
    mem_del_alloc junk2 (InHeap 0) pm1 =
      Ret ALLOC_OK (with_gap_ix_capacity 39 (new_pool_mgr N pol buf)).
Proof.
  intros HN Hb.
  eexists. split.
  - unfold mem_new_alloc.
    eapply bind_eval; [reflexivity|]. cbv beta.
    change (num_gaps (pool (new_pool_mgr N pol buf)) =? 0) with false.
    change (total_nodes (new_pool_mgr N pol buf) <=? used_nodes (new_pool_mgr N pol buf))
      with false. cbv iota.
    eapply bind_eval; [apply select_fresh; lia|]. cbv beta iota.
    let s := eval vm_compute in (new_pool_mgr N pol buf) in
    change (new_pool_mgr N pol buf) with s.
    run ltac:(rewrite ?Z.add_0_l, ?Z.sub_diag, ?(u64_small N), ?(u64_small 0) by lia).
  - unfold mem_del_alloc.
    run ltac:(rewrite ?Z.add_0_l, ?Z.sub_diag, ?Z.eqb_refl,
                       ?(u64_small N), ?(u64_small 0) by lia).
Qed.

Lemma round_trip_split_aux N R pol buf junk1 junk2 d m :
  d = N - R → m = u64 (buf + R) →
  0 ≤ R < N → N < 2 ^ 64 →
  ∃ pm1,
    mem_new_alloc junk1 R (new_pool_mgr N pol buf) = Ret (Some 0%nat) pm1 ∧
    mem_del_alloc junk2 (InHeap 0) pm1 =
      Ret ALLOC_OK (with_gap_ix_capacity 38 (new_pool_mgr N pol buf)).
Proof.
  intros Ed Em HR HN.
  assert (Hd0 : (d =? 0) = false) by (apply Z.eqb_neq; lia).
  assert (HRd : u64 (R + d) = N) by (rewrite u64_small; lia).
  eexists. split.
  - unfold mem_new_alloc.
    eapply bind_eval; [reflexivity|]. cbv beta.
    change (num_gaps (pool (new_pool_mgr N pol buf)) =? 0) with false.
    change (total_nodes (new_pool_mgr N pol buf) <=? used_nodes (new_pool_mgr N pol buf))
      with false. cbv iota.
    eapply bind_eval; [apply select_fresh; lia|]. cbv beta iota.
    let s := eval vm_compute in (new_pool_mgr N pol buf) in
    change (new_pool_mgr N pol buf) with s.
    run ltac:(rewrite ?Z.add_0_l, ?(u64_small R), ?(u64_small (N - R)), <- ?Ed, <- ?Em,
                       ?Hd0 by lia).
  - unfold mem_del_alloc.
    run ltac:(rewrite ?Z.add_0_l, ?Z.sub_diag, ?Z.eqb_refl, ?HRd, ?(u64_small 0) by lia).
Qed.

Lemma round_trip_split N R pol buf junk1 junk2 :
  0 ≤ R < N → N < 2 ^ 64 →
  ∃ pm1,
    mem_new_alloc junk1 R (new_pool_mgr N pol buf) = Ret (Some 0%nat) pm1 ∧
    mem_del_alloc junk2 (InHeap 0) pm1 =
      Ret ALLOC_OK (with_gap_ix_capacity 38 (new_pool_mgr N pol buf)).
Proof.
  intros HR HN.
  exact (round_trip_split_aux N R pol buf junk1 junk2 _ _ eq_refl eq_refl HR HN).
Qed.

(** C8: for every pool size [N] and every request [R ≤ N], opening a pool,
    allocating [R] bytes and releasing the block returns [ALLOC_OK] and
    gives back the manager of the freshly opened pool: one gap of [N]
    bytes in slot 0 of the node heap and of the gap index, [num_allocs]
    and [alloc_size] 0, every other slot zeroed.  The recorded capacity of
    the gap index alone differs: each removal has taken 1 off it. *)
Theorem alloc_free_round_trip N R pol buf junk1 junk2 :
  0 ≤ R ≤ N → N < 2 ^ 64 → buf ≠ 0 →
  ∃ pm0 pm1,
    mem_pool_open N pol buf = Some pm0 ∧
    mem_new_alloc junk1 R pm0 = Ret (Some 0%nat) pm1 ∧
    mem_del_alloc junk2 (InHeap 0) pm1 =
      Ret ALLOC_OK (with_gap_ix_capacity (if R =? N then 39 else 38) pm0).
Proof.
  intros HR HN Hb. exists (new_pool_mgr N pol buf).
  assert (Ho : mem_pool_open N pol buf = Some (new_pool_mgr N pol buf)).
  { unfold mem_pool_open. apply Z.eqb_neq in Hb. rewrite Hb. reflexivity. }
  destruct (R =? N) eqn:E.
  - apply Z.eqb_eq in E. subst R.
    destruct (round_trip_exact N pol buf junk1 junk2) as (pm1 & H1 & H2); [lia|assumption|].
    exists pm1. auto.
  - apply Z.eqb_neq in E.
    destruct (round_trip_split N R pol buf junk1 junk2) as (pm1 & H1 & H2); [lia|assumption|].
    exists pm1. auto.
Qed.

(** ** Pools of 100 bytes *)

Lemma client_reachable cs : ∀ pm pm',
  reachable pm → forallb size_ok cs = true → client cs pm = Ret tt pm' → reachable pm'.
Proof.
  induction cs as [|c cs IH]; intros pm pm' Hr Hok Hc.
  - injection Hc as <-. exact Hr.
  - simpl in Hok. apply andb_prop in Hok as [Hc1 Hcs].
    simpl in Hc. unfold bind in Hc.
    destruct (do_call c pm) as [[] pm1|] eqn:E1; [|discriminate].
    apply (IH pm1 pm'); [|exact Hcs|exact Hc].
    destruct c as [size|h]; simpl in E1; unfold bind in E1.
    + destruct (mem_new_alloc None size pm) as [p pm2|] eqn:E2; [|discriminate].
      injection E1 as <-.
      apply andb_prop in Hc1 as [H1 H2]. apply Z.leb_le in H1. apply Z.ltb_lt in H2.
      exact (reach_alloc _ _ _ _ _ Hr (conj H1 H2) E2).
    + destruct (mem_del_alloc None (InHeap h) pm) as [st pm2|] eqn:E2; [|discriminate].
      injection E1 as <-.
      exact (reach_free _ _ _ _ _ Hr E2).
Qed.

Lemma new_pool_reachable size pol buf :
  buf ≠ 0 → reachable (new_pool_mgr size pol buf).
Proof.
  intros Hb. apply (reach_open size pol buf). unfold mem_pool_open.
  destruct (buf =? 0) eqn:E; [|reflexivity].
  apply Z.eqb_eq in E. contradiction.
Qed.

Ltac eval_as H m :=
  let r := eval vm_compute in m in
  assert (H : m = r) by (vm_compute; reflexivity).

Ltac run_client H Hr cs pm0 :=
  eval_as H (client cs pm0);
  match type of H with
  | _ = Ret tt ?s =>
      assert (Hr : reachable s)
        by (apply (client_reachable cs pm0 s);
            [apply new_pool_reachable; discriminate | reflexivity | exact H])
  end.

(** C3 as the spec words it does not hold: in a first-fit pool of 100 bytes, after four
    allocations of 10 bytes, the release of the first two, allocations of
    30 and of 20 bytes and the release of the third block, slot 1 holds a
    free block of 30 bytes at offset 70 and slot 2 a free block of 10 bytes
    at offset 20; a request for 10 bytes gets slot 1. *)
Lemma first_fit_not_by_address : ¬ first_fit_by_address.
Proof.
  intros H.
  run_client Hc Hr
    [Alloc 10; Alloc 10; Alloc 10; Alloc 10; Free 0%nat; Free 1%nat;
     Alloc 30; Alloc 20; Free 2%nat]
    (new_pool_mgr 100 FIRST_FIT 4096).
  match type of Hr with reachable ?s =>
    eval_as Ha (mem_new_alloc None 10 s);
    match type of Ha with _ = Ret ?p ?s' =>
      destruct (H None 10 s p s' Hr) as (i & Hi & n & Hn & _ & _ & Hmin);
        [lia | reflexivity | exact Ha | |]
    end
  end.
  - exists 2%nat. eexists. split; [reflexivity|]. split; [reflexivity|]. simpl. lia.
  - injection Hi as <-. injection Hn as <-.
    specialize (Hmin 2%nat _ eq_refl eq_refl). simpl in Hmin. lia.
Qed.

(** C2: a best-fit pool of 100 bytes, three allocations of 10 bytes, the
    first two released, 20 bytes allocated.  A request for 0 bytes then
    returns slot 3, an allocation of no bytes at offset 30, and puts the
    70 free bytes that follow it, at the same address, into slot 1.  The
    release of slot 3 finds slot 1 first, and takes its 70 bytes off
    [alloc_size]. *)
Lemma zero_size_block_breaks_accounting :
  ∃ pm1 pm2 pm3,
    client [Alloc 10; Alloc 10; Alloc 10; Free 0%nat; Free 1%nat; Alloc 20]
           (new_pool_mgr 100 BEST_FIT 4096) = Ret tt pm1 ∧
    mem_new_alloc None 0 pm1 = Ret (Some 3%nat) pm2 ∧
    free_bytes pm2 + alloc_size (pool pm2) = total_size (pool pm2) ∧
    mem_del_alloc None (InHeap 3) pm2 = Ret ALLOC_OK pm3 ∧
    free_bytes pm3 = 70 ∧
    alloc_size (pool pm3) = 2 ^ 64 - 40 ∧
    total_size (pool pm3) = 100.
Proof.
  do 3 eexists.
  split; [vm_compute; reflexivity|].
  split; [vm_compute; reflexivity|].
  split; [vm_compute; reflexivity|].
  split; [vm_compute; reflexivity|].
  repeat split; vm_compute; reflexivity.
Qed.

(** C4: a best-fit pool of 100 bytes, allocations of 30, 10, 10 and 10
    bytes, the third and then the first released.  The gap index then
    lists the blocks of 30, 10 and 40 bytes in this order, and a request
    for 5 bytes is cut from the block of 30 bytes in slot 0, the block of
    10 bytes in slot 2 being free. *)
Lemma best_fit_takes_larger_block :
  ∃ pm pm',
    client [Alloc 30; Alloc 10; Alloc 10; Alloc 10; Free 2%nat; Free 0%nat]
           (new_pool_mgr 100 BEST_FIT 4096) = Ret tt pm ∧
    live_gaps pm = [mk_gap 30 (Some 0%nat); mk_gap 10 (Some 2%nat); mk_gap 40 (Some 4%nat)] ∧
    node_heap pm !! 0%nat = Some (mk_node (mk_alloc 4096 30) 1 0 (Some 1%nat) None) ∧
    node_heap pm !! 2%nat = Some (mk_node (mk_alloc 4136 10) 1 0 (Some 3%nat) (Some 1%nat)) ∧
    mem_new_alloc None 5 pm = Ret (Some 0%nat) pm'.
Proof.
  do 2 eexists.
  split; [vm_compute; reflexivity|].
  repeat split; vm_compute; reflexivity.
Qed.

(** C7: the first allocation from a fresh pool takes the capacity of the
    gap index from 40 to 39. *)
Lemma gap_ix_capacity_decreases :
  ∃ pm',
    mem_new_alloc None 10 (new_pool_mgr 100 FIRST_FIT 4096) = Ret (Some 0%nat) pm' ∧
    gap_ix_capacity (new_pool_mgr 100 FIRST_FIT 4096) = 40 ∧
    gap_ix_capacity pm' = 39.
Proof.
  eexists. split; [vm_compute; reflexivity|]. split; reflexivity.
Qed.

(** C7, growth: with 37 allocations of one byte the capacity is down to
    3; the third release of a block between two allocated ones finds 3
    entries for a capacity of 3, shrinks the array to one entry and writes
    past it. *)
Lemma gap_ix_growth_is_undefined :
  ∃ pm,
    client (replicate 37 (Alloc 1) ++ [Free 0%nat; Free 2%nat])
           (new_pool_mgr 100 FIRST_FIT 4096) = Ret tt pm ∧
    num_gaps (pool pm) = 3 ∧ gap_ix_capacity pm = 3 ∧
    mem_del_alloc None (InHeap 4) pm = Undef.
Proof.
  eexists. split; [vm_compute; reflexivity|].
  repeat split; vm_compute; reflexivity.
Qed.

(** C9: the second release of the same handle returns [ALLOC_OK] and
    changes the pool. *)
Lemma second_free_succeeds :
  ∃ pm1 pm2 pm3,
    mem_new_alloc None 10 (new_pool_mgr 100 FIRST_FIT 4096) = Ret (Some 0%nat) pm1 ∧
    mem_del_alloc None (InHeap 0) pm1 = Ret ALLOC_OK pm2 ∧
    existsb (λ n, negb (allocated n =? 0)) (node_heap pm2) = false ∧
    mem_del_alloc None (InHeap 0) pm2 = Ret ALLOC_OK pm3 ∧
    num_allocs (pool pm3) = 2 ^ 32 - 1 ∧
    alloc_size (pool pm3) = 2 ^ 64 - 100 ∧
    live_gaps pm3 = [mk_gap 100 (Some 0%nat); mk_gap 100 (Some 0%nat)].
Proof.
  do 3 eexists.
  split; [vm_compute; reflexivity|].
  split; [vm_compute; reflexivity|].
  split; [vm_compute; reflexivity|].
  split; [vm_compute; reflexivity|].
  repeat split; vm_compute; reflexivity.
Qed.

(** C10: a first-fit pool of 100 bytes, five allocations of 10 bytes, the
    second and third released, 20 bytes allocated, the fourth block
    released, and a request for 0 bytes.  Slot 3 is then a free block of
    10 bytes with no entry in the gap index, whose only entry is for the
    50 bytes of slot 5.  A request for 10 bytes takes slot 3, an exact
    fit, and removes the entry of slot 5, which stays free. *)
Lemma exact_fit_removes_other_entry :
  ∃ pm pm',
    client [Alloc 10; Alloc 10; Alloc 10; Alloc 10; Alloc 10; Free 1%nat; Free 2%nat;
            Alloc 20; Free 3%nat; Alloc 0]
           (new_pool_mgr 100 FIRST_FIT 4096) = Ret tt pm ∧
    node_heap pm !! 3%nat = Some (mk_node (mk_alloc 4126 10) 1 0 (Some 4%nat) (Some 1%nat)) ∧
    live_gaps pm = [mk_gap 50 (Some 5%nat)] ∧
    mem_new_alloc None 10 pm = Ret (Some 3%nat) pm' ∧
    live_gaps pm' = [] ∧
    node_heap pm' !! 5%nat = Some (mk_node (mk_alloc 4146 50) 1 0 None (Some 4%nat)).
Proof.
  do 2 eexists.
  split; [vm_compute; reflexivity|].
  repeat split; vm_compute; reflexivity.
Qed.

(** ** The theorems at a pool of 100 bytes *)

(** C5 at a fresh pool, and at a pool with one allocation. *)
Lemma close_iff_pristine_witness :
  mem_pool_close (new_pool_mgr 100 FIRST_FIT 4096)
  = Ret ALLOC_OK (released (new_pool_mgr 100 FIRST_FIT 4096)) ∧
  ∃ pm1,
    mem_new_alloc None 10 (new_pool_mgr 100 FIRST_FIT 4096) = Ret (Some 0%nat) pm1 ∧
    mem_pool_close pm1 = Ret ALLOC_NOT_FREED pm1.
Proof.
  assert (Hr : reachable (new_pool_mgr 100 FIRST_FIT 4096))
    by (apply (reach_open 100 FIRST_FIT 4096); reflexivity).
  split.
  - apply (close_iff_pristine (new_pool_mgr 100 FIRST_FIT 4096) Hr).
    split; reflexivity.
  - eval_as Ha (mem_new_alloc None 10 (new_pool_mgr 100 FIRST_FIT 4096)).
    match type of Ha with _ = Ret _ ?s' => exists s' end.
    split; [exact Ha|].
    refine (proj2 (close_iff_pristine _ (reach_alloc _ _ _ _ _ Hr _ Ha)) _).
    + lia.
    + intros [H _]. vm_compute in H. discriminate.
Defined.

(** C6 at a request for 200 bytes, and at the release of an address that
    is not in the pool. *)
Lemma failed_call_changes_nothing_witness :
  (∃ pm',
     mem_new_alloc None 200 (new_pool_mgr 100 FIRST_FIT 4096) = Ret None pm' ∧
     pm' = new_pool_mgr 100 FIRST_FIT 4096) ∧
  (∃ pm',
     mem_del_alloc None (Outside (mk_alloc 1 0)) (new_pool_mgr 100 FIRST_FIT 4096)
       = Ret ALLOC_NOT_FREED pm' ∧
     pm' = new_pool_mgr 100 FIRST_FIT 4096).
Proof.
  assert (Hr : reachable (new_pool_mgr 100 FIRST_FIT 4096))
    by (apply (reach_open 100 FIRST_FIT 4096); reflexivity).
  split.
  - eval_as Ha (mem_new_alloc None 200 (new_pool_mgr 100 FIRST_FIT 4096)).
    match type of Ha with _ = Ret _ ?s' => exists s' end.
    split; [exact Ha|].
    refine (proj1 (failed_call_changes_nothing _ Hr) None 200 _ _ Ha). lia.
  - eval_as Hd (mem_del_alloc None (Outside (mk_alloc 1 0))
                              (new_pool_mgr 100 FIRST_FIT 4096)).
    match type of Hd with _ = Ret _ ?s' => exists s' end.
    split; [exact Hd|].
    refine (proj2 (failed_call_changes_nothing _ Hr) None _ _ _ Hd _). discriminate.
Defined.

(** C8 at 10 bytes out of 100. *)
Lemma alloc_free_round_trip_witness :
  ∃ pm0 pm1,
    mem_pool_open 100 BEST_FIT 4096 = Some pm0 ∧
    mem_new_alloc None 10 pm0 = Ret (Some 0%nat) pm1 ∧
    mem_del_alloc None (InHeap 0) pm1 = Ret ALLOC_OK (with_gap_ix_capacity 38 pm0).
Proof.
  apply (alloc_free_round_trip 100 10 BEST_FIT 4096 None None); lia.
Defined.

Lemma for_up_undef_first fuel i hi body pm :
  i < hi → body i pm = Undef → for_up fuel i hi body pm = Undef.
Proof.
  intros Hlt Hb. destruct fuel; simpl; apply Z.ltb_lt in Hlt; rewrite Hlt; [reflexivity|].
  rewrite Hb. reflexivity.
Qed.

Lemma for_up_done fuel i hi body pm :
  hi ≤ i → for_up fuel i hi body pm = Ret tt pm.
Proof.
  intros Hge. apply Z.ltb_ge in Hge. destruct fuel; simpl; rewrite Hge; reflexivity.
Qed.

Lemma gap_put_outside i g pm :
  Z.of_nat (length (gap_ix pm)) ≤ i → gap_put i g pm = Undef.
Proof.
  intros Hi. unfold gap_put, in_array.
  replace (i <? Z.of_nat (length (gap_ix pm))) with false by (symmetry; apply Z.ltb_ge; lia).
  rewrite andb_false_r. reflexivity.
Qed.

Lemma add_resizing size node pm :
  0 ≤ gap_ix_capacity pm →
  over_fill_factor (num_gaps (pool pm)) (gap_ix_capacity pm) = true →
  _mem_add_to_gap_ix size node pm = Undef.
Proof.
  intros Hcap Hover. unfold over_fill_factor in Hover. apply Z.ltb_lt in Hover.
  assert (Hng : 1 ≤ num_gaps (pool pm)) by lia.
  unfold _mem_add_to_gap_ix, _mem_resize_gap_ix.
  unfold bind at 1. unfold bind at 1. unfold get at 1.
  unfold over_fill_factor. apply Z.ltb_lt in Hover. rewrite Hover.
  unfold bind at 1. unfold bind at 1. unfold modify at 1.
  unfold bind at 1. unfold modify at 1.
  unfold bind at 1. unfold get at 1.
  set (pm1 := with_gap_ix_capacity _ _).
  assert (Hlen : Z.of_nat (length (gap_ix pm1)) ≤ 1).
  { unfold pm1. simpl. unfold realloc_gap_ix. rewrite length_take.
    change (Z.to_nat _) with 1%nat. lia. }
  assert (Hng1 : num_gaps (pool pm1) = num_gaps (pool pm)) by reflexivity.
  unfold bind at 1.
  destruct (Z_lt_le_dec (num_gaps (pool pm1)) (gap_ix_capacity pm1)) as [Hlt|Hge].
  - rewrite for_up_undef_first; [reflexivity|exact Hlt|].
    apply gap_put_outside. lia.
  - rewrite for_up_done by exact Hge.
    unfold ret at 1. unfold bind at 1. unfold get at 1. unfold bind at 1.
    rewrite gap_put_outside; [reflexivity|lia].
Qed.

(** ** Removal from the gap index *)

Lemma with_gap_ix_twice l l' pm : with_gap_ix l' (with_gap_ix l pm) = with_gap_ix l' pm.
Proof. reflexivity. Qed.

Lemma for_up_step fuel i hi body pm pm1 :
  i < hi → body i pm = Ret tt pm1 →
  for_up (S fuel) i hi body pm = for_up fuel (i + 1) hi body pm1.
Proof.
  intros Hlt Hb. cbn [for_up]. apply Z.ltb_lt in Hlt. rewrite Hlt, Hb. reflexivity.
Qed.

Lemma gap_at_inside i g pm :
  0 ≤ i → gap_ix pm !! Z.to_nat i = Some g → gap_at i pm = Ret g pm.
Proof.
  intros Hi Hg. unfold gap_at, in_array. rewrite Hg.
  apply lookup_lt_Some in Hg.
  replace (0 <=? i) with true by (symmetry; apply Z.leb_le; lia).
  replace (i <? Z.of_nat (length (gap_ix pm))) with true by (symmetry; apply Z.ltb_lt; lia).
  reflexivity.
Qed.

Lemma gap_put_inside i g pm :
  0 ≤ i < Z.of_nat (length (gap_ix pm)) →
  gap_put i g pm = Ret tt (with_gap_ix (<[Z.to_nat i := g]> (gap_ix pm)) pm).
Proof.
  intros Hi. unfold gap_put, in_array.
  replace (0 <=? i) with true by (symmetry; apply Z.leb_le; lia).
  replace (i <? Z.of_nat (length (gap_ix pm))) with true by (symmetry; apply Z.ltb_lt; lia).
  reflexivity.
Qed.

Lemma shift_loop fuel : ∀ k hi pm,
  0 ≤ k ≤ hi → hi < Z.of_nat (length (gap_ix pm)) → (Z.to_nat (hi - k) < fuel)%nat →
  ∃ l', for_up fuel k hi (λ i, let* g := gap_at (i + 1) in gap_put i g) pm
          = Ret tt (with_gap_ix l' pm) ∧
        length l' = length (gap_ix pm) ∧
        ∀ j : nat, l' !! j = if decide (k ≤ Z.of_nat j < hi)
                             then gap_ix pm !! S j else gap_ix pm !! j.
Proof.
  induction fuel as [|fuel IH]; intros k hi pm Hk Hhi Hf; [lia|].
  destruct (Z_lt_le_dec k hi) as [Ek|Ek].
  - destruct (lookup_lt_is_Some_2 (gap_ix pm) (Z.to_nat (k + 1))) as [g Eg]; [lia|].
    set (pm1 := with_gap_ix (<[Z.to_nat k := g]> (gap_ix pm)) pm).
    rewrite (for_up_step _ _ _ _ _ pm1) by
      (try assumption; unfold bind; rewrite (gap_at_inside _ g) by (lia || assumption);
       apply gap_put_inside; lia).
    destruct (IH (k + 1) hi pm1) as (l' & Hrun & Hlen & Hlk).
    + lia.
    + unfold pm1. simpl. rewrite length_insert. lia.
    + lia.
    + exists l'. rewrite Hrun. unfold pm1. rewrite with_gap_ix_twice.
      split; [reflexivity|]. unfold pm1 in Hlen, Hlk. simpl in Hlen, Hlk.
      rewrite length_insert in Hlen. split; [exact Hlen|].
      intros j. rewrite Hlk.
      destruct (decide (k + 1 ≤ Z.of_nat j < hi)).
      * rewrite decide_True by lia. rewrite list_lookup_insert_ne by lia. reflexivity.
      * destruct (decide (Z.of_nat j = k)) as [Ej|Ej].
        -- rewrite decide_True by lia.
           replace (Z.to_nat k) with j by lia.
           rewrite list_lookup_insert_eq by lia.
           rewrite <- Eg. f_equal. lia.
        -- rewrite decide_False by lia. rewrite list_lookup_insert_ne by lia. reflexivity.
  - rewrite for_up_done by assumption. exists (gap_ix pm).
    split; [destruct pm; reflexivity|]. split; [reflexivity|].
    intros j. rewrite decide_False by lia. reflexivity.
Qed.

Lemma find_gap_lt node l k : find_gap node l = Some k → (k < length l)%nat.
Proof.
  revert k. induction l as [|g l IH]; intros k; simpl; [discriminate|].
  destruct (ptr_eqb _ _); [intros [= <-]; lia|].
  destruct (find_gap node l) as [k'|]; [|discriminate].
  intros [= <-]. specialize (IH k' eq_refl). lia.
Qed.

Lemma scan_find_gap node l : ∀ i m,
  (m ≤ length l)%nat →
  scan (λ g, Some (ptr_eqb (g_node g) node)) l i (Z.of_nat (i + m))
  = match find_gap node (take m l) with
    | Some k => Hit (i + k)
    | None => Miss
    end.
Proof.
  induction l as [|g l IH]; intros i m Hm; simpl in Hm.
  - replace m with 0%nat by lia. simpl.
    replace (Z.of_nat i <? Z.of_nat (i + 0)) with false by (symmetry; apply Z.ltb_ge; lia).
    reflexivity.
  - destruct m as [|m]; simpl.
    + replace (Z.of_nat i <? Z.of_nat (i + 0)) with false by (symmetry; apply Z.ltb_ge; lia).
      reflexivity.
    + replace (Z.of_nat i <? Z.of_nat (i + S m)) with true by (symmetry; apply Z.ltb_lt; lia).
      destruct (ptr_eqb (g_node g) node); [f_equal; lia|].
      replace (i + S m)%nat with (S i + m)%nat by lia.
      rewrite IH by lia.
      destruct (find_gap node (take m l)); simpl; [f_equal; lia|reflexivity].
Qed.

Lemma remove_spec size node pm :
  1 ≤ num_gaps (pool pm) ≤ gap_ix_capacity pm →
  gap_ix_capacity pm ≤ Z.of_nat (length (gap_ix pm)) →
  gap_ix_capacity pm < 2 ^ 32 →
  ∃ pm',
    _mem_remove_from_gap_ix size node pm = Ret ALLOC_OK pm' ∧
    live_gaps pm' = delete (removed_index node (live_gaps pm)) (live_gaps pm) ∧
    num_gaps (pool pm') = num_gaps (pool pm) - 1 ∧
    gap_ix_capacity pm' = gap_ix_capacity pm - 1 ∧
    length (gap_ix pm') = length (gap_ix pm) ∧
    gap_ix pm' !! Z.to_nat (num_gaps (pool pm) - 1) = Some zero_gap ∧
    gap_frame pm pm' (-1).
Proof.
  intros Hng Hcap H32.
  set (ng := num_gaps (pool pm)) in *. set (cap := gap_ix_capacity pm) in *.
  set (l := gap_ix pm) in *.
  set (idx := removed_index node (live_gaps pm)).
  assert (Hidx : (idx < Z.to_nat ng)%nat).
  { unfold idx, removed_index, live_gaps. fold ng l.
    destruct (find_gap node (take (Z.to_nat ng) l)) as [k|] eqn:Ef; simpl; [|lia].
    apply find_gap_lt in Ef. rewrite length_take in Ef. lia. }
  assert (Hscan : scan (λ g, Some (ptr_eqb (g_node g) node)) l 0 ng
                  = match find_gap node (live_gaps pm) with
                    | Some k => Hit k | None => Miss end).
  { unfold live_gaps. fold ng l.
    replace ng with (Z.of_nat (0 + Z.to_nat ng)) at 1 by lia.
    rewrite scan_find_gap by lia. reflexivity. }
  destruct (shift_loop (S (length l)) (Z.of_nat idx) (cap - 1) pm) as (l' & Hrun & Hlen & Hlk).
  { lia. } { fold l. lia. } { lia. }
  fold l in Hlen, Hlk.
  assert (Hu1 : u32 (ng - 1) = ng - 1) by (apply u32_small; lia).
  assert (Hu2 : u32 (cap - 1) = cap - 1) by (apply u32_small; lia).
  eexists. split.
  { unfold _mem_remove_from_gap_ix. unfold bind at 1. unfold get at 1.
    fold l ng cap. rewrite Hscan, Hu2.
    unfold bind at 1.
    assert (Hix : match match find_gap node (live_gaps pm) with
                        | Some k => Hit k | None => Miss end with
                  | Hit i => ret (Z.of_nat i)
                  | Miss => ret 0
                  | OutOfBounds => undef
                  end pm = Ret (Z.of_nat idx) pm).
    { unfold idx, removed_index. destruct (find_gap node (live_gaps pm)); reflexivity. }
    rewrite Hix. unfold bind at 1. rewrite Hrun.
    unfold bind at 1. unfold modify at 1.
    unfold bind at 1. unfold modify at 1.
    unfold bind at 1. unfold get at 1.
    unfold bind at 1. unfold gap_put, in_array.
    cbn [pool with_pool with_gap_ix with_gap_ix_capacity num_gaps set_num_gaps gap_ix
         gap_ix_capacity].
    fold ng cap. rewrite Hu1, Hu2.
    replace (0 <=? ng - 1) with true by (symmetry; apply Z.leb_le; lia).
    replace (ng - 1 <? Z.of_nat (length l')) with true by (symmetry; apply Z.ltb_lt; lia).
    simpl. reflexivity. }
  unfold live_gaps.
  cbn [pool with_pool with_gap_ix with_gap_ix_capacity num_gaps set_num_gaps gap_ix
       gap_ix_capacity node_heap total_nodes used_nodes].
  fold ng l. rewrite Hu1.
  split.
  { rewrite take_insert_ge by lia.
    apply list_eq. intros j.
    destruct (decide (j < Z.to_nat (ng - 1))%nat) as [Hj|Hj].
    - rewrite lookup_take_lt by lia. rewrite Hlk.
      destruct (decide (idx ≤ j)%nat).
      + rewrite decide_True by lia. rewrite list_lookup_delete_ge by lia.
        rewrite lookup_take_lt by lia. reflexivity.
      + rewrite decide_False by lia. rewrite list_lookup_delete_lt by lia.
        rewrite lookup_take_lt by lia. reflexivity.
    - rewrite lookup_take_ge by lia. symmetry. apply lookup_ge_None_2.
      rewrite length_delete.
      + rewrite length_take. lia.
      + apply lookup_lt_is_Some_2. rewrite length_take. lia. }
  split; [reflexivity|]. split; [reflexivity|].
  split; [rewrite length_insert; exact Hlen|].
  split; [apply list_lookup_insert_eq; lia|].
  unfold gap_frame. cbn. fold ng.
  replace (ng + -1) with (ng - 1) by lia. rewrite Hu1. repeat split.
Qed.

(** ** Insertion into the gap index *)

Lemma swap_perm {A} (a b : A) : ∀ k l,
  l !! k = Some a → l !! S k = Some b → <[S k := a]> (<[k := b]> l) ≡ₚ l.
Proof.
  induction k as [|k IH]; intros [|x [|y t]] Ha Hb; simplify_eq/=.
  - apply perm_swap.
  - constructor. apply (IH (y :: t)); assumption.
Qed.

Lemma for_down_step fuel i body pm pm1 :
  0 < i → body i pm = Ret tt pm1 →
  for_down (S fuel) i body pm = for_down fuel (i - 1) body pm1.
Proof.
  intros Hlt Hb. cbn [for_down]. apply Z.ltb_lt in Hlt. rewrite Hlt, Hb. reflexivity.
Qed.

Lemma for_down_done fuel i body pm : i ≤ 0 → for_down fuel i body pm = Ret tt pm.
Proof.
  intros Hge. apply Z.ltb_ge in Hge. destruct fuel; simpl; rewrite Hge; reflexivity.
Qed.

Lemma deref_valid h g pm :
  node_heap pm = h → gap_valid h g → ∃ n, deref (g_node g) pm = Ret n pm.
Proof.
  intros <- (i & -> & Hi). unfold deref.
  destruct (lookup_lt_is_Some_2 _ _ Hi) as [n ->]. eauto.
Qed.

Lemma sort_step_perm (n : nat) i pm :
  0 < i → (Z.to_nat i < n)%nat → (n ≤ length (gap_ix pm))%nat →
  Forall (gap_valid (node_heap pm)) (take n (gap_ix pm)) →
  ∃ l', sort_step i pm = Ret tt (with_gap_ix l' pm) ∧
        length l' = length (gap_ix pm) ∧
        take n l' ≡ₚ take n (gap_ix pm).
Proof.
  intros Hi Hin Hn Hv.
  set (k := Z.to_nat (i - 1)).
  assert (Ek : Z.to_nat i = S k) by lia.
  destruct (lookup_lt_is_Some_2 (gap_ix pm) k) as [gp Egp]; [lia|].
  destruct (lookup_lt_is_Some_2 (gap_ix pm) (S k)) as [gi Egi]; [lia|].
  assert (Vp : gap_valid (node_heap pm) gp).
  { rewrite Forall_lookup in Hv. apply (Hv k). rewrite lookup_take_lt by lia. exact Egp. }
  assert (Vi : gap_valid (node_heap pm) gi).
  { rewrite Forall_lookup in Hv. apply (Hv (S k)). rewrite lookup_take_lt by lia. exact Egi. }
  destruct (deref_valid _ _ pm eq_refl Vp) as [np Enp].
  destruct (deref_valid _ _ pm eq_refl Vi) as [ni Eni].
  unfold sort_step. unfold bind at 1.
  rewrite (gap_at_inside i gi) by (try lia; rewrite Ek; exact Egi).
  unfold bind at 1.
  rewrite (gap_at_inside (i - 1) gp) by (try lia; exact Egp).
  unfold bind at 1. rewrite Eni. unfold bind at 1. rewrite Enp.
  destruct (_ || _).
  - unfold bind. rewrite gap_put_inside by lia.
    rewrite gap_put_inside by (simpl; rewrite length_insert; lia).
    simpl. fold k. rewrite Ek. eexists. split; [reflexivity|].
    split; [rewrite !length_insert; reflexivity|].
    rewrite !take_insert_lt by lia.
    apply swap_perm; rewrite lookup_take_lt by lia; assumption.
  - exists (gap_ix pm). split; [destruct pm; reflexivity|]. auto.
Qed.

Lemma sort_loop_perm (n : nat) fuel : ∀ i pm,
  0 ≤ i → (Z.to_nat i < n)%nat → (Z.to_nat i < fuel)%nat →
  (n ≤ length (gap_ix pm))%nat →
  Forall (gap_valid (node_heap pm)) (take n (gap_ix pm)) →
  ∃ l', for_down fuel i sort_step pm = Ret tt (with_gap_ix l' pm) ∧
        length l' = length (gap_ix pm) ∧
        take n l' ≡ₚ take n (gap_ix pm).
Proof.
  induction fuel as [|fuel IH]; intros i pm Hi Hin Hf Hn Hv; [lia|].
  destruct (Z_lt_le_dec 0 i) as [Hpos|Hz].
  - destruct (sort_step_perm n i pm) as (l1 & Hrun1 & Hlen1 & Hp1); try assumption.
    rewrite (for_down_step _ _ _ _ _ Hpos Hrun1).
    destruct (IH (i - 1) (with_gap_ix l1 pm)) as (l2 & Hrun2 & Hlen2 & Hp2).
    + lia.
    + lia.
    + lia.
    + simpl. lia.
    + simpl. rewrite Hp1. exact Hv.
    + exists l2. rewrite Hrun2. split; [reflexivity|]. simpl in *.
      split; [congruence|]. rewrite Hp2. exact Hp1.
  - rewrite for_down_done by assumption. exists (gap_ix pm).
    split; [destruct pm; reflexivity|]. auto.
Qed.

Lemma add_spec size node pm :
  over_fill_factor (num_gaps (pool pm)) (gap_ix_capacity pm) = false →
  0 ≤ num_gaps (pool pm) < Z.of_nat (length (gap_ix pm)) →
  Z.of_nat (length (gap_ix pm)) ≤ 2 ^ 31 →
  Forall (gap_valid (node_heap pm)) (live_gaps pm) →
  gap_valid (node_heap pm) (mk_gap size node) →
  ∃ pm',
    _mem_add_to_gap_ix size node pm = Ret ALLOC_OK pm' ∧
    live_gaps pm' ≡ₚ mk_gap size node :: live_gaps pm ∧
    num_gaps (pool pm') = num_gaps (pool pm) + 1 ∧
    gap_ix_capacity pm' = gap_ix_capacity pm ∧
    length (gap_ix pm') = length (gap_ix pm) ∧
    gap_frame pm pm' 1.
Proof.
  intros Hover Hng H31 Hv Hnew.
  set (ng := num_gaps (pool pm)) in *. set (l := gap_ix pm) in *.
  set (n := S (Z.to_nat ng)).
  assert (Hu1 : u32 (ng + 1) = ng + 1) by (apply u32_small; lia).
  assert (Hu2 : u32 (ng + 1 - 1) = ng) by (replace (ng + 1 - 1) with ng by lia; apply u32_small; lia).
  assert (Hti : to_int ng = ng).
  { unfold to_int. replace (ng <? 2 ^ 31) with true by (symmetry; apply Z.ltb_lt; lia).
    reflexivity. }
  set (l1 := <[Z.to_nat ng := mk_gap size node]> l).
  set (pm2 := with_pool (λ p, set_num_gaps (u32 (num_gaps p + 1)) p) (with_gap_ix l1 pm)).
  assert (Htake : take n l1 = live_gaps pm ++ [mk_gap size node]).
  { unfold n, l1, live_gaps. fold ng l.
    rewrite insert_take_drop by lia.
    rewrite take_app_ge by (rewrite length_take; lia).
    rewrite length_take.
    replace (S (Z.to_nat ng) - Z.to_nat ng `min` length l)%nat with 1%nat by lia.
    reflexivity. }
  destruct (sort_loop_perm n (S (length (gap_ix pm2))) ng pm2) as (l' & Hrun & Hlen & Hp).
  { lia. } { lia. }
  { unfold pm2, l1. simpl. rewrite length_insert. fold l. lia. }
  { unfold pm2, l1. simpl. rewrite length_insert. fold l. lia. }
  { unfold pm2. cbn [node_heap with_pool with_gap_ix gap_ix]. rewrite Htake.
    apply Forall_app. split; [exact Hv|]. constructor; [exact Hnew|constructor]. }
  exists (with_gap_ix l' pm2). split.
  { unfold _mem_add_to_gap_ix, _mem_resize_gap_ix.
    unfold bind at 1. unfold bind at 1. unfold get at 1. fold ng. rewrite Hover.
    unfold ret at 1. unfold bind at 1. unfold get at 1.
    unfold bind at 1. rewrite gap_put_inside by (fold ng l; lia). fold ng l l1.
    unfold bind at 1. unfold modify at 1. fold pm2.
    unfold bind at 1. unfold _mem_sort_gap_ix.
    unfold bind at 1. unfold get at 1. unfold bind at 1.
    replace (num_gaps (pool pm2)) with (u32 (ng + 1)) by reflexivity.
    rewrite Hu1, Hu2, Hti, Hrun. reflexivity. }
  unfold pm2 in Hlen, Hp. cbn [gap_ix with_pool with_gap_ix] in Hlen, Hp.
  unfold live_gaps at 1.
  cbn [pool with_pool with_gap_ix with_gap_ix_capacity num_gaps set_num_gaps gap_ix
       gap_ix_capacity node_heap total_nodes used_nodes pm2].
  fold ng. rewrite Hu1.
  replace (Z.to_nat (ng + 1)) with n by (unfold n; lia).
  split.
  { rewrite Hp, Htake. rewrite Permutation_app_comm. reflexivity. }
  split; [reflexivity|]. split; [reflexivity|].
  split; [rewrite Hlen; unfold l1; apply length_insert|].
  unfold gap_frame. cbn. fold ng. rewrite Hu1. repeat split.
Qed.

(** ** The pool store *)

Lemma in_array_true {A} i (l : list A) :
  in_array i l = true ↔ 0 ≤ i < Z.of_nat (length l).
Proof.
  unfold in_array. rewrite andb_true_iff, Z.leb_le, Z.ltb_lt. tauto.
Qed.

Lemma open_store_resizing fresh mgr size pol buf s :
  pool_store s ≠ None →
  over_fill_factor (pool_store_size s) (pool_store_capacity s) = true →
  2 ≤ pool_store_size s →
  mgr ≠ 0 → buf ≠ 0 →
  mem_pool_open_store fresh mgr size pol buf s = None.
Proof.
  intros Hs Hover Hsz Hmgr Hbuf. unfold mem_pool_open_store.
  destruct (pool_store s) as [l|] eqn:El; [|contradiction].
  unfold _mem_resize_pool_store. rewrite Hover. cbn [snd pool_store pool_store_size].
  apply Z.eqb_neq in Hmgr. rewrite Hmgr.
  unfold mem_pool_open. apply Z.eqb_neq in Hbuf. rewrite Hbuf.
  destruct (in_array _ _) eqn:Ein; [|reflexivity].
  apply in_array_true in Ein. unfold realloc_store in Ein.
  rewrite length_take in Ein. change (Z.to_nat _) with 2%nat in Ein. lia.
Qed.

Lemma open_store_registers fresh mgr size pol buf s l :
  pool_store s = Some l →
  over_fill_factor (pool_store_size s) (pool_store_capacity s) = false →
  0 ≤ pool_store_size s < Z.of_nat (length l) →
  pool_store_size s < 2 ^ 32 - 1 →
  mgr ≠ 0 → buf ≠ 0 →
  mem_pool_open_store fresh mgr size pol buf s
  = Some (Some (mgr, new_pool_mgr size pol buf),
          mk_store (Some (<[Z.to_nat (pool_store_size s) := mgr]> l))
                   (pool_store_size s + 1) (pool_store_capacity s)).
Proof.
  intros El Hover Hsz H32 Hmgr Hbuf. unfold mem_pool_open_store. rewrite El.
  unfold _mem_resize_pool_store. rewrite Hover. cbn [snd]. rewrite El.
  apply Z.eqb_neq in Hmgr. rewrite Hmgr.
  unfold mem_pool_open. apply Z.eqb_neq in Hbuf. rewrite Hbuf.
  replace (in_array (pool_store_size s) l) with true
    by (symmetry; apply in_array_true; lia).
  unfold u32. rewrite Z.mod_small by lia. reflexivity.
Qed.

Lemma open_store_some fresh mgr size pol buf s r s' :
  mem_pool_open_store fresh mgr size pol buf s = Some (Some r, s') →
  ∃ l, pool_store s = Some l ∧ mgr ≠ 0 ∧ buf ≠ 0 ∧ r = (mgr, new_pool_mgr size pol buf).
Proof.
  unfold mem_pool_open_store. destruct (pool_store s) as [l|]; [|discriminate].
  destruct (mgr =? 0) eqn:Em; [discriminate|]. apply Z.eqb_neq in Em.
  unfold mem_pool_open. destruct (buf =? 0) eqn:Eb; [discriminate|]. apply Z.eqb_neq in Eb.
  destruct (pool_store _); [|discriminate]. destruct (in_array _ _); [|discriminate].
  intros [= <- _]. eauto.
Qed.

Lemma forget_pool_shape mgr s s' l :
  forget_pool mgr s = Some s' → pool_store s = Some l →
  pool_store_size s' = pool_store_size s ∧
  pool_store_capacity s' = pool_store_capacity s ∧
  ∃ l', pool_store s' = Some l' ∧ length l' = length l.
Proof.
  unfold forget_pool. intros H El. rewrite El in H. simpl in H.
  destruct (scan _ _ _ _); [| |discriminate]; injection H as <-; simpl.
  - repeat split. eexists. split; [reflexivity|]. apply length_insert.
  - repeat split. eauto.
Qed.

Lemma store_after_inv n s :
  store_after n s →
  (n ≤ 16)%nat ∧
  pool_store_size s = Z.of_nat n ∧
  pool_store_capacity s = 20 ∧
  ∃ l, pool_store s = Some l ∧ length l = 20%nat ∧
       ∀ i, (n ≤ i < 20)%nat → l !! i = Some 0.
Proof.
  induction 1 as [|n s fresh mgr size pol buf r s' _ IH Ho
                  |n s mgr pm st pm' s' _ IH Hc].
  - simpl. split; [lia|]. repeat split. eexists. split; [reflexivity|].
    split; [reflexivity|]. intros i Hi.
    do 20 (destruct i as [|i]; [reflexivity|]). lia.
  - destruct IH as (Hn & Hsz & Hcap & l & El & Hlen & Hz).
    destruct (open_store_some _ _ _ _ _ _ _ _ Ho) as (_ & _ & Hmgr & Hbuf & _).
    destruct (over_fill_factor (pool_store_size s) (pool_store_capacity s)) eqn:Hover.
    + assert (Hsz2 : 2 ≤ pool_store_size s).
      { unfold over_fill_factor in Hover. apply Z.ltb_lt in Hover. lia. }
      rewrite open_store_resizing in Ho; try assumption; [discriminate|].
      rewrite El. discriminate.
    + assert (Hlt : Z.of_nat n < 16).
      { unfold over_fill_factor in Hover. apply Z.ltb_ge in Hover. lia. }
      rewrite (open_store_registers _ _ _ _ _ _ l) in Ho; try assumption; try lia.
      injection Ho as _ <-. simpl. split; [lia|]. split; [lia|]. split; [assumption|].
      eexists. split; [reflexivity|]. rewrite length_insert. split; [assumption|].
      intros i Hi. rewrite list_lookup_insert_ne by lia. apply Hz. lia.
  - destruct IH as (Hn & Hsz & Hcap & l & El & Hlen & Hz).
    unfold mem_pool_close_store in Hc.
    destruct (mem_pool_close pm) as [st0 pm0|]; [|discriminate].
    assert (Hs' : s' = s ∨ forget_pool mgr s = Some s').
    { destruct st0; try (injection Hc as _ _ <-; auto).
      destruct (forget_pool mgr s); [|discriminate]. injection Hc as _ _ <-. auto. }
    destruct Hs' as [->|Hf]; [eauto 10|].
    unfold forget_pool in Hf. rewrite El in Hf. simpl in Hf.
    destruct (scan _ _ _ _) as [k| |]; [| |discriminate]; injection Hf as <-; simpl.
    + split; [assumption|]. split; [assumption|]. split; [assumption|].
      eexists. split; [reflexivity|]. rewrite length_insert. split; [assumption|].
      intros i Hi. destruct (decide (i = k)) as [->|].
      * apply list_lookup_insert_eq. lia.
      * rewrite list_lookup_insert_ne by auto. apply Hz. assumption.
    + eauto 10.
Qed.

Lemma clear_store_inside fuel : ∀ i hi l,
  0 ≤ i → hi ≤ Z.of_nat (length l) → (Z.to_nat (hi - i) < fuel)%nat →
  ∃ l', clear_store fuel i hi l = Some l'.
Proof.
  induction fuel as [|fuel IH]; intros i hi l Hi Hhi Hf; [lia|].
  simpl. destruct (i <? hi) eqn:E; [|eauto].
  apply Z.ltb_lt in E.
  replace (in_array i l) with true by (symmetry; apply in_array_true; lia).
  apply IH; [lia|rewrite length_insert; lia|lia].
Qed.

Lemma scan_first_match {A} (P : A → bool) (l : list A) k x : ∀ i n,
  l !! k = Some x → P x = true → (∀ j y, (j < k)%nat → l !! j = Some y → P y = false) →
  Z.of_nat (i + k) < n →
  scan (λ y, Some (P y)) l i n = Hit (i + k).
Proof.
  revert k. induction l as [|a l IH]; intros k i n Hk Hx Hlt Hn; [discriminate|].
  simpl. replace (Z.of_nat i <? n) with true by (symmetry; apply Z.ltb_lt; lia).
  destruct k as [|k]; simpl in Hk.
  - injection Hk as ->. rewrite Hx. f_equal. lia.
  - rewrite (Hlt 0%nat a) by (lia || reflexivity).
    replace (i + S k)%nat with (S i + k)%nat by lia.
    apply IH; try assumption; [|lia].
    intros j y Hj Hy. apply (Hlt (S j)); [lia|exact Hy].
Qed.

Lemma open_close_store n s fresh mgr size pol buf l :
  store_after n s → (n < 16)%nat →
  pool_store s = Some l → mgr ≠ 0 → buf ≠ 0 → mgr ∉ l →
  ∃ pm s1,
    mem_pool_open_store fresh mgr size pol buf s = Some (Some (mgr, pm), s1) ∧
    mem_pool_close_store mgr pm s1
    = Some (ALLOC_OK, released pm,
            mk_store (Some l) (pool_store_size s + 1) (pool_store_capacity s)).
Proof.
  intros Ha Hn El Hmgr Hbuf Hnin.
  destruct (store_after_inv _ _ Ha) as (_ & Hsz & Hcap & l0 & El0 & Hlen & Hz).
  assert (l0 = l) as -> by congruence.
  assert (Hover : over_fill_factor (pool_store_size s) (pool_store_capacity s) = false).
  { unfold over_fill_factor. apply Z.ltb_ge. lia. }
  do 2 eexists. split.
  { apply (open_store_registers _ _ _ _ _ _ l); try assumption; lia. }
  unfold mem_pool_close_store.
  assert (Hclose : mem_pool_close (new_pool_mgr size pol buf)
                   = Ret ALLOC_OK (released (new_pool_mgr size pol buf))).
  { unfold mem_pool_close, bind, get, new_pool_mgr. simpl.
    apply Z.eqb_neq in Hbuf. rewrite Hbuf. reflexivity. }
  rewrite Hclose. unfold forget_pool. cbn [pool_store pool_store_capacity default].
  unfold id. rewrite Hsz, Nat2Z.id, Hcap.
  rewrite (scan_first_match (λ p, p =? mgr) _ n mgr 0 20).
  - cbn [pool_store_size Nat.add]. rewrite list_insert_insert_eq.
    rewrite (list_insert_id l n 0) by (apply Hz; lia). reflexivity.
  - apply list_lookup_insert_eq. lia.
  - apply Z.eqb_refl.
  - intros j y Hj Hy. rewrite list_lookup_insert_ne in Hy by lia.
    apply Z.eqb_neq. intros ->. apply Hnin. eapply list_elem_of_lookup_2. exact Hy.
  - lia.
Qed.

Lemma free_store n s : store_after n s → mem_free s = Some (ALLOC_OK, store_start).
Proof.
  intros Ha. destruct (store_after_inv _ _ Ha) as (_ & _ & Hcap & l & El & Hlen & _).
  unfold mem_free. rewrite El, Hcap.
  destruct (clear_store_inside (S (length l)) 0 20 l) as [l' ->]; [lia|lia|lia|].
  reflexivity.
Qed.

(** ** The node heap after a call *)

Lemma post_conj {A} (m : M A) pm (Q1 Q2 : A → pool_mgr_t → Prop) :
  post m pm Q1 → post m pm Q2 → post m pm (λ a pm', Q1 a pm' ∧ Q2 a pm').
Proof. unfold post. destruct (m pm); auto. Qed.

Lemma absorb_ext a b sz v v' :
  (∀ j, v' j = v j) → ∀ j, absorb_v a b sz v' j = absorb_v a b sz v j.
Proof. intros E j. unfold absorb_v. rewrite !E. reflexivity. Qed.

Lemma splice_ext s u m sz v v' :
  (∀ j, v' j = v j) → ∀ j, splice_v s u m sz v' j = splice_v s u m sz v j.
Proof. intros E j. unfold splice_v. rewrite !E. reflexivity. Qed.

Lemma upd_ext x f v v' :
  (∀ j, v' j = v j) → ∀ j, upd_v x f v' j = upd_v x f v j.
Proof. intros E j. unfold upd_v. rewrite !E. reflexivity. Qed.

Lemma merge_next_ext x v v' :
  (∀ j, v' j = v j) → ∀ j, merge_next_v x v' j = merge_next_v x v j.
Proof.
  intros E j. unfold merge_next_v. rewrite !E. destruct (next (v x)) as [y|]; [|apply E].
  rewrite !E. destruct (_ =? _); [|apply E].
  apply absorb_ext. apply upd_ext. exact E.
Qed.

Lemma merge_prev_ext x v v' :
  (∀ j, v' j = v j) → ∀ j, merge_prev_v x v' j = merge_prev_v x v j.
Proof.
  intros E j. unfold merge_prev_v. rewrite !E. destruct (prev (v x)) as [y|]; [|apply E].
  rewrite !E. destruct (_ =? _); [|apply E].
  apply absorb_ext. apply upd_ext. exact E.
Qed.

Lemma nd_insert_upd H i f j :
  (i < length H)%nat → nd (<[i := f (nd H i)]> H) j = upd_v i f (nd H) j.
Proof. intros Hi. rewrite nd_insert by assumption. reflexivity. Qed.

Lemma merge_next_view pm P H T U x r :
  core_is pm P H T U → shape (nd H) r →
  post (merge_next (Some x)) pm
       (λ _ pm', ∃ H', node_heap pm' = H' ∧ ∀ j, nd H' j = merge_next_v x (nd H) j).
Proof.
  intros C Hs. unfold merge_next. step. step. step.
  eapply post_mono; [eapply is_gap_post; eassumption|].
  intros [] pm1.
  - intros (y & Hxy & Ly & Hay & C1).
    destruct (sh_next _ _ Hs x y Hxy) as [Hyx Hr].
    assert (x ≠ y) by (intros ->; lia).
    set (H2 := <[y := set_used 1 (nd H y)]> H) in *.
    assert (E2 : ∀ j, nd H2 j = upd_v y (set_used 1) (nd H) j)
      by (intros j; apply nd_insert_upd; assumption).
    assert (Hxy2 : next (nd H2 x) = Some y).
    { rewrite E2. unfold upd_v. rewrite decide_False by assumption. exact Hxy. }
    eapply post_mono.
    { eapply merge_next_body_post; [exact C1|exact Hxy2|assumption|].
      intros z Hz. rewrite E2 in Hz. unfold upd_v in Hz. rewrite decide_True in Hz by auto.
      simpl in Hz. destruct (sh_next _ _ Hs y z Hz). split; intros ->; lia. }
    intros [] pm2 (H' & C2 & Hl & Hv). exists H'. split; [apply C2|].
    intros j. rewrite Hv. unfold merge_next_v. rewrite Hxy.
    apply Z.eqb_eq in Hay. rewrite Hay.
    rewrite (absorb_ext _ _ _ _ _ E2).
    rewrite !E2. unfold upd_v at 1 2. rewrite decide_False, decide_True by auto.
    reflexivity.
  - intros [-> Hnf]. step. exists H. split; [apply C|].
    intros j. unfold merge_next_v. destruct (next (nd H x)) as [y|] eqn:Ey; [|reflexivity].
    specialize (Hnf y eq_refl). apply Z.eqb_neq in Hnf. rewrite Hnf. reflexivity.
Qed.

Lemma merge_prev_view pm P H T U x r :
  core_is pm P H T U → shape (nd H) r →
  post (merge_prev (Some x)) pm
       (λ _ pm', ∃ H', node_heap pm' = H' ∧ ∀ j, nd H' j = merge_prev_v x (nd H) j).
Proof.
  intros C Hs. unfold merge_prev. step. step. step.
  eapply post_mono; [eapply is_gap_post; eassumption|].
  intros [] pm1.
  - intros (p & Hxp & Lp & Hap & C1).
    pose proof (sh_prev _ _ Hs p x Hxp) as Hpx.
    destruct (sh_next _ _ Hs p x Hpx) as [_ Hr].
    assert (p ≠ x) by (intros ->; lia).
    set (H2 := <[p := set_used 1 (nd H p)]> H) in *.
    assert (E2 : ∀ j, nd H2 j = upd_v p (set_used 1) (nd H) j)
      by (intros j; apply nd_insert_upd; assumption).
    assert (Hxp2 : prev (nd H2 x) = Some p).
    { rewrite E2. unfold upd_v. rewrite decide_False by auto. exact Hxp. }
    eapply post_mono.
    { eapply merge_prev_body_post; [exact C1|exact Hxp2|assumption|].
      intros z Hz. rewrite E2 in Hz. unfold upd_v in Hz. rewrite decide_False in Hz by auto.
      destruct (sh_next _ _ Hs x z Hz). split; intros ->; lia. }
    intros st pm2 (-> & H' & C2 & Hl & Hv). exists H'. split; [apply C2|].
    intros j. rewrite Hv. unfold merge_prev_v. rewrite Hxp.
    apply Z.eqb_eq in Hap. rewrite Hap.
    rewrite (absorb_ext _ _ _ _ _ E2).
    rewrite !E2. unfold upd_v at 1 2. rewrite decide_False, decide_True by auto.
    reflexivity.
  - intros [-> Hnf]. step. exists H. split; [apply C|].
    intros j. unfold merge_prev_v. destruct (prev (nd H x)) as [y|] eqn:Ey; [|reflexivity].
    specialize (Hnf y eq_refl). apply Z.eqb_neq in Hnf. rewrite Hnf. reflexivity.
Qed.

Lemma del_view junk alloc pm :
  Inv pm →
  post (mem_del_alloc junk alloc) pm
       (λ st pm',
          Inv pm' ∧
          ((st = ALLOC_NOT_FREED ∧ pm' = pm ∧ del_target junk alloc pm = Ret None pm) ∨
           (st = ALLOC_OK ∧ ∃ x,
              del_target junk alloc pm = Ret (Some x) pm ∧
              (x < length (node_heap pm))%nat ∧
              (∀ j, nd (node_heap pm') j = del_v x (nd (node_heap pm)) j) ∧
              same_pool_consts (pool pm) (pool pm') ∧
              num_allocs (pool pm') = u32 (num_allocs (pool pm) - 1) ∧
              alloc_size (pool pm')
              = u64 (alloc_size (pool pm) - a_size (alloc_record (nd (node_heap pm) x)))))).
Proof.
  intros [Hlen Htot [r Hs] Hna Hcnt Hctr [Hr1 Hr2] Hmem].
  unfold mem_del_alloc. apply post_bind.
  apply post_intro. intros a pm0 Hra.
  assert (pm0 = pm) as -> by (apply (post_elim _ _ _ _ _ (read_alloc_post alloc pm) Hra)).
  step. step. step.
  apply post_intro. intros ntd pm0 Hfo.
  assert (pm0 = pm) as ->.
  { destruct (post_elim _ _ _ _ _ (found_or_post _ _ pm) Hfo) as [-> _]. reflexivity. }
  assert (Htgt : del_target junk alloc pm = Ret ntd pm).
  { unfold del_target, bind, get. rewrite Hra. exact Hfo. }
  rewrite Htgt. clear Hfo Htgt Hra.
  destruct ntd as [x|].
  2:{ step. split; [split; eauto|]. left. auto. }
  pose proof (core_is_intro pm) as C. rewrite Hcnt in C.
  set (H := node_heap pm) in *. set (P := pool pm) in *.
  step. step.
  set (H1 := <[x := set_allocated 0 (nd H x)]> H) in *.
  assert (E1 : ∀ j, nd H1 j = upd_v x (set_allocated 0) (nd H) j)
    by (intros j; apply nd_insert_upd; assumption).
  assert (Ht : touch (nd H) (nd H1)).
  { apply touch_insert; auto; simpl; tauto. }
  assert (Hs1 : shape (nd H1) r) by (eapply shape_touch; eauto).
  assert (Hna1 : noadj_but x (nd H1)).
  { eapply noadj_mark; [| |exact Hna].
    - intros j. apply Ht.
    - intros j Hj. unfold H1. rewrite nd_insert, decide_False by assumption. reflexivity. }
  assert (Hax : allocated (nd H1 x) = 0).
  { unfold H1. rewrite nd_insert, decide_True by auto. reflexivity. }
  assert (Hc1 : count_used H1 = count_used H).
  { apply count_same; [apply length_insert|]. intros j. apply Ht. }
  assert (Hl1 : length H1 = 40%nat) by (unfold H1; rewrite length_insert; assumption).
  assert (Hsz1 : a_size (alloc_record (nd H1 x)) = a_size (alloc_record (nd H x))).
  { unfold H1. rewrite nd_insert, decide_True by auto. reflexivity. }
  rewrite <- Hc1 in C0.
  steps.
  eapply post_mono;
    [apply post_conj; [eapply merge_next_inv; eauto; lia|eapply merge_next_view; eauto]|].
  intros [] pm3 [(P2 & H2 & C3 & Hl2 & Hs2 & Hna2 & Hax2 & Hnx2 & Hp2) (H2' & EH2 & Hv2)].
  assert (H2' = H2) as -> by (destruct C3 as (_ & ? & _); congruence).
  steps.
  eapply post_mono;
    [apply post_conj; [eapply merge_prev_inv; eauto; lia|eapply merge_prev_view; eauto]|].
  intros st pmf [(-> & P4 & H4 & Cf & Hl4 & Hs4 & Hna4 & Hp4) (H4' & EH4 & Hv4)].
  assert (H4' = H4) as -> by (destruct Cf as (_ & ? & _); congruence).
  destruct Cf as (EP & EH & ET & EU).
  destruct Hp2 as (?&?&?&?&?&?&?), Hp4 as (?&?&?&?&?&?&?). simpl in *.
  split.
  { split; rewrite ?EP, ?EH, ?ET, ?EU.
    - lia.
    - assumption.
    - eauto.
    - assumption.
    - reflexivity.
    - subst P. mod32.
    - split.
      + replace (num_allocs P4) with (u32 (num_allocs P - 1)) by congruence.
        apply u32_range.
      + match goal with Hg : 0 <= u32 _ → _ |- _ => apply Hg end. apply u32_range.
    - congruence. }
  right. split; [reflexivity|]. exists x. split; [reflexivity|].
  split; [assumption|]. rewrite EP, EH.
  split.
  { intros j. rewrite Hv4. unfold del_v.
    apply merge_prev_ext. intros k. rewrite Hv2. apply merge_next_ext. exact E1. }
  split; [unfold same_pool_consts; repeat split; congruence|].
  split; [congruence|].
  rewrite <- Hsz1. congruence.
Qed.

Lemma alloc_view junk size pm :
  Inv pm → 0 ≤ size →
  post (mem_new_alloc junk size) pm
       (λ p pm',
          Inv pm' ∧
          match p with
          | None => pm' = pm ∧ gives_up size pm
          | Some s =>
              num_gaps (pool pm) ≠ 0 ∧ used_nodes pm < total_nodes pm ∧
              select_node size pm = Ret (Some s) pm ∧
              (s < length (node_heap pm))%nat ∧
              allocated (nd (node_heap pm) s) = 0 ∧
              size ≤ a_size (alloc_record (nd (node_heap pm) s)) ∧
              ∃ u,
                (u64 (a_size (alloc_record (nd (node_heap pm) s)) - size) ≠ 0 →
                 used (nd (node_heap pm) s) ≠ 0 ∧ first_unused (nd (node_heap pm)) u) ∧
                (∀ j, nd (node_heap pm') j = alloc_v size s u (nd (node_heap pm)) j) ∧
                same_pool_consts (pool pm) (pool pm') ∧
                num_allocs (pool pm') = u32 (num_allocs (pool pm) + 1) ∧
                alloc_size (pool pm') = u64 (alloc_size (pool pm) + size)
          end).
Proof.
  intros HI Hsz. pose proof HI as [Hlen Htot [r Hs] Hna Hcnt Hctr [Hr1 Hr2] Hmem].
  unfold mem_new_alloc, gives_up. step. step.
  destruct (num_gaps (pool pm) =? 0) eqn:Eg; [apply Z.eqb_eq in Eg; step; auto|].
  apply Z.eqb_neq in Eg.
  destruct (total_nodes pm <=? used_nodes pm) eqn:Efull;
    [apply Z.leb_le in Efull; step; auto|].
  apply Z.leb_gt in Efull.
  step. apply post_intro. intros p pm1 Esel.
  destruct (post_elim _ _ _ _ _ (select_node_post size pm) Esel) as [-> Hsel].
  destruct p as [s|]; [|step; auto].
  destruct (Hsel s eq_refl) as (Ls & Has & Hfit). clear Hsel.
  pose proof (core_is_intro pm) as C. rewrite Hcnt in C.
  set (H := node_heap pm) in *. set (P := pool pm) in *.
  do 12 step.
  rewrite list_insert_insert_eq in C4.
  set (H1 := <[s := set_size size (set_allocated 1 (nd H s))]> H) in *.
  assert (E1 : ∀ j, nd H1 j = upd_v s (λ n, set_size size (set_allocated 1 n)) (nd H) j)
    by (intros j; apply (nd_insert_upd H s (λ n, set_size size (set_allocated 1 n)));
        assumption).
  assert (Ht : touch (nd H) (nd H1)).
  { apply touch_insert; auto; simpl; try tauto.
    intros Hu. destruct (sh_unused _ _ Hs s Hu) as (_&_&Hz). lia. }
  assert (Hs1 : shape (nd H1) r) by (eapply shape_touch; eauto).
  assert (Eal : ∀ j, j ≠ s → allocated (nd H1 j) = allocated (nd H j)).
  { intros j Hj. unfold H1. rewrite nd_insert, decide_False by assumption. reflexivity. }
  assert (Has1 : allocated (nd H1 s) = 1).
  { unfold H1. rewrite nd_insert, decide_True by auto. reflexivity. }
  assert (Hna1 : noadj (nd H1)).
  { eapply noadj_less; [| |exact Hna].
    - intros j. apply Ht.
    - intros j Hj. destruct (decide (j = s)) as [->|]; [lia|]. rewrite <- Eal; assumption. }
  assert (Hc1 : count_used H1 = count_used H).
  { apply count_same; [apply length_insert|]. intros j. apply Ht. }
  assert (Hl1 : length H1 = 40%nat) by (unfold H1; rewrite length_insert; assumption).
  assert (Hm1 : a_mem (alloc_record (nd H1 s)) = a_mem (alloc_record (nd H s))).
  { unfold H1. rewrite nd_insert, decide_True by auto. reflexivity. }
  rewrite <- Hc1 in C4.
  assert (Hfacts : num_gaps P ≠ 0 ∧ used_nodes pm < total_nodes pm ∧
                   Ret (Some s) pm = Ret (Some s) pm ∧ (s < length H)%nat ∧
                   allocated (nd H s) = 0 ∧ size ≤ a_size (alloc_record (nd H s)))
    by (repeat split; assumption).
  rewrite Esel.
  destruct (u64 (a_size (alloc_record (nd H s)) - size) =? 0) eqn:Erem.
  - step.
    destruct C4 as (EP & EH & ET & EU).
    split.
    { split; rewrite ?EP, ?EH, ?ET, ?EU; simpl; eauto.
      + subst P. rewrite Hc1. mod32.
      + split; apply u32_range. }
    destruct Hfacts as (?&?&?&?&?&?). repeat (split; [assumption|]).
    exists 0%nat. rewrite EP, EH. apply Z.eqb_eq in Erem.
    split; [intros; contradiction|].
    split.
    { intros j. unfold alloc_v. cbv zeta. rewrite Erem. simpl. apply E1. }
    repeat split.
  - apply Z.eqb_neq in Erem.
    assert (Hus : used (nd H s) ≠ 0).
    { intros Hu. destruct (sh_unused _ _ Hs s Hu) as (_&_&Hz). rewrite Hz in *.
      apply Erem. replace size with 0 by lia. reflexivity. }
    destruct (scan (λ n, Some (used n =? 0)) H1 0 (total_nodes pm)) as [u| |] eqn:Escan.
    + destruct (scan_hit _ _ _ _ _ Escan) as (x & _ & Hx & Px & Hlow).
      rewrite Nat.sub_0_r in Hx, Hlow. injection Px as Px. apply Z.eqb_eq in Px.
      rewrite <- (nd_lookup _ _ _ Hx) in Px.
      assert (Lu : (u < length H1)%nat) by (apply lookup_lt_is_Some_1; eauto).
      assert (Hus1 : used (nd H1 s) ≠ 0) by (destruct (Ht s) as (_&_&Hu&_); tauto).
      assert (u ≠ s) by (intros ->; congruence).
      destruct (sh_unused _ _ Hs1 u Px) as (Hun & Hup & _).
      eapply post_mono.
      { eapply split_node_post; [exact C4|exact Escan|assumption|assumption|].
        intros t Ht'. destruct (sh_next _ _ Hs1 s t Ht'). split; intros ->; [congruence|lia]. }
      intros p pmf (-> & H' & Cf & Hl' & Hv).
      assert (Hc : count_used H' = S (count_used H1)).
      { apply (count_drop H' H1 u).
        - congruence.
        - rewrite Hl'. assumption.
        - intros j Hj. rewrite Hv. unfold splice_v. rewrite decide_False by assumption.
          repeat (destruct (decide _)); subst; fields; tauto.
        - rewrite Hv. unfold splice_v. rewrite decide_True by reflexivity. simpl. lia.
        - assumption. }
      destruct Cf as (EP & EH & ET & EU).
      split.
      { split; rewrite ?EP, ?EH, ?ET, ?EU; simpl.
        * congruence.
        * assumption.
        * eexists. eapply shape_ext; [exact Hv|]. eapply shape_splice; eauto.
        * eapply noadj_ext; [exact Hv|]. eapply noadj_splice; eauto; [lia|].
          intros t Ht' Hat. destruct (Ht s) as (En&_).
          destruct (sh_next _ _ Hs1 s t Ht') as [_ Hrk].
          assert (t ≠ s) by (intros ->; lia).
          rewrite Eal in Hat by assumption. rewrite En in Ht'.
          exact (Hna s t Ht' Has Hat).
        * rewrite u32_small; lia.
        * subst P. mod32.
        * split; apply u32_range.
        * assumption. }
      destruct Hfacts as (?&?&?&?&?&?). repeat (split; [assumption|]).
      exists u. rewrite EP, EH.
      split.
      { intros _. split; [assumption|]. split.
        - destruct (Ht u) as (_&_&Hu&_). tauto.
        - intros j Hj Huj.
          assert (Lj : (j < length H1)%nat) by lia.
          specialize (Hlow j (nd H1 j) Hj (lookup_nd _ _ Lj)).
          injection Hlow as Hlow. apply Z.eqb_neq in Hlow.
          destruct (Ht j) as (_&_&Hu&_). tauto. }
      split.
      { intros j. rewrite Hv. unfold alloc_v. cbv zeta.
        apply Z.eqb_neq in Erem. rewrite Erem. rewrite Hm1.
        apply splice_ext. exact E1. }
      repeat split.
    + exfalso. pose proof (scan_miss _ _ _ _ Escan) as Hm.
      assert (count_used H1 = length H1).
      { apply count_full. intros j Hj.
        specialize (Hm j (nd H1 j) (lookup_nd _ _ Hj) ltac:(lia)).
        injection Hm as Hm. apply Z.eqb_neq in Hm. exact Hm. }
      lia.
    + unfold split_node. apply post_bind. apply post_intro. intros ? ? [= <- <-].
      destruct C4 as (EP & EH & ET & EU). rewrite EH, ET, Escan. exact I.
Qed.

(** ** The partition of the buffer *)

Lemma flags_touch v v' : flags_only v v' → touch v v'.
Proof.
  intros Hf j. destruct (Hf j) as (Hn & Hp & Ha & Hu).
  repeat split; try tauto. intros _. left. rewrite Ha. reflexivity.
Qed.

Lemma tiled_flags buf total v v' off :
  flags_only v v' → tiled buf total v off → tiled buf total v' off.
Proof.
  intros Hf [H1 H2 H3 H4 H5 H6 H7]. split; try assumption.
  - intros i. destruct (Hf i) as (_&_&->&Hu). intros. apply H2. tauto.
  - intros i. destruct (Hf i) as (_&_&->&Hu). intros. apply H3. tauto.
  - intros i. destruct (Hf i) as (_&_&_&Hu). intros. apply H4. tauto.
  - intros i. destruct (Hf i) as (_&_&->&Hu). intros. apply H5. tauto.
  - intros i j. destruct (Hf i) as (->&_&->&Hu). intros. apply H6; tauto.
  - intros i. destruct (Hf i) as (->&_&->&Hu). intros. apply H7; tauto.
Qed.

Lemma headed_flags v v' : flags_only v v' → headed v → headed v'.
Proof.
  intros Hf Hh i. destruct (Hf i) as (_&->&_&Hu). intros. apply Hh; tauto.
Qed.

Lemma partitioned_flags buf total v v' :
  flags_only v v' → partitioned buf total v → partitioned buf total v'.
Proof.
  intros Hf ([r Hs] & Hh & [off Ht]). split; [|split].
  - exists r. eapply shape_touch; [exact Hs|]. apply flags_touch. exact Hf.
  - eapply headed_flags; eauto.
  - exists off. eapply tiled_flags; eauto.
Qed.

Lemma partitioned_ext buf total v v' :
  (∀ j, v' j = v j) → partitioned buf total v → partitioned buf total v'.
Proof.
  intros E. apply partitioned_flags. intros j. rewrite E. tauto.
Qed.

Lemma linked_used v r i j : shape v r → next (v i) = Some j → used (v i) ≠ 0 ∧ used (v j) ≠ 0.
Proof.
  intros Hs Hij. destruct (sh_next _ _ Hs i j Hij) as [Hji _]. split; intros H0.
  - destruct (sh_unused _ _ Hs i H0) as (?&_). congruence.
  - destruct (sh_unused _ _ Hs j H0) as (_&?&_). congruence.
Qed.

Lemma u64_exact x : 0 ≤ x < 2 ^ 64 → u64 x = x.
Proof. unfold u64. apply Z.mod_small. Qed.

Lemma u64_add_l x y : u64 (u64 x + y) = u64 (x + y).
Proof. unfold u64. apply Zplus_mod_idemp_l. Qed.

Lemma partitioned_absorb buf total v a b :
  total < 2 ^ 64 → partitioned buf total v → next (v a) = Some b →
  partitioned buf total
    (absorb_v a b (u64 (a_size (alloc_record (v a)) + a_size (alloc_record (v b)))) v).
Proof.
  intros Htot ([r Hs] & Hh & [off Ht]) Hab.
  destruct (sh_next _ _ Hs a b Hab) as [Hba Hr].
  destruct (linked_used _ _ _ _ Hs Hab) as [Hua Hub].
  assert (a ≠ b) by (intros ->; lia).
  assert (Hz : ∀ z, next (v b) = Some z → z ≠ a ∧ z ≠ b ∧ prev (v z) = Some b).
  { intros z Hz. destruct (sh_next _ _ Hs b z Hz). repeat split; auto; intros ->; lia. }
  destruct Ht as [T1 T2 T3 T4 T5 T6 T7].
  pose proof (T3 a Hua). pose proof (T3 b Hub). pose proof (T4 a Hua).
  pose proof (T5 b Hub). pose proof (T6 a b Hua Hab) as Hoff.
  set (sz := a_size (alloc_record (v a)) + a_size (alloc_record (v b))).
  assert (Esz : u64 sz = sz) by (apply u64_exact; unfold sz; lia).
  rewrite Esz.
  assert (Hfld : ∀ i, i ≠ a → i ≠ b →
            used (absorb_v a b sz v i) = used (v i) ∧
            alloc_record (absorb_v a b sz v i) = alloc_record (v i) ∧
            next (absorb_v a b sz v i) = next (v i)).
  { intros i Hia Hib. unfold absorb_v. rewrite !decide_False by assumption.
    destruct (decide _); auto. }
  split; [|split].
  - exists r. apply shape_absorb; assumption.
  - intros i. unfold absorb_v.
    destruct (decide (i = b)) as [->|Hib]; [simpl; congruence|].
    destruct (decide (i = a)) as [->|Hia]; [simpl; apply Hh|].
    destruct (decide (next (v b) = Some i)) as [Hbi|]; [simpl; discriminate|apply Hh].
  - exists off. split.
    + assumption.
    + intros i. destruct (decide (i = b)) as [->|Hib].
      { unfold absorb_v. rewrite decide_True by auto. simpl. congruence. }
      destruct (decide (i = a)) as [->|Hia].
      { unfold absorb_v. rewrite decide_False, decide_True by auto. simpl. apply T2. }
      destruct (Hfld i Hia Hib) as (->&->&_). apply T2.
    + intros i. destruct (decide (i = b)) as [->|Hib].
      { unfold absorb_v. rewrite decide_True by auto. simpl. congruence. }
      destruct (decide (i = a)) as [->|Hia].
      { unfold absorb_v. rewrite decide_False, decide_True by auto. simpl. unfold sz. lia. }
      destruct (Hfld i Hia Hib) as (->&->&_). apply T3.
    + intros i. destruct (decide (i = b)) as [->|Hib].
      { unfold absorb_v. rewrite decide_True by auto. simpl. congruence. }
      destruct (decide (i = a)) as [->|Hia]; [intros; assumption|].
      destruct (Hfld i Hia Hib) as (->&_&_). apply T4.
    + intros i. destruct (decide (i = b)) as [->|Hib].
      { unfold absorb_v. rewrite decide_True by auto. simpl. congruence. }
      destruct (decide (i = a)) as [->|Hia].
      { unfold absorb_v. rewrite decide_False, decide_True by auto. simpl. unfold sz. lia. }
      destruct (Hfld i Hia Hib) as (->&->&_). apply T5.
    + intros i j. destruct (decide (i = b)) as [->|Hib].
      { unfold absorb_v. rewrite decide_True by auto. simpl. congruence. }
      destruct (decide (i = a)) as [->|Hia].
      { unfold absorb_v. rewrite decide_False, decide_True by auto. simpl.
        intros _ Hj. rewrite (T6 b j Hub Hj). unfold sz. lia. }
      destruct (Hfld i Hia Hib) as (->&->&->). apply T6.
    + intros i. destruct (decide (i = b)) as [->|Hib].
      { unfold absorb_v. rewrite decide_True by auto. simpl. congruence. }
      destruct (decide (i = a)) as [->|Hia].
      { unfold absorb_v. rewrite decide_False, decide_True by auto. simpl.
        intros _ Hn. pose proof (T7 b Hub Hn). unfold sz. lia. }
      destruct (Hfld i Hia Hib) as (->&->&->). apply T7.
Qed.

Lemma flags_upd_used v r y : shape v r → used (v y) ≠ 0 → flags_only v (upd_v y (set_used 1) v).
Proof.
  intros Hs Hu j. unfold upd_v. destruct (decide (j = y)) as [->|]; [|tauto].
  simpl. repeat split; auto; intros; [lia|contradiction].
Qed.

Lemma flags_upd_allocated v x a : flags_only v (upd_v x (set_allocated a) v).
Proof.
  intros j. unfold upd_v. destruct (decide (j = x)) as [->|]; simpl; tauto.
Qed.

Lemma partitioned_merge_next buf total v x :
  total < 2 ^ 64 → partitioned buf total v → partitioned buf total (merge_next_v x v).
Proof.
  intros Htot Hp. unfold merge_next_v.
  destruct (next (v x)) as [y|] eqn:Exy; [|assumption].
  destruct (allocated (v y) =? 0); [|assumption].
  destruct Hp as ([r Hs] & Hp).
  destruct (linked_used _ _ _ _ Hs Exy) as [Hux Huy].
  destruct (sh_next _ _ Hs x y Exy) as [_ Hr]. assert (x ≠ y) by (intros ->; lia).
  set (v2 := upd_v y (set_used 1) v).
  assert (Hf : flags_only v v2) by (eapply flags_upd_used; eauto).
  assert (Hp2 : partitioned buf total v2).
  { eapply partitioned_flags; [exact Hf|]. split; eauto. }
  assert (E : a_size (alloc_record (v x)) + a_size (alloc_record (v y))
              = a_size (alloc_record (v2 x)) + a_size (alloc_record (v2 y))).
  { destruct (Hf x) as (_&_&->&_), (Hf y) as (_&_&->&_). reflexivity. }
  rewrite E. apply partitioned_absorb; [assumption|assumption|].
  destruct (Hf x) as (->&_). exact Exy.
Qed.

Lemma partitioned_merge_prev buf total v x :
  total < 2 ^ 64 → partitioned buf total v → partitioned buf total (merge_prev_v x v).
Proof.
  intros Htot Hp. unfold merge_prev_v.
  destruct (prev (v x)) as [p|] eqn:Exp; [|assumption].
  destruct (allocated (v p) =? 0); [|assumption].
  destruct Hp as ([r Hs] & Hp).
  pose proof (sh_prev _ _ Hs p x Exp) as Epx.
  destruct (linked_used _ _ _ _ Hs Epx) as [Hup Hux].
  set (v2 := upd_v p (set_used 1) v).
  assert (Hf : flags_only v v2) by (eapply flags_upd_used; eauto).
  assert (Hp2 : partitioned buf total v2).
  { eapply partitioned_flags; [exact Hf|]. split; eauto. }
  assert (E : a_size (alloc_record (v x)) + a_size (alloc_record (v p))
              = a_size (alloc_record (v2 p)) + a_size (alloc_record (v2 x))).
  { destruct (Hf x) as (_&_&->&_), (Hf p) as (_&_&->&_). lia. }
  rewrite E. apply partitioned_absorb; [assumption|assumption|].
  destruct (Hf p) as (->&_). exact Epx.
Qed.

Lemma partitioned_del buf total v x :
  total < 2 ^ 64 → partitioned buf total v → partitioned buf total (del_v x v).
Proof.
  intros Htot Hp. unfold del_v.
  apply partitioned_merge_prev, partitioned_merge_next; try assumption.
  eapply partitioned_flags; [apply flags_upd_allocated|assumption].
Qed.

Lemma set_size_same n : set_size (a_size (alloc_record n)) n = n.
Proof. destruct n as [[] ? ? ? ?]. reflexivity. Qed.

Lemma partitioned_alloc buf total v size s u :
  total < 2 ^ 64 → 0 ≤ size ≤ a_size (alloc_record (v s)) →
  (u64 (a_size (alloc_record (v s)) - size) ≠ 0 → used (v s) ≠ 0 ∧ first_unused v u) →
  partitioned buf total v → partitioned buf total (alloc_v size s u v).
Proof.
  intros Htot Hsz Hsplit Hp. pose proof Hp as ([r Hs] & Hh & [off Ht]).
  pose proof Ht as [T1 T2 T3 T4 T5 T6 T7].
  unfold alloc_v. cbv zeta.
  set (v1 := upd_v s (λ n, set_size size (set_allocated 1 n)) v).
  destruct (u64 (a_size (alloc_record (v s)) - size) =? 0) eqn:Erem.
  - apply Z.eqb_eq in Erem.
    assert (Esize : size = a_size (alloc_record (v s))).
    { destruct (decide (used (v s) = 0)) as [H0|Hu].
      - destruct (sh_unused _ _ Hs s H0) as (_&_&Hz). lia.
      - pose proof (T3 s Hu). pose proof (T5 s Hu). pose proof (T4 s Hu).
        rewrite u64_exact in Erem by lia. lia. }
    eapply partitioned_flags; [|exact Hp].
    intros j. unfold v1, upd_v. destruct (decide (j = s)) as [->|]; [|tauto].
    rewrite Esize. destruct (v s) as [[] ? ? ? ?]. simpl. tauto.
  - apply Z.eqb_neq in Erem. destruct (Hsplit Erem) as (Hus & Huu & _).
    pose proof (T3 s Hus) as Hs0. pose proof (T5 s Hus) as Hs5. pose proof (T4 s Hus) as Hs4.
    set (rem := a_size (alloc_record (v s)) - size).
    assert (Erem' : u64 rem = rem) by (apply u64_exact; unfold rem; lia).
    fold rem. rewrite Erem'.
    assert (u ≠ s) by (intros ->; contradiction).
    assert (Ht1 : touch v v1).
    { intros j. unfold v1, upd_v. destruct (decide (j = s)) as [->|]; simpl; [|tauto].
      repeat split; auto; try tauto. }
    assert (Hs1 : shape v1 r) by (eapply shape_touch; eauto).
    assert (Hus1 : used (v1 s) ≠ 0) by (unfold v1, upd_v; rewrite decide_True by auto; exact Hus).
    assert (Huu1 : used (v1 u) = 0) by (unfold v1, upd_v; rewrite decide_False by auto; exact Huu).
    assert (Hnext1 : ∀ j, next (v1 j) = next (v j)) by (intros j; apply Ht1).
    assert (Hprev1 : ∀ j, prev (v1 j) = prev (v j)) by (intros j; apply Ht1).
    assert (Hused1 : ∀ j, used (v1 j) = used (v j)).
    { intros j. unfold v1, upd_v. destruct (decide (j = s)) as [->|]; reflexivity. }
    assert (Hrec1 : ∀ j, j ≠ s → alloc_record (v1 j) = alloc_record (v j)).
    { intros j Hj. unfold v1, upd_v. rewrite decide_False by assumption. reflexivity. }
    assert (Hnu : ∀ i, next (v i) ≠ Some u).
    { intros i Hi. destruct (linked_used _ _ _ _ Hs Hi). contradiction. }
    assert (Hts : ∀ t, next (v s) = Some t → t ≠ u ∧ t ≠ s).
    { intros t Hst. destruct (sh_next _ _ Hs s t Hst). split; intros ->; [|lia].
      eapply Hnu; eauto. }
    set (m := u64 (a_mem (alloc_record (v s)) + size)).
    assert (Hfld : ∀ i, i ≠ s → i ≠ u →
              used (splice_v s u m rem v1 i) = used (v i) ∧
              alloc_record (splice_v s u m rem v1 i) = alloc_record (v i) ∧
              next (splice_v s u m rem v1 i) = next (v i)).
    { intros i His Hiu. unfold splice_v. rewrite !decide_False by assumption.
      destruct (decide _); simpl; rewrite ?Hused1, ?Hrec1, ?Hnext1 by assumption; auto. }
    assert (Hfs : used (splice_v s u m rem v1 s) = used (v s) ∧
                  a_size (alloc_record (splice_v s u m rem v1 s)) = size ∧
                  a_mem (alloc_record (splice_v s u m rem v1 s)) = a_mem (alloc_record (v s)) ∧
                  next (splice_v s u m rem v1 s) = Some u).
    { unfold splice_v. rewrite decide_False, decide_True by auto.
      unfold v1, upd_v. rewrite decide_True by auto. simpl. auto. }
    assert (Hfu : used (splice_v s u m rem v1 u) = 1 ∧
                  a_size (alloc_record (splice_v s u m rem v1 u)) = rem ∧
                  a_mem (alloc_record (splice_v s u m rem v1 u)) = m ∧
                  next (splice_v s u m rem v1 u) = next (v s)).
    { unfold splice_v. rewrite decide_True by auto. simpl. rewrite Hnext1. auto. }
    destruct Hfs as (Fs1 & Fs2 & Fs3 & Fs4), Hfu as (Fu1 & Fu2 & Fu3 & Fu4).
    split; [|split].
    + eexists. apply shape_splice; eassumption.
    + intros i. unfold splice_v.
      destruct (decide (i = u)) as [->|Hiu]; [simpl; discriminate|].
      destruct (decide (i = s)) as [->|His].
      { simpl. rewrite Hprev1, Hused1. apply Hh. }
      destruct (decide (next (v1 s) = Some i)); [simpl; discriminate|].
      rewrite Hprev1, Hused1. apply Hh.
    + assert (Hu0 : u ≠ 0%nat) by (intros ->; destruct (sh_head _ _ Hs); contradiction).
      exists (λ i, if decide (i = u) then off s + size else off i). split.
      * rewrite decide_False by auto. assumption.
      * intros i. destruct (decide (i = u)) as [->|Hiu].
        { intros _. rewrite Fu3. unfold m. rewrite (T2 s Hus), u64_add_l. f_equal. lia. }
        destruct (decide (i = s)) as [->|His]; [rewrite Fs1, Fs3; apply T2|].
        destruct (Hfld i His Hiu) as (->&->&_). apply T2.
      * intros i. destruct (decide (i = u)) as [->|Hiu]; [intros _; rewrite Fu2; unfold rem; lia|].
        destruct (decide (i = s)) as [->|His]; [intros _; rewrite Fs2; lia|].
        destruct (Hfld i His Hiu) as (->&->&_). apply T3.
      * intros i. destruct (decide (i = u)) as [->|Hiu]; [intros _; lia|].
        destruct (decide (i = s)) as [->|His]; [intros _; assumption|].
        destruct (Hfld i His Hiu) as (->&_&_). apply T4.
      * intros i. destruct (decide (i = u)) as [->|Hiu]; [intros _; rewrite Fu2; unfold rem; lia|].
        destruct (decide (i = s)) as [->|His]; [intros _; rewrite Fs2; lia|].
        destruct (Hfld i His Hiu) as (->&->&_). apply T5.
      * intros i j. destruct (decide (i = u)) as [->|Hiu].
        { rewrite Fu2, Fu4. intros _ Hj. destruct (Hts j Hj).
          rewrite decide_False by assumption. rewrite (T6 s j Hus Hj). unfold rem. lia. }
        destruct (decide (i = s)) as [->|His].
        { rewrite Fs2, Fs4. intros _ [= <-]. rewrite decide_True by auto. reflexivity. }
        destruct (Hfld i His Hiu) as (->&->&->). intros Hui Hij.
        rewrite decide_False by (intros ->; eapply Hnu; eauto). apply T6; assumption.
      * intros i. destruct (decide (i = u)) as [->|Hiu].
        { rewrite Fu2, Fu4. intros _ Hn. pose proof (T7 s Hus Hn). unfold rem. lia. }
        destruct (decide (i = s)) as [->|His]; [rewrite Fs4; discriminate|].
        destruct (Hfld i His Hiu) as (->&->&->). apply T7.
Qed.

Lemma open_partitioned size pol buf :
  buf ≠ 0 → 0 ≤ buf < 2 ^ 64 → 0 ≤ size →
  pool_partitioned (new_pool_mgr size pol buf).
Proof.
  intros Hb Hbuf Hsz. unfold pool_partitioned.
  assert (HI : Inv (new_pool_mgr size pol buf)).
  { apply (open_inv size pol buf). unfold mem_pool_open.
    apply Z.eqb_neq in Hb. rewrite Hb. reflexivity. }
  split; [exact (inv_shape _ HI)|].
  unfold new_pool_mgr. cbn [node_heap pool p_mem total_size].
  split.
  - intros i. rewrite nd_open. destruct (decide (i = 0%nat)); [auto|]. simpl. congruence.
  - exists (λ _, 0). split.
    + reflexivity.
    + intros i. rewrite nd_open. destruct (decide (i = 0%nat)); simpl; [|congruence].
      intros _. rewrite Z.add_0_r. symmetry. apply u64_exact. assumption.
    + intros i. rewrite nd_open. destruct (decide (i = 0%nat)); simpl; [lia|congruence].
    + intros i _. lia.
    + intros i. rewrite nd_open. destruct (decide (i = 0%nat)); simpl; [lia|congruence].
    + intros i j. rewrite nd_open. destruct (decide (i = 0%nat)); simpl; congruence.
    + intros i. rewrite nd_open. destruct (decide (i = 0%nat)); simpl; [lia|congruence].
Qed.

Lemma reachable_partitioned pm :
  reachable pm →
  0 ≤ p_mem (pool pm) < 2 ^ 64 → 0 ≤ total_size (pool pm) < 2 ^ 64 →
  pool_partitioned pm.
Proof.
  induction 1 as [size pol buf pm Ho | junk size pm p pm' Hr IH Hsz Ha
                 | junk alloc pm st pm' Hr IH Hd]; intros Hbuf Htot.
  - unfold mem_pool_open in Ho. destruct (buf =? 0) eqn:Eb; [discriminate|].
    apply Z.eqb_neq in Eb. injection Ho as <-. simpl in Hbuf, Htot.
    apply open_partitioned; [assumption|assumption|lia].
  - pose proof (reachable_inv pm Hr) as HI.
    destruct (post_elim _ _ _ _ _ (alloc_view junk size pm HI (proj1 Hsz)) Ha) as [_ Hv].
    destruct p as [s|]; [|destruct Hv as [-> _]; auto].
    destruct Hv as (_ & _ & _ & _ & _ & Hfit & u & Hu & Hv & (E1 & E2 & E3) & _).
    unfold pool_partitioned in *. rewrite E1, E3 in *.
    eapply partitioned_ext; [exact Hv|].
    apply partitioned_alloc; try lia; auto.
  - pose proof (reachable_inv pm Hr) as HI.
    destruct (post_elim _ _ _ _ _ (del_view junk alloc pm HI) Hd) as [_ [(_ & -> & _)|(_ & Hv)]];
      [auto|].
    destruct Hv as (x & _ & _ & Hv & (E1 & E2 & E3) & _).
    unfold pool_partitioned in *. rewrite E1, E3 in *.
    eapply partitioned_ext; [exact Hv|].
    apply partitioned_del; try lia; auto.
Qed.

(** ** The list of blocks *)

Lemma chain_head f v i : chain (S f) v i = i :: match next (v i) with
                                               | Some j => chain f v j
                                               | None => []
                                               end.
Proof. reflexivity. Qed.

Lemma chain_used v r : shape v r → ∀ f i,
  used (v i) ≠ 0 → Forall (λ k, used (v k) ≠ 0) (chain f v i).
Proof.
  intros Hs. induction f as [|f IH]; intros i Hu; [constructor|].
  rewrite chain_head. constructor; [assumption|].
  destruct (next (v i)) as [j|] eqn:Ej; [|constructor].
  apply IH. eapply linked_used; eauto.
Qed.

Lemma chain_rank v r : shape v r → ∀ f i, Forall (λ k, (r i ≤ r k)%nat) (chain f v i).
Proof.
  intros Hs. induction f as [|f IH]; intros i; [constructor|].
  rewrite chain_head. constructor; [lia|].
  destruct (next (v i)) as [j|] eqn:Ej; [|constructor].
  destruct (sh_next _ _ Hs i j Ej) as [_ Hr].
  eapply Forall_impl; [apply IH|]. simpl. intros k Hk. lia.
Qed.

Lemma chain_nodup v r : shape v r → ∀ f i, NoDup (chain f v i).
Proof.
  intros Hs. induction f as [|f IH]; intros i; [constructor|].
  rewrite chain_head. constructor.
  - destruct (next (v i)) as [j|] eqn:Ej; [|apply not_elem_of_nil].
    destruct (sh_next _ _ Hs i j Ej) as [_ Hr].
    intros Hin. pose proof (chain_rank v r Hs f j) as Hf.
    rewrite Forall_forall in Hf. specialize (Hf i Hin). lia.
  - destruct (next (v i)); [apply IH|constructor].
Qed.

Lemma chain_short_reaches v : ∀ f i, (length (chain f v i) < f)%nat → reaches f v i.
Proof.
  induction f as [|f IH]; intros i Hl; [simpl in Hl; lia|].
  rewrite chain_head in Hl. simpl in *.
  destruct (next (v i)) as [j|]; [|exact I]. apply IH. lia.
Qed.

Lemma chain_bounded v r n f i :
  shape v r → (∀ k, used (v k) ≠ 0 → (k < n)%nat) → used (v i) ≠ 0 →
  (length (chain f v i) ≤ n)%nat.
Proof.
  intros Hs Hb Hu.
  rewrite <- (length_seq n 0).
  apply submseteq_length, NoDup_submseteq; [eapply chain_nodup; eauto|].
  intros k Hk. apply elem_of_seq. split; [lia|]. simpl. apply Hb.
  pose proof (chain_used v r Hs f i Hu) as Hf. rewrite Forall_forall in Hf. auto.
Qed.

Lemma chain_next_in v : ∀ f a p i,
  reaches f v a → p ∈ chain f v a → next (v p) = Some i → i ∈ chain f v a.
Proof.
  induction f as [|f IH]; intros a p i Hr Hp Hpi; [destruct Hr|].
  rewrite chain_head in *. simpl in Hr.
  destruct (next (v a)) as [j|] eqn:Ej.
  - apply elem_of_cons in Hp as [->|Hp].
    + assert (i = j) as -> by congruence. right.
      destruct f as [|f]; [destruct Hr|]. rewrite chain_head. left.
    + right. eapply IH; eauto.
  - apply elem_of_cons in Hp as [->|Hp]; [congruence|]. inversion Hp.
Qed.

Lemma chain_all v r f :
  shape v r → headed v → reaches f v 0%nat →
  ∀ i, used (v i) ≠ 0 → i ∈ chain f v 0%nat.
Proof.
  intros Hs Hh Hr.
  assert (Hind : ∀ n i, (r i < n)%nat → used (v i) ≠ 0 → i ∈ chain f v 0%nat).
  { induction n as [|n IH]; intros i Hn Hu; [lia|].
    destruct (prev (v i)) as [p|] eqn:Ep.
    - pose proof (sh_prev _ _ Hs p i Ep) as Hpi.
      destruct (sh_next _ _ Hs p i Hpi) as [_ Hrk].
      destruct (linked_used _ _ _ _ Hs Hpi) as [Hup _].
      eapply chain_next_in; [exact Hr| |exact Hpi]. apply IH; [lia|assumption].
    - rewrite (Hh i Hu Ep). destruct f as [|f]; [destruct Hr|]. rewrite chain_head. left. }
  intros i. apply (Hind (S (r i))). lia.
Qed.

Lemma filter_length_ext {A} (P Q : A → Prop) `{∀ x, Decision (P x)} `{∀ x, Decision (Q x)}
    (l : list A) :
  (∀ x, x ∈ l → P x ↔ Q x) → length (filter P l) = length (filter Q l).
Proof.
  induction l as [|a l IH]; intros E; [reflexivity|].
  rewrite !filter_cons.
  assert (Ea : P a ↔ Q a) by (apply E; left).
  assert (El : length (filter P l) = length (filter Q l)) by (apply IH; intros; apply E; right; auto).
  destruct (decide (P a)), (decide (Q a)); simpl; try tauto; congruence.
Qed.

Lemma count_seq H : ∀ k,
  length (filter (λ i, used (nd H (i - k)) ≠ 0) (seq k (length H))) = count_used H.
Proof.
  induction H as [|a H IH]; intros k; [reflexivity|].
  simpl length. simpl seq. rewrite filter_cons, Nat.sub_diag, nd_cons_0, count_cons.
  rewrite <- (IH (S k)).
  assert (E : length (filter (λ i, used (nd (a :: H) (i - k)) ≠ 0) (seq (S k) (length H)))
              = length (filter (λ i, used (nd H (i - S k)) ≠ 0) (seq (S k) (length H)))).
  { apply filter_length_ext. intros i Hi. apply elem_of_seq in Hi.
    replace (i - k)%nat with (S (i - S k)) by lia. rewrite nd_cons_S. tauto. }
  destruct (decide _); simpl; rewrite E; reflexivity.
Qed.

Lemma used_inside H i : used (nd H i) ≠ 0 → (i < length H)%nat.
Proof.
  intros Hu. destruct (decide (i < length H)%nat); [assumption|].
  rewrite nd_ge in Hu by lia. contradiction.
Qed.

Lemma chain_count H L :
  NoDup L → (∀ i, i ∈ L ↔ used (nd H i) ≠ 0) → length L = count_used H.
Proof.
  intros Hnd Hin. rewrite <- (count_seq H 0).
  apply Permutation_length, NoDup_Permutation.
  - assumption.
  - apply NoDup_filter, NoDup_seq.
  - intros i. rewrite Hin, list_elem_of_filter, elem_of_seq, Nat.sub_0_r.
    split; [|tauto]. intros Hu. split; [assumption|].
    pose proof (used_inside _ _ Hu). lia.
Qed.

Lemma chain_adjacent v : ∀ f i k a b,
  chain f v i !! k = Some a → chain f v i !! S k = Some b → next (v a) = Some b.
Proof.
  induction f as [|f IH]; intros i k a b Ha Hb; [discriminate|].
  rewrite chain_head in Ha, Hb. destruct k as [|k]; simpl in Ha, Hb.
  - injection Ha as <-. destruct (next (v i)) as [j|]; [|discriminate].
    destruct f; [discriminate|]. rewrite chain_head in Hb. simpl in Hb. congruence.
  - destruct (next (v i)) as [j|]; [|discriminate]. eapply IH; eauto.
Qed.

Lemma chain_sum buf total v off r :
  shape v r → tiled buf total v off → ∀ f i,
  reaches f v i → used (v i) ≠ 0 →
  sum_list ((λ k, a_size (alloc_record (v k))) <$> chain f v i) = total - off i.
Proof.
  intros Hs Ht. induction f as [|f IH]; intros i Hr Hu; [destruct Hr|].
  rewrite chain_head. simpl in Hr. cbn [fmap list_fmap sum_list foldr].
  destruct (next (v i)) as [j|] eqn:Ej.
  - fold (sum_list ((λ k, a_size (alloc_record (v k))) <$> chain f v j)).
    rewrite IH; [|assumption|eapply linked_used; eauto].
    rewrite (ti_next _ _ _ _ Ht i j Hu Ej). lia.
  - simpl. pose proof (ti_last _ _ _ _ Ht i Hu Ej). lia.
Qed.

Lemma inspect_chain pm v :
  (∀ j, v j = nd (node_heap pm) j) →
  ∀ f i, reaches f v i → Forall (λ k, (k < length (node_heap pm))%nat) (chain f v i) →
  inspect_loop (length (chain f v i)) (Some i) pm
  = Ret (segment_of <$> (v <$> chain f v i)) pm.
Proof.
  intros Ev. induction f as [|f IH]; intros i Hr Hin; [destruct Hr|].
  rewrite chain_head in *. simpl in Hr. cbn [length inspect_loop].
  apply Forall_cons in Hin as [Hi Hin].
  unfold bind at 1. unfold deref. rewrite (lookup_nd _ _ Hi), <- Ev.
  destruct (next (v i)) as [j|] eqn:Ej.
  - unfold bind. rewrite IH by assumption. reflexivity.
  - reflexivity.
Qed.

Lemma block_slots_facts pm :
  reachable pm →
  0 ≤ p_mem (pool pm) < 2 ^ 64 → 0 ≤ total_size (pool pm) < 2 ^ 64 →
  ∃ r off,
    shape (nd (node_heap pm)) r ∧
    tiled (p_mem (pool pm)) (total_size (pool pm)) (nd (node_heap pm)) off ∧
    reaches (S (length (node_heap pm))) (nd (node_heap pm)) 0%nat ∧
    NoDup (block_slots pm) ∧
    (∀ i, i ∈ block_slots pm ↔ used (nd (node_heap pm) i) ≠ 0) ∧
    Z.of_nat (length (block_slots pm)) = used_nodes pm.
Proof.
  intros Hr Hbuf Htot.
  destruct (reachable_partitioned pm Hr Hbuf Htot) as ([r Hs] & Hh & [off Ht]).
  pose proof (reachable_inv pm Hr) as HI.
  set (H := node_heap pm) in *. set (v := nd H) in *.
  destruct (sh_head _ _ Hs) as [Hu0 _].
  assert (Hlenb : (length (block_slots pm) ≤ length H)%nat).
  { unfold block_slots. eapply chain_bounded; eauto. intros k. apply used_inside. }
  assert (Hreach : reaches (S (length H)) v 0%nat).
  { apply chain_short_reaches. unfold block_slots in Hlenb. fold H v in Hlenb. lia. }
  assert (Hnd : NoDup (block_slots pm)) by (eapply chain_nodup; eauto).
  assert (Hin : ∀ i, i ∈ block_slots pm ↔ used (v i) ≠ 0).
  { intros i. split.
    - intros Hi. pose proof (chain_used v r Hs (S (length H)) 0%nat Hu0) as Hf.
      rewrite Forall_forall in Hf. apply Hf. exact Hi.
    - apply (chain_all v r); assumption. }
  exists r, off. repeat (split; [assumption|]).
  rewrite (chain_count H _ Hnd Hin). symmetry. apply (inv_count _ HI).
Qed.

Lemma blocks_partition pm :
  reachable pm →
  0 ≤ p_mem (pool pm) < 2 ^ 64 → 0 ≤ total_size (pool pm) < 2 ^ 64 →
  (∃ b rest, blocks pm = b :: rest ∧ a_mem (alloc_record b) = p_mem (pool pm)) ∧
  (∀ k a b, blocks pm !! k = Some a → blocks pm !! S k = Some b →
            a_mem (alloc_record b) = u64 (a_mem (alloc_record a) + a_size (alloc_record a))) ∧
  Forall (λ b, used b ≠ 0 ∧ 0 ≤ a_size (alloc_record b)) (blocks pm) ∧
  sum_list ((λ b, a_size (alloc_record b)) <$> blocks pm) = total_size (pool pm) ∧
  Z.of_nat (length (blocks pm)) = used_nodes pm.
Proof.
  intros Hr Hbuf Htot.
  destruct (block_slots_facts pm Hr Hbuf Htot) as (r & off & Hs & Ht & Hreach & Hnd & Hin & Hlen).
  set (H := node_heap pm) in *. set (v := nd H) in *.
  destruct (sh_head _ _ Hs) as [Hu0 _].
  split; [|split; [|split; [|split]]].
  - unfold blocks, block_slots. fold H v. rewrite chain_head. simpl.
    do 2 eexists. split; [reflexivity|].
    rewrite (ti_mem _ _ _ _ Ht 0%nat Hu0), (ti_head _ _ _ _ Ht), Z.add_0_r.
    apply u64_exact. assumption.
  - intros k a b Ha Hb. unfold blocks in Ha, Hb. fold H v in Ha, Hb.
    rewrite list_lookup_fmap in Ha, Hb.
    destruct (block_slots pm !! k) as [i|] eqn:Ei; [|discriminate].
    destruct (block_slots pm !! S k) as [j|] eqn:Ej; [|discriminate].
    injection Ha as <-. injection Hb as <-.
    pose proof (chain_adjacent _ _ _ _ _ _ Ei Ej) as Hij. fold H v in Hij.
    assert (Hui : used (v i) ≠ 0) by (apply Hin; eapply list_elem_of_lookup_2; eauto).
    assert (Huj : used (v j) ≠ 0) by (apply Hin; eapply list_elem_of_lookup_2; eauto).
    rewrite (ti_mem _ _ _ _ Ht j Huj), (ti_mem _ _ _ _ Ht i Hui), u64_add_l.
    rewrite (ti_next _ _ _ _ Ht i j Hui Hij). f_equal. lia.
  - unfold blocks. fold H v. apply Forall_fmap, Forall_forall. intros i Hi. simpl.
    apply Hin in Hi. split; [assumption|]. apply (ti_size _ _ _ _ Ht i Hi).
  - unfold blocks, block_slots. fold H v. rewrite <- list_fmap_compose.
    change ((λ b, a_size (alloc_record b)) ∘ v) with (λ k, a_size (alloc_record (v k))).
    rewrite (chain_sum _ _ _ _ _ Hs Ht _ _ Hreach Hu0), (ti_head _ _ _ _ Ht). lia.
  - unfold blocks. rewrite length_fmap. exact Hlen.
Qed.

Lemma inspect_blocks pm :
  reachable pm →
  0 ≤ p_mem (pool pm) < 2 ^ 64 → 0 ≤ total_size (pool pm) < 2 ^ 64 →
  mem_inspect_pool true pm = Ret (Some (segment_of <$> blocks pm, used_nodes pm)) pm.
Proof.
  intros Hr Hbuf Htot.
  destruct (block_slots_facts pm Hr Hbuf Htot) as (r & off & Hs & Ht & Hreach & Hnd & Hin & Hlen).
  unfold mem_inspect_pool, bind, get.
  replace (Z.to_nat (used_nodes pm)) with (length (block_slots pm)) by lia.
  unfold block_slots.
  rewrite (inspect_chain pm (nd (node_heap pm))); [reflexivity|reflexivity|assumption|].
  apply Forall_forall. intros i Hi. apply used_inside. apply Hin. exact Hi.
Qed.

Lemma blocks_no_adjacent_free pm k a b :
  reachable pm →
  blocks pm !! k = Some a → blocks pm !! S k = Some b →
  ¬ (allocated a = 0 ∧ allocated b = 0).
Proof.
  intros Hr Ha Hb [Ha0 Hb0]. unfold blocks in Ha, Hb.
  rewrite list_lookup_fmap in Ha, Hb.
  destruct (block_slots pm !! k) as [i|] eqn:Ei; [|discriminate].
  destruct (block_slots pm !! S k) as [j|] eqn:Ej; [|discriminate].
  injection Ha as <-. injection Hb as <-.
  pose proof (chain_adjacent _ _ _ _ _ _ Ei Ej) as Hij.
  exact (inv_noadj _ (reachable_inv pm Hr) i j Hij Ha0 Hb0).
Qed.

(** ** What a call does to the blocks *)

Lemma upd_other x f v j : j ≠ x → upd_v x f v j = v j.
Proof. intros H. unfold upd_v. rewrite decide_False by auto. reflexivity. Qed.

Lemma upd_same x f v : upd_v x f v x = f (v x).
Proof. unfold upd_v. rewrite decide_True by auto. reflexivity. Qed.

Lemma alloc_v_selected size s u v :
  (u64 (a_size (alloc_record (v s)) - size) ≠ 0 → u ≠ s) →
  allocated (alloc_v size s u v s) = 1 ∧
  a_size (alloc_record (alloc_v size s u v s)) = size ∧
  a_mem (alloc_record (alloc_v size s u v s)) = a_mem (alloc_record (v s)) ∧
  used (alloc_v size s u v s) = used (v s).
Proof.
  intros Hus. unfold alloc_v. cbv zeta. destruct (_ =? 0) eqn:E.
  - unfold upd_v. rewrite decide_True by auto. simpl. auto.
  - apply Z.eqb_neq in E. specialize (Hus E).
    unfold splice_v. rewrite decide_False, decide_True by auto.
    unfold upd_v. rewrite decide_True by auto. simpl. auto.
Qed.

Lemma alloc_v_other size s u v j :
  j ≠ s → used (v j) ≠ 0 → used (v u) = 0 →
  alloc_record (alloc_v size s u v j) = alloc_record (v j) ∧
  allocated (alloc_v size s u v j) = allocated (v j) ∧
  used (alloc_v size s u v j) = used (v j).
Proof.
  intros Hjs Huj Huu. assert (j ≠ u) by congruence.
  unfold alloc_v. cbv zeta. destruct (_ =? 0).
  - unfold upd_v. rewrite decide_False by auto. auto.
  - unfold splice_v. rewrite !decide_False by auto.
    rewrite !(upd_other s _ v j) by assumption.
    destruct (decide _); simpl; auto.
Qed.

Lemma absorb_other a b sz v j :
  j ≠ a → j ≠ b →
  alloc_record (absorb_v a b sz v j) = alloc_record (v j) ∧
  allocated (absorb_v a b sz v j) = allocated (v j) ∧
  used (absorb_v a b sz v j) = used (v j).
Proof.
  intros Ha Hb. unfold absorb_v. rewrite !decide_False by auto.
  destruct (decide _); simpl; auto.
Qed.

Lemma merge_next_other x v j :
  j ≠ x → allocated (v j) ≠ 0 →
  alloc_record (merge_next_v x v j) = alloc_record (v j) ∧
  allocated (merge_next_v x v j) = allocated (v j) ∧
  used (merge_next_v x v j) = used (v j).
Proof.
  intros Hjx Haj. unfold merge_next_v. destruct (next (v x)) as [y|]; [|auto].
  destruct (allocated (v y) =? 0) eqn:Ey; [|auto]. apply Z.eqb_eq in Ey.
  assert (j ≠ y) by (intros ->; contradiction).
  destruct (absorb_other x y (u64 (a_size (alloc_record (v x)) + a_size (alloc_record (v y))))
              (upd_v y (set_used 1) v) j) as (->&->&->); auto.
  rewrite upd_other by auto. auto.
Qed.

Lemma merge_prev_other x v j :
  j ≠ x → allocated (v j) ≠ 0 →
  alloc_record (merge_prev_v x v j) = alloc_record (v j) ∧
  allocated (merge_prev_v x v j) = allocated (v j) ∧
  used (merge_prev_v x v j) = used (v j).
Proof.
  intros Hjx Haj. unfold merge_prev_v. destruct (prev (v x)) as [p|]; [|auto].
  destruct (allocated (v p) =? 0) eqn:Ep; [|auto]. apply Z.eqb_eq in Ep.
  assert (j ≠ p) by (intros ->; contradiction).
  destruct (absorb_other p x (u64 (a_size (alloc_record (v x)) + a_size (alloc_record (v p))))
              (upd_v p (set_used 1) v) j) as (->&->&->); auto.
  rewrite upd_other by auto. auto.
Qed.

Lemma del_v_other x v j :
  j ≠ x → allocated (v j) ≠ 0 →
  alloc_record (del_v x v j) = alloc_record (v j) ∧
  allocated (del_v x v j) = allocated (v j) ∧
  used (del_v x v j) = used (v j).
Proof.
  intros Hjx Haj. unfold del_v.
  set (v1 := upd_v x (set_allocated 0) v).
  assert (E1 : v1 j = v j) by (apply upd_other; assumption).
  destruct (merge_next_other x v1 j Hjx) as (E2a & E2b & E2c); [rewrite E1; assumption|].
  destruct (merge_prev_other x (merge_next_v x v1) j Hjx) as (->&->&->);
    [rewrite E2b, E1; assumption|].
  rewrite E2a, E2b, E2c, E1. auto.
Qed.

Lemma alloc_result junk size pm s pm' :
  reachable pm → 0 ≤ size < 2 ^ 64 →
  mem_new_alloc junk size pm = Ret (Some s) pm' →
  (∃ n, node_heap pm !! s = Some n ∧ allocated n = 0 ∧ size ≤ a_size (alloc_record n) ∧
        ∃ n', node_heap pm' !! s = Some n' ∧ allocated n' = 1 ∧
              a_size (alloc_record n') = size ∧
              a_mem (alloc_record n') = a_mem (alloc_record n)) ∧
  (∀ j n, j ≠ s → node_heap pm !! j = Some n → used n ≠ 0 →
          ∃ n', node_heap pm' !! j = Some n' ∧ alloc_record n' = alloc_record n ∧
                allocated n' = allocated n ∧ used n' = used n) ∧
  num_allocs (pool pm') = u32 (num_allocs (pool pm) + 1) ∧
  alloc_size (pool pm') = u64 (alloc_size (pool pm) + size) ∧
  same_pool_consts (pool pm) (pool pm').
Proof.
  intros Hr Hsz Ha. pose proof (reachable_inv pm Hr) as HI.
  destruct (post_elim _ _ _ _ _ (alloc_view junk size pm HI (proj1 Hsz)) Ha) as [HI' Hv].
  destruct Hv as (_ & _ & _ & Ls & Has & Hfit & u & Hu & Hv & Hc & Hna & Has').
  assert (Hlen' : length (node_heap pm') = length (node_heap pm))
    by (rewrite (inv_len _ HI), (inv_len _ HI'); reflexivity).
  assert (Hus : u64 (a_size (alloc_record (nd (node_heap pm) s)) - size) ≠ 0 → u ≠ s).
  { intros E. destruct (Hu E) as (Huss & Huu & _). intros ->. contradiction. }
  split; [|split; [|auto]].
  - exists (nd (node_heap pm) s). split; [apply lookup_nd; assumption|].
    split; [assumption|]. split; [assumption|].
    exists (nd (node_heap pm') s). split; [apply lookup_nd; lia|].
    rewrite Hv. destruct (alloc_v_selected size s u (nd (node_heap pm)) Hus) as (?&?&?&?). auto.
  - intros j n Hjs Hj Hun. rewrite <- (nd_lookup _ _ _ Hj) in *.
    assert (Lj : (j < length (node_heap pm))%nat) by (apply lookup_lt_is_Some_1; eauto).
    exists (nd (node_heap pm') j). split; [apply lookup_nd; lia|].
    rewrite Hv.
    destruct (decide (u64 (a_size (alloc_record (nd (node_heap pm) s)) - size) = 0)) as [E|E].
    + unfold alloc_v. cbv zeta. apply Z.eqb_eq in E. rewrite E.
      rewrite upd_other by assumption. auto.
    + destruct (Hu E) as (_ & Huu & _). apply alloc_v_other; assumption.
Qed.

Lemma free_keeps_other_blocks junk alloc pm pm' x :
  reachable pm →
  mem_del_alloc junk alloc pm = Ret ALLOC_OK pm' →
  del_target junk alloc pm = Ret (Some x) pm →
  (∀ j n, j ≠ x → node_heap pm !! j = Some n → allocated n ≠ 0 →
          ∃ n', node_heap pm' !! j = Some n' ∧ alloc_record n' = alloc_record n ∧
                allocated n' = allocated n ∧ used n' = used n) ∧
  num_allocs (pool pm') = u32 (num_allocs (pool pm) - 1) ∧
  alloc_size (pool pm')
  = u64 (alloc_size (pool pm) - a_size (alloc_record (nd (node_heap pm) x))) ∧
  same_pool_consts (pool pm) (pool pm').
Proof.
  intros Hr Hd Htgt. pose proof (reachable_inv pm Hr) as HI.
  destruct (post_elim _ _ _ _ _ (del_view junk alloc pm HI) Hd) as [HI' [(?&_)|(_ & Hv)]];
    [discriminate|].
  destruct Hv as (x' & Htgt' & Lx & Hv & Hc & Hna & Has).
  assert (x' = x) as -> by congruence.
  assert (Hlen' : length (node_heap pm') = length (node_heap pm))
    by (rewrite (inv_len _ HI), (inv_len _ HI'); reflexivity).
  split; [|auto].
  intros j n Hjx Hj Haj. rewrite <- (nd_lookup _ _ _ Hj) in *.
  assert (Lj : (j < length (node_heap pm))%nat) by (apply lookup_lt_is_Some_1; eauto).
  exists (nd (node_heap pm') j). split; [apply lookup_nd; lia|].
  rewrite Hv. apply del_v_other; assumption.
Qed.

(** ** Blocks do not overlap *)

Lemma chain_after buf total v off r :
  shape v r → tiled buf total v off → ∀ f i,
  used (v i) ≠ 0 → Forall (λ k, off i ≤ off k) (chain f v i).
Proof.
  intros Hs Ht. induction f as [|f IH]; intros i Hu; [constructor|].
  rewrite chain_head. constructor; [lia|].
  destruct (next (v i)) as [j|] eqn:Ej; [|constructor].
  destruct (linked_used _ _ _ _ Hs Ej) as [_ Huj].
  eapply Forall_impl; [apply IH; assumption|]. simpl. intros k Hk.
  rewrite (ti_next _ _ _ _ Ht i j Hu Ej) in Hk.
  pose proof (ti_size _ _ _ _ Ht i Hu). lia.
Qed.

Lemma chain_order buf total v off r :
  shape v r → tiled buf total v off → ∀ f i k k' a b,
  used (v i) ≠ 0 → (k < k')%nat →
  chain f v i !! k = Some a → chain f v i !! k' = Some b →
  off a + a_size (alloc_record (v a)) ≤ off b.
Proof.
  intros Hs Ht. induction f as [|f IH]; intros i k k' a b Hu Hk Ha Hb; [discriminate|].
  rewrite chain_head in Ha, Hb.
  destruct k' as [|k']; [lia|]. simpl in Hb.
  destruct (next (v i)) as [j|] eqn:Ej; [|discriminate].
  destruct (linked_used _ _ _ _ Hs Ej) as [_ Huj].
  destruct k as [|k]; simpl in Ha.
  - injection Ha as <-.
    pose proof (chain_after _ _ _ _ _ Hs Ht f j Huj) as Hf.
    rewrite Forall_lookup in Hf. specialize (Hf _ _ Hb). simpl in Hf.
    rewrite (ti_next _ _ _ _ Ht i j Hu Ej) in Hf. exact Hf.
  - apply (IH j k k' a b); auto. lia.
Qed.

Lemma blocks_disjoint pm i j ni nj :
  reachable pm →
  0 ≤ p_mem (pool pm) → 0 ≤ total_size (pool pm) →
  p_mem (pool pm) + total_size (pool pm) < 2 ^ 64 →
  node_heap pm !! i = Some ni → node_heap pm !! j = Some nj → i ≠ j →
  used ni ≠ 0 → used nj ≠ 0 →
  p_mem (pool pm) ≤ a_mem (alloc_record ni) ∧
  a_mem (alloc_record ni) + a_size (alloc_record ni) ≤ p_mem (pool pm) + total_size (pool pm) ∧
  (a_mem (alloc_record ni) + a_size (alloc_record ni) ≤ a_mem (alloc_record nj) ∨
   a_mem (alloc_record nj) + a_size (alloc_record nj) ≤ a_mem (alloc_record ni)).
Proof.
  intros Hr Hbuf Htot Hend Hi Hj Hij Hui Huj.
  destruct (block_slots_facts pm Hr) as (r & off & Hs & Ht & Hreach & Hnd & Hin & Hlen);
    [lia|lia|].
  set (v := nd (node_heap pm)) in *.
  rewrite <- (nd_lookup _ _ _ Hi) in *. rewrite <- (nd_lookup _ _ _ Hj) in *. fold v in Hui, Huj |- *.
  destruct (sh_head _ _ Hs) as [Hu0 _].
  assert (Hmem : ∀ k, used (v k) ≠ 0 →
            a_mem (alloc_record (v k)) = p_mem (pool pm) + off k ∧
            0 ≤ off k ∧ 0 ≤ a_size (alloc_record (v k)) ∧
            off k + a_size (alloc_record (v k)) ≤ total_size (pool pm)).
  { intros k Hk. pose proof (ti_off _ _ _ _ Ht k Hk). pose proof (ti_size _ _ _ _ Ht k Hk).
    pose proof (ti_end _ _ _ _ Ht k Hk).
    rewrite (ti_mem _ _ _ _ Ht k Hk), u64_exact by lia. auto. }
  destruct (Hmem i Hui) as (Emi & ? & ? & ?), (Hmem j Huj) as (Emj & ? & ? & ?).
  rewrite Emi, Emj. split; [lia|]. split; [lia|].
  apply Hin in Hui, Huj.
  apply list_elem_of_lookup in Hui as [k Hk], Huj as [k' Hk'].
  assert (k ≠ k').
  { intros ->. rewrite Hk in Hk'. congruence. }
  destruct (decide (k < k')%nat).
  - left. pose proof (chain_order _ _ _ _ _ Hs Ht _ _ k k' i j Hu0 ltac:(lia) Hk Hk'). lia.
  - right. pose proof (chain_order _ _ _ _ _ Hs Ht _ _ k' k j i Hu0 ltac:(lia) Hk' Hk). lia.
Qed.

(** ** Sums over the node heap *)

Lemma sum_list_cons x l : sum_list (x :: l) = x + sum_list l.
Proof. reflexivity. Qed.

Lemma sum_change1 (w : node_t → Z) : ∀ H H' x,
  length H' = length H → (x < length H)%nat →
  (∀ j, j ≠ x → w (nd H' j) = w (nd H j)) →
  sum_list (w <$> H') = sum_list (w <$> H) - w (nd H x) + w (nd H' x).
Proof.
  induction H as [|a H IH]; intros [|a' H'] x Hl Hx E; simpl in Hl, Hx; try lia.
  rewrite !fmap_cons, !sum_list_cons.
  destruct x as [|x].
  - rewrite !nd_cons_0.
    assert (Et : w <$> H' = w <$> H).
    { apply list_eq. intros j. rewrite !list_lookup_fmap.
      specialize (E (S j) ltac:(lia)). rewrite !nd_cons_S in E.
      destruct (decide (j < length H)%nat) as [Hj|Hj].
      - rewrite (lookup_nd H j), (lookup_nd H' j) by lia. simpl. congruence.
      - rewrite !lookup_ge_None_2 by lia. reflexivity. }
    rewrite Et. lia.
  - rewrite !nd_cons_S. rewrite (IH H' x); [| lia | lia |].
    + specialize (E 0%nat ltac:(lia)). rewrite !nd_cons_0 in E. lia.
    + intros j Hj. specialize (E (S j) ltac:(lia)). rewrite !nd_cons_S in E. exact E.
Qed.

Lemma sum_nonneg (w : node_t → Z) H : (∀ n, n ∈ H → 0 ≤ w n) → 0 ≤ sum_list (w <$> H).
Proof.
  induction H as [|a H IH]; intros Hw; [simpl; lia|].
  rewrite fmap_cons, sum_list_cons.
  assert (0 ≤ w a) by (apply Hw; left).
  assert (0 ≤ sum_list (w <$> H)) by (apply IH; intros; apply Hw; right; assumption).
  lia.
Qed.

Lemma sum_add (w1 w2 : node_t → Z) H :
  sum_list ((λ n, w1 n + w2 n) <$> H) = sum_list (w1 <$> H) + sum_list (w2 <$> H).
Proof.
  induction H as [|a H IH]; [reflexivity|].
  rewrite !fmap_cons, !sum_list_cons, IH. lia.
Qed.

Lemma sum_le (w1 w2 : node_t → Z) H :
  (∀ n, n ∈ H → w1 n ≤ w2 n) → sum_list (w1 <$> H) ≤ sum_list (w2 <$> H).
Proof.
  induction H as [|a H IH]; intros Hw; [simpl; lia|].
  rewrite !fmap_cons, !sum_list_cons.
  assert (w1 a ≤ w2 a) by (apply Hw; left).
  assert (sum_list (w1 <$> H) ≤ sum_list (w2 <$> H))
    by (apply IH; intros; apply Hw; right; assumption).
  lia.
Qed.

Lemma free_bytes_sum pm :
  free_bytes pm
  = sum_list ((λ n, if is_gap_node n then a_size (alloc_record n) else 0) <$> node_heap pm).
Proof.
  unfold free_bytes. induction (node_heap pm) as [|a H IH]; [reflexivity|].
  rewrite fmap_cons, sum_list_cons. simpl. rewrite IH. destruct (is_gap_node a); lia.
Qed.

Lemma sum_seq (w : node_t → Z) H : ∀ k,
  sum_list (w <$> H) = sum_list ((λ i, w (nd H (i - k))) <$> seq k (length H)).
Proof.
  induction H as [|a H IH]; intros k; [reflexivity|].
  simpl length. simpl seq. rewrite !fmap_cons, !sum_list_cons, Nat.sub_diag, nd_cons_0.
  rewrite (IH (S k)). f_equal. f_equal.
  apply list_eq. intros j. rewrite !list_lookup_fmap.
  destruct (seq (S k) (length H) !! j) as [i|] eqn:Ei; [|reflexivity]. simpl.
  apply lookup_seq in Ei as [-> _].
  replace (S k + j - k)%nat with (S (S k + j - S k)) by lia. rewrite nd_cons_S. reflexivity.
Qed.

Lemma sum_filter {A} (P : A → Prop) `{∀ x, Decision (P x)} (f : A → Z) l :
  sum_list ((λ i, if decide (P i) then f i else 0) <$> l) = sum_list (f <$> filter P l).
Proof.
  induction l as [|a l IH]; [reflexivity|].
  rewrite fmap_cons, sum_list_cons, filter_cons, IH.
  destruct (decide (P a)); [rewrite fmap_cons, sum_list_cons; reflexivity|].
  apply Z.add_0_l.
Qed.

Lemma sum_perm {A} (f : A → Z) l k : l ≡ₚ k → sum_list (f <$> l) = sum_list (f <$> k).
Proof.
  induction 1 as [|x l k _ IH|x y l|l k m _ IH1 _ IH2].
  - reflexivity.
  - rewrite !fmap_cons, !sum_list_cons, IH. reflexivity.
  - rewrite !fmap_cons, !sum_list_cons. lia.
  - congruence.
Qed.

Lemma used_bytes_total pm :
  reachable pm →
  0 ≤ p_mem (pool pm) < 2 ^ 64 → 0 ≤ total_size (pool pm) < 2 ^ 64 →
  sum_list ((λ n, if decide (used n ≠ 0) then a_size (alloc_record n) else 0) <$> node_heap pm)
  = total_size (pool pm).
Proof.
  intros Hr Hbuf Htot.
  destruct (block_slots_facts pm Hr Hbuf Htot) as (r & off & Hs & Ht & Hreach & Hnd & Hin & Hlen).
  destruct (blocks_partition pm Hr Hbuf Htot) as (_ & _ & _ & Hsum & _).
  rewrite <- Hsum. unfold blocks. rewrite <- list_fmap_compose.
  rewrite (sum_seq _ _ 0).
  rewrite (sum_filter (λ i, used (nd (node_heap pm) (i - 0)) ≠ 0)
                      (λ i, a_size (alloc_record (nd (node_heap pm) (i - 0))))).
  transitivity (sum_list ((λ i, a_size (alloc_record (nd (node_heap pm) (i - 0))))
                            <$> block_slots pm)).
  - apply sum_perm. symmetry. apply NoDup_Permutation.
    + assumption.
    + apply NoDup_filter, NoDup_seq.
    + intros i. rewrite Hin, list_elem_of_filter, elem_of_seq, Nat.sub_0_r.
      split; [|tauto]. intros Hu. split; [assumption|].
      pose proof (used_inside _ _ Hu). lia.
  - f_equal. apply list_fmap_ext. intros _ i _. simpl. rewrite Nat.sub_0_r. reflexivity.
Qed.

(** ** Clients that keep to the rules *)

Lemma absorb_at_a a b sz v :
  a ≠ b →
  used (absorb_v a b sz v a) = used (v a) ∧
  a_size (alloc_record (absorb_v a b sz v a)) = sz ∧
  a_mem (alloc_record (absorb_v a b sz v a)) = a_mem (alloc_record (v a)) ∧
  allocated (absorb_v a b sz v a) = allocated (v a).
Proof.
  intros Hab. unfold absorb_v. rewrite decide_False, decide_True by auto. simpl. auto.
Qed.

Lemma absorb_at_b a b sz v : absorb_v a b sz v b = retired (v b).
Proof. unfold absorb_v. rewrite decide_True by auto. reflexivity. Qed.

Lemma tidy_flags v v' :
  (∀ j, used (v' j) = 0 ↔ used (v j) = 0) →
  (∀ j, alloc_record (v' j) = alloc_record (v j)) →
  (∀ j, used (v j) = 0 → allocated (v' j) = 0) →
  tidy v → tidy v'.
Proof.
  intros Hu Hr Ha [T1 T2]. split.
  - intros i Hi. rewrite Hr. apply T1. rewrite <- Hu. exact Hi.
  - intros i Hi. rewrite Hr. apply Hu in Hi. split; [auto|]. apply T2. exact Hi.
Qed.

Lemma tidy_same_flags v v' :
  (∀ j, used (v' j) = 0 ↔ used (v j) = 0) →
  (∀ j, alloc_record (v' j) = alloc_record (v j)) →
  (∀ j, used (v j) = 0 → allocated (v' j) = allocated (v j)) →
  tidy v → tidy v'.
Proof.
  intros Hu Hr Ha Ht. apply (tidy_flags v v'); try assumption.
  intros j Hj. rewrite Ha by assumption. apply (td_unused _ Ht). exact Hj.
Qed.

Lemma tidy_absorb buf total v a b :
  total < 2 ^ 64 → partitioned buf total v → tidy v →
  next (v a) = Some b → allocated (v b) = 0 →
  tidy (absorb_v a b (u64 (a_size (alloc_record (v a)) + a_size (alloc_record (v b)))) v).
Proof.
  intros Htot ([r Hs] & _ & [off Ht]) [T1 T2] Hab Hb0.
  destruct (sh_next _ _ Hs a b Hab) as [_ Hr]. assert (a ≠ b) by (intros ->; lia).
  destruct (linked_used _ _ _ _ Hs Hab) as [Hua Hub].
  pose proof (T1 a Hua). pose proof (T1 b Hub).
  pose proof (ti_off _ _ _ _ Ht a Hua). pose proof (ti_end _ _ _ _ Ht b Hub).
  pose proof (ti_next _ _ _ _ Ht a b Hua Hab).
  set (sz := a_size (alloc_record (v a)) + a_size (alloc_record (v b))).
  assert (Esz : u64 sz = sz) by (apply u64_exact; unfold sz; lia).
  rewrite Esz. split.
  - intros i. destruct (decide (i = b)) as [->|Hib].
    { rewrite absorb_at_b. simpl. congruence. }
    destruct (decide (i = a)) as [->|Hia].
    { destruct (absorb_at_a a b sz v) as (_&->&_); [assumption|]. intros _. unfold sz. lia. }
    destruct (absorb_other a b sz v i Hia Hib) as (->&_&->). apply T1.
  - intros i. destruct (decide (i = b)) as [->|Hib].
    { rewrite absorb_at_b. simpl. auto. }
    destruct (decide (i = a)) as [->|Hia].
    { destruct (absorb_at_a a b sz v) as (->&_); [assumption|]. congruence. }
    destruct (absorb_other a b sz v i Hia Hib) as (->&->&->). apply T2.
Qed.

Lemma merge_next_allocated x v j : allocated (merge_next_v x v j) = allocated (v j).
Proof.
  unfold merge_next_v. destruct (next (v x)) as [y|]; [|reflexivity].
  destruct (_ =? _); [|reflexivity]. rewrite absorb_allocated.
  unfold upd_v. destruct (decide _) as [->|]; reflexivity.
Qed.

Lemma merge_prev_allocated x v j : allocated (merge_prev_v x v j) = allocated (v j).
Proof.
  unfold merge_prev_v. destruct (prev (v x)) as [y|]; [|reflexivity].
  destruct (_ =? _); [|reflexivity]. rewrite absorb_allocated.
  unfold upd_v. destruct (decide _) as [->|]; reflexivity.
Qed.

Lemma del_v_allocated x v j :
  allocated (del_v x v j) = if decide (j = x) then 0 else allocated (v j).
Proof.
  unfold del_v. rewrite merge_prev_allocated, merge_next_allocated.
  unfold upd_v. destruct (decide _) as [->|]; reflexivity.
Qed.

Lemma tidy_upd_used v r y :
  shape v r → used (v y) ≠ 0 → tidy v → tidy (upd_v y (set_used 1) v).
Proof.
  intros Hs Hu. apply tidy_same_flags.
  - intros j. apply (flags_upd_used v r y Hs Hu j).
  - intros j. apply (flags_upd_used v r y Hs Hu j).
  - intros j Hj. unfold upd_v. destruct (decide (j = y)) as [->|]; [contradiction|].
    reflexivity.
Qed.

Lemma tidy_merge_next buf total v x :
  total < 2 ^ 64 → partitioned buf total v → tidy v → tidy (merge_next_v x v).
Proof.
  intros Htot Hp Ht. unfold merge_next_v.
  destruct (next (v x)) as [y|] eqn:Exy; [|assumption].
  destruct (allocated (v y) =? 0) eqn:Ey; [|assumption]. apply Z.eqb_eq in Ey.
  pose proof Hp as ([r Hs] & _).
  destruct (linked_used _ _ _ _ Hs Exy) as [Hux Huy].
  destruct (sh_next _ _ Hs x y Exy) as [_ Hr]. assert (x ≠ y) by (intros ->; lia).
  set (v2 := upd_v y (set_used 1) v).
  assert (Hf : flags_only v v2) by (eapply flags_upd_used; eauto).
  assert (E : a_size (alloc_record (v x)) + a_size (alloc_record (v y))
              = a_size (alloc_record (v2 x)) + a_size (alloc_record (v2 y))).
  { destruct (Hf x) as (_&_&->&_), (Hf y) as (_&_&->&_). reflexivity. }
  rewrite E. eapply tidy_absorb; try eassumption.
  - eapply partitioned_flags; eauto.
  - eapply tidy_upd_used; eauto.
  - destruct (Hf x) as (->&_). exact Exy.
  - unfold v2. rewrite upd_same. exact Ey.
Qed.

Lemma tidy_merge_prev buf total v x :
  total < 2 ^ 64 → partitioned buf total v → tidy v → allocated (v x) = 0 →
  tidy (merge_prev_v x v).
Proof.
  intros Htot Hp Ht Hx0. unfold merge_prev_v.
  destruct (prev (v x)) as [p|] eqn:Exp; [|assumption].
  destruct (allocated (v p) =? 0) eqn:Ep; [|assumption].
  pose proof Hp as ([r Hs] & _).
  pose proof (sh_prev _ _ Hs p x Exp) as Epx.
  destruct (linked_used _ _ _ _ Hs Epx) as [Hup Hux].
  destruct (sh_next _ _ Hs p x Epx) as [_ Hr]. assert (x ≠ p) by (intros ->; lia).
  set (v2 := upd_v p (set_used 1) v).
  assert (Hf : flags_only v v2) by (eapply flags_upd_used; eauto).
  assert (E : a_size (alloc_record (v x)) + a_size (alloc_record (v p))
              = a_size (alloc_record (v2 p)) + a_size (alloc_record (v2 x))).
  { destruct (Hf x) as (_&_&->&_), (Hf p) as (_&_&->&_). lia. }
  rewrite E. eapply tidy_absorb; try eassumption.
  - eapply partitioned_flags; eauto.
  - eapply tidy_upd_used; eauto.
  - destruct (Hf p) as (->&_). exact Epx.
  - unfold v2. rewrite upd_other by assumption. exact Hx0.
Qed.

Lemma tidy_del buf total v x :
  total < 2 ^ 64 → partitioned buf total v → tidy v → tidy (del_v x v).
Proof.
  intros Htot Hp Ht. unfold del_v.
  set (v1 := upd_v x (set_allocated 0) v).
  assert (Hp1 : partitioned buf total v1)
    by (eapply partitioned_flags; [apply flags_upd_allocated|assumption]).
  assert (Ht1 : tidy v1).
  { eapply tidy_flags; [| | |exact Ht].
    - intros j. apply (flags_upd_allocated v x 0 j).
    - intros j. apply (flags_upd_allocated v x 0 j).
    - intros j Hj. unfold v1, upd_v. destruct (decide (j = x)); [reflexivity|].
      apply (td_unused _ Ht). exact Hj. }
  apply (tidy_merge_prev buf total); try assumption.
  - apply partitioned_merge_next; assumption.
  - apply (tidy_merge_next buf total); assumption.
  - rewrite merge_next_allocated. unfold v1. rewrite upd_same. reflexivity.
Qed.

Lemma alloc_v_rest size s u v j :
  j ≠ s → (u64 (a_size (alloc_record (v s)) - size) ≠ 0 → j ≠ u) →
  alloc_record (alloc_v size s u v j) = alloc_record (v j) ∧
  allocated (alloc_v size s u v j) = allocated (v j) ∧
  used (alloc_v size s u v j) = used (v j).
Proof.
  intros Hjs Hju. unfold alloc_v. cbv zeta. destruct (_ =? 0) eqn:E.
  - rewrite upd_other by auto. auto.
  - apply Z.eqb_neq in E. specialize (Hju E).
    unfold splice_v. rewrite !decide_False by auto.
    rewrite !(upd_other s _ v j) by assumption.
    destruct (decide _); simpl; auto.
Qed.

Lemma alloc_v_remainder size s u v :
  u64 (a_size (alloc_record (v s)) - size) ≠ 0 →
  used (alloc_v size s u v u) = 1 ∧ allocated (alloc_v size s u v u) = 0 ∧
  a_size (alloc_record (alloc_v size s u v u)) = u64 (a_size (alloc_record (v s)) - size).
Proof.
  intros E. unfold alloc_v. cbv zeta. apply Z.eqb_neq in E. rewrite E.
  unfold splice_v. rewrite decide_True by auto. simpl. auto.
Qed.

Lemma tidy_alloc v size s u :
  0 < size → used (v s) ≠ 0 →
  (u64 (a_size (alloc_record (v s)) - size) ≠ 0 → first_unused v u) →
  tidy v → tidy (alloc_v size s u v).
Proof.
  intros Hsz Hus Hsplit [T1 T2].
  assert (Hne : u64 (a_size (alloc_record (v s)) - size) ≠ 0 → u ≠ s).
  { intros E. destruct (Hsplit E) as [Hu _]. intros ->. contradiction. }
  destruct (alloc_v_selected size s u v Hne) as (Es1 & Es2 & Es3 & Es4).
  split.
  - intros i. destruct (decide (i = s)) as [->|His]; [rewrite Es2; auto|].
    destruct (decide (u64 (a_size (alloc_record (v s)) - size) = 0)) as [E|E].
    + destruct (alloc_v_rest size s u v i His) as (->&_&->); [intros; contradiction|apply T1].
    + destruct (decide (i = u)) as [->|Hiu].
      * destruct (alloc_v_remainder size s u v E) as (_&_&->). intros _.
        pose proof (u64_range (a_size (alloc_record (v s)) - size)). lia.
      * destruct (alloc_v_rest size s u v i His) as (->&_&->); [auto|apply T1].
  - intros i. destruct (decide (i = s)) as [->|His]; [rewrite Es4; contradiction|].
    destruct (decide (u64 (a_size (alloc_record (v s)) - size) = 0)) as [E|E].
    + destruct (alloc_v_rest size s u v i His) as (->&->&->); [intros; contradiction|apply T2].
    + destruct (decide (i = u)) as [->|Hiu].
      * destruct (alloc_v_remainder size s u v E) as (->&_). discriminate.
      * destruct (alloc_v_rest size s u v i His) as (->&->&->); [auto|apply T2].
Qed.

Lemma tidy_ext v v' : (∀ j, v' j = v j) → tidy v → tidy v'.
Proof.
  intros E [T1 T2]. split; intros i; rewrite !E; auto.
Qed.

Lemma sum_const H : sum_list ((λ _ : node_t, 1) <$> H) = Z.of_nat (length H).
Proof.
  induction H as [|a H IH]; [reflexivity|].
  rewrite fmap_cons, sum_list_cons, IH. simpl length. lia.
Qed.

Lemma sum_zero (w : node_t → Z) H : (∀ n, n ∈ H → w n = 0) → sum_list (w <$> H) = 0.
Proof.
  induction H as [|a H IH]; intros Hw; [reflexivity|].
  rewrite fmap_cons, sum_list_cons, (Hw a) by left.
  rewrite IH; [reflexivity|]. intros. apply Hw. right. assumption.
Qed.

Lemma elem_nd H n : n ∈ H → ∃ i, (i < length H)%nat ∧ nd H i = n.
Proof.
  intros Hn. apply list_elem_of_lookup in Hn as [i Hi]. exists i.
  split; [apply lookup_lt_is_Some_1; eauto|apply nd_lookup; assumption].
Qed.

Lemma is_live_spec n : is_live n = true ↔ used n ≠ 0 ∧ allocated n ≠ 0.
Proof.
  unfold is_live. rewrite andb_true_iff, !negb_true_iff, !Z.eqb_neq. tauto.
Qed.

Lemma is_live_false n : allocated n = 0 ∨ used n = 0 → is_live n = false.
Proof.
  intros H. apply not_true_is_false. rewrite is_live_spec. tauto.
Qed.

Lemma live_bytes_range pm :
  reachable pm →
  0 ≤ p_mem (pool pm) < 2 ^ 64 → 0 ≤ total_size (pool pm) < 2 ^ 64 →
  tidy (nd (node_heap pm)) →
  0 ≤ live_bytes pm ≤ total_size (pool pm).
Proof.
  intros Hr Hbuf Htot Ht. unfold live_bytes. split.
  - apply sum_nonneg. intros n Hn. destruct (elem_nd _ _ Hn) as (i & _ & <-).
    destruct (is_live _) eqn:E; [|lia]. apply is_live_spec in E as [Hu _].
    pose proof (td_size _ Ht i Hu). lia.
  - rewrite <- (used_bytes_total pm Hr Hbuf Htot). apply sum_le.
    intros n Hn. destruct (elem_nd _ _ Hn) as (i & _ & <-).
    destruct (is_live _) eqn:E.
    + apply is_live_spec in E as [Hu _]. rewrite decide_True by assumption. lia.
    + destruct (decide _) as [Hu|]; [|lia]. pose proof (td_size _ Ht i Hu). lia.
Qed.

Lemma live_count_range pm : 0 ≤ live_count pm ≤ Z.of_nat (length (node_heap pm)).
Proof.
  unfold live_count. split.
  - apply sum_nonneg. intros n _. destruct (is_live n); lia.
  - rewrite <- sum_const. apply sum_le. intros n _. destruct (is_live n); lia.
Qed.

Lemma block_address pm i n :
  reachable pm →
  0 ≤ p_mem (pool pm) → 0 ≤ total_size (pool pm) →
  p_mem (pool pm) + total_size (pool pm) < 2 ^ 64 →
  node_heap pm !! i = Some n → used n ≠ 0 →
  p_mem (pool pm) ≤ a_mem (alloc_record n) ∧
  a_mem (alloc_record n) + a_size (alloc_record n) ≤ p_mem (pool pm) + total_size (pool pm).
Proof.
  intros Hr Hbuf Htot Hend Hi Hu.
  destruct (block_slots_facts pm Hr) as (r & off & Hs & Ht & _); [lia|lia|].
  rewrite <- (nd_lookup _ _ _ Hi) in *.
  pose proof (ti_off _ _ _ _ Ht i Hu). pose proof (ti_size _ _ _ _ Ht i Hu).
  pose proof (ti_end _ _ _ _ Ht i Hu).
  rewrite (ti_mem _ _ _ _ Ht i Hu), u64_exact by lia. lia.
Qed.

Lemma scan_hit_first {A} (P : A → bool) (l : list A) k x : ∀ i n,
  l !! k = Some x → P x = true → (∀ j y, (j < k)%nat → l !! j = Some y → P y = false) →
  Z.of_nat (i + k) < n →
  scan (λ y, Some (P y)) l i n = Hit (i + k).
Proof.
  revert k. induction l as [|a l IH]; intros k i n Hk Hx Hlt Hn; [discriminate|].
  simpl. replace (Z.of_nat i <? n) with true by (symmetry; apply Z.ltb_lt; lia).
  destruct k as [|k]; simpl in Hk.
  - injection Hk as ->. rewrite Hx. f_equal. lia.
  - rewrite (Hlt 0%nat a) by (lia || reflexivity).
    replace (i + S k)%nat with (S i + k)%nat by lia.
    apply IH; try assumption; [|lia].
    intros j y Hj Hy. apply (Hlt (S j)); [lia|exact Hy].
Qed.

Lemma target_is_handle junk pm i n :
  keeps_books pm → node_heap pm !! i = Some n → is_live n = true →
  del_target junk (InHeap i) pm = Ret (Some i) pm.
Proof.
  intros [Hr Hbuf Htot Hend Ht _ _] Hi Hl.
  apply is_live_spec in Hl as [Hu _].
  pose proof (reachable_inv pm Hr) as HI.
  unfold del_target, read_alloc, bind, deref, get. rewrite Hi. unfold ret at 1.
  rewrite (scan_hit_first (λ m, a_mem (alloc_record n) =? a_mem (alloc_record m))
             (node_heap pm) i n 0 (total_nodes pm)).
  - reflexivity.
  - assumption.
  - apply Z.eqb_refl.
  - intros j y Hj Hy. apply Z.eqb_neq.
    destruct (block_address pm i n) as [Hlo Hhi]; try assumption; try lia.
    pose proof (td_size _ Ht i) as Hsi. rewrite (nd_lookup _ _ _ Hi) in Hsi.
    specialize (Hsi Hu).
    destruct (decide (used y = 0)) as [Hy0|Hyu].
    + pose proof (td_unused _ Ht j) as Hz. rewrite (nd_lookup _ _ _ Hy) in Hz.
      destruct (Hz Hy0) as [_ ->]. lia.
    + pose proof (td_size _ Ht j) as Hsj. rewrite (nd_lookup _ _ _ Hy) in Hsj.
      specialize (Hsj Hyu).
      destruct (blocks_disjoint pm i j n y) as (_ & _ & [Hd|Hd]); try assumption; lia.
  - rewrite (inv_total _ HI). apply lookup_lt_Some in Hi. rewrite (inv_len _ HI) in Hi. lia.
Qed.

Lemma books_after pm pm' x (g : view) :
  length (node_heap pm') = length (node_heap pm) →
  (x < length (node_heap pm))%nat →
  (∀ j, nd (node_heap pm') j = g j) →
  (∀ j, j ≠ x → allocated (g j) = 0 ∧ allocated (nd (node_heap pm) j) = 0 ∨
                 used (g j) = 0 ∧ used (nd (node_heap pm) j) = 0 ∨
                 alloc_record (g j) = alloc_record (nd (node_heap pm) j) ∧
                 allocated (g j) = allocated (nd (node_heap pm) j) ∧
                 used (g j) = used (nd (node_heap pm) j)) →
  live_bytes pm' =
    live_bytes pm
    - (if is_live (nd (node_heap pm) x) then a_size (alloc_record (nd (node_heap pm) x)) else 0)
    + (if is_live (g x) then a_size (alloc_record (g x)) else 0) ∧
  live_count pm' =
    live_count pm - (if is_live (nd (node_heap pm) x) then 1 else 0)
    + (if is_live (g x) then 1 else 0).
Proof.
  intros Hl Hx Hv Hrest. unfold live_bytes, live_count. rewrite <- !Hv. split.
  - apply (sum_change1 (λ n, if is_live n then a_size (alloc_record n) else 0));
      [assumption|assumption|].
    intros j Hj. rewrite Hv.
    destruct (Hrest j Hj) as [[E1 E2]|[[E1 E2]|(E1 & E2 & E3)]].
    + rewrite !is_live_false by auto. reflexivity.
    + rewrite !is_live_false by auto. reflexivity.
    + unfold is_live. rewrite E1, E2, E3. reflexivity.
  - apply (sum_change1 (λ n, if is_live n then 1 else 0)); [assumption|assumption|].
    intros j Hj. rewrite Hv.
    destruct (Hrest j Hj) as [[E1 E2]|[[E1 E2]|(E1 & E2 & E3)]].
    + rewrite !is_live_false by auto. reflexivity.
    + rewrite !is_live_false by auto. reflexivity.
    + unfold is_live. rewrite E2, E3. reflexivity.
Qed.

Lemma open_books size pol buf :
  0 < size → 0 < buf → buf + size < 2 ^ 64 →
  keeps_books (new_pool_mgr size pol buf).
Proof.
  intros Hsz Hbuf Hend.
  assert (Hz : ∀ (w : node_t → Z), (∀ n, allocated n = 0 → w n = 0) →
            sum_list (w <$> node_heap (new_pool_mgr size pol buf)) = 0).
  { intros w Hw. apply sum_zero. intros n Hn. apply Hw.
    destruct (elem_nd _ _ Hn) as (i & _ & <-). unfold new_pool_mgr. cbn [node_heap].
    rewrite nd_open. destruct (decide _); reflexivity. }
  split.
  - apply (reach_open size pol buf). unfold mem_pool_open.
    replace (buf =? 0) with false by (symmetry; apply Z.eqb_neq; lia). reflexivity.
  - assumption.
  - assumption.
  - assumption.
  - unfold new_pool_mgr. cbn [node_heap]. split; intros i; rewrite nd_open;
      destruct (decide _); simpl; auto; congruence.
  - unfold live_bytes. rewrite Hz; [reflexivity|].
    intros n Hn. rewrite is_live_false by auto. reflexivity.
  - unfold live_count. rewrite Hz; [reflexivity|].
    intros n Hn. rewrite is_live_false by auto. reflexivity.
Qed.

Lemma alloc_books junk size pm p pm' :
  keeps_books pm → 0 < size < 2 ^ 64 →
  mem_new_alloc junk size pm = Ret p pm' →
  keeps_books pm' ∧
  (∀ s, p = Some s →
        alloc_size (pool pm') = alloc_size (pool pm) + size ∧
        num_allocs (pool pm') = num_allocs (pool pm) + 1 ∧
        is_live (nd (node_heap pm') s) = true).
Proof.
  intros [Hr Hbuf Htot Hend Ht Hbytes Hcount] Hsz Ha.
  pose proof (reachable_inv pm Hr) as HI.
  assert (Hr' : reachable pm') by (eapply reach_alloc; eauto; lia).
  pose proof (reachable_inv pm' Hr') as HI'.
  destruct (post_elim _ _ _ _ _ (alloc_view junk size pm HI ltac:(lia)) Ha) as [_ Hv].
  destruct p as [s|].
  2:{ destruct Hv as [-> _]. split; [split; assumption|discriminate]. }
  destruct Hv as (_ & _ & _ & Ls & Has & Hfit & u & Hu & Hv & (E1 & E2 & E3) & Hna & Hsa).
  destruct (inv_shape _ HI) as [r Hs].
  set (v := nd (node_heap pm)) in *.
  assert (Hus : used (v s) ≠ 0).
  { intros H0. destruct (sh_unused _ _ Hs s H0) as (_&_&Hz). lia. }
  assert (Hne : u64 (a_size (alloc_record (v s)) - size) ≠ 0 → u ≠ s).
  { intros E. destruct (Hu E) as (_ & Huu & _). intros ->. contradiction. }
  destruct (alloc_v_selected size s u v Hne) as (Es1 & Es2 & Es3 & Es4).
  assert (Ht' : tidy (nd (node_heap pm'))).
  { eapply tidy_ext; [exact Hv|]. apply tidy_alloc; try assumption; [lia|].
    intros E. apply Hu. exact E. }
  assert (Hlive' : is_live (alloc_v size s u v s) = true).
  { apply is_live_spec. rewrite Es1, Es4. split; [assumption|lia]. }
  destruct (books_after pm pm' s (alloc_v size s u v)) as [Hb Hc].
  { rewrite (inv_len _ HI), (inv_len _ HI'). reflexivity. }
  { assumption. }
  { exact Hv. }
  { intros j Hj.
    destruct (decide (u64 (a_size (alloc_record (v s)) - size) = 0)) as [E|E].
    - right. right. apply alloc_v_rest; [assumption|intros; contradiction].
    - destruct (decide (j = u)) as [->|Hju].
      + left. destruct (alloc_v_remainder size s u v E) as (_ & -> & _).
        destruct (Hu E) as (_ & Huu & _). split; [reflexivity|].
        apply (td_unused _ Ht). exact Huu.
      + right. right. apply alloc_v_rest; auto. }
  rewrite Hlive' in Hb, Hc. rewrite Es2 in Hb. fold v in Hb, Hc.
  rewrite (is_live_false (v s)) in Hb, Hc by auto.
  assert (Hrange : 0 ≤ live_bytes pm' ≤ total_size (pool pm')).
  { apply live_bytes_range; try assumption; rewrite ?E1, ?E3; lia. }
  pose proof (live_count_range pm') as Hcr. rewrite (inv_len _ HI') in Hcr.
  assert (Hbytes' : alloc_size (pool pm') = alloc_size (pool pm) + size).
  { rewrite Hsa. apply u64_exact. rewrite Hbytes. rewrite E3 in Hrange. lia. }
  assert (Hcount' : num_allocs (pool pm') = num_allocs (pool pm) + 1).
  { rewrite Hna. apply u32_small. rewrite Hcount. lia. }
  split.
  - split; try assumption; rewrite ?E1, ?E3; try assumption; lia.
  - intros ? [= <-]. rewrite Hv. auto.
Qed.

Lemma free_books junk i n pm st pm' :
  keeps_books pm → node_heap pm !! i = Some n → is_live n = true →
  mem_del_alloc junk (InHeap i) pm = Ret st pm' →
  keeps_books pm' ∧ st = ALLOC_OK ∧
  alloc_size (pool pm') = alloc_size (pool pm) - a_size (alloc_record n) ∧
  num_allocs (pool pm') = num_allocs (pool pm) - 1 ∧
  is_live (nd (node_heap pm') i) = false.
Proof.
  intros Hk Hi Hl Hd. pose proof Hk as [Hr Hbuf Htot Hend Ht Hbytes Hcount].
  pose proof (reachable_inv pm Hr) as HI.
  assert (Hr' : reachable pm') by (eapply reach_free; eauto).
  pose proof (reachable_inv pm' Hr') as HI'.
  pose proof (target_is_handle junk pm i n Hk Hi Hl) as Htgt.
  destruct (post_elim _ _ _ _ _ (del_view junk (InHeap i) pm HI) Hd)
    as [_ [(_ & _ & Hnone)|(-> & x & Htgt' & Lx & Hv & (E1 & E2 & E3) & Hna & Hsa)]];
    [congruence|].
  assert (x = i) as -> by congruence.
  set (v := nd (node_heap pm)) in *.
  assert (Hp : partitioned (p_mem (pool pm)) (total_size (pool pm)) v)
    by (apply reachable_partitioned; [assumption|lia|lia]).
  assert (Ht' : tidy (nd (node_heap pm'))).
  { eapply tidy_ext; [exact Hv|]. apply (tidy_del (p_mem (pool pm)) (total_size (pool pm)));
      [lia|assumption|assumption]. }
  assert (Hdead : is_live (del_v i v i) = false).
  { apply is_live_false. left. rewrite del_v_allocated, decide_True by auto. reflexivity. }
  destruct (books_after pm pm' i (del_v i v)) as [Hb Hc].
  { rewrite (inv_len _ HI), (inv_len _ HI'). reflexivity. }
  { assumption. }
  { exact Hv. }
  { intros j Hj. destruct (decide (allocated (v j) = 0)) as [E|E].
    - left. rewrite del_v_allocated, decide_False by assumption. auto.
    - right. right. apply del_v_other; assumption. }
  rewrite Hdead in Hb, Hc. fold v in Hb, Hc.
  assert (Evi : v i = n) by (apply nd_lookup; assumption).
  rewrite Evi, Hl in Hb, Hc. rewrite Evi in Hsa.
  assert (Hrange : 0 ≤ live_bytes pm' ≤ total_size (pool pm')).
  { apply live_bytes_range; try assumption; rewrite ?E1, ?E3; lia. }
  pose proof (live_count_range pm') as Hcr. rewrite (inv_len _ HI') in Hcr.
  assert (Hbytes' : alloc_size (pool pm') = alloc_size (pool pm) - a_size (alloc_record n)).
  { rewrite Hsa. apply u64_exact. rewrite Hbytes. rewrite E3 in Hrange. lia. }
  assert (Hcount' : num_allocs (pool pm') = num_allocs (pool pm) - 1).
  { rewrite Hna. apply u32_small. rewrite Hcount. lia. }
  split; [|split; [reflexivity|split; [assumption|split; [assumption|]]]].
  - split; try assumption; rewrite ?E1, ?E3; try assumption; lia.
  - rewrite Hv. exact Hdead.
Qed.

Lemma disciplined_books pm : disciplined pm → keeps_books pm.
Proof.
  induction 1 as [size pol buf pm Hsz Hbuf Hend Ho | junk size pm p pm' _ IH Hsz Ha
                 | junk i n pm st pm' _ IH Hi Hl Hd].
  - unfold mem_pool_open in Ho. destruct (buf =? 0); [discriminate|]. injection Ho as <-.
    apply open_books; assumption.
  - apply (alloc_books junk size pm p pm' IH Hsz Ha).
  - apply (free_books junk i n pm st pm' IH Hi Hl Hd).
Qed.

Lemma books_balance pm :
  keeps_books pm → free_bytes pm + alloc_size (pool pm) = total_size (pool pm).
Proof.
  intros [Hr Hbuf Htot Hend Ht Hbytes Hcount].
  rewrite free_bytes_sum, Hbytes. unfold live_bytes. rewrite <- sum_add.
  rewrite <- (used_bytes_total pm Hr) by lia.
  f_equal. apply list_fmap_ext. intros _ n _. simpl.
  unfold is_gap_node, is_live.
  destruct (decide (used n ≠ 0)) as [Hu|Hu].
  - apply Z.eqb_neq in Hu. rewrite Hu. simpl. destruct (allocated n =? 0); simpl; lia.
  - assert (E : used n = 0) by (destruct (decide (used n = 0)); [assumption|contradiction]).
    rewrite E. simpl. lia.
Qed.

(** ** The merged region *)





Lemma fits_in_use pm size j :
  Inv pm → 0 < size → (slot_fits pm size j ↔ block_fits pm size j).
Proof.
  intros HI Hsz. destruct (inv_shape _ HI) as [r Hs]. unfold slot_fits, block_fits. split.
  - intros (m & Hm & Ha & Hfit). exists m. split; [exact Hm|]. split; [|exact Hfit].
    unfold is_gap_node. rewrite Ha. simpl. rewrite andb_true_r.
    apply negb_true_iff, Z.eqb_neq. intros Hu.
    rewrite <- (nd_lookup _ _ _ Hm) in Hu, Hfit.
    destruct (sh_unused _ _ Hs j Hu) as (_ & _ & Hz). lia.
  - intros (m & Hm & Hg & Hfit). exists m. split; [exact Hm|]. split; [|exact Hfit].
    unfold is_gap_node in Hg. apply andb_prop in Hg as [_ Hg]. apply Z.eqb_eq, Hg.
Qed.

Lemma lowest_fit_in_use pm size i :
  Inv pm → 0 < size → lowest_slot_fit pm size i → lowest_block_fit pm size i.
Proof.
  intros HI Hsz [Hi Hlow]. split; [apply (fits_in_use pm size i HI Hsz), Hi|].
  intros j Hj Hb. apply (Hlow j Hj). apply (fits_in_use pm size j HI Hsz), Hb.
Qed.

(** * The claims on coalescing and on first fit *)




(** C3, as the code has it: in a first-fit pool and for a request of at
    least one byte, the selection always returns, with the slot of lowest
    index in the node heap among the slots that hold a free block of at
    least the bytes requested, or with NULL when there is none; the node a
    call of [mem_new_alloc] returns is that slot, and the call does not
    return NULL when such a block exists, the gap count is not 0 and a slot
    of the node heap is left. *)
Theorem first_fit_takes_lowest_slot junk size pm :
  reachable pm → 0 < size < 2 ^ 64 →
  policy (pool pm) = FIRST_FIT →
  (∃ q, select_node size pm = Ret q pm ∧
        match q with
        | Some i => lowest_block_fit pm size i
        | None => ∀ j, ¬ block_fits pm size j
        end) ∧
  (∀ p pm', mem_new_alloc junk size pm = Ret p pm' →
     (∀ i, p = Some i → lowest_block_fit pm size i) ∧
     (num_gaps (pool pm) ≠ 0 → used_nodes pm < total_nodes pm →
      (∃ j, block_fits pm size j) → p ≠ None)).
Proof.
  intros Hr Hsz Hpol. pose proof (reachable_inv pm Hr) as HI.
  destruct (first_fit_scan_result junk size pm Hr ltac:(lia) Hpol) as [(q & Hq & Hsel) Hcall].
  split.
  - exists q. split; [exact Hq|]. destruct q as [i|].
    + apply (lowest_fit_in_use pm size i HI (proj1 Hsz) Hsel).
    + intros j Hj. apply (Hsel j). apply (fits_in_use pm size j HI (proj1 Hsz)), Hj.
  - intros p pm' Ha. destruct (Hcall p pm' Ha) as [Hlow Hnn]. split.
    + intros i Hi. apply (lowest_fit_in_use pm size i HI (proj1 Hsz)), Hlow, Hi.
    + intros Hg Hu [j Hj]. apply (Hnn Hg Hu). exists j.
      apply (fits_in_use pm size j HI (proj1 Hsz)), Hj.
Qed.

(** C3 at a pool where slot order and address order differ. *)
Lemma first_fit_takes_lowest_slot_witness :
  ∃ pm pm',
    reachable pm ∧
    mem_new_alloc None 10 pm = Ret (Some 1%nat) pm' ∧
    lowest_block_fit pm 10 1.
Proof.
  run_client Hc Hr
    [Alloc 10; Alloc 10; Alloc 10; Alloc 10; Free 0%nat; Free 1%nat;
     Alloc 30; Alloc 20; Free 2%nat]
    (new_pool_mgr 100 FIRST_FIT 4096).
  match type of Hr with reachable ?s =>
    eval_as Ha (mem_new_alloc None 10 s);
    match type of Ha with _ = Ret _ ?s' => exists s, s' end
  end.
  split; [exact Hr|]. split; [exact Ha|].
  refine (proj1 (proj2 (first_fit_takes_lowest_slot None 10 _ Hr _ _) _ _ Ha) 1%nat eq_refl).
  - lia.
  - reflexivity.
Defined.

Lemma bind_same {A B} (m : M A) (k k' : A → M B) pm :
  post m pm (λ a s, k a s = k' a s) → bind m k pm = bind m k' pm.
Proof. unfold post, bind. destruct (m pm); auto. Qed.

Lemma split_node_junk junk junk' size rem node pm :
  scan (λ n, Some (used n =? 0)) (node_heap pm) 0 (total_nodes pm) ≠ Miss →
  split_node junk size rem node pm = split_node junk' size rem node pm.
Proof.
  intros Hs. unfold split_node, bind, get.
  destruct (scan _ _ _ _); [reflexivity|contradiction|reflexivity].
Qed.

Lemma alloc_ignores_junk junk junk' size pm :
  Inv pm → mem_new_alloc junk size pm = mem_new_alloc junk' size pm.
Proof.
  intros [Hlen Htot _ _ Hcnt _ _ _]. unfold mem_new_alloc.
  apply bind_same, post_get.
  destruct (num_gaps (pool pm) =? 0); [reflexivity|].
  destruct (total_nodes pm <=? used_nodes pm) eqn:Efull; [reflexivity|].
  apply Z.leb_gt in Efull.
  apply bind_same. apply post_intro. intros p pm1 Esel.
  destruct (post_elim _ _ _ _ _ (select_node_post size pm) Esel) as [-> _].
  destruct p as [s|]; [|reflexivity].
  pose proof (core_is_intro pm) as C.
  set (H := node_heap pm) in *. set (P := pool pm) in *.
  do 6 (apply bind_same; step).
  destruct (_ =? 0); [reflexivity|].
  apply split_node_junk.
  destruct C4 as (_ & -> & -> & _).
  intros Hm. pose proof (scan_miss _ _ _ _ Hm) as Hall.
  rewrite list_insert_insert_eq in Hall.
  set (H1 := <[s := set_size size (set_allocated 1 (nd H s))]> H) in *.
  assert (Hl1 : length H1 = 40%nat) by (unfold H1; rewrite length_insert; assumption).
  assert (count_used H1 = length H1).
  { apply count_full. intros j Hj.
    specialize (Hall j (nd H1 j) (lookup_nd _ _ Hj) ltac:(lia)).
    injection Hall as Hall. apply Z.eqb_neq in Hall. exact Hall. }
  assert (count_used H1 = count_used H).
  { apply count_same; [apply length_insert|]. intros j. unfold H1.
    rewrite nd_insert by assumption. destruct (decide (j = s)) as [->|]; reflexivity. }
  lia.
Qed.

Lemma cap_less_refl pm : cap_less 0 pm pm.
Proof. split; [reflexivity|lia]. Qed.

Lemma cap_less_trans d1 d2 pm1 pm2 pm3 :
  cap_less d1 pm1 pm2 → cap_less d2 pm2 pm3 → cap_less (d1 + d2) pm1 pm3.
Proof. intros [A1 B1] [A2 B2]. split; [congruence|lia]. Qed.

Lemma gap_put_cap i g pm : post (gap_put i g) pm (λ _ pm', cap_less 0 pm pm').
Proof.
  unfold post, gap_put. destruct (in_array i (gap_ix pm)); [|exact I].
  split; simpl; [apply length_insert|lia].
Qed.

Lemma for_up_cap fuel body :
  (∀ i pm, post (body i) pm (λ _ pm', cap_less 0 pm pm')) →
  ∀ i hi pm, post (for_up fuel i hi body) pm (λ _ pm', cap_less 0 pm pm').
Proof.
  intros Hb. induction fuel as [|fuel IH]; intros i hi pm; unfold post; simpl.
  - destruct (i <? hi); [exact I|apply cap_less_refl].
  - destruct (i <? hi); [|apply cap_less_refl].
    specialize (Hb i pm). unfold post in Hb.
    destruct (body i pm) as [[] pm1|]; [|exact I].
    specialize (IH (i + 1) hi pm1). unfold post in IH.
    destruct (for_up fuel (i + 1) hi body pm1); [|exact I].
    apply (cap_less_trans 0 0 _ _ _ Hb IH).
Qed.

Lemma for_down_cap fuel body :
  (∀ i pm, post (body i) pm (λ _ pm', cap_less 0 pm pm')) →
  ∀ i pm, post (for_down fuel i body) pm (λ _ pm', cap_less 0 pm pm').
Proof.
  intros Hb. induction fuel as [|fuel IH]; intros i pm; unfold post; simpl.
  - destruct (0 <? i); [exact I|apply cap_less_refl].
  - destruct (0 <? i); [|apply cap_less_refl].
    specialize (Hb i pm). unfold post in Hb.
    destruct (body i pm) as [[] pm1|]; [|exact I].
    specialize (IH (i - 1) pm1). unfold post in IH.
    destruct (for_down fuel (i - 1) body pm1); [|exact I].
    apply (cap_less_trans 0 0 _ _ _ Hb IH).
Qed.

Lemma sort_step_cap i pm : post (sort_step i) pm (λ _ pm', cap_less 0 pm pm').
Proof.
  unfold sort_step. apply post_bind. eapply post_mono; [apply gap_at_core|].
  intros gi ? ->. apply post_bind. eapply post_mono; [apply gap_at_core|].
  intros gp ? ->. apply post_bind, post_deref. intros ? ni _ _.
  apply post_bind, post_deref. intros ? np _ _.
  destruct (_ || _); [|apply post_ret, cap_less_refl].
  apply post_bind. eapply post_mono; [apply gap_put_cap|].
  intros [] pm1 H1. eapply post_mono; [apply gap_put_cap|].
  intros [] pm2 H2. apply (cap_less_trans 0 0 _ _ _ H1 H2).
Qed.

(** A loop that has more steps to go than the array has entries does not
    return. *)
Lemma for_up_long body : ∀ fuel i hi pm,
  Z.of_nat fuel < hi - i → for_up fuel i hi body pm = Undef.
Proof.
  induction fuel as [|fuel IH]; intros i hi pm Hlt; simpl.
  - replace (i <? hi) with true by (symmetry; apply Z.ltb_lt; lia). reflexivity.
  - replace (i <? hi) with true by (symmetry; apply Z.ltb_lt; lia).
    destruct (body i pm) as [[] pm1|]; [|reflexivity]. apply IH. lia.
Qed.

Lemma remove_cap size node pm :
  cap_ok pm →
  post (_mem_remove_from_gap_ix size node) pm
       (λ _ pm', 1 ≤ gap_ix_capacity pm ∧ cap_less 1 pm pm').
Proof.
  intros [Hlen Hcap]. unfold _mem_remove_from_gap_ix. apply post_bind, post_get, post_bind.
  apply post_intro. intros index pm0 Hix.
  assert (pm0 = pm ∧ 0 ≤ index ≤ 40) as [-> Hindex].
  { destruct (scan _ _ _ _) as [k| |] eqn:Es; unfold ret, undef in Hix; [| |discriminate].
    - injection Hix as <- <-. split; [reflexivity|].
      destruct (scan_hit _ _ _ _ _ Es) as (x & _ & Hx & _).
      apply lookup_lt_Some in Hx. lia.
    - injection Hix as <- <-. split; [reflexivity|lia]. }
  clear Hix. apply post_bind.
  destruct (decide (gap_ix_capacity pm = 0)) as [E0|Hne].
  { unfold post. rewrite for_up_long; [exact I|].
    rewrite E0, Hlen. change (u32 (0 - 1)) with 4294967295. lia. }
  eapply post_mono.
  { apply for_up_cap. intros i pm0. apply post_bind.
    eapply post_mono; [apply gap_at_core|]. intros g ? ->. apply gap_put_cap. }
  intros [] pm1 H1.
  apply post_bind, post_modify, post_bind, post_modify, post_bind, post_get, post_bind.
  eapply post_mono; [apply gap_put_cap|]. intros [] pm2 H2.
  apply post_ret. split; [lia|].
  destruct H1 as [A1 B1], H2 as [A2 B2]. simpl in *.
  split; [congruence|]. rewrite B2, B1. rewrite u32_small; lia.
Qed.

Lemma add_cap size node pm :
  cap_ok pm →
  post (_mem_add_to_gap_ix size node) pm (λ _ pm', cap_less 0 pm pm').
Proof.
  intros [Hlen Hcap].
  destruct (over_fill_factor (num_gaps (pool pm)) (gap_ix_capacity pm)) eqn:Eo.
  { unfold post. rewrite add_resizing; [exact I|lia|exact Eo]. }
  unfold _mem_add_to_gap_ix, _mem_resize_gap_ix.
  apply post_bind, post_bind, post_get. rewrite Eo. apply post_ret.
  apply post_bind, post_get, post_bind.
  eapply post_mono; [apply gap_put_cap|]. intros [] pm2 H2.
  apply post_bind, post_modify, post_bind.
  unfold _mem_sort_gap_ix. apply post_bind, post_get, post_bind.
  eapply post_mono; [apply for_down_cap; intros; apply sort_step_cap|].
  intros [] pm3 H3. apply post_ret, post_ret.
  destruct H2 as [A2 B2], H3 as [A3 B3]. simpl in *. split; [congruence|lia].
Qed.

Ltac cstep :=
  cbv beta iota zeta;
  lazymatch goal with
  | |- post (bind (bind (_mem_add_to_gap_ix _ _) _) _) _ _ => fail
  | |- post (bind _ _) _ _ => apply post_bind
  | |- post (ret _) _ _ => apply post_ret
  | |- post get _ _ => apply post_get
  | |- post (deref _) _ _ => apply post_deref; intros ? ? _ _
  | |- post (store _ _) _ _ => apply post_store; intros ? ? _ _
  | |- post (modify _) _ _ => apply post_modify
  end.

Lemma cap_ok_less d pm pm' :
  cap_ok pm → cap_less d pm pm' → 0 ≤ d ≤ gap_ix_capacity pm → cap_ok pm'.
Proof. intros [A B] [A' B'] Hd. split; [congruence|lia]. Qed.

Lemma found_or_cap junk r pm (Q : node_pt → pool_mgr_t → Prop) :
  (∀ p, Q p pm) → post (found_or junk r) pm Q.
Proof. intros HQ. destruct r; simpl; [apply post_ret, HQ|apply post_ret, HQ|exact I]. Qed.

Lemma split_node_cap junk size rem node pm :
  cap_ok pm →
  post (split_node junk size rem node) pm (λ _ pm', cap_less 0 pm pm').
Proof.
  intros Hok. unfold split_node. cstep. cstep. cstep. apply found_or_cap. intros u.
  destruct u as [u|]; [|cstep; apply cap_less_refl].
  do 16 cstep.
  assert (Hk : ∀ pm1, cap_less 0 pm pm1 →
               post ((let* st := _mem_add_to_gap_ix rem (Some u) in
                      match st with ALLOC_OK => ret tt | _ => undef end) ;; ret node) pm1
                    (λ _ pm', cap_less 0 pm pm')).
  { intros pm1 H1. apply post_bind, post_bind.
    eapply post_mono; [apply add_cap, (cap_ok_less 0 pm); [assumption|assumption|]|].
    { destruct Hok; lia. }
    intros st pm2 H2. destruct st; try exact I. cstep. cstep.
    apply (cap_less_trans 0 0 _ _ _ H1 H2). }
  cstep. destruct (next _); repeat cstep; apply Hk; (split; simpl; [reflexivity|lia]).
Qed.

Lemma alloc_cap junk size pm :
  cap_ok pm →
  post (mem_new_alloc junk size) pm
       (λ p pm', match p with
                 | Some _ => 1 ≤ gap_ix_capacity pm ∧ cap_less 1 pm pm'
                 | None => cap_less 0 pm pm' ∨ (1 ≤ gap_ix_capacity pm ∧ cap_less 1 pm pm')
                 end).
Proof.
  intros Hok. unfold mem_new_alloc. cstep. cstep.
  destruct (num_gaps (pool pm) =? 0); [cstep; left; apply cap_less_refl|].
  destruct (total_nodes pm <=? used_nodes pm); [cstep; left; apply cap_less_refl|].
  cstep. apply post_intro. intros p pm1 Esel.
  destruct (post_elim _ _ _ _ _ (select_node_post size pm) Esel) as [-> _].
  destruct p as [s|]; [|cstep; left; apply cap_less_refl].
  do 7 cstep.
  eapply post_mono; [apply remove_cap; exact Hok|].
  intros st pm1 [Hc1 H1].
  change (1 ≤ gap_ix_capacity pm) in Hc1. change (cap_less 1 pm pm1) in H1.
  do 4 cstep.
  assert (Hok1 : cap_ok pm1) by (apply (cap_ok_less 1 pm); [assumption|assumption|lia]).
  destruct (_ =? 0); [cstep; split; assumption|].
  eapply post_mono; [apply split_node_cap; exact Hok1|].
  intros p pm2 H2. pose proof (cap_less_trans 1 0 _ _ _ H1 H2) as H12.
  destruct p; [split; assumption|right; split; assumption].
Qed.

Lemma cap_drop_refl pm : 0 ≤ gap_ix_capacity pm → cap_drop pm pm.
Proof. intros H. exists 0. split; [lia|apply cap_less_refl]. Qed.

Lemma cap_drop_trans pm1 pm2 pm3 :
  cap_drop pm1 pm2 → cap_drop pm2 pm3 → cap_drop pm1 pm3.
Proof.
  intros (d1 & Hd1 & H1) (d2 & Hd2 & H2). exists (d1 + d2).
  split; [destruct H1; lia|apply (cap_less_trans _ _ _ _ _ H1 H2)].
Qed.

Lemma cap_drop_ok pm pm' : cap_ok pm → cap_drop pm pm' → cap_ok pm'.
Proof. intros Hok (d & Hd & H). apply (cap_ok_less d pm pm' Hok H Hd). Qed.

Lemma remove_drop size node pm :
  cap_ok pm → post (_mem_remove_from_gap_ix size node) pm (λ _ pm', cap_drop pm pm').
Proof.
  intros Hok. eapply post_mono; [apply remove_cap, Hok|].
  intros st pm' [H1 H]. exists 1. split; [lia|exact H].
Qed.

Lemma add_drop size node pm :
  cap_ok pm → post (_mem_add_to_gap_ix size node) pm (λ _ pm', cap_drop pm pm').
Proof.
  intros Hok. eapply post_mono; [apply add_cap, Hok|].
  intros st pm' H. exists 0. split; [destruct Hok; lia|exact H].
Qed.

(** A call of a gap index function in the middle of a walk through the
    code: [pm] is where the walk started, [pm1] where it stands. *)
Ltac gap_call lem :=
  cbv beta;
  lazymatch goal with
  | Hok : cap_ok ?pm, Hd : cap_drop ?pm ?pm1 |- post _ ?cur _ =>
      change (cap_drop pm cur) in Hd;
      let pm2 := fresh "pm" in let H2 := fresh "Hd" in
      eapply post_mono; [apply lem, (cap_drop_ok pm cur Hok Hd)|];
      intros ? pm2 H2;
      pose proof (cap_drop_trans _ _ _ Hd H2); clear Hd H2
  end.

Lemma is_gap_cap p pm (Q : bool → pool_mgr_t → Prop) :
  (∀ b pm', gap_ix pm' = gap_ix pm → gap_ix_capacity pm' = gap_ix_capacity pm → Q b pm') →
  post (is_gap p) pm Q.
Proof.
  intros HQ. unfold is_gap. destruct p as [i|]; [|apply post_ret, HQ; reflexivity].
  cstep. cstep. destruct (_ =? 0); repeat cstep; apply HQ; reflexivity.
Qed.

Lemma merge_next_cap p pm0 pm :
  cap_ok pm0 → cap_drop pm0 pm →
  post (merge_next p) pm (λ _ pm', cap_drop pm0 pm').
Proof.
  intros Hok Hd. unfold merge_next. cstep. cstep. cstep.
  apply is_gap_cap. intros gap pm1 E1 E2.
  assert (Hd1 : cap_drop pm0 pm1).
  { destruct Hd as (d & Hd & A & B). exists d. split; [exact Hd|]. split; congruence. }
  clear Hd E1 E2.
  destruct gap; [|cstep; exact Hd1].
  unfold merge_next_body. do 5 cstep.
  gap_call remove_drop.
  repeat cstep. destruct (next _); repeat cstep; assumption.
Qed.

Lemma merge_prev_cap p pm0 pm :
  cap_ok pm0 → cap_drop pm0 pm →
  post (merge_prev p) pm (λ _ pm', cap_drop pm0 pm').
Proof.
  intros Hok Hd. unfold merge_prev. cstep. cstep. cstep.
  apply is_gap_cap. intros gap pm1 E1 E2.
  assert (Hd1 : cap_drop pm0 pm1).
  { destruct Hd as (d & Hd & A & B). exists d. split; [exact Hd|]. split; congruence. }
  clear Hd E1 E2.
  destruct gap; [|cstep; exact Hd1].
  unfold merge_prev_body. do 5 cstep.
  gap_call remove_drop.
  destruct a; try (cstep; assumption);
    (do 3 cstep; gap_call remove_drop;
     destruct a; try (cstep; assumption);
     (repeat cstep; destruct (next _); repeat cstep; gap_call add_drop; repeat cstep;
      assumption)).
Qed.

Lemma del_cap junk alloc pm :
  cap_ok pm → post (mem_del_alloc junk alloc) pm (λ _ pm', cap_drop pm pm').
Proof.
  intros Hok. pose proof (cap_drop_refl pm (proj1 (proj2 Hok))) as Hd.
  unfold mem_del_alloc. cstep.
  assert (Hr : post (read_alloc alloc) pm
                 (λ a pm', pm' = pm)).
  { unfold read_alloc. destruct alloc; repeat cstep; reflexivity. }
  eapply post_mono; [exact Hr|]. intros a ? ->. clear Hr.
  cstep. cstep. cstep. apply found_or_cap. intros [x|]; [|cstep; exact Hd].
  repeat cstep.
  eapply post_mono; [apply (merge_next_cap _ pm); [exact Hok|exact Hd]|].
  intros st1 pm1 Hd1. cbv beta in Hd1. clear Hd. do 3 cstep.
  gap_call add_drop.
  apply (merge_prev_cap _ pm); assumption.
Qed.

Lemma served_cap k pm :
  served k pm → cap_ok pm ∧ gap_ix_capacity pm + Z.of_nat k ≤ 40.
Proof.
  induction 1 as [size pol buf pm Ho|junk size k pm s pm' _ [Hok IH] Hsz Ha
                  |junk size k pm pm' _ [Hok IH] Hsz Ha
                  |junk alloc k pm st pm' _ [Hok IH] Hd].
  - unfold mem_pool_open in Ho. destruct (buf =? 0); [discriminate|].
    injection Ho as <-. split; [split|]; simpl.
    + reflexivity.
    + unfold MEM_GAP_IX_INIT_CAPACITY. lia.
    + unfold MEM_GAP_IX_INIT_CAPACITY. lia.
  - destruct (post_elim _ _ _ _ _ (alloc_cap junk size pm Hok) Ha) as [H1 H].
    split; [apply (cap_ok_less 1 pm pm' Hok H); lia|]. destruct H. lia.
  - destruct (post_elim _ _ _ _ _ (alloc_cap junk size pm Hok) Ha) as [H|[H1 H]].
    + split; [apply (cap_ok_less 0 pm pm' Hok H); destruct Hok; lia|]. destruct H. lia.
    + split; [apply (cap_ok_less 1 pm pm' Hok H); lia|]. destruct H. lia.
  - pose proof (post_elim _ _ _ _ _ (del_cap junk alloc pm Hok) Hd) as H.
    split; [apply (cap_drop_ok pm pm' Hok H)|]. destruct H as (d & Hd' & _ & E). lia.
Qed.

Lemma ptr_eqb_eq p q : ptr_eqb p q = true ↔ p = q.
Proof.
  destruct p as [i|], q as [j|]; simpl; try (split; [discriminate|congruence]).
  - rewrite Nat.eqb_eq. split; congruence.
  - tauto.
Qed.

Lemma without_cons_eq node g L : g_node g = node → without node (g :: L) = without node L.
Proof. intros E. unfold without. rewrite filter_cons_False; [reflexivity|]. tauto. Qed.

Lemma without_cons_ne node g L :
  g_node g ≠ node → without node (g :: L) = g :: without node L.
Proof. intros E. unfold without. rewrite filter_cons_True; [reflexivity|assumption]. Qed.

Lemma without_absent node L : node ∉ g_node <$> L → without node L = L.
Proof.
  induction L as [|g L IH]; intros Hn; [reflexivity|].
  rewrite fmap_cons, not_elem_of_cons in Hn. destruct Hn as [Hg Hn].
  rewrite without_cons_ne by congruence. rewrite IH by assumption. reflexivity.
Qed.

Lemma find_gap_some node L : node ∈ g_node <$> L → ∃ k, find_gap node L = Some k.
Proof.
  induction L as [|g L IH]; intros Hin; [apply elem_of_nil in Hin; contradiction|].
  simpl. destruct (ptr_eqb (g_node g) node) eqn:E; [eauto|].
  rewrite fmap_cons in Hin. apply elem_of_cons in Hin as [Heq|Hin].
  - symmetry in Heq. apply ptr_eqb_eq in Heq. congruence.
  - destruct (IH Hin) as [k ->]. simpl. eauto.
Qed.

Lemma delete_first_without node L :
  NoDup (g_node <$> L) → node ∈ g_node <$> L →
  delete (removed_index node L) L = without node L.
Proof.
  unfold removed_index. induction L as [|g L IH]; intros Hnd Hin.
  - apply elem_of_nil in Hin. contradiction.
  - rewrite fmap_cons in Hnd, Hin. apply NoDup_cons in Hnd as [Hg Hnd].
    simpl. destruct (ptr_eqb (g_node g) node) eqn:E.
    + apply ptr_eqb_eq in E. simpl. rewrite without_cons_eq by assumption.
      rewrite without_absent; [reflexivity|]. congruence.
    + assert (Hne : g_node g ≠ node).
      { intros Heq. apply ptr_eqb_eq in Heq. congruence. }
      apply elem_of_cons in Hin as [Heq|Hin]; [congruence|].
      specialize (IH Hnd Hin). rewrite without_cons_ne by assumption.
      destruct (find_gap_some _ _ Hin) as [k Ek]. rewrite Ek in *. simpl in *.
      rewrite IH. reflexivity.
Qed.

Lemma without_perm node L L' : L ≡ₚ L' → without node L ≡ₚ without node L'.
Proof. intros HP. unfold without. rewrite HP. reflexivity. Qed.

Lemma length_without node L :
  NoDup (g_node <$> L) → node ∈ g_node <$> L →
  S (length (without node L)) = length L.
Proof.
  induction L as [|g L IH]; intros Hnd Hin.
  - apply elem_of_nil in Hin. contradiction.
  - rewrite fmap_cons in Hnd, Hin. apply NoDup_cons in Hnd as [Hg Hnd].
    destruct (decide (g_node g = node)) as [E|Hne].
    + rewrite without_cons_eq by assumption. rewrite without_absent; [reflexivity|congruence].
    + rewrite without_cons_ne by assumption.
      apply elem_of_cons in Hin as [Heq|Hin]; [congruence|].
      simpl. rewrite IH by assumption. reflexivity.
Qed.

Lemma elem_of_without node g L : g ∈ without node L ↔ g ∈ L ∧ g_node g ≠ node.
Proof. unfold without. rewrite list_elem_of_filter. tauto. Qed.

Lemma nodup_without node L : NoDup (g_node <$> L) → NoDup (g_node <$> without node L).
Proof.
  induction L as [|g L IH]; intros Hnd; [exact Hnd|].
  rewrite fmap_cons in Hnd. apply NoDup_cons in Hnd as [Hg Hnd].
  destruct (decide (g_node g = node)) as [E|Hne].
  - rewrite without_cons_eq by assumption. auto.
  - rewrite without_cons_ne by assumption. rewrite fmap_cons. apply NoDup_cons.
    split; [|auto]. intros Hin. apply Hg.
    apply list_elem_of_fmap in Hin as (g' & E' & Hin').
    apply elem_of_without in Hin' as [Hin' _].
    apply list_elem_of_fmap. eauto.
Qed.

Lemma gaps_is_cap_ok pm L C : gaps_is pm L C → cap_ok pm.
Proof. intros (_ & _ & E & Hl & Hc & _). split; [exact Hl|rewrite E; exact Hc]. Qed.

(** ** Symbolic execution with the gap index *)

Lemma gs_store p f pm P H T U L C (Q : unit → pool_mgr_t → Prop) :
  core_is pm P H T U → gaps_is pm L C →
  (∀ i pm', p = Some i → (i < length H)%nat →
            core_is pm' P (<[i := f (nd H i)]> H) T U → gaps_is pm' L C → Q tt pm') →
  post (store p f) pm Q.
Proof.
  intros (<-&<-&<-&<-) HG HQ. apply post_store. intros i n -> Hn.
  eapply HQ; [reflexivity| | |exact HG].
  - apply lookup_lt_is_Some_1. eauto.
  - rewrite (nd_lookup _ _ _ Hn). repeat split.
Qed.

Lemma gs_pool f pm P H T U L C (Q : unit → pool_mgr_t → Prop) :
  core_is pm P H T U → gaps_is pm L C →
  num_gaps (f P) = num_gaps P →
  (∀ pm', core_is pm' (f P) H T U → gaps_is pm' L C → Q tt pm') →
  post (modify (with_pool f)) pm Q.
Proof.
  intros (<-&<-&<-&<-) HG Hf HQ. apply post_modify, HQ; [repeat split|].
  destruct HG as (G1 & G2 & G3). unfold gaps_is, live_gaps in *. simpl.
  rewrite Hf. auto.
Qed.

Lemma gs_used f pm P H T U L C (Q : unit → pool_mgr_t → Prop) :
  core_is pm P H T U → gaps_is pm L C →
  (∀ pm', core_is pm' P H T (f U) → gaps_is pm' L C → Q tt pm') →
  post (modify (λ pm, with_used_nodes (f (used_nodes pm)) pm)) pm Q.
Proof.
  intros (<-&<-&<-&<-) HG HQ. apply post_modify, HQ; [repeat split|exact HG].
Qed.

Lemma gs_remove size node pm P H T U L C (Q : alloc_status → pool_mgr_t → Prop) :
  core_is pm P H T U → gaps_is pm L C →
  NoDup (g_node <$> L) → node ∈ g_node <$> L →
  (∀ pm', core_is pm' (set_num_gaps (u32 (num_gaps P - 1)) P) H T U →
          gaps_is pm' (without node L) (C - 1) → Q ALLOC_OK pm') →
  post (_mem_remove_from_gap_ix size node) pm Q.
Proof.
  intros HC HG Hnd Hin HQ.
  destruct (decide (C = 0)) as [E0|Hne].
  { eapply post_mono; [apply remove_cap, (gaps_is_cap_ok _ _ _ HG)|].
    intros st pm' [H1 _]. destruct HG as (_ & _ & HC' & _). lia. }
  destruct HC as (<-&<-&<-&<-). destruct HG as (HP & Hng & Hcap & Hlen & HC & Hor).
  assert (Hpos : (1 ≤ length L)%nat).
  { destruct L; [apply elem_of_nil in Hin; contradiction|simpl; lia]. }
  destruct (remove_spec size node pm) as (pm' & Er & El & En & Ec & Ell & _ & Hf);
    [lia|lia|lia|].
  unfold post. rewrite Er. apply HQ.
  - destruct Hf as (?&?&?&?). repeat split; assumption.
  - assert (Hnd' : NoDup (g_node <$> live_gaps pm)) by (rewrite HP; exact Hnd).
    assert (Hin' : node ∈ g_node <$> live_gaps pm) by (rewrite HP; exact Hin).
    rewrite (delete_first_without _ _ Hnd' Hin') in El.
    pose proof (length_without node L Hnd Hin) as Hlw.
    split; [rewrite El; apply without_perm, HP|].
    split; [lia|]. split; [lia|]. split; [congruence|]. split; [lia|]. left. lia.
Qed.

Lemma gs_add size node pm P H T U L C (Q : alloc_status → pool_mgr_t → Prop) :
  core_is pm P H T U → gaps_is pm L C →
  Forall (gap_valid H) L → gap_valid H (mk_gap size node) →
  (∀ pm', core_is pm' (set_num_gaps (u32 (num_gaps P + 1)) P) H T U →
          gaps_is pm' (mk_gap size node :: L) C → Q ALLOC_OK pm') →
  post (_mem_add_to_gap_ix size node) pm Q.
Proof.
  intros HC HG Hv Hnew HQ.
  destruct HC as (<-&<-&<-&<-). destruct HG as (HP & Hng & Hcap & Hlen & HC & Hor).
  destruct (over_fill_factor (num_gaps (pool pm)) (gap_ix_capacity pm)) eqn:Eo.
  { unfold post. rewrite add_resizing; [exact I|lia|exact Eo]. }
  pose proof Eo as Eo'. unfold over_fill_factor in Eo'. apply Z.ltb_ge in Eo'.
  destruct (add_spec size node pm) as (pm' & Ea & El & En & Ec & Ell & Hf);
    [exact Eo|lia|lia|rewrite HP; exact Hv|exact Hnew|].
  unfold post. rewrite Ea. apply HQ.
  - destruct Hf as (?&?&?&?). repeat split; assumption.
  - split; [rewrite El, HP; reflexivity|].
    split; [simpl length; lia|]. split; [lia|]. split; [congruence|]. split; [lia|].
    simpl length. destruct (decide (C = 0)); [right|left]; lia.
Qed.

Ltac gstep :=
  cbv beta iota zeta;
  lazymatch goal with
  | |- post (bind _ _) _ _ => apply post_bind
  | |- post (ret _) _ _ => apply post_ret
  | |- post get _ _ => apply st_get
  | |- post (deref _) _ _ =>
      eapply st_deref; [eassumption|];
      let i := fresh "i" in let E := fresh "E" in let L := fresh "L" in
      simp_nd; intros i E L; ptr_eq E; rewrite ?length_insert in L; simp_nd
  | |- post (store _ _) _ _ =>
      eapply gs_store; [eassumption|eassumption|];
      let i := fresh "i" in let pm := fresh "pm" in
      let E := fresh "E" in let L := fresh "L" in let C := fresh "C" in
      let G := fresh "G" in
      simp_nd; intros i pm E L C G; ptr_eq E; rewrite ?length_insert in L;
      simp_nd_in C
  | |- post (modify (with_pool _)) _ _ =>
      eapply gs_pool; [eassumption|eassumption|reflexivity|];
      let pm := fresh "pm" in let C := fresh "C" in let G := fresh "G" in intros pm C G
  | |- post (modify (λ pm, with_used_nodes (u32 (used_nodes pm - 1)) pm)) _ _ =>
      eapply (gs_used (λ u, u32 (u - 1))); [eassumption|eassumption|];
      let pm := fresh "pm" in let C := fresh "C" in let G := fresh "G" in intros pm C G
  | |- post (modify (λ pm, with_used_nodes (u32 (used_nodes pm + 1)) pm)) _ _ =>
      eapply (gs_used (λ u, u32 (u + 1))); [eassumption|eassumption|];
      let pm := fresh "pm" in let C := fresh "C" in let G := fresh "G" in intros pm C G
  end.

Ltac gsteps := repeat gstep.

(** The assertions on the state the walk through the code stands at. *)
Ltac current CC GG :=
  cbv beta;
  lazymatch goal with
  | Cx : core_is ?pmc _ _ _ _, Gx : gaps_is ?pmc _ _ |- post _ ?pmc _ =>
      rename Cx into CC; rename Gx into GG
  end.

Lemma gap_valid_len h h' g : length h' = length h → gap_valid h g → gap_valid h' g.
Proof. intros E (i & Hi & Hl). exists i. split; [exact Hi|lia]. Qed.

Lemma valid_without h node L : Forall (gap_valid h) L → Forall (gap_valid h) (without node L).
Proof.
  rewrite !Forall_forall. intros HL g Hg. apply elem_of_without in Hg as [Hg _]. auto.
Qed.

Lemma is_gap_gaps p pm P H T U L C :
  core_is pm P H T U → gaps_is pm L C →
  post (is_gap p) pm
       (λ b pm',
          gaps_is pm' L C ∧
          if b then
            ∃ i, p = Some i ∧ (i < length H)%nat ∧ allocated (nd H i) = 0 ∧
                 core_is pm' P (<[i := set_used 1 (nd H i)]> H) T U
          else pm' = pm ∧ ∀ i, p = Some i → allocated (nd H i) ≠ 0).
Proof.
  intros C0 G0. unfold is_gap.
  destruct p as [i|]; [|apply post_ret; split; [assumption|split; [auto|discriminate]]].
  gstep. gstep. destruct (allocated (nd H i) =? 0) eqn:Ea.
  - gstep. gstep. gstep. split; [assumption|]. exists i. apply Z.eqb_eq in Ea. auto.
  - gstep. split; [assumption|]. split; [reflexivity|].
    intros ? [= <-]. apply Z.eqb_neq in Ea. exact Ea.
Qed.

Lemma merge_next_body_gaps pm P H T U L C x y :
  core_is pm P H T U → gaps_is pm L C → next (nd H x) = Some y → x ≠ y →
  (∀ z, next (nd H y) = Some z → z ≠ x ∧ z ≠ y) →
  NoDup (g_node <$> L) → Some y ∈ g_node <$> L →
  post (merge_next_body (Some x)) pm
       (λ _ pm', gaps_is pm' (without (Some y) L) (C - 1)).
Proof.
  intros C0 G0 Hxy Hne Hz Hnd Hin. unfold merge_next_body.
  gsteps.
  eapply gs_remove; [eassumption|eassumption|assumption|assumption|].
  intros pm1 C1 G1.
  gsteps.
  destruct (next (nd H y)) as [z|] eqn:Ez.
  - destruct (Hz z eq_refl) as [Hzx Hzy]. gsteps. assumption.
  - gsteps. assumption.
Qed.

Lemma merge_next_gaps pm P H T U L C x r :
  core_is pm P H T U → gaps_is pm L C → shape (nd H) r →
  NoDup (g_node <$> L) →
  (∀ y, next (nd H x) = Some y → allocated (nd H y) = 0 → Some y ∈ g_node <$> L) →
  post (merge_next (Some x)) pm
       (λ _ pm', ∃ C', gaps_is pm' (merge_next_list x (nd H) L) C').
Proof.
  intros C0 G0 Hs Hnd Hin. unfold merge_next. gstep. gstep. gstep.
  eapply post_mono; [eapply is_gap_gaps; eassumption|].
  intros [] pm1.
  - intros (G1 & y & Hxy & Ly & Hay & C1).
    destruct (sh_next _ _ Hs x y Hxy) as [Hyx Hr].
    assert (x ≠ y) by (intros ->; lia).
    set (H2 := <[y := set_used 1 (nd H y)]> H) in *.
    assert (E2 : ∀ j, nd H2 j = upd_v y (set_used 1) (nd H) j)
      by (intros j; apply nd_insert_upd; assumption).
    assert (Hxy2 : next (nd H2 x) = Some y).
    { rewrite E2. unfold upd_v. rewrite decide_False by assumption. exact Hxy. }
    eapply post_mono.
    { eapply merge_next_body_gaps; [exact C1|exact G1|exact Hxy2|assumption| |exact Hnd|].
      - intros z Hz. rewrite E2 in Hz. unfold upd_v in Hz.
        rewrite decide_True in Hz by auto.
        simpl in Hz. destruct (sh_next _ _ Hs y z Hz). split; intros ->; lia.
      - apply Hin; assumption. }
    intros [] pm2 G2. exists (C - 1). unfold merge_next_list. rewrite Hxy.
    apply Z.eqb_eq in Hay. rewrite Hay. exact G2.
  - intros (G1 & -> & Hnf). gstep. exists C. unfold merge_next_list.
    destruct (next (nd H x)) as [y|] eqn:Ey; [|assumption].
    specialize (Hnf y eq_refl). apply Z.eqb_neq in Hnf. rewrite Hnf. assumption.
Qed.

Lemma merge_prev_body_gaps pm P H T U L C x p :
  core_is pm P H T U → gaps_is pm L C → prev (nd H x) = Some p → p ≠ x →
  (∀ z, next (nd H x) = Some z → z ≠ x ∧ z ≠ p) →
  NoDup (g_node <$> L) → Some p ∈ g_node <$> L → Some x ∈ g_node <$> L →
  Forall (gap_valid H) L →
  post (merge_prev_body (Some x)) pm
       (λ _ pm',
          gaps_is pm'
            (mk_gap (u64 (a_size (alloc_record (nd H x)) + a_size (alloc_record (nd H p))))
                    (Some p)
               :: without (Some x) (without (Some p) L))
            (C - 1 - 1)).
Proof.
  intros C0 G0 Hxp Hne Hz Hnd Hp Hx Hv. unfold merge_prev_body.
  gsteps.
  eapply gs_remove; [eassumption|eassumption|assumption|assumption|].
  intros pm1 C1 G1.
  gsteps.
  eapply gs_remove; [eassumption|eassumption| | |].
  { apply nodup_without. assumption. }
  { apply list_elem_of_fmap in Hx as (g & Eg & Hg). apply list_elem_of_fmap.
    exists g. split; [assumption|]. apply elem_of_without. split; [assumption|].
    rewrite <- Eg. congruence. }
  intros pm2 C2 G2.
  gsteps.
  destruct (next (nd H x)) as [z|] eqn:Ez.
  - destruct (Hz z eq_refl) as [Hzx Hzy]. gsteps.
    eapply gs_add; [eassumption|eassumption| | |].
    { eapply Forall_impl; [apply valid_without, valid_without, Hv|].
      intros g. apply gap_valid_len. rewrite !length_insert. reflexivity. }
    { exists p. split; [reflexivity|]. rewrite !length_insert. assumption. }
    intros pmz Cz Gz. gsteps. assumption.
  - gsteps.
    eapply gs_add; [eassumption|eassumption| | |].
    { eapply Forall_impl; [apply valid_without, valid_without, Hv|].
      intros g. apply gap_valid_len. rewrite !length_insert. reflexivity. }
    { exists p. split; [reflexivity|]. rewrite !length_insert. assumption. }
    intros pmz Cz Gz. gsteps. assumption.
Qed.

Lemma merge_prev_gaps pm P H T U L C x r :
  core_is pm P H T U → gaps_is pm L C → shape (nd H) r →
  NoDup (g_node <$> L) → Some x ∈ g_node <$> L → Forall (gap_valid H) L →
  (∀ p, prev (nd H x) = Some p → allocated (nd H p) = 0 → Some p ∈ g_node <$> L) →
  post (merge_prev (Some x)) pm
       (λ _ pm', ∃ C', gaps_is pm' (merge_prev_list x (nd H) L) C').
Proof.
  intros C0 G0 Hs Hnd Hx Hv Hin. unfold merge_prev. gstep. gstep. gstep.
  eapply post_mono; [eapply is_gap_gaps; eassumption|].
  intros [] pm1.
  - intros (G1 & p & Hxp & Lp & Hap & C1).
    pose proof (sh_prev _ _ Hs p x Hxp) as Hpx.
    destruct (sh_next _ _ Hs p x Hpx) as [_ Hr].
    assert (p ≠ x) by (intros ->; lia).
    set (H2 := <[p := set_used 1 (nd H p)]> H) in *.
    assert (E2 : ∀ j, nd H2 j = upd_v p (set_used 1) (nd H) j)
      by (intros j; apply nd_insert_upd; assumption).
    assert (Hxp2 : prev (nd H2 x) = Some p).
    { rewrite E2. unfold upd_v. rewrite decide_False by auto. exact Hxp. }
    eapply post_mono.
    { eapply merge_prev_body_gaps;
        [exact C1|exact G1|exact Hxp2|assumption| |exact Hnd| |exact Hx|].
      - intros z Hz. rewrite E2 in Hz. unfold upd_v in Hz.
        rewrite decide_False in Hz by auto.
        destruct (sh_next _ _ Hs x z Hz). split; intros ->; lia.
      - apply Hin; assumption.
      - eapply Forall_impl; [exact Hv|]. intros g. apply gap_valid_len.
        unfold H2. rewrite length_insert. reflexivity. }
    intros st pm2 G2. exists (C - 1 - 1). unfold merge_prev_list. rewrite Hxp.
    apply Z.eqb_eq in Hap. rewrite Hap.
    rewrite !E2 in G2. unfold upd_v in G2.
    rewrite decide_False, decide_True in G2 by auto. exact G2.
  - intros (G1 & -> & Hnf). gstep. exists C. unfold merge_prev_list.
    destruct (prev (nd H x)) as [y|] eqn:Ey; [|assumption].
    specialize (Hnf y eq_refl). apply Z.eqb_neq in Hnf. rewrite Hnf. assumption.
Qed.

Lemma split_node_gaps junk size rem s u pm P H T U L C :
  core_is pm P H T U → gaps_is pm L C →
  scan (λ n, Some (used n =? 0)) H 0 T = Hit u →
  u ≠ s → (u < length H)%nat →
  (∀ t, next (nd H s) = Some t → t ≠ u ∧ t ≠ s) →
  Forall (gap_valid H) L →
  post (split_node junk size rem (Some s)) pm
       (λ p pm', p = Some s ∧ gaps_is pm' (mk_gap rem (Some u) :: L) C).
Proof.
  intros C0 G0 Hscan Hus Lu Ht Hv. unfold split_node. gstep. gstep.
  destruct C0 as (EP & EH & ET & EU). rewrite EH, ET, Hscan.
  assert (C0 : core_is pm P H T U) by (repeat split; assumption).
  unfold found_or. gsteps.
  destruct (next (nd H s)) as [t|] eqn:Es.
  - destruct (Ht t eq_refl) as [Htu Hts].
    gsteps.
    eapply gs_add; [eassumption|eassumption| | |].
    { eapply Forall_impl; [exact Hv|].
      intros g. apply gap_valid_len. rewrite !length_insert. reflexivity. }
    { exists u. split; [reflexivity|]. rewrite !length_insert. assumption. }
    intros pmz Cz Gz. gsteps. split; [reflexivity|assumption].
  - gsteps.
    eapply gs_add; [eassumption|eassumption| | |].
    { eapply Forall_impl; [exact Hv|].
      intros g. apply gap_valid_len. rewrite !length_insert. reflexivity. }
    { exists u. split; [reflexivity|]. rewrite !length_insert. assumption. }
    intros pmz Cz Gz. gsteps. split; [reflexivity|assumption].
Qed.

Lemma alloc_gaps junk size pm L C :
  Inv pm → 0 ≤ size → gaps_is pm L C →
  NoDup (g_node <$> L) → Forall (gap_valid (node_heap pm)) L →
  (∀ s, select_node size pm = Ret (Some s) pm → Some s ∈ g_node <$> L) →
  post (mem_new_alloc junk size) pm
       (λ p pm',
          ∀ s, p = Some s →
               ∃ u C',
                 (u64 (a_size (alloc_record (nd (node_heap pm) s)) - size) ≠ 0 →
                  first_unused (nd (node_heap pm)) u) ∧
                 gaps_is pm' (alloc_list size s u (nd (node_heap pm)) L) C').
Proof.
  intros HI Hsz G0 Hnd Hv Hin.
  pose proof HI as [Hlen Htot [r Hs] Hna Hcnt Hctr [Hr1 Hr2] Hmem].
  unfold mem_new_alloc. gstep. gstep.
  destruct (num_gaps (pool pm) =? 0) eqn:Eg; [gstep; discriminate|].
  destruct (total_nodes pm <=? used_nodes pm) eqn:Efull; [gstep; discriminate|].
  apply Z.leb_gt in Efull.
  gstep. apply post_intro. intros p pm1 Esel.
  destruct (post_elim _ _ _ _ _ (select_node_post size pm) Esel) as [-> Hsel].
  destruct p as [s|]; [|gstep; discriminate].
  destruct (Hsel s eq_refl) as (Ls & Has & Hfit). clear Hsel.
  specialize (Hin s Esel).
  pose proof (core_is_intro pm) as C0. rewrite Hcnt in C0.
  set (H := node_heap pm) in *. set (P := pool pm) in *.
  gsteps.
  eapply gs_remove; [eassumption|eassumption|assumption|assumption|].
  intros pmr Cr Gr.
  gstep. gstep. gstep. gstep.
  cbv beta iota zeta. current Cc Gc.
  rewrite list_insert_insert_eq in Cc.
  set (H1 := <[s := set_size size (set_allocated 1 (nd H s))]> H) in *.
  assert (Ht : touch (nd H) (nd H1)).
  { apply touch_insert; auto; simpl; try tauto.
    intros Hu. destruct (sh_unused _ _ Hs s Hu) as (_&_&Hz). lia. }
  assert (Hs1 : shape (nd H1) r) by (eapply shape_touch; eauto).
  assert (Hc1 : count_used H1 = count_used H).
  { apply count_same; [apply length_insert|]. intros j. apply Ht. }
  assert (Hl1 : length H1 = 40%nat) by (unfold H1; rewrite length_insert; assumption).
  unfold alloc_list.
  destruct (u64 (a_size (alloc_record (nd H s)) - size) =? 0) eqn:Erem.
  - gstep. intros s' [= <-]. exists 0%nat, (C - 1). apply Z.eqb_eq in Erem.
    split; [intros; contradiction|]. rewrite Erem. simpl. assumption.
  - apply Z.eqb_neq in Erem.
    assert (Hus : used (nd H s) ≠ 0).
    { intros Hu. destruct (sh_unused _ _ Hs s Hu) as (_&_&Hz). rewrite Hz in *.
      apply Erem. replace size with 0 by lia. reflexivity. }
    destruct (scan (λ n, Some (used n =? 0)) H1 0 (total_nodes pm)) as [u| |] eqn:Escan.
    + destruct (scan_hit _ _ _ _ _ Escan) as (x & _ & Hx & Px & Hlow).
      rewrite Nat.sub_0_r in Hx, Hlow. injection Px as Px. apply Z.eqb_eq in Px.
      rewrite <- (nd_lookup _ _ _ Hx) in Px.
      assert (Lu : (u < length H1)%nat) by (apply lookup_lt_is_Some_1; eauto).
      assert (Hus1 : used (nd H1 s) ≠ 0) by (destruct (Ht s) as (_&_&Hu&_); tauto).
      assert (u ≠ s) by (intros ->; congruence).
      destruct (sh_unused _ _ Hs1 u Px) as (Hun & Hup & _).
      eapply post_mono.
      { eapply split_node_gaps; [exact Cc|exact Gc|exact Escan|assumption|assumption| |].
        - intros t Ht'. destruct (sh_next _ _ Hs1 s t Ht'). split; intros ->; [congruence|lia].
        - eapply Forall_impl; [apply valid_without, Hv|].
          intros g. apply gap_valid_len. congruence. }
      intros p pmf [-> Gf] s' [= <-]. exists u, (C - 1).
      split.
      { intros _. split.
        - destruct (Ht u) as (_&_&Hu&_). tauto.
        - intros j Hj Huj.
          assert (Lj : (j < length H1)%nat) by lia.
          specialize (Hlow j (nd H1 j) Hj (lookup_nd _ _ Lj)).
          injection Hlow as Hlow. apply Z.eqb_neq in Hlow.
          destruct (Ht j) as (_&_&Hu&_). tauto. }
      apply Z.eqb_neq in Erem. rewrite Erem. exact Gf.
    + exfalso. pose proof (scan_miss _ _ _ _ Escan) as Hm.
      assert (count_used H1 = length H1).
      { apply count_full. intros j Hj.
        specialize (Hm j (nd H1 j) (lookup_nd _ _ Hj) ltac:(lia)).
        injection Hm as Hm. apply Z.eqb_neq in Hm. exact Hm. }
      lia.
    + unfold split_node. apply post_bind. apply post_intro. intros ? ? [= <- <-].
      destruct Cc as (EP & EH & ET & EU). rewrite EH, ET, Escan. exact I.
Qed.

(** ** Lists of entries *)

Lemma lists_on_ext (S S' : nat → Prop) v v' L :
  (∀ i, S i ↔ S' i) →
  (∀ i, S i → a_size (alloc_record (v' i)) = a_size (alloc_record (v i))) →
  lists_on S v L → lists_on S' v' L.
Proof.
  intros HS Hsz [Hnd HL]. split; [exact Hnd|]. intros g. rewrite HL. split.
  - intros (i & Hi & ->). exists i. split; [apply HS, Hi|].
    unfold free_entry. rewrite Hsz by assumption. reflexivity.
  - intros (i & Hi & ->). exists i. apply HS in Hi. split; [exact Hi|].
    unfold free_entry. rewrite Hsz by assumption. reflexivity.
Qed.

Lemma lists_on_node (S : nat → Prop) v L n :
  lists_on S v L → (Some n ∈ g_node <$> L ↔ S n).
Proof.
  intros [_ HL]. rewrite list_elem_of_fmap. split.
  - intros (g & Eg & Hg). apply HL in Hg as (i & Hi & ->). simpl in Eg.
    injection Eg as ->. exact Hi.
  - intros Hn. exists (free_entry v n). split; [reflexivity|]. apply HL. eauto.
Qed.

Lemma lists_on_without (S : nat → Prop) v L n :
  lists_on S v L → lists_on (λ i, S i ∧ i ≠ n) v (without (Some n) L).
Proof.
  intros [Hnd HL]. split; [apply nodup_without, Hnd|].
  intros g. rewrite elem_of_without, HL. split.
  - intros [(i & Hi & ->) Hne]. exists i. split; [|reflexivity].
    split; [exact Hi|]. simpl in Hne. congruence.
  - intros (i & [Hi Hne] & ->). split; [eauto|]. simpl. congruence.
Qed.

Lemma lists_on_cons (S : nat → Prop) v L n :
  lists_on S v L → ¬ S n → lists_on (λ i, S i ∨ i = n) v (free_entry v n :: L).
Proof.
  intros HL Hn. pose proof (lists_on_node S v L n HL) as Hnode.
  destruct HL as [Hnd HL]. split.
  - rewrite fmap_cons. apply NoDup_cons. split; [|exact Hnd]. simpl. tauto.
  - intros g. rewrite elem_of_cons, HL. split.
    + intros [->|(i & Hi & ->)]; eauto.
    + intros (i & [Hi| ->] & ->); eauto.
Qed.

Lemma lists_on_perm (S : nat → Prop) v L L' : L ≡ₚ L' → lists_on S v L → lists_on S v L'.
Proof.
  intros HP [Hnd HL]. split; [rewrite <- HP; exact Hnd|].
  intros g. rewrite <- HP. apply HL.
Qed.

Lemma free_in_range H i : free_in (nd H) i → (i < length H)%nat.
Proof.
  intros [Hu _]. destruct (decide (i < length H)%nat) as [|Hge]; [assumption|].
  rewrite nd_ge in Hu by lia. exfalso. apply Hu. reflexivity.
Qed.

Lemma lists_on_valid H (S : nat → Prop) L :
  lists_on S (nd H) L → (∀ i, S i → (i < length H)%nat) → Forall (gap_valid H) L.
Proof.
  intros [_ HL] HS. apply Forall_forall. intros g Hg.
  apply HL in Hg as (i & Hi & ->). exists i. split; [reflexivity|auto].
Qed.

(** ** The entries under a release *)

Lemma lists_mark x v L :
  allocated (v x) ≠ 0 →
  lists_on (free_in v) v L →
  lists_on (λ j, j ≠ x ∧ free_in (upd_v x (set_allocated 0) v) j)
           (upd_v x (set_allocated 0) v) L.
Proof.
  intros Hx. apply lists_on_ext.
  - intros i. unfold free_in. destruct (decide (i = x)) as [->|Hne].
    + tauto.
    + rewrite upd_other by assumption. tauto.
  - intros i [_ Hi]. destruct (decide (i = x)) as [->|Hne]; [contradiction|].
    rewrite upd_other by assumption. reflexivity.
Qed.

Lemma lists_merge_next x v r L :
  shape v r →
  lists_on (λ j, j ≠ x ∧ free_in v j) v L →
  lists_on (λ j, j ≠ x ∧ free_in (merge_next_v x v) j) (merge_next_v x v)
           (merge_next_list x v L).
Proof.
  intros Hs HL. unfold merge_next_v, merge_next_list.
  destruct (next (v x)) as [y|] eqn:Exy; [|exact HL].
  destruct (allocated (v y) =? 0) eqn:Ea; [|exact HL].
  destruct (sh_next _ _ Hs x y Exy) as [_ Hr].
  assert (Hxy : x ≠ y) by (intros ->; lia).
  pose proof (lists_on_without _ _ _ y HL) as HL1.
  eapply lists_on_ext; [| |exact HL1].
  - intros i. simpl. unfold free_in. destruct (decide (i = y)) as [->|Hiy].
    + rewrite absorb_at_b. simpl. tauto.
    + destruct (decide (i = x)) as [->|Hix]; [tauto|].
      destruct (absorb_other x y
                  (u64 (a_size (alloc_record (v x)) + a_size (alloc_record (v y))))
                  (upd_v y (set_used 1) v) i Hix Hiy) as (_ & -> & ->).
      rewrite upd_other by assumption. tauto.
  - intros i [[Hix _] Hiy].
    destruct (absorb_other x y
                (u64 (a_size (alloc_record (v x)) + a_size (alloc_record (v y))))
                (upd_v y (set_used 1) v) i Hix Hiy) as (-> & _).
    rewrite upd_other by assumption. reflexivity.
Qed.

Lemma free_merge_next x v r :
  shape v r → free_in v x → free_in (merge_next_v x v) x.
Proof.
  intros Hs [Hu Ha]. unfold merge_next_v.
  destruct (next (v x)) as [y|] eqn:Exy; [|split; assumption].
  destruct (allocated (v y) =? 0); [|split; assumption].
  destruct (sh_next _ _ Hs x y Exy) as [_ Hr].
  assert (Hxy : x ≠ y) by (intros ->; lia).
  destruct (absorb_at_a x y (u64 (a_size (alloc_record (v x)) + a_size (alloc_record (v y))))
              (upd_v y (set_used 1) v) Hxy) as (Eu & _ & _ & Eal).
  split; [rewrite Eu|rewrite Eal]; rewrite upd_other by assumption; assumption.
Qed.

Lemma lists_add x v L :
  free_in v x →
  lists_on (λ j, j ≠ x ∧ free_in v j) v L →
  lists_on (free_in v) v (free_entry v x :: L).
Proof.
  intros Hx HL. pose proof (lists_on_cons _ _ _ x HL ltac:(tauto)) as HL1.
  eapply lists_on_ext; [| |exact HL1].
  - intros i. simpl. destruct (decide (i = x)) as [->|]; tauto.
  - reflexivity.
Qed.

Lemma lists_merge_prev x v r L :
  shape v r →
  lists_on (free_in v) v L →
  lists_on (free_in (merge_prev_v x v)) (merge_prev_v x v) (merge_prev_list x v L).
Proof.
  intros Hs HL. unfold merge_prev_v, merge_prev_list.
  destruct (prev (v x)) as [p|] eqn:Exp; [|exact HL].
  destruct (allocated (v p) =? 0) eqn:Ea; [|exact HL].
  apply Z.eqb_eq in Ea.
  pose proof (sh_prev _ _ Hs p x Exp) as Hpx.
  destruct (sh_next _ _ Hs p x Hpx) as [_ Hr].
  assert (Hne : p ≠ x) by (intros ->; lia).
  set (sz := u64 (a_size (alloc_record (v x)) + a_size (alloc_record (v p)))).
  set (v' := absorb_v p x sz (upd_v p (set_used 1) v)).
  destruct (absorb_at_a p x sz (upd_v p (set_used 1) v) Hne) as (Eu & Esz & _ & Eal).
  rewrite upd_same in Eu, Eal. simpl in Eu, Eal. fold v' in Eu, Esz, Eal.
  assert (Hother : ∀ i, i ≠ p → i ≠ x →
            alloc_record (v' i) = alloc_record (v i) ∧
            allocated (v' i) = allocated (v i) ∧ used (v' i) = used (v i)).
  { intros i Hip Hix.
    destruct (absorb_other p x sz (upd_v p (set_used 1) v) i Hip Hix) as (E1 & E2 & E3).
    fold v' in E1, E2, E3. rewrite upd_other in E1, E2, E3 by assumption. auto. }
  assert (Hx' : used (v' x) = 0) by (unfold v'; rewrite absorb_at_b; reflexivity).
  pose proof (lists_on_without _ _ _ x (lists_on_without _ _ _ p HL)) as HL2.
  assert (HL3 : lists_on (λ i, (free_in v i ∧ i ≠ p) ∧ i ≠ x) v'
                         (without (Some x) (without (Some p) L))).
  { eapply lists_on_ext; [| |exact HL2].
    - reflexivity.
    - intros i [[_ Hip] Hix]. destruct (Hother i Hip Hix) as (-> & _). reflexivity. }
  pose proof (lists_on_cons _ _ _ p HL3 ltac:(tauto)) as HL4.
  replace (free_entry v' p) with (mk_gap sz (Some p)) in HL4
    by (unfold free_entry; rewrite Esz; reflexivity).
  eapply lists_on_ext; [| |exact HL4].
  - intros i. simpl. unfold free_in.
    destruct (decide (i = p)) as [->|Hip].
    + rewrite Eu, Eal. split; [intros _; split; [lia|exact Ea]|tauto].
    + destruct (decide (i = x)) as [->|Hix].
      * rewrite Hx'. tauto.
      * destruct (Hother i Hip Hix) as (_ & -> & ->). tauto.
  - reflexivity.
Qed.

(** ** The entries under an allocation *)

Lemma lists_alloc size s u v L :
  (u64 (a_size (alloc_record (v s)) - size) ≠ 0 → u ≠ s ∧ used (v u) = 0) →
  lists_on (free_in v) v L →
  lists_on (free_in (alloc_v size s u v)) (alloc_v size s u v) (alloc_list size s u v L).
Proof.
  intros Hu HL. pose proof (lists_on_without _ _ _ s HL) as HL1.
  assert (Hsel : (u64 (a_size (alloc_record (v s)) - size) ≠ 0 → u ≠ s))
    by (intros E; apply (Hu E)).
  destruct (alloc_v_selected size s u v Hsel) as (Eal & _ & _ & _).
  unfold alloc_list. cbv zeta.
  destruct (u64 (a_size (alloc_record (v s)) - size) =? 0) eqn:Erem.
  - apply Z.eqb_eq in Erem.
    eapply lists_on_ext; [| |exact HL1].
    + intros i. simpl. unfold free_in. destruct (decide (i = s)) as [->|His].
      * rewrite Eal. split; [tauto|]. intros [_ H1]. discriminate.
      * destruct (alloc_v_rest size s u v i His ltac:(intros; contradiction))
          as (_ & -> & ->). tauto.
    + intros i [_ His].
      destruct (alloc_v_rest size s u v i His ltac:(intros; contradiction)) as (-> & _).
      reflexivity.
  - apply Z.eqb_neq in Erem. destruct (Hu Erem) as [Hus Huu].
    destruct (alloc_v_remainder size s u v Erem) as (Ru & Ra & Rs).
    assert (HL2 : lists_on (λ i, free_in v i ∧ i ≠ s) (alloc_v size s u v)
                           (without (Some s) L)).
    { eapply lists_on_ext; [| |exact HL1].
      - reflexivity.
      - intros i [[Hui _] His].
        assert (i ≠ u) by congruence.
        destruct (alloc_v_rest size s u v i His ltac:(auto)) as (-> & _). reflexivity. }
    assert (Hnu : ¬ (free_in v u ∧ u ≠ s)) by (unfold free_in; tauto).
    pose proof (lists_on_cons _ _ _ u HL2 Hnu) as HL3.
    replace (free_entry (alloc_v size s u v) u)
      with (mk_gap (u64 (a_size (alloc_record (v s)) - size)) (Some u)) in HL3
      by (unfold free_entry; rewrite Rs; reflexivity).
    eapply lists_on_ext; [| |exact HL3].
    + intros i. simpl. unfold free_in. destruct (decide (i = u)) as [->|Hiu].
      * rewrite Ru, Ra. split; [intros _; split; [lia|reflexivity]|tauto].
      * destruct (decide (i = s)) as [->|His].
        -- rewrite Eal. split; [tauto|]. intros [_ H1]. discriminate.
        -- destruct (alloc_v_rest size s u v i His ltac:(auto)) as (_ & -> & ->). tauto.
    + reflexivity.
Qed.

Lemma lists_on_view v v' L :
  (∀ j, v' j = v j) → lists_on (free_in v) v L → lists_on (free_in v') v' L.
Proof.
  intros E. apply lists_on_ext.
  - intros i. unfold free_in. rewrite E. tauto.
  - intros i _. rewrite E. reflexivity.
Qed.

Lemma lists_on_view_but x v v' L :
  (∀ j, v' j = v j) →
  lists_on (λ j, j ≠ x ∧ free_in v j) v L → lists_on (λ j, j ≠ x ∧ free_in v' j) v' L.
Proof.
  intros E. apply lists_on_ext.
  - intros i. unfold free_in. rewrite E. tauto.
  - intros i _. rewrite E. reflexivity.
Qed.

Lemma gaps_is_self pm L C :
  gaps_is pm L C → gaps_is pm (live_gaps pm) (gap_ix_capacity pm).
Proof.
  intros (HP & Hng & Hcap & Hlen & HC & Hor).
  pose proof (Permutation_length HP) as El.
  split; [reflexivity|]. split; [lia|]. split; [reflexivity|]. split; [exact Hlen|].
  split; [lia|]. rewrite El, Hcap. exact Hor.
Qed.

Lemma index_ok_intro pm L C :
  gaps_is pm L C → lists_on (free_in (nd (node_heap pm))) (nd (node_heap pm)) L →
  gap_index_ok pm.
Proof.
  intros HG HL. split; [apply (gaps_is_self pm L C HG)|].
  destruct HG as (HP & _). apply (lists_on_perm _ _ L); [symmetry; exact HP|exact HL].
Qed.

Lemma del_gaps junk alloc pm x :
  Inv pm → gap_index_ok pm →
  del_target junk alloc pm = Ret (Some x) pm →
  used (nd (node_heap pm) x) ≠ 0 → allocated (nd (node_heap pm) x) ≠ 0 →
  post (mem_del_alloc junk alloc) pm (λ _ pm', gap_index_ok pm').
Proof.
  intros HI [G0 HL0] Htg Hux Halx.
  pose proof HI as [Hlen Htot [r Hs] Hna Hcnt Hctr [Hr1 Hr2] Hmem].
  unfold mem_del_alloc. gstep.
  apply post_intro. intros a pm0 Hra.
  assert (pm0 = pm) as -> by (apply (post_elim _ _ _ _ _ (read_alloc_post alloc pm) Hra)).
  gstep. gstep. gstep.
  apply post_intro. intros ntd pm0 Hfo.
  assert (pm0 = pm) as ->.
  { destruct (post_elim _ _ _ _ _ (found_or_post _ _ pm) Hfo) as [-> _]. reflexivity. }
  assert (Htgt : del_target junk alloc pm = Ret ntd pm).
  { unfold del_target, bind, get. rewrite Hra. exact Hfo. }
  rewrite Htg in Htgt. injection Htgt as <-. clear Hfo Hra.
  pose proof (core_is_intro pm) as C0. rewrite Hcnt in C0.
  set (H := node_heap pm) in *. set (P := pool pm) in *.
  set (L := live_gaps pm) in *. set (cap := gap_ix_capacity pm) in *.
  gstep. gstep.
  set (H1 := <[x := set_allocated 0 (nd H x)]> H) in *.
  assert (E1 : ∀ j, nd H1 j = upd_v x (set_allocated 0) (nd H) j)
    by (intros j; apply nd_insert_upd; assumption).
  assert (Ht : touch (nd H) (nd H1)).
  { apply touch_insert; auto; simpl; tauto. }
  assert (Hs1 : shape (nd H1) r) by (eapply shape_touch; eauto).
  assert (Hna1 : noadj_but x (nd H1)).
  { eapply noadj_mark; [| |exact Hna].
    - intros j. apply Ht.
    - intros j Hj. unfold H1. rewrite nd_insert, decide_False by assumption. reflexivity. }
  assert (Hax : allocated (nd H1 x) = 0).
  { unfold H1. rewrite nd_insert, decide_True by auto. reflexivity. }
  assert (Hux1 : used (nd H1 x) ≠ 0).
  { unfold H1. rewrite nd_insert, decide_True by auto. exact Hux. }
  assert (Hc1 : count_used H1 = count_used H).
  { apply count_same; [apply length_insert|]. intros j. apply Ht. }
  assert (Hl1 : length H1 = 40%nat) by (unfold H1; rewrite length_insert; assumption).
  assert (HL1 : lists_on (λ j, j ≠ x ∧ free_in (nd H1) j) (nd H1) L).
  { apply (lists_on_view_but x (upd_v x (set_allocated 0) (nd H))); [exact E1|].
    apply lists_mark; assumption. }
  gsteps. current Cc Gc. rewrite <- Hc1 in Cc.
  eapply post_mono.
  { apply post_conj;
      [apply post_conj; [eapply merge_next_inv; eauto; lia|eapply merge_next_view; eauto]|].
    eapply merge_next_gaps; [exact Cc|exact Gc|exact Hs1|apply HL1|].
    intros y Hxy Hay. apply (lists_on_node _ _ _ y HL1).
    destruct (sh_next _ _ Hs1 x y Hxy) as [_ Hr].
    split; [intros ->; lia|]. split; [|exact Hay].
    apply (linked_used _ _ _ _ Hs1 Hxy). }
  intros [] pm3 [[(P2 & H2 & C3 & Hl2 & Hs2 & Hna2 & Hax2 & Hnx2 & Hp2) (H2' & EH2 & Hv2)]
                  (C2 & G3)].
  assert (H2' = H2) as -> by (destruct C3 as (_ & ? & _); congruence).
  assert (HL2 : lists_on (λ j, j ≠ x ∧ free_in (nd H2) j) (nd H2)
                         (merge_next_list x (nd H1) L)).
  { apply (lists_on_view_but x (merge_next_v x (nd H1))); [exact Hv2|].
    apply (lists_merge_next x (nd H1) r); assumption. }
  assert (Hfx : free_in (nd H2) x).
  { unfold free_in. rewrite Hv2.
    apply (free_merge_next x (nd H1) r Hs1). split; assumption. }
  gsteps.
  eapply gs_add; [exact C3|exact G3| | |].
  { apply (lists_on_valid H2 _ _ HL2). intros i [_ Hi]. apply (free_in_range _ _ Hi). }
  { exists x. split; [reflexivity|]. apply (free_in_range _ _ Hfx). }
  intros pm4 C4 G4.
  pose proof (lists_add x (nd H2) _ Hfx HL2) as HL3.
  eapply post_mono.
  { apply post_conj; [eapply merge_prev_view; eauto|].
    eapply merge_prev_gaps; [exact C4|exact G4|exact Hs2|apply HL3| | |].
    - apply (lists_on_node _ _ _ x HL3). exact Hfx.
    - apply (lists_on_valid H2 _ _ HL3). intros i Hi. apply (free_in_range _ _ Hi).
    - intros p Hxp Hap. apply (lists_on_node _ _ _ p HL3).
      split; [|exact Hap].
      apply (linked_used _ _ _ _ Hs2 (sh_prev _ _ Hs2 p x Hxp)). }
  intros st pmf [(H4 & EH4 & Hv4) (Cf & Gf)].
  apply (index_ok_intro pmf _ Cf Gf). rewrite EH4.
  apply (lists_on_view (merge_prev_v x (nd H2))); [exact Hv4|].
  apply (lists_merge_prev x (nd H2) r); assumption.
Qed.

Lemma first_unused_unique v u u' : first_unused v u → first_unused v u' → u = u'.
Proof.
  intros [Hu Hlow] [Hu' Hlow'].
  destruct (Nat.lt_trichotomy u u') as [Hlt|[Heq|Hgt]]; [|exact Heq|].
  - destruct (Hlow' u Hlt Hu).
  - destruct (Hlow u' Hgt Hu').
Qed.

Lemma alloc_list_same size s u u' v L :
  u64 (a_size (alloc_record (v s)) - size) = 0 →
  alloc_list size s u v L = alloc_list size s u' v L.
Proof. intros E. unfold alloc_list. rewrite E. reflexivity. Qed.

Lemma alloc_index junk size pm p pm' :
  Inv pm → gap_index_ok pm → 0 < size →
  mem_new_alloc junk size pm = Ret p pm' → gap_index_ok pm'.
Proof.
  intros HI HG Hsz Ha. pose proof HG as [G0 HL0].
  destruct (inv_shape _ HI) as [r Hs].
  assert (Hsel : ∀ s, select_node size pm = Ret (Some s) pm →
                      Some s ∈ g_node <$> live_gaps pm).
  { intros s Es.
    destruct (post_elim _ _ _ _ _ (select_node_post size pm) Es) as [_ H].
    destruct (H s eq_refl) as (_ & Hal & Hfit).
    apply (lists_on_node _ _ _ s HL0). split; [|exact Hal].
    intros Hu. destruct (sh_unused _ _ Hs s Hu) as (_ & _ & Hz). lia. }
  assert (Hv : Forall (gap_valid (node_heap pm)) (live_gaps pm)).
  { apply (lists_on_valid _ _ _ HL0). intros i Hi. apply (free_in_range _ _ Hi). }
  pose proof (post_conj _ _ _ _
                (alloc_view junk size pm HI ltac:(lia))
                (alloc_gaps junk size pm _ _ HI ltac:(lia) G0 (proj1 HL0) Hv Hsel)) as Hpost.
  destruct (post_elim _ _ _ _ _ Hpost Ha) as [[HI' Hview] Hgaps].
  destruct p as [s|]; [|destruct Hview as [-> _]; exact HG].
  destruct Hview as (_ & _ & _ & _ & _ & _ & u & Hu & Hv' & _).
  destruct (Hgaps s eq_refl) as (u' & C' & Hu' & G').
  assert (El : alloc_list size s u' (nd (node_heap pm)) (live_gaps pm)
               = alloc_list size s u (nd (node_heap pm)) (live_gaps pm)).
  { destruct (decide (u64 (a_size (alloc_record (nd (node_heap pm) s)) - size) = 0))
      as [E|E]; [apply alloc_list_same, E|].
    rewrite (first_unused_unique _ u u' (proj2 (Hu E)) (Hu' E)). reflexivity. }
  rewrite El in G'.
  apply (index_ok_intro pm' _ C' G').
  apply (lists_on_view (alloc_v size s u (nd (node_heap pm)))); [exact Hv'|].
  apply lists_alloc; [|exact HL0].
  intros E. destruct (Hu E) as [Hus [Huu _]]. split; [|exact Huu]. congruence.
Qed.

Lemma free_index junk alloc pm st pm' x :
  Inv pm → gap_index_ok pm →
  del_target junk alloc pm = Ret (Some x) pm →
  used (nd (node_heap pm) x) ≠ 0 → allocated (nd (node_heap pm) x) ≠ 0 →
  mem_del_alloc junk alloc pm = Ret st pm' → gap_index_ok pm'.
Proof.
  intros HI HG Ht Hu Hal Hd.
  apply (post_elim _ _ _ _ _ (del_gaps junk alloc pm x HI HG Ht Hu Hal) Hd).
Qed.

Lemma open_index size pol buf pm :
  mem_pool_open size pol buf = Some pm → gap_index_ok pm.
Proof.
  unfold mem_pool_open. destruct (buf =? 0); [discriminate|]. intros [= <-].
  apply (index_ok_intro _ [mk_gap size (Some 0%nat)] 40).
  - split; [reflexivity|]. split; [reflexivity|]. split; [reflexivity|].
    split; [reflexivity|]. split; [lia|]. left. simpl. lia.
  - split; [simpl; apply NoDup_singleton|].
    intros g. rewrite list_elem_of_singleton. split.
    + intros ->. exists 0%nat. split; [|reflexivity]. split; simpl; [lia|reflexivity].
    + intros (i & [Hu Ha] & ->).
      assert (i = 0%nat) as ->; [|reflexivity].
      destruct i; [reflexivity|]. exfalso. apply Hu.
      unfold nd. cbn [node_heap new_pool_mgr]. rewrite list_lookup_insert_ne by lia.
      destruct (replicate _ _ !! S i) as [n|] eqn:E; [|reflexivity].
      apply lookup_replicate in E as [-> _]. reflexivity.
Qed.

Lemma disciplined_index pm : disciplined pm → gap_index_ok pm.
Proof.
  induction 1 as [size pol buf pm Hs Hb He Ho|junk size pm p pm' Hd IH Hsz Ha
                  |junk i n pm st pm' Hd IH Hi Hl Hdel].
  - apply (open_index _ _ _ _ Ho).
  - pose proof (disciplined_books pm Hd) as Hk.
    apply (alloc_index junk size pm p pm' (reachable_inv _ (kb_reach _ Hk)) IH
             (proj1 Hsz) Ha).
  - pose proof (disciplined_books pm Hd) as Hk.
    assert (En : nd (node_heap pm) i = n) by (apply nd_lookup, Hi).
    apply is_live_spec in Hl as [Hu Hal]. rewrite <- En in Hu, Hal.
    apply (free_index junk (InHeap i) pm st pm' i (reachable_inv _ (kb_reach _ Hk)) IH);
      [|assumption|assumption|assumption].
    apply (target_is_handle junk pm i n Hk Hi). apply is_live_spec.
    rewrite <- En. auto.
Qed.

Lemma is_gap_node_spec n : is_gap_node n = true ↔ used n ≠ 0 ∧ allocated n = 0.
Proof.
  unfold is_gap_node. rewrite andb_true_iff, negb_true_iff, Z.eqb_neq, Z.eqb_eq. tauto.
Qed.

Lemma free_in_lookup H i :
  free_in (nd H) i ↔ ∃ n, H !! i = Some n ∧ is_gap_node n = true.
Proof.
  split.
  - intros Hf. pose proof (free_in_range _ _ Hf) as Hi.
    exists (nd H i). split; [apply lookup_nd, Hi|]. apply is_gap_node_spec. exact Hf.
  - intros (n & Hn & Hg). unfold free_in. rewrite (nd_lookup _ _ _ Hn).
    apply is_gap_node_spec. exact Hg.
Qed.

Lemma index_lists pm :
  gap_index_ok pm →
  NoDup (g_node <$> live_gaps pm) ∧
  (∀ g, g ∈ live_gaps pm ↔
        ∃ i n, node_heap pm !! i = Some n ∧ is_gap_node n = true ∧
               g = mk_gap (a_size (alloc_record n)) (Some i)) ∧
  num_gaps (pool pm) = Z.of_nat (length (live_gaps pm)) ∧
  (num_gaps (pool pm) ≤ gap_ix_capacity pm ≤ 40 ∨
   (gap_ix_capacity pm = 0 ∧ num_gaps (pool pm) = 1)).
Proof.
  intros [(_ & Hng & _ & _ & HC & Hor) [Hnd HL]].
  split; [exact Hnd|]. split; [|split; [exact Hng|]].
  - intros g. rewrite HL. split.
    + intros (i & Hi & ->). apply free_in_lookup in Hi as (n & Hn & Hg).
      exists i, n. split; [exact Hn|]. split; [exact Hg|].
      unfold free_entry. rewrite (nd_lookup _ _ _ Hn). reflexivity.
    + intros (i & n & Hn & Hg & ->). exists i. split; [apply free_in_lookup; eauto|].
      unfold free_entry. rewrite (nd_lookup _ _ _ Hn). reflexivity.
  - rewrite Hng. destruct Hor as [H1|[H1 H2]]; [left; lia|right; lia].
Qed.

Lemma select_none_no_room size pm :
  gap_index_ok pm → Inv pm →
  select_node size pm = Ret None pm →
  ∀ i n, node_heap pm !! i = Some n → is_gap_node n = true →
         a_size (alloc_record n) < size.
Proof.
  intros HG HI Hsel i n Hn Hg.
  apply is_gap_node_spec in Hg as [Hu Ha].
  assert (Hi : (i < 40)%nat).
  { rewrite <- (inv_len _ HI). apply lookup_lt_is_Some_1. eauto. }
  assert (Htest : first_fit_test size n = Some false → a_size (alloc_record n) < size).
  { unfold first_fit_test. rewrite Ha. simpl. intros [= E]. apply Z.leb_gt in E. exact E. }
  unfold select_node, bind, get in Hsel.
  destruct (policy (pool pm)).
  - destruct (scan _ _ _ _) as [k| |] eqn:Es; simpl in Hsel; try discriminate.
    apply Htest. apply (scan_miss _ _ _ _ Es i n Hn).
    rewrite (inv_total _ HI). lia.
  - destruct (scan _ _ _ _) as [k| |] eqn:Es; try discriminate.
    + exfalso. unfold gap_at in Hsel. destruct (in_array _ _); [|discriminate].
      destruct (scan_hit _ _ _ _ _ Es) as (g & _ & Hk & Hb & _).
      rewrite Nat.sub_0_r in Hk. rewrite Nat2Z.id, Hk in Hsel.
      unfold ret in Hsel. injection Hsel as Hnone.
      unfold best_fit_test in Hb. rewrite Hnone in Hb. discriminate.
    + pose proof (scan_miss _ _ _ _ Es) as Hall.
      destruct HG as [_ [_ HL]].
      assert (Hin : free_entry (nd (node_heap pm)) i ∈ live_gaps pm).
      { apply HL. exists i. split; [|reflexivity]. unfold free_in.
        rewrite (nd_lookup _ _ _ Hn). auto. }
      apply list_elem_of_lookup in Hin as [k Hk]. unfold live_gaps in Hk.
      pose proof (lookup_lt_Some _ _ _ Hk) as Hlt. rewrite length_take in Hlt.
      rewrite lookup_take_lt in Hk by lia.
      specialize (Hall k _ Hk ltac:(lia)).
      unfold best_fit_test, free_entry in Hall. simpl in Hall. rewrite Hn in Hall.
      apply Htest, Hall.
Qed.

Lemma null_no_room junk size pm pm' :
  Inv pm → gap_index_ok pm → 0 < size →
  mem_new_alloc junk size pm = Ret None pm' →
  used_nodes pm = 40 ∨
  ∀ i n, node_heap pm !! i = Some n → is_gap_node n = true →
         a_size (alloc_record n) < size.
Proof.
  intros HI HG Hsz Ha.
  destruct (post_elim _ _ _ _ _ (alloc_view junk size pm HI ltac:(lia)) Ha)
    as [_ [_ [Hg|[Hfull|Hsel]]]].
  - right. intros i n Hn Hgap. exfalso.
    destruct (index_lists pm HG) as (_ & HL & Hng & _).
    assert (Hin : mk_gap (a_size (alloc_record n)) (Some i) ∈ live_gaps pm)
      by (apply HL; eauto).
    destruct (live_gaps pm); [apply elem_of_nil in Hin; exact Hin|].
    simpl in Hng. lia.
  - left. rewrite (inv_total _ HI) in Hfull.
    pose proof (count_le (node_heap pm)) as Hc. rewrite (inv_len _ HI) in Hc.
    rewrite (inv_count _ HI) in *. lia.
  - right. apply (select_none_no_room size pm HG HI Hsel).
Qed.

(** * Further properties of the code *)

(** Closed arithmetic facts, by evaluation. *)
Ltac by_compute := vm_compute; repeat split; first [reflexivity | discriminate | lia].

(** ** The pool store *)

(** X1: with both counters of the pool store below 2^23, once the fill
    test of [_mem_resize_pool_store] succeeds (with two pools or more
    registered), [mem_pool_open] is undefined: the store is reallocated to
    16 bytes, two pointers, and the new manager is written at index
    [pool_store_size], outside that block. *)
Theorem open_undefined_when_store_resizes fresh mgr size pol buf s :
  pool_store_size s < 2 ^ 23 → 0 ≤ pool_store_capacity s < 2 ^ 23 →
  pool_store s ≠ None →
  over_fill_factor (pool_store_size s) (pool_store_capacity s) = true →
  2 ≤ pool_store_size s →
  mgr ≠ 0 → buf ≠ 0 →
  mem_pool_open_store fresh mgr size pol buf s = None.
Proof. intros _ _. exact (open_store_resizing fresh mgr size pol buf s). Qed.

Lemma open_undefined_when_store_resizes_witness :
  mem_pool_open_store [] 8 100 FIRST_FIT 4096
    (mk_store (Some (replicate 20 0)) 16 20) = None.
Proof.
  apply open_undefined_when_store_resizes;
    [simpl; lia | simpl; lia | discriminate | reflexivity | simpl; lia | lia | lia].
Defined.

(** X2: after [mem_init] and any series of calls of [mem_pool_open] that
    returned a pool and of [mem_pool_close], [pool_store_size] is the
    number of pools opened so far, whatever was closed; it is at most 16;
    the store keeps its 20 entries and its capacity of 20, and the entries
    from [pool_store_size] on are NULL. *)
Theorem store_size_counts_opens n s :
  store_after n s →
  (n ≤ 16)%nat ∧
  pool_store_size s = Z.of_nat n ∧
  pool_store_capacity s = 20 ∧
  ∃ l, pool_store s = Some l ∧ length l = 20%nat ∧
       ∀ i, (n ≤ i < 20)%nat → l !! i = Some 0.
Proof. exact (store_after_inv n s). Qed.

Ltac opens n :=
  lazymatch n with
  | O => apply after_init
  | S ?k => eapply (after_open k _ [] 8 100 FIRST_FIT 4096);
            [opens k | vm_compute; reflexivity]
  end.

Lemma store_size_counts_opens_witness :
  ∃ s, store_after 2 s ∧ pool_store_size s = 2 ∧ pool_store_capacity s = 20.
Proof.
  eexists. split; [opens 2%nat|].
  match goal with
  | |- pool_store_size ?s = _ ∧ _ =>
      assert (Ha : store_after 2 s) by (opens 2%nat);
      destruct (store_size_counts_opens 2 s Ha) as (_ & E1 & E2 & _)
  end.
  split; [exact E1 | exact E2].
Defined.

(** X3: the seventeenth call of [mem_pool_open] after [mem_init] is
    undefined when its allocations succeed, even if every pool opened
    before has been closed: [mem_pool_close] never lowers
    [pool_store_size], and 16 / 20 exceeds the fill factor. *)
Theorem seventeenth_open_is_undefined s fresh mgr size pol buf :
  store_after 16 s → mgr ≠ 0 → buf ≠ 0 →
  mem_pool_open_store fresh mgr size pol buf s = None.
Proof.
  intros Ha Hmgr Hbuf.
  destruct (store_after_inv _ _ Ha) as (_ & Hsz & Hcap & l & El & _).
  apply open_store_resizing; try assumption.
  - rewrite El. discriminate.
  - rewrite Hsz, Hcap. reflexivity.
  - rewrite Hsz. lia.
Qed.

Lemma seventeenth_open_is_undefined_witness :
  ∃ s, store_after 16 s ∧ mem_pool_open_store [] 8 100 FIRST_FIT 4096 s = None.
Proof.
  eexists. split; [opens 16%nat|].
  apply seventeenth_open_is_undefined; [opens 16%nat | lia | lia].
Defined.

(** X4: opening a pool and closing it at once gives the pool store its
    entries back, the slot being NULL again, but leaves [pool_store_size]
    one higher: the slot is not used again.  ([mgr] is the address of the
    new manager, which no entry of the store holds.) *)
Theorem open_then_close_restores_entries n s fresh mgr size pol buf l :
  store_after n s → (n < 16)%nat →
  pool_store s = Some l → mgr ≠ 0 → buf ≠ 0 → mgr ∉ l →
  ∃ pm s1,
    mem_pool_open_store fresh mgr size pol buf s = Some (Some (mgr, pm), s1) ∧
    mem_pool_close_store mgr pm s1
    = Some (ALLOC_OK, released pm,
            mk_store (Some l) (pool_store_size s + 1) (pool_store_capacity s)).
Proof. exact (open_close_store n s fresh mgr size pol buf l). Qed.

Lemma open_then_close_restores_entries_witness :
  ∃ pm s1,
    mem_pool_open_store [] 8 100 FIRST_FIT 4096 (snd (mem_init true store_start))
    = Some (Some (8, pm), s1) ∧
    mem_pool_close_store 8 pm s1
    = Some (ALLOC_OK, released pm, mk_store (Some (replicate 20 0)) 1 20).
Proof.
  apply (open_then_close_restores_entries 0 (snd (mem_init true store_start))
           [] 8 100 FIRST_FIT 4096 (replicate 20 0)).
  - apply after_init.
  - lia.
  - reflexivity.
  - lia.
  - lia.
  - intros Hin. apply elem_of_replicate in Hin as [Hin _]. discriminate.
Defined.

(** X5: after [mem_init] and any series of successful opens and of closes,
    [mem_free] returns [ALLOC_OK] and puts the three variables back to
    their initial values, whether or not pools are still open. *)
Theorem free_resets_the_store n s :
  store_after n s → mem_free s = Some (ALLOC_OK, store_start).
Proof. exact (free_store n s). Qed.

Lemma free_resets_the_store_witness :
  ∃ s, store_after 1 s ∧ mem_free s = Some (ALLOC_OK, store_start).
Proof.
  eexists. split; [opens 1%nat|].
  apply (free_resets_the_store 1). opens 1%nat.
Defined.

(** ** The gap index *)

(** X6: with [num_gaps] and the recorded capacity below 2^23, whenever
    the fill test of [_mem_resize_gap_ix] succeeds, [_mem_add_to_gap_ix]
    is undefined: the index is reallocated to 16 bytes, one entry, and the
    function then writes at an index of 1 or more, in the zeroing loop or
    when it appends the new entry. *)
Theorem add_to_gap_ix_undefined_when_it_resizes size node pm :
  num_gaps (pool pm) < 2 ^ 23 → 0 ≤ gap_ix_capacity pm < 2 ^ 23 →
  over_fill_factor (num_gaps (pool pm)) (gap_ix_capacity pm) = true →
  _mem_add_to_gap_ix size node pm = Undef.
Proof. intros _ [Hcap _]. exact (add_resizing size node pm Hcap). Qed.

Lemma add_to_gap_ix_undefined_when_it_resizes_witness :
  _mem_add_to_gap_ix 10 (Some 1%nat)
    (with_gap_ix_capacity 1 (new_pool_mgr 100 FIRST_FIT 4096)) = Undef.
Proof.
  apply add_to_gap_ix_undefined_when_it_resizes; [by_compute | by_compute | reflexivity].
Defined.



(** X8: with [num_gaps] and the recorded capacity below 2^23, when the
    fill test fails, [num_gaps] is inside the array and every entry in
    use, like the new one, points into the node heap, [_mem_add_to_gap_ix]
    returns [ALLOC_OK]; the entries in use are then the new entry and
    those of before, in some order; [num_gaps] is one more, the capacity
    is the same and nothing else of the manager changes. *)
Theorem add_to_gap_ix_keeps_entries size node pm :
  num_gaps (pool pm) < 2 ^ 23 → 0 ≤ gap_ix_capacity pm < 2 ^ 23 →
  over_fill_factor (num_gaps (pool pm)) (gap_ix_capacity pm) = false →
  0 ≤ num_gaps (pool pm) < Z.of_nat (length (gap_ix pm)) →
  Z.of_nat (length (gap_ix pm)) ≤ 2 ^ 31 →
  Forall (gap_valid (node_heap pm)) (live_gaps pm) →
  gap_valid (node_heap pm) (mk_gap size node) →
  ∃ pm',
    _mem_add_to_gap_ix size node pm = Ret ALLOC_OK pm' ∧
    live_gaps pm' ≡ₚ mk_gap size node :: live_gaps pm ∧
    num_gaps (pool pm') = num_gaps (pool pm) + 1 ∧
    gap_ix_capacity pm' = gap_ix_capacity pm ∧
    length (gap_ix pm') = length (gap_ix pm) ∧
    gap_frame pm pm' 1.
Proof. intros _ _. exact (add_spec size node pm). Qed.

Lemma add_to_gap_ix_keeps_entries_witness :
  ∃ pm',
    _mem_add_to_gap_ix 0 (Some 1%nat) (new_pool_mgr 100 FIRST_FIT 4096) = Ret ALLOC_OK pm' ∧
    live_gaps pm' ≡ₚ [mk_gap 0 (Some 1%nat); mk_gap 100 (Some 0%nat)] ∧
    num_gaps (pool pm') = 2.
Proof.
  destruct (add_to_gap_ix_keeps_entries 0 (Some 1%nat) (new_pool_mgr 100 FIRST_FIT 4096))
    as (pm' & E1 & E2 & E3 & _).
  - by_compute.
  - by_compute.
  - reflexivity.
  - by_compute.
  - by_compute.
  - repeat constructor. exists 0%nat. split; [reflexivity | by_compute].
  - exists 1%nat. split; [reflexivity | by_compute].
  - exists pm'. split; [exact E1|]. split; [exact E2 | exact E3].
Defined.

(** X9: whenever [_mem_add_to_gap_ix] or [_mem_remove_from_gap_ix]
    returns, it returns [ALLOC_OK] and has left the node heap,
    [total_nodes], [used_nodes] and the pool record as they were, but for
    [num_gaps], which is one more, resp. one less (modulo 2^32), also
    when the node to remove has no entry. *)
Theorem gap_ix_functions_change_only_num_gaps size node pm st pm' :
  (_mem_add_to_gap_ix size node pm = Ret st pm' → st = ALLOC_OK ∧ gap_frame pm pm' 1) ∧
  (_mem_remove_from_gap_ix size node pm = Ret st pm' → st = ALLOC_OK ∧ gap_frame pm pm' (-1)).
Proof.
  split; intros E.
  - exact (post_elim _ _ _ _ _ (add_frame size node pm) E).
  - exact (post_elim _ _ _ _ _ (remove_frame size node pm) E).
Qed.

Lemma gap_ix_functions_change_only_num_gaps_witness :
  ∃ pm',
    _mem_remove_from_gap_ix 100 (Some 7%nat) (new_pool_mgr 100 FIRST_FIT 4096)
    = Ret ALLOC_OK pm' ∧
    gap_frame (new_pool_mgr 100 FIRST_FIT 4096) pm' (-1).
Proof.
  eval_as E (_mem_remove_from_gap_ix 100 (Some 7%nat) (new_pool_mgr 100 FIRST_FIT 4096)).
  match type of E with _ = Ret ?st ?s =>
    exists s; split; [exact E|];
    exact (proj2 (proj2 (gap_ix_functions_change_only_num_gaps 100 (Some 7%nat)
                           (new_pool_mgr 100 FIRST_FIT 4096) st s) E))
  end.
Defined.

(** ** The node heap of a pool *)

(** X10: in every reachable state the node heap has its 40 slots,
    [used_nodes] is the number of slots whose [used] flag is set, between
    1 and 40, and [num_allocs + num_gaps] equals it modulo 2^32. *)
Theorem counters_agree_with_node_heap pm :
  reachable pm →
  length (node_heap pm) = 40%nat ∧ total_nodes pm = 40 ∧
  used_nodes pm = Z.of_nat (count_used (node_heap pm)) ∧
  1 ≤ used_nodes pm ≤ 40 ∧
  (num_allocs (pool pm) + num_gaps (pool pm)) mod 2 ^ 32 = used_nodes pm.
Proof.
  intros Hr. destruct (reachable_inv pm Hr) as [Hlen Htot [r Hs] Hna Hcnt Hctr Hrng Hmem].
  assert (Hc : 1 ≤ used_nodes pm ≤ 40).
  { rewrite Hcnt. pose proof (count_le (node_heap pm)).
    pose proof (count_pos (node_heap pm) (proj1 (sh_head _ _ Hs))). lia. }
  repeat (split; [assumption || lia|]).
  unfold u32 in Hctr. revert Hctr. generalize (num_allocs (pool pm) + num_gaps (pool pm)).
  intros z Hz. Z.div_mod_to_equations. lia.
Qed.

Lemma counters_agree_with_node_heap_witness :
  ∃ pm,
    client [Alloc 10; Alloc 20; Free 0%nat] (new_pool_mgr 100 FIRST_FIT 4096) = Ret tt pm ∧
    used_nodes pm = 3 ∧
    (num_allocs (pool pm) + num_gaps (pool pm)) mod 2 ^ 32 = used_nodes pm.
Proof.
  run_client Hc Hr [Alloc 10; Alloc 20; Free 0%nat] (new_pool_mgr 100 FIRST_FIT 4096).
  match type of Hr with reachable ?s =>
    exists s; split; [exact Hc|]; split; [reflexivity|];
    exact (proj2 (proj2 (proj2 (proj2 (counters_agree_with_node_heap s Hr)))))
  end.
Defined.

(** X11: in every reachable state [next] and [prev] are inverse to each
    other, both ends of a link are slots in use, a slot out of use has no
    link and no bytes, slot 0 is in use and has no predecessor, and no walk
    along [next] meets a slot twice. *)
Theorem links_are_consistent pm :
  reachable pm →
  (∀ i j, next (nd (node_heap pm) i) = Some j ↔ prev (nd (node_heap pm) j) = Some i) ∧
  (∀ i j, next (nd (node_heap pm) i) = Some j →
          used (nd (node_heap pm) i) ≠ 0 ∧ used (nd (node_heap pm) j) ≠ 0) ∧
  (∀ i, used (nd (node_heap pm) i) = 0 →
        next (nd (node_heap pm) i) = None ∧ prev (nd (node_heap pm) i) = None ∧
        a_size (alloc_record (nd (node_heap pm) i)) = 0) ∧
  used (nd (node_heap pm) 0) ≠ 0 ∧ prev (nd (node_heap pm) 0) = None ∧
  (∀ fuel i, NoDup (chain fuel (nd (node_heap pm)) i)).
Proof.
  intros Hr. destruct (inv_shape _ (reachable_inv pm Hr)) as [r Hs].
  split; [|split; [|split; [|split; [|split]]]].
  - intros i j. split; [intros H; apply (sh_next _ _ Hs i j H)|apply (sh_prev _ _ Hs)].
  - intros i j. apply (linked_used _ _ _ _ Hs).
  - apply (sh_unused _ _ Hs).
  - apply (sh_head _ _ Hs).
  - apply (sh_head _ _ Hs).
  - intros fuel i. apply (chain_nodup _ _ Hs).
Qed.

Lemma links_are_consistent_witness :
  ∃ pm,
    client [Alloc 10; Alloc 20; Free 0%nat] (new_pool_mgr 100 FIRST_FIT 4096) = Ret tt pm ∧
    chain 41 (nd (node_heap pm)) 0 = [0; 1; 2]%nat ∧
    NoDup (chain 41 (nd (node_heap pm)) 0).
Proof.
  run_client Hc Hr [Alloc 10; Alloc 20; Free 0%nat] (new_pool_mgr 100 FIRST_FIT 4096).
  match type of Hr with reachable ?s =>
    exists s; split; [exact Hc|]; split; [reflexivity|];
    exact (proj2 (proj2 (proj2 (proj2 (proj2 (links_are_consistent s Hr))))) 41%nat 0%nat)
  end.
Defined.

(** X12: in every reachable state of a pool whose buffer address and size
    are 64-bit values, the blocks met from slot 0 along [next] partition
    the buffer: the first one starts at the buffer, each one starts where
    the one before ends, their sizes are not negative and add up to
    [total_size]; they are [used_nodes] many, and they are exactly the
    slots in use, each once. *)
Theorem blocks_partition_the_buffer pm :
  reachable pm →
  0 ≤ p_mem (pool pm) < 2 ^ 64 → 0 ≤ total_size (pool pm) < 2 ^ 64 →
  (∃ b rest, blocks pm = b :: rest ∧ a_mem (alloc_record b) = p_mem (pool pm)) ∧
  (∀ k a b, blocks pm !! k = Some a → blocks pm !! S k = Some b →
            a_mem (alloc_record b) = u64 (a_mem (alloc_record a) + a_size (alloc_record a))) ∧
  Forall (λ b, used b ≠ 0 ∧ 0 ≤ a_size (alloc_record b)) (blocks pm) ∧
  sum_list ((λ b, a_size (alloc_record b)) <$> blocks pm) = total_size (pool pm) ∧
  Z.of_nat (length (blocks pm)) = used_nodes pm ∧
  NoDup (block_slots pm) ∧
  (∀ i, i ∈ block_slots pm ↔ used (nd (node_heap pm) i) ≠ 0).
Proof.
  intros Hr Hbuf Htot.
  destruct (blocks_partition pm Hr Hbuf Htot) as (H1 & H2 & H3 & H4 & H5).
  destruct (block_slots_facts pm Hr Hbuf Htot) as (_ & _ & _ & _ & _ & H6 & H7 & _).
  auto 10.
Qed.

Lemma blocks_partition_the_buffer_witness :
  ∃ pm,
    client [Alloc 10; Alloc 20; Free 0%nat] (new_pool_mgr 100 FIRST_FIT 4096) = Ret tt pm ∧
    (segment_of <$> blocks pm) = [mk_segment 10 0; mk_segment 20 1; mk_segment 70 0] ∧
    sum_list ((λ b, a_size (alloc_record b)) <$> blocks pm) = total_size (pool pm).
Proof.
  run_client Hc Hr [Alloc 10; Alloc 20; Free 0%nat] (new_pool_mgr 100 FIRST_FIT 4096).
  match type of Hr with reachable ?s =>
    exists s; split; [exact Hc|]; split; [reflexivity|];
    refine (proj1 (proj2 (proj2 (proj2 (blocks_partition_the_buffer s Hr _ _)))));
    by_compute
  end.
Defined.

(** X13: in every reachable state of a pool whose buffer ends below the
    top of the address space, every slot in use is a block inside the
    buffer, and the blocks of two different slots in use do not overlap. *)
Theorem blocks_do_not_overlap pm i j ni nj :
  reachable pm →
  0 ≤ p_mem (pool pm) → 0 ≤ total_size (pool pm) →
  p_mem (pool pm) + total_size (pool pm) < 2 ^ 64 →
  node_heap pm !! i = Some ni → node_heap pm !! j = Some nj → i ≠ j →
  used ni ≠ 0 → used nj ≠ 0 →
  p_mem (pool pm) ≤ a_mem (alloc_record ni) ∧
  a_mem (alloc_record ni) + a_size (alloc_record ni) ≤ p_mem (pool pm) + total_size (pool pm) ∧
  (a_mem (alloc_record ni) + a_size (alloc_record ni) ≤ a_mem (alloc_record nj) ∨
   a_mem (alloc_record nj) + a_size (alloc_record nj) ≤ a_mem (alloc_record ni)).
Proof. exact (blocks_disjoint pm i j ni nj). Qed.

Lemma blocks_do_not_overlap_witness :
  ∃ pm n1 n2,
    client [Alloc 10; Alloc 20; Free 0%nat] (new_pool_mgr 100 FIRST_FIT 4096) = Ret tt pm ∧
    node_heap pm !! 1%nat = Some n1 ∧ node_heap pm !! 2%nat = Some n2 ∧
    (a_mem (alloc_record n1) + a_size (alloc_record n1) ≤ a_mem (alloc_record n2) ∨
     a_mem (alloc_record n2) + a_size (alloc_record n2) ≤ a_mem (alloc_record n1)).
Proof.
  run_client Hc Hr [Alloc 10; Alloc 20; Free 0%nat] (new_pool_mgr 100 FIRST_FIT 4096).
  match type of Hr with reachable ?s =>
    exists s; do 2 eexists; split; [exact Hc|];
    split; [reflexivity|]; split; [reflexivity|];
    refine (proj2 (proj2 (blocks_do_not_overlap s 1 2 _ _ Hr _ _ _ eq_refl eq_refl _ _ _)));
    by_compute
  end.
Defined.

(** ** Allocation and release *)

(** X14: a call of [mem_new_alloc] on a reachable state that returns slot
    [s] found a free block of at least [size] bytes there and made it an
    allocation of exactly [size] bytes at the same address; every other
    block in use keeps its address, size and flags; [num_allocs] grows by
    one and [alloc_size] by [size] (as 32-bit and 64-bit numbers); buffer,
    policy and total size stay. *)
Theorem alloc_takes_a_free_block junk size pm s pm' :
  reachable pm → 0 ≤ size < 2 ^ 64 →
  mem_new_alloc junk size pm = Ret (Some s) pm' →
  (∃ n, node_heap pm !! s = Some n ∧ allocated n = 0 ∧ size ≤ a_size (alloc_record n) ∧
        ∃ n', node_heap pm' !! s = Some n' ∧ allocated n' = 1 ∧
              a_size (alloc_record n') = size ∧
              a_mem (alloc_record n') = a_mem (alloc_record n)) ∧
  (∀ j n, j ≠ s → node_heap pm !! j = Some n → used n ≠ 0 →
          ∃ n', node_heap pm' !! j = Some n' ∧ alloc_record n' = alloc_record n ∧
                allocated n' = allocated n ∧ used n' = used n) ∧
  num_allocs (pool pm') = u32 (num_allocs (pool pm) + 1) ∧
  alloc_size (pool pm') = u64 (alloc_size (pool pm) + size) ∧
  same_pool_consts (pool pm) (pool pm').
Proof. exact (alloc_result junk size pm s pm'). Qed.

Lemma alloc_takes_a_free_block_witness :
  ∃ pm pm',
    client [Alloc 10; Alloc 20; Free 0%nat] (new_pool_mgr 100 FIRST_FIT 4096) = Ret tt pm ∧
    mem_new_alloc None 5 pm = Ret (Some 0%nat) pm' ∧
    num_allocs (pool pm') = u32 (num_allocs (pool pm) + 1) ∧
    alloc_size (pool pm') = u64 (alloc_size (pool pm) + 5).
Proof.
  run_client Hc Hr [Alloc 10; Alloc 20; Free 0%nat] (new_pool_mgr 100 FIRST_FIT 4096).
  match type of Hr with reachable ?s =>
    eval_as Ha (mem_new_alloc None 5 s);
    match type of Ha with _ = Ret _ ?s' =>
      exists s, s'; split; [exact Hc|]; split; [exact Ha|];
      refine (let H := alloc_takes_a_free_block None 5 s 0 s' Hr _ Ha in
              conj (proj1 (proj2 (proj2 H))) (proj1 (proj2 (proj2 (proj2 H)))));
      lia
    end
  end.
Defined.

(** X15: a call of [mem_del_alloc] on a reachable state that returns
    [ALLOC_OK] after its search found slot [x] leaves every other allocated
    block with its address, size and flags; [num_allocs] falls by one and
    [alloc_size] by the size of the block of [x] (as 32-bit and 64-bit
    numbers); buffer, policy and total size stay. *)
Theorem free_keeps_other_allocations junk alloc pm pm' x :
  reachable pm →
  mem_del_alloc junk alloc pm = Ret ALLOC_OK pm' →
  del_target junk alloc pm = Ret (Some x) pm →
  (∀ j n, j ≠ x → node_heap pm !! j = Some n → allocated n ≠ 0 →
          ∃ n', node_heap pm' !! j = Some n' ∧ alloc_record n' = alloc_record n ∧
                allocated n' = allocated n ∧ used n' = used n) ∧
  num_allocs (pool pm') = u32 (num_allocs (pool pm) - 1) ∧
  alloc_size (pool pm')
  = u64 (alloc_size (pool pm) - a_size (alloc_record (nd (node_heap pm) x))) ∧
  same_pool_consts (pool pm) (pool pm').
Proof. exact (free_keeps_other_blocks junk alloc pm pm' x). Qed.

Lemma free_keeps_other_allocations_witness :
  ∃ pm pm',
    client [Alloc 10; Alloc 20; Alloc 30] (new_pool_mgr 100 FIRST_FIT 4096) = Ret tt pm ∧
    mem_del_alloc None (InHeap 1) pm = Ret ALLOC_OK pm' ∧
    num_allocs (pool pm') = u32 (num_allocs (pool pm) - 1) ∧
    alloc_size (pool pm')
    = u64 (alloc_size (pool pm) - a_size (alloc_record (nd (node_heap pm) 1))).
Proof.
  run_client Hc Hr [Alloc 10; Alloc 20; Alloc 30] (new_pool_mgr 100 FIRST_FIT 4096).
  match type of Hr with reachable ?s =>
    eval_as Hd (mem_del_alloc None (InHeap 1) s);
    match type of Hd with _ = Ret _ ?s' =>
      exists s, s'; split; [exact Hc|]; split; [exact Hd|];
      refine (let H := free_keeps_other_allocations None (InHeap 1) s s' 1 Hr Hd _ in
              conj (proj1 (proj2 H)) (proj1 (proj2 (proj2 H))));
      reflexivity
    end
  end.
Defined.

(** X16: on a reachable state, a call of [mem_new_alloc] that returns
    returns NULL exactly when the pool has no gap, or every node is in
    use, or the search of its policy finds no block; when it returns a
    node, that is the node the search found. *)
Theorem alloc_returns_null_iff_it_gives_up junk size pm p pm' :
  reachable pm → 0 ≤ size →
  mem_new_alloc junk size pm = Ret p pm' →
  (p = None ↔ gives_up size pm) ∧
  (∀ s, p = Some s → select_node size pm = Ret (Some s) pm).
Proof.
  intros Hr Hsz Ha.
  destruct (post_elim _ _ _ _ _ (alloc_view junk size pm (reachable_inv pm Hr) Hsz) Ha)
    as [_ H].
  destruct p as [s|].
  - destruct H as (Hg & Hu & Hsel & _). split.
    + split; [discriminate|]. intros [Hg'|[Hu'|Hn]]; [congruence|lia|congruence].
    + intros s' [= <-]. exact Hsel.
  - split; [|discriminate]. split; [intros _; apply H|reflexivity].
Qed.

Lemma alloc_returns_null_iff_it_gives_up_witness :
  ∃ pm pm',
    client [Alloc 10; Alloc 20; Free 0%nat] (new_pool_mgr 100 FIRST_FIT 4096) = Ret tt pm ∧
    mem_new_alloc None 71 pm = Ret None pm' ∧
    gives_up 71 pm.
Proof.
  run_client Hc Hr [Alloc 10; Alloc 20; Free 0%nat] (new_pool_mgr 100 FIRST_FIT 4096).
  match type of Hr with reachable ?s =>
    eval_as Ha (mem_new_alloc None 71 s);
    match type of Ha with _ = Ret _ ?s' =>
      exists s, s'; split; [exact Hc|]; split; [exact Ha|];
      refine (proj1 (proj1 (alloc_returns_null_iff_it_gives_up None 71 s None s' Hr _ Ha))
                    eq_refl);
      lia
    end
  end.
Defined.

(** X17: a call of [mem_del_alloc] on a reachable state that returns
    works on the slot its search found and, when the search found none,
    on what the local variable [node_to_delete], declared without an
    initialiser, held.  When that is NULL the call returns
    [ALLOC_NOT_FREED] and leaves the pool manager as it was; otherwise it
    returns [ALLOC_OK] for that slot [x], and the node heap is the old one
    with [x] marked free, merged with its successor when that one is free,
    and then merged into its predecessor when that one is free. *)
Theorem free_marks_and_merges junk alloc pm st pm' :
  reachable pm →
  mem_del_alloc junk alloc pm = Ret st pm' →
  (st = ALLOC_NOT_FREED ∧ pm' = pm ∧ del_target junk alloc pm = Ret None pm) ∨
  (st = ALLOC_OK ∧ ∃ x,
     del_target junk alloc pm = Ret (Some x) pm ∧
     (x < length (node_heap pm))%nat ∧
     length (node_heap pm') = length (node_heap pm) ∧
     ∀ j, nd (node_heap pm') j = del_v x (nd (node_heap pm)) j).
Proof.
  intros Hr Hd. pose proof (reachable_inv pm Hr) as HI.
  destruct (post_elim _ _ _ _ _ (del_view junk alloc pm HI) Hd) as [HI' [H|[-> (x & Ht & Hx & Hv & _)]]].
  - left. exact H.
  - right. split; [reflexivity|]. exists x. repeat split; try assumption.
    rewrite (inv_len _ HI), (inv_len _ HI'). reflexivity.
Qed.

Lemma free_marks_and_merges_witness :
  ∃ pm pm',
    client [Alloc 10; Alloc 20; Alloc 30; Free 0%nat] (new_pool_mgr 100 FIRST_FIT 4096)
      = Ret tt pm ∧
    mem_del_alloc None (InHeap 1) pm = Ret ALLOC_OK pm' ∧
    ∃ x, del_target None (InHeap 1) pm = Ret (Some x) pm ∧
         ∀ j, nd (node_heap pm') j = del_v x (nd (node_heap pm)) j.
Proof.
  run_client Hc Hr [Alloc 10; Alloc 20; Alloc 30; Free 0%nat] (new_pool_mgr 100 FIRST_FIT 4096).
  match type of Hr with reachable ?s =>
    eval_as Hd (mem_del_alloc None (InHeap 1) s);
    match type of Hd with _ = Ret _ ?s' =>
      exists s, s'; split; [exact Hc|]; split; [exact Hd|];
      destruct (free_marks_and_merges None (InHeap 1) s ALLOC_OK s' Hr Hd)
        as [[H _]|[_ (x & Ht & _ & _ & Hv)]];
      [discriminate H|exists x; split; [exact Ht|exact Hv]]
    end
  end.
Defined.

(** X18: a call of [mem_new_alloc] on a reachable state that returns slot
    [s] leaves the node heap as the old one with [s] allocated with [size]
    bytes and, when bytes remain, the first slot out of use linked in after
    [s] as a free block of the remaining bytes that starts [size] bytes
    after [s]. *)
Theorem alloc_splits_the_block junk size pm s pm' :
  reachable pm → 0 ≤ size →
  mem_new_alloc junk size pm = Ret (Some s) pm' →
  length (node_heap pm') = length (node_heap pm) ∧
  ∃ u,
    (u64 (a_size (alloc_record (nd (node_heap pm) s)) - size) ≠ 0 →
     first_unused (nd (node_heap pm)) u) ∧
    ∀ j, nd (node_heap pm') j = alloc_v size s u (nd (node_heap pm)) j.
Proof.
  intros Hr Hsz Ha. pose proof (reachable_inv pm Hr) as HI.
  destruct (post_elim _ _ _ _ _ (alloc_view junk size pm HI Hsz) Ha)
    as [HI' (_ & _ & _ & _ & _ & _ & u & Hu & Hv & _)].
  split; [rewrite (inv_len _ HI), (inv_len _ HI'); reflexivity|].
  exists u. split; [|exact Hv]. intros Hrem. apply (Hu Hrem).
Qed.

Lemma alloc_splits_the_block_witness :
  ∃ pm pm',
    client [Alloc 10; Alloc 20; Free 0%nat] (new_pool_mgr 100 FIRST_FIT 4096) = Ret tt pm ∧
    mem_new_alloc None 5 pm = Ret (Some 0%nat) pm' ∧
    ∃ u, ∀ j, nd (node_heap pm') j = alloc_v 5 0 u (nd (node_heap pm)) j.
Proof.
  run_client Hc Hr [Alloc 10; Alloc 20; Free 0%nat] (new_pool_mgr 100 FIRST_FIT 4096).
  match type of Hr with reachable ?s =>
    eval_as Ha (mem_new_alloc None 5 s);
    match type of Ha with _ = Ret _ ?s' =>
      exists s, s'; split; [exact Hc|]; split; [exact Ha|];
      assert (H0 : 0 ≤ 5) by lia;
      destruct (alloc_splits_the_block None 5 s 0 s' Hr H0 Ha) as [_ (u & _ & Hv)];
      exists u; exact Hv
    end
  end.
Defined.

(** ** Inspection *)

(** X19: on a reachable state of a pool whose buffer address and size are
    64-bit values, [mem_inspect_pool] (when its array can be allocated)
    leaves the pool manager as it is and reports [used_nodes] segments: the
    size and the flag [allocated] of every block, in the order of the
    list, each block once.  The sizes reported add up to [total_size], and
    no two segments next to each other are both free. *)
Theorem inspect_reports_every_block_once pm :
  reachable pm →
  0 ≤ p_mem (pool pm) < 2 ^ 64 → 0 ≤ total_size (pool pm) < 2 ^ 64 →
  ∃ segs,
    mem_inspect_pool true pm = Ret (Some (segs, used_nodes pm)) pm ∧
    segs = segment_of <$> blocks pm ∧
    Z.of_nat (length segs) = used_nodes pm ∧
    sum_list (s_size <$> segs) = total_size (pool pm) ∧
    ∀ k a b, segs !! k = Some a → segs !! S k = Some b →
             ¬ (s_allocated a = 0 ∧ s_allocated b = 0).
Proof.
  intros Hr Hbuf Htot. exists (segment_of <$> blocks pm).
  destruct (blocks_partition pm Hr Hbuf Htot) as (_ & _ & _ & Hsum & Hlen).
  split; [apply (inspect_blocks pm Hr Hbuf Htot)|].
  split; [reflexivity|].
  split; [rewrite length_fmap; exact Hlen|].
  split.
  - rewrite <- list_fmap_compose. exact Hsum.
  - intros k a b Ha Hb.
    rewrite list_lookup_fmap in Ha. rewrite list_lookup_fmap in Hb.
    destruct (blocks pm !! k) as [na|] eqn:Ea; [|discriminate].
    destruct (blocks pm !! S k) as [nb|] eqn:Eb; [|discriminate].
    injection Ha as <-. injection Hb as <-.
    apply (blocks_no_adjacent_free pm k na nb Hr Ea Eb).
Qed.

Lemma inspect_reports_every_block_once_witness :
  ∃ pm,
    client [Alloc 10; Alloc 20; Free 0%nat] (new_pool_mgr 100 FIRST_FIT 4096) = Ret tt pm ∧
    ∃ segs,
      mem_inspect_pool true pm = Ret (Some (segs, 3)) pm ∧
      segs = [mk_segment 10 0; mk_segment 20 1; mk_segment 70 0] ∧
      sum_list (s_size <$> segs) = total_size (pool pm).
Proof.
  run_client Hc Hr [Alloc 10; Alloc 20; Free 0%nat] (new_pool_mgr 100 FIRST_FIT 4096).
  match type of Hr with reachable ?s =>
    exists s; split; [exact Hc|];
    assert (Hb : 0 ≤ p_mem (pool s) < 2 ^ 64) by by_compute;
    assert (Ht : 0 ≤ total_size (pool s) < 2 ^ 64) by by_compute;
    destruct (inspect_reports_every_block_once s Hr Hb Ht) as (segs & Hi & Hs & _ & Hsum & _);
    exists segs; split; [exact Hi|]; split; [exact Hs|exact Hsum]
  end.
Defined.

(** ** Clients that keep to the rules *)

(** X20: in a pool opened on a non-empty buffer below the top of the
    address space, whose client asks for at least one byte at a time and
    releases only live allocations, [alloc_size] is the number of bytes in
    live allocations and [num_allocs] their number, without wrap-around,
    and the free blocks hold the other [total_size - alloc_size] bytes. *)
Theorem disciplined_client_accounts_exactly pm :
  disciplined pm →
  alloc_size (pool pm) = live_bytes pm ∧
  num_allocs (pool pm) = live_count pm ∧
  free_bytes pm + alloc_size (pool pm) = total_size (pool pm) ∧
  0 ≤ alloc_size (pool pm) ≤ total_size (pool pm) ∧
  0 ≤ num_allocs (pool pm) ≤ 40.
Proof.
  intros Hd. pose proof (disciplined_books pm Hd) as Hk.
  pose proof (books_balance pm Hk) as Hbal.
  split; [apply (kb_bytes _ Hk)|]. split; [apply (kb_count _ Hk)|]. split; [exact Hbal|].
  destruct Hk as [Hr Hb Ht He Hty Hby Hc].
  split.
  - rewrite Hby. apply (live_bytes_range pm Hr); [lia|lia|exact Hty].
  - rewrite Hc. pose proof (live_count_range pm) as H.
    rewrite (inv_len _ (reachable_inv pm Hr)) in H. lia.
Qed.

Lemma disciplined_client_accounts_exactly_witness :
  ∃ pm,
    client [Alloc 10; Alloc 20; Free 0%nat] (new_pool_mgr 100 FIRST_FIT 4096) = Ret tt pm ∧
    alloc_size (pool pm) = 20 ∧ num_allocs (pool pm) = 1 ∧
    free_bytes pm + alloc_size (pool pm) = total_size (pool pm).
Proof.
  assert (H0 : disciplined (new_pool_mgr 100 FIRST_FIT 4096))
    by (apply (dis_open 100 FIRST_FIT 4096); by_compute).
  eval_as H1 (mem_new_alloc None 10 (new_pool_mgr 100 FIRST_FIT 4096)).
  match type of H1 with _ = Ret _ ?s1 =>
    assert (D1 : disciplined s1) by (eapply dis_alloc; [exact H0| |exact H1]; lia);
    eval_as H2 (mem_new_alloc None 20 s1);
    match type of H2 with _ = Ret _ ?s2 =>
      assert (D2 : disciplined s2) by (eapply dis_alloc; [exact D1| |exact H2]; lia);
      eval_as H3 (mem_del_alloc None (InHeap 0) s2);
      match type of H3 with _ = Ret _ ?s3 =>
        assert (D3 : disciplined s3)
          by (eapply (dis_free _ 0%nat _ _ _ _ D2); [reflexivity|reflexivity|exact H3]);
        exists s3; split; [reflexivity|];
        split; [reflexivity|]; split; [reflexivity|];
        exact (proj1 (proj2 (proj2 (disciplined_client_accounts_exactly s3 D3))))
      end
    end
  end.
Defined.

(** X21: when such a client releases a live allocation through its handle,
    [mem_del_alloc] returns [ALLOC_OK], [alloc_size] falls by exactly the
    size of the allocation and [num_allocs] by one, and the slot is no
    longer a live allocation. *)
Theorem disciplined_free_succeeds junk i n pm st pm' :
  disciplined pm → node_heap pm !! i = Some n → is_live n = true →
  mem_del_alloc junk (InHeap i) pm = Ret st pm' →
  st = ALLOC_OK ∧
  alloc_size (pool pm') = alloc_size (pool pm) - a_size (alloc_record n) ∧
  num_allocs (pool pm') = num_allocs (pool pm) - 1 ∧
  is_live (nd (node_heap pm') i) = false.
Proof.
  intros Hd Hi Hl Hdel.
  apply (free_books junk i n pm st pm' (disciplined_books pm Hd) Hi Hl Hdel).
Qed.

Lemma disciplined_free_succeeds_witness :
  ∃ pm pm' st,
    mem_new_alloc None 10 (new_pool_mgr 100 FIRST_FIT 4096) = Ret (Some 0%nat) pm ∧
    mem_del_alloc None (InHeap 0) pm = Ret st pm' ∧
    st = ALLOC_OK ∧ alloc_size (pool pm') = alloc_size (pool pm) - 10.
Proof.
  assert (H0 : disciplined (new_pool_mgr 100 FIRST_FIT 4096))
    by (apply (dis_open 100 FIRST_FIT 4096); by_compute).
  eval_as H1 (mem_new_alloc None 10 (new_pool_mgr 100 FIRST_FIT 4096)).
  match type of H1 with _ = Ret _ ?s1 =>
    assert (D1 : disciplined s1) by (eapply dis_alloc; [exact H0| |exact H1]; lia);
    eval_as H2 (mem_del_alloc None (InHeap 0) s1);
    match type of H2 with _ = Ret ?st ?s2 =>
      exists s1, s2, st; split; [exact H1|]; split; [exact H2|];
      refine (let H := disciplined_free_succeeds None 0 _ s1 st s2 D1 eq_refl eq_refl H2 in
              conj (proj1 H) (proj1 (proj2 H)))
    end
  end.
Defined.

(** X22: when such a client asks for [size > 0] bytes and [mem_new_alloc]
    returns slot [s], [alloc_size] grows by exactly [size] and [num_allocs]
    by one, the slot is a live allocation of [size] bytes that lies inside
    the buffer, and it overlaps no other block in use. *)
Theorem disciplined_alloc_is_exact junk size pm s pm' :
  disciplined pm → 0 < size < 2 ^ 64 →
  mem_new_alloc junk size pm = Ret (Some s) pm' →
  alloc_size (pool pm') = alloc_size (pool pm) + size ∧
  num_allocs (pool pm') = num_allocs (pool pm) + 1 ∧
  ∃ n, node_heap pm' !! s = Some n ∧ is_live n = true ∧
       a_size (alloc_record n) = size ∧
       p_mem (pool pm') ≤ a_mem (alloc_record n) ∧
       a_mem (alloc_record n) + size ≤ p_mem (pool pm') + total_size (pool pm') ∧
       ∀ j m, j ≠ s → node_heap pm' !! j = Some m → used m ≠ 0 →
              a_mem (alloc_record n) + size ≤ a_mem (alloc_record m) ∨
              a_mem (alloc_record m) + a_size (alloc_record m) ≤ a_mem (alloc_record n).
Proof.
  intros Hd Hsz Ha. pose proof (disciplined_books pm Hd) as Hk.
  destruct (alloc_books junk size pm (Some s) pm' Hk Hsz Ha) as [Hk' H].
  destruct (H s eq_refl) as (Hb & Hc & Hl).
  split; [exact Hb|]. split; [exact Hc|].
  destruct (alloc_result junk size pm s pm' (kb_reach _ Hk) ltac:(lia) Ha)
    as ((n0 & _ & _ & _ & n & Hn & _ & Hsize & _) & _).
  exists n. split; [exact Hn|].
  assert (Hnd : nd (node_heap pm') s = n) by (unfold nd; rewrite Hn; reflexivity).
  rewrite Hnd in Hl. split; [exact Hl|]. split; [exact Hsize|].
  apply is_live_spec in Hl as [Hu _].
  destruct Hk' as [Hr' Hb' Ht' He' _ _ _].
  destruct (block_address pm' s n Hr' ltac:(lia) ltac:(lia) He' Hn Hu) as [A1 A2].
  rewrite Hsize in A2. split; [exact A1|]. split; [exact A2|].
  intros j m Hj Hm Hum.
  destruct (blocks_disjoint pm' s j n m Hr' ltac:(lia) ltac:(lia) He' Hn Hm
              ltac:(congruence) Hu Hum) as (_ & _ & Hdis).
  rewrite Hsize in Hdis. exact Hdis.
Qed.

Lemma disciplined_alloc_is_exact_witness :
  ∃ pm pm',
    mem_new_alloc None 10 (new_pool_mgr 100 FIRST_FIT 4096) = Ret (Some 0%nat) pm ∧
    mem_new_alloc None 20 pm = Ret (Some 1%nat) pm' ∧
    alloc_size (pool pm') = alloc_size (pool pm) + 20 ∧
    num_allocs (pool pm') = num_allocs (pool pm) + 1.
Proof.
  assert (H0 : disciplined (new_pool_mgr 100 FIRST_FIT 4096))
    by (apply (dis_open 100 FIRST_FIT 4096); by_compute).
  eval_as H1 (mem_new_alloc None 10 (new_pool_mgr 100 FIRST_FIT 4096)).
  match type of H1 with _ = Ret _ ?s1 =>
    assert (D1 : disciplined s1) by (eapply dis_alloc; [exact H0| |exact H1]; lia);
    eval_as H2 (mem_new_alloc None 20 s1);
    match type of H2 with _ = Ret _ ?s2 =>
      exists s1, s2; split; [exact H1|]; split; [exact H2|];
      assert (Hs : 0 < 20 < 2 ^ 64) by lia;
      destruct (disciplined_alloc_is_exact None 20 s1 1 s2 D1 Hs H2) as (Hb & Hc & _);
      split; [exact Hb|exact Hc]
    end
  end.
Defined.

(** ** What the allocator never does, and what it cannot do *)

(** X23: [mem_new_alloc] declares [unused_node] without an initialiser; on
    a reachable state the call does not depend on what the variable held:
    whenever the remainder of a block needs a node, the search finds one. *)
Theorem alloc_never_uses_uninitialised_node junk junk' size pm :
  reachable pm → mem_new_alloc junk size pm = mem_new_alloc junk' size pm.
Proof. intros Hr. apply alloc_ignores_junk, reachable_inv, Hr. Qed.

Lemma alloc_never_uses_uninitialised_node_witness :
  mem_new_alloc None 10 (new_pool_mgr 100 FIRST_FIT 4096)
  = mem_new_alloc (Some 7%nat) 10 (new_pool_mgr 100 FIRST_FIT 4096).
Proof.
  apply alloc_never_uses_uninitialised_node.
  apply (reach_open 100 FIRST_FIT 4096). reflexivity.
Defined.

(** X24: every call of [mem_new_alloc] that returns a block takes one from
    the recorded capacity of the gap index, and no call gives it back: a
    pool hands out at most 40 blocks between [mem_pool_open] and
    [mem_pool_close], whatever is released in between. *)
Theorem pool_serves_at_most_40_blocks k pm :
  served k pm →
  (k ≤ 40)%nat ∧ 0 ≤ gap_ix_capacity pm ≤ 40 - Z.of_nat k ∧
  length (gap_ix pm) = 40%nat.
Proof.
  intros Hs. destruct (served_cap k pm Hs) as [[Hlen Hcap] Hk].
  split; [lia|]. split; [lia|exact Hlen].
Qed.

Lemma pool_serves_at_most_40_blocks_witness :
  ∃ pm,
    mem_new_alloc None 10 (new_pool_mgr 100 FIRST_FIT 4096) = Ret (Some 0%nat) pm ∧
    0 ≤ gap_ix_capacity pm ≤ 40 - Z.of_nat 1.
Proof.
  eval_as Ha (mem_new_alloc None 10 (new_pool_mgr 100 FIRST_FIT 4096)).
  match type of Ha with _ = Ret _ ?s =>
    exists s; split; [exact Ha|];
    refine (proj1 (proj2 (pool_serves_at_most_40_blocks 1 s _)));
    eapply sv_alloc; [apply (sv_open 100 FIRST_FIT 4096); reflexivity| |exact Ha]; lia
  end.
Defined.

(** X25: in a pool whose client asks for at least one byte at a time and
    releases only live allocations, the first [num_gaps] entries of the gap
    index list the free blocks of the node heap: no node twice, one entry
    for every free block, with the size of the block, and nothing else;
    [num_gaps] is their number. *)
Theorem disciplined_gap_index_lists_free_blocks pm :
  disciplined pm →
  NoDup (g_node <$> live_gaps pm) ∧
  (∀ g, g ∈ live_gaps pm ↔
        ∃ i n, node_heap pm !! i = Some n ∧ is_gap_node n = true ∧
               g = mk_gap (a_size (alloc_record n)) (Some i)) ∧
  num_gaps (pool pm) = Z.of_nat (length (live_gaps pm)) ∧
  (num_gaps (pool pm) ≤ gap_ix_capacity pm ≤ 40 ∨
   (gap_ix_capacity pm = 0 ∧ num_gaps (pool pm) = 1)).
Proof. intros Hd. apply index_lists, disciplined_index, Hd. Qed.

Lemma disciplined_gap_index_lists_free_blocks_witness :
  ∃ pm,
    client [Alloc 10; Alloc 20; Free 0%nat] (new_pool_mgr 100 BEST_FIT 4096) = Ret tt pm ∧
    live_gaps pm = [mk_gap 10 (Some 0%nat); mk_gap 70 (Some 2%nat)] ∧
    NoDup (g_node <$> live_gaps pm).
Proof.
  assert (H0 : disciplined (new_pool_mgr 100 BEST_FIT 4096))
    by (apply (dis_open 100 BEST_FIT 4096); by_compute).
  eval_as H1 (mem_new_alloc None 10 (new_pool_mgr 100 BEST_FIT 4096)).
  match type of H1 with _ = Ret _ ?s1 =>
    assert (D1 : disciplined s1) by (eapply dis_alloc; [exact H0| |exact H1]; lia);
    eval_as H2 (mem_new_alloc None 20 s1);
    match type of H2 with _ = Ret _ ?s2 =>
      assert (D2 : disciplined s2) by (eapply dis_alloc; [exact D1| |exact H2]; lia);
      eval_as H3 (mem_del_alloc None (InHeap 0) s2);
      match type of H3 with _ = Ret _ ?s3 =>
        assert (D3 : disciplined s3)
          by (eapply (dis_free _ 0%nat _ _ _ _ D2); [reflexivity|reflexivity|exact H3]);
        exists s3; split; [reflexivity|]; split; [reflexivity|];
        exact (proj1 (disciplined_gap_index_lists_free_blocks s3 D3))
      end
    end
  end.
Defined.

(** X26: for such a client, with either policy, [mem_new_alloc] returns
    NULL only when all 40 nodes are in use or no free block has [size]
    bytes. *)
Theorem disciplined_alloc_fails_only_without_room junk size pm pm' :
  disciplined pm → 0 < size < 2 ^ 64 →
  mem_new_alloc junk size pm = Ret None pm' →
  used_nodes pm = 40 ∨
  ∀ i n, node_heap pm !! i = Some n → is_gap_node n = true →
         a_size (alloc_record n) < size.
Proof.
  intros Hd Hsz Ha. pose proof (disciplined_books pm Hd) as Hk.
  apply (null_no_room junk size pm pm' (reachable_inv _ (kb_reach _ Hk))
           (disciplined_index pm Hd) (proj1 Hsz) Ha).
Qed.

Lemma disciplined_alloc_fails_only_without_room_witness :
  ∃ pm',
    mem_new_alloc None 200 (new_pool_mgr 100 BEST_FIT 4096) = Ret None pm' ∧
    (used_nodes (new_pool_mgr 100 BEST_FIT 4096) = 40 ∨
     ∀ i n, node_heap (new_pool_mgr 100 BEST_FIT 4096) !! i = Some n →
            is_gap_node n = true → a_size (alloc_record n) < 200).
Proof.
  assert (H0 : disciplined (new_pool_mgr 100 BEST_FIT 4096))
    by (apply (dis_open 100 BEST_FIT 4096); by_compute).
  eval_as Ha (mem_new_alloc None 200 (new_pool_mgr 100 BEST_FIT 4096)).
  match type of Ha with _ = Ret _ ?s =>
    exists s; split; [exact Ha|];
    assert (Hs : 0 < 200 < 2 ^ 64) by lia;
    exact (disciplined_alloc_fails_only_without_room None 200 _ s H0 Hs Ha)
  end.
Defined.
